(** * sqrt_newton.c: Heron's iteration on IEEE-754 binary64

    A shallow embedding of [src/sqrt_newton.c] and the properties its
    specification states about it.

    The C type [double] is modelled by the Standard Library's executable
    specification of IEEE-754 arithmetic ([SpecFloat]) instantiated at
    binary64: 53 bits of precision, exponent bound 1024, rounding to nearest
    with ties to even.  Every C operator of the source ([+ - * /] and the
    comparisons) is the corresponding [SpecFloat] operation, so the model
    computes, bit for bit, what the program computes.

    [SpecFloat] has a single NaN, without sign or payload, and its
    operations return values only.  What a run executes besides the
    values it computes (the operations in order, the exceptions of IEEE
    754 they signal, the calls) is recorded by a second evaluation of the
    kernel, [sqrt_newton_events].

    The sentences of the specification are phrased over the rationals
    ([B2Q]), where they can be evaluated.  Those that hold for all inputs
    are proved over the reals ([B2R]): the operations are shown to round
    correctly, and the error of a step of the iteration is bounded from
    there. *)

From Stdlib Require Import ZArith QArith Qabs Qpower Qreals Bool List Lia.
From Stdlib Require Import Reals Psatz.
From Stdlib Require Import SpecFloat.
Import ListNotations.

Local Open Scope Z_scope.

(** ** binary64 arithmetic *)

Definition prec : Z := 53.
Definition emax : Z := 1024.

Definition binary64 : Type := spec_float.

Definition b64_add : binary64 -> binary64 -> binary64 := SFadd prec emax.
Definition b64_sub : binary64 -> binary64 -> binary64 := SFsub prec emax.
Definition b64_mul : binary64 -> binary64 -> binary64 := SFmul prec emax.
Definition b64_div : binary64 -> binary64 -> binary64 := SFdiv prec emax.

(** The C comparisons; each is false as soon as an operand is NaN, except
    [!=] which is then true. *)
Definition b64_lt (x y : binary64) : bool := SFltb x y.
Definition b64_le (x y : binary64) : bool := SFleb x y.
Definition b64_ge (x y : binary64) : bool := SFleb y x.
Definition b64_eq (x y : binary64) : bool := SFeqb x y.
Definition b64_ne (x y : binary64) : bool := negb (SFeqb x y).

Declare Scope b64_scope.
Delimit Scope b64_scope with b64.
Bind Scope b64_scope with binary64.
Notation "x + y" := (b64_add x y) : b64_scope.
Notation "x - y" := (b64_sub x y) : b64_scope.
Notation "x * y" := (b64_mul x y) : b64_scope.
Notation "x / y" := (b64_div x y) : b64_scope.
Notation "x <? y" := (b64_lt x y) : b64_scope.
Notation "x <=? y" := (b64_le x y) : b64_scope.
Notation "x >=? y" := (b64_ge x y) (at level 70) : b64_scope.
Notation "x =? y" := (b64_eq x y) : b64_scope.
Notation "x !=? y" := (b64_ne x y) (at level 70) : b64_scope.

(** A value of the format: the mantissa is canonical and the exponent in
    range.  Zeros, infinities and NaN are always values of the format. *)
Definition is_binary64 (x : binary64) : bool := valid_binary prec emax x.

Definition is_finite (x : binary64) : bool :=
  match x with
  | S754_zero _ | S754_finite _ _ _ => true
  | _ => false
  end.

(** Positive and finite: [+m * 2^e] with [m > 0]. *)
Definition is_pos_finite (x : binary64) : bool :=
  match x with
  | S754_finite false _ _ => true
  | _ => false
  end.

(** The literals of the source.  Each is given by its bits (mantissa and
    exponent); the lemmas [lit_*] below relate them to the decimal text. *)
Definition c_zero : binary64 := S754_zero false.                          (* 0.0 *)
Definition c_half : binary64 := S754_finite false 4503599627370496 (-53). (* 0.5 *)
Definition c_one  : binary64 := S754_finite false 4503599627370496 (-52). (* 1.0 *)

(** ** The kernel and its helpers, from the source *)

(** [static double abs_double(double x) { return (x < 0.0) ? (0.0 - x) : x; }] *)
Definition abs_double (x : binary64) : binary64 :=
  if (x <? c_zero)%b64 then (c_zero - x)%b64 else x.

(** [static int is_nan(double x) { return x != x; }] *)
Definition is_nan (x : binary64) : bool := (x !=? x)%b64.

(** The body of the [for] loop, run for the iterations that remain:
    [iters_left] is [max_iters - i].  The counter [i] runs from [0] while
    [i < max_iters], so it never overflows. *)
Fixpoint newton_loop (a eps : binary64) (iters_left : nat) (x : binary64)
  : binary64 :=
  match iters_left with
  | O => x
  | S k =>
      let x_next := (c_half * (x + (a / x)))%b64 in
      let diff := abs_double (x_next - x)%b64 in
      let tol := (eps * (c_one + abs_double x_next))%b64 in
      if (diff <=? tol)%b64 then x_next
      else newton_loop a eps k x_next
  end.

(** [static double sqrt_newton(double a, double eps, int max_iters)] *)
Definition sqrt_newton (a eps : binary64) (max_iters : Z) : binary64 :=
  if (a <? c_zero)%b64 then
    let z := c_zero in (z / z)%b64
  else if (a =? c_zero)%b64 then c_zero
  else
    let x := if (a >=? c_one)%b64 then a else c_one in
    newton_loop a eps (Z.to_nat max_iters) x.

(** ** The driver, from the source *)

Definition lit_2     : binary64 := S754_finite false 4503599627370496 (-51). (* 2.0 *)
Definition lit_9     : binary64 := S754_finite false 5066549580791808 (-49). (* 9.0 *)
Definition lit_0_25  : binary64 := S754_finite false 4503599627370496 (-54). (* 0.25 *)
Definition lit_1em12 : binary64 := S754_finite false 4951760157141521 (-92). (* 1e-12 *)
Definition lit_1e12  : binary64 := S754_finite false 8192000000000000 (-13). (* 1e12 *)
Definition lit_m4    : binary64 := S754_finite true 4503599627370496 (-50).  (* -4.0 *)

(** [double tests[] = {0.0, 2.0, 9.0, 0.25, 1e-12, 1e12, -4.0};] *)
Definition tests : list binary64 :=
  [c_zero; lit_2; lit_9; lit_0_25; lit_1em12; lit_1e12; lit_m4].

(** [const double eps = 1e-12; const int max_iters = 100;] *)
Definition eps : binary64 := lit_1em12.
Definition max_iters : Z := 100.

(** What [main] hands to [printf] for one input: either the NaN line, or the
    input, the root and the check [r * r]. *)
Inductive line : Type :=
| NotReal (a : binary64)
| Root (a r check : binary64).

Definition main_line (a : binary64) : line :=
  let r := sqrt_newton a eps max_iters in
  if is_nan r then NotReal a else Root a r (r * r)%b64.

Definition main : list line := map main_line tests.

(** ** The iteration as the specification words it

    The specification describes the kernel by a sequence [x_0, x_1, ...]
    and a stopping test on consecutive members.  These definitions follow
    its words; the theorems below compare them with [sqrt_newton]. *)

(** Initial guess: [x_0 = a] if [a >= 1], else [x_0 = 1]. *)
Definition initial_guess (a : binary64) : binary64 :=
  if (a >=? c_one)%b64 then a else c_one.

(** Iteration step: [x_{n+1} = 0.5 * (x_n + a / x_n)]. *)
Definition heron (a x : binary64) : binary64 :=
  (c_half * (x + (a / x)))%b64.

(** Stopping criterion: [d <= tol] with [d = |x_{n+1} - x_n|] and
    [tol = eps * (1 + |x_{n+1}|)]. *)
Definition stop_diff (x x_next : binary64) : binary64 :=
  abs_double (x_next - x)%b64.

Definition stop_tol (eps x_next : binary64) : binary64 :=
  (eps * (c_one + abs_double x_next))%b64.

Definition stop_test (eps x x_next : binary64) : bool :=
  (stop_diff x x_next <=? stop_tol eps x_next)%b64.

Fixpoint iterate (a : binary64) (n : nat) : binary64 :=
  match n with
  | O => initial_guess a
  | S k => heron a (iterate a k)
  end.

(** The test made in step [n], on [x_n] and [x_{n+1}]. *)
Definition stops (a eps : binary64) (n : nat) : bool :=
  stop_test eps (iterate a n) (iterate a (S n)).

(** Step [n] is entered (with [x = x_n]) when no earlier step stopped. *)
Definition enters (a eps : binary64) (n : nat) : Prop :=
  forall m, (m < n)%nat -> stops a eps m = false.

(** Does the loop, run for [iters_left] iterations from [x], return through
    the stop test?  The loop of [newton_loop], recording the exit taken. *)
Fixpoint loop_stops (a eps : binary64) (iters_left : nat) (x : binary64)
  : bool :=
  match iters_left with
  | O => false
  | S k =>
      let x_next := (c_half * (x + (a / x)))%b64 in
      let diff := abs_double (x_next - x)%b64 in
      let tol := (eps * (c_one + abs_double x_next))%b64 in
      if (diff <=? tol)%b64 then true
      else loop_stops a eps k x_next
  end.

(** The test triggers within [bound] iterations from the initial guess. *)
Definition stops_within (a eps : binary64) (bound : nat) : bool :=
  loop_stops a eps bound (initial_guess a).

(** ** Divisors

    The estimates [x] by which the loop divides [a], in order: the loop of
    [newton_loop], recording [x] each time [a / x] is evaluated. *)
Fixpoint loop_divisors (a eps : binary64) (iters_left : nat) (x : binary64)
  : list binary64 :=
  match iters_left with
  | O => []
  | S k =>
      let x_next := (c_half * (x + (a / x)))%b64 in
      let diff := abs_double (x_next - x)%b64 in
      let tol := (eps * (c_one + abs_double x_next))%b64 in
      x :: (if (diff <=? tol)%b64 then []
            else loop_divisors a eps k x_next)
  end.

Definition divisors (a eps : binary64) (max_iters : Z) : list binary64 :=
  if (a <? c_zero)%b64 then []
  else if (a =? c_zero)%b64 then []
  else
    let x := if (a >=? c_one)%b64 then a else c_one in
    loop_divisors a eps (Z.to_nat max_iters) x.

(** ** Exact values

    A finite binary64 value [(s, m, e)] is the rational [(-1)^s * m * 2^e].
    Statements about the true square root are made on these rationals:
    for [x >= 0], [x >= sqrt a] is [a <= x * x]. *)

Definition pow2 (e : Z) : Q := (2 # 1) ^ e.

Definition B2Q (x : binary64) : Q :=
  match x with
  | S754_finite s m e => inject_Z (cond_Zopp s (Zpos m)) * pow2 e
  | _ => 0
  end.

(** Unit in the last place of a value of the format: the spacing between
    [m * 2^e] and the next value of larger magnitude, [2^e]. *)
Definition ulp (x : binary64) : Q :=
  match x with
  | S754_finite _ _ e => pow2 e
  | _ => pow2 (3 - emax - prec)
  end.

(** [x >= sqrt a], for finite [x] and [a]. *)
Definition above_sqrt (a x : binary64) : Prop :=
  (0 <= B2Q x /\ B2Q a <= B2Q x * B2Q x)%Q.

(** [x < sqrt a], for finite [x] and [a]. *)
Definition below_sqrt (a x : binary64) : Prop :=
  (0 <= B2Q x /\ B2Q x * B2Q x < B2Q a)%Q.

(** [|r * r - a| <= k * ulp a], in exact arithmetic, for a finite [r]. *)
Definition square_within (k : Z) (a r : binary64) : Prop :=
  is_finite r = true /\
  (Qabs (B2Q r * B2Q r - B2Q a) <= inject_Z k * ulp a)%Q.

(** [|r - v| <= k * ulp r]: [r] is within [k] units in the last place of
    the real [v]. *)
Definition within_ulps (k : Z) (r : binary64) (v : Q) : Prop :=
  is_finite r = true /\ (Qabs (B2Q r - v) <= inject_Z k * ulp r)%Q.

(** [x] is a binary64 value nearest to the real [v]. *)
Definition nearest (x : binary64) (v : Q) : Prop :=
  is_binary64 x = true /\ is_finite x = true /\
  (Qabs (B2Q x - v) <= ulp x / 2)%Q.

(** [x >= (1 - 2^-52) * sqrt a], for finite [x] and [a]: [x] is above the
    root up to one rounding. *)
Definition nearly_above_sqrt (a x : binary64) : Prop :=
  (0 <= B2Q x /\
   (1 - pow2 (-52)) * (1 - pow2 (-52)) * B2Q a <= B2Q x * B2Q x)%Q.


(** Decidable forms of the exact comparisons, for evaluation. *)
Definition above_sqrt_b (a x : binary64) : bool :=
  Qle_bool 0 (B2Q x) && Qle_bool (B2Q a) (B2Q x * B2Q x).

Definition square_within_b (k : Z) (a r : binary64) : bool :=
  is_finite r &&
  Qle_bool (Qabs (B2Q r * B2Q r - B2Q a)) (inject_Z k * ulp a).

Definition within_ulps_b (k : Z) (r : binary64) (v : Q) : bool :=
  is_finite r && Qle_bool (Qabs (B2Q r - v)) (inject_Z k * ulp r).

Definition nearest_b (x : binary64) (v : Q) : bool :=
  is_binary64 x && is_finite x && Qle_bool (Qabs (B2Q x - v)) (ulp x / 2).

(** ** Where the leading bit of an estimate is

    [lead_ge k x]: [x] is [+inf], or positive and finite with
    [digits m + e >= k], that is [x >= 2^(k-1)]. *)
Definition lead_ge (k : Z) (x : binary64) : bool :=
  match x with
  | S754_infinity false => true
  | S754_finite false m e => k <=? Zpos (digits2_pos m) + e
  | _ => false
  end.

(** [x] is [+0], positive finite or [+inf]. *)
Definition nonneg (x : binary64) : bool :=
  match x with
  | S754_zero false | S754_infinity false | S754_finite false _ _ => true
  | _ => false
  end.

(** No estimate of the loop falls below [2^-540]. *)
Definition least_lead : Z := -539.

(** ** Further values used in the statements *)

(** The expected results of the specification's table, and what the
    program returns instead where it differs. *)
Definition lit_3     : binary64 := S754_finite false 6755399441055744 (-51). (* 3.0 *)
Definition lit_5     : binary64 := S754_finite false 5629499534213120 (-50). (* 5.0 *)
Definition lit_1e6   : binary64 := S754_finite false 8589934592000000 (-33). (* 1000000.0 *)
Definition lit_1em6  : binary64 := S754_finite false 4722366482869645 (-72). (* 1e-6 *)
Definition lit_sqrt2 : binary64 :=
  S754_finite false 6369051672525773 (-52).          (* 1.4142135623730951 *)
Definition lit_sqrt2_below : binary64 :=
  S754_finite false 6369051672525772 (-52).          (* 1.4142135623730949 *)
Definition lit_1em6_above : binary64 :=
  S754_finite false 4722366482869670 (-72).          (* 1.0000000000000052e-06 *)

(** [2^k] as a binary64 value. *)
Definition b64_pow2 (k : Z) : binary64 := binary_round prec emax false 1 k.

(** The positive inputs of the driver. *)
Definition positive_tests : list binary64 :=
  [lit_2; lit_9; lit_0_25; lit_1em12; lit_1e12].

(** The estimates of the driver's run on [a] up to its stopping step [N]:
    each one entering a step from the first on is at least the true root,
    and each step does not increase the estimate. *)
Definition run_profile (a : binary64) (N : nat) : bool :=
  stops a eps N &&
  forallb (fun n => above_sqrt_b a (iterate a n) &&
                    Qle_bool (B2Q (iterate a (S n))) (B2Q (iterate a n)))
          (seq 1 N).

(** ** What a run executes

    The kernel evaluated with a record of what it executes, in order: the
    floating-point operations with their operands, and the calls.  The
    file includes [<stdio.h>] and [<float.h>] only and never reads or
    changes the floating-point environment, so every operation runs under
    the default exception handling of IEEE 754: an operation that signals
    an exception raises the status flag of that exception and delivers
    its default result; nothing is trapped. *)

(** The functions the file calls: its own [abs_double], [is_nan] and
    [sqrt_newton], and [printf] of [<stdio.h>], the only one that belongs
    to a library. *)
Inductive callee : Type := Abs_double | Is_nan | Sqrt_newton | Printf.


(** The operators of the source on [double], and the calls. *)
Inductive event : Type :=
| Op_lt (x y : binary64)              (* [x < y] *)
| Op_le (x y : binary64)              (* [x <= y] *)
| Op_ge (x y : binary64)              (* [x >= y] *)
| Op_eq (x y : binary64)              (* [x == y] *)
| Op_ne (x y : binary64)              (* [x != y] *)
| Op_add (x y : binary64)             (* [x + y] *)
| Op_sub (x y : binary64)             (* [x - y] *)
| Op_mul (x y : binary64)             (* [x * y] *)
| Op_div (x y : binary64)             (* [x / y] *)
| Call (f : callee).

(** The exceptions of IEEE 754 that depend on the operands alone.  The
    other three (overflow, underflow, inexact) come with the rounding of a
    finite result and are not recorded. *)
Inductive fp_exception : Type := Invalid | DivideByZero.

Definition unordered (x y : binary64) : bool :=
  match x, y with
  | S754_nan, _ | _, S754_nan => true
  | _, _ => false
  end.

(** What an operation signals (IEEE 754-2008, 5.11, 7.2 and 7.3).  The
    comparisons [< <= >=] signal the invalid operation on a NaN operand,
    [==] and [!=] do not; [+ - * /] signal it on the indeterminate forms
    [inf - inf], [0 * inf], [0 / 0] and [inf / inf]; a finite non-zero
    value divided by zero signals the division by zero.  The NaN of the
    model is quiet: as an operand of [+ - * /] it signals nothing. *)
Definition signals (e : event) : list fp_exception :=
  match e with
  | Op_lt x y | Op_le x y | Op_ge x y =>
      if unordered x y then [Invalid] else []
  | Op_eq _ _ | Op_ne _ _ => []
  | Op_add (S754_infinity sx) (S754_infinity sy) =>
      if Bool.eqb sx sy then [] else [Invalid]
  | Op_sub (S754_infinity sx) (S754_infinity sy) =>
      if Bool.eqb sx sy then [Invalid] else []
  | Op_mul (S754_zero _) (S754_infinity _)
  | Op_mul (S754_infinity _) (S754_zero _) => [Invalid]
  | Op_div (S754_zero _) (S754_zero _)
  | Op_div (S754_infinity _) (S754_infinity _) => [Invalid]
  | Op_div (S754_finite _ _ _) (S754_zero _) => [DivideByZero]
  | _ => []
  end.

(** [abs_double(x)]: the comparison, and the subtraction when it holds. *)
Definition abs_double_events (x : binary64) : list event :=
  Op_lt x c_zero :: (if (x <? c_zero)%b64 then [Op_sub c_zero x] else []).

(** The loop of [newton_loop], recording what each iteration executes. *)
Fixpoint loop_events (a eps : binary64) (iters_left : nat) (x : binary64)
  : list event :=
  match iters_left with
  | O => []
  | S k =>
      let q := (a / x)%b64 in
      let s := (x + q)%b64 in
      let x_next := (c_half * s)%b64 in
      let d := (x_next - x)%b64 in
      let diff := abs_double d in
      let t := (c_one + abs_double x_next)%b64 in
      let tol := (eps * t)%b64 in
      [Op_div a x; Op_add x q; Op_mul c_half s; Op_sub x_next x;
       Call Abs_double]
      ++ abs_double_events d
      ++ [Call Abs_double]
      ++ abs_double_events x_next
      ++ [Op_add c_one (abs_double x_next); Op_mul eps t; Op_le diff tol]
      ++ (if (diff <=? tol)%b64 then []
          else loop_events a eps k x_next)
  end.

(** [sqrt_newton], recording what it executes. *)
Definition sqrt_newton_events (a eps : binary64) (max_iters : Z)
  : list event :=
  Op_lt a c_zero ::
  if (a <? c_zero)%b64 then
    let z := c_zero in [Op_div z z]
  else
    Op_eq a c_zero ::
    if (a =? c_zero)%b64 then []
    else
      Op_ge a c_one ::
      loop_events a eps (Z.to_nat max_iters)
                  (if (a >=? c_one)%b64 then a else c_one).



(** The exceptions a run signals, in order. *)
Definition raised (a eps : binary64) (max_iters : Z) : list fp_exception :=
  flat_map signals (sqrt_newton_events a eps max_iters).

(** ** The specification's sentences that fail, as they are written *)

(** "For every positive finite binary64 input [a], [sqrt_newton(a, 1e-12,
    100)] returns [r] with [r >= 0] and [|r*r - a| <= 4 ulp(a)]." *)
Definition correct_on_positives : Prop :=
  forall a : binary64,
    is_binary64 a = true -> is_pos_finite a = true ->
    let r := sqrt_newton a eps max_iters in
    (r >=? c_zero)%b64 = true /\ square_within 4 a r.

(** "For every positive [a] and [eps = 1e-12] the stopping test triggers
    within 60 iterations." *)
Definition terminates_within_60 : Prop :=
  forall a : binary64,
    is_binary64 a = true -> is_pos_finite a = true ->
    exists n, (n < 60)%nat /\ stops a eps n = true.


(** "[x_0 >= sqrt a > 0], and on entry to every step [n >= 1] the estimate
    satisfies [x >= sqrt a]; the sequence is non-increasing." *)
Definition monotone_above_sqrt : Prop :=
  forall a : binary64,
    is_binary64 a = true -> is_pos_finite a = true ->
    above_sqrt a (iterate a 0) /\ (0 < B2Q a)%Q /\
    forall n, (1 <= n)%nat -> enters a eps n ->
      above_sqrt a (iterate a n) /\
      (B2Q (iterate a (S n)) <= B2Q (iterate a n))%Q.

(** The roots the driver computes, in the order of [tests]. *)
Definition driver_roots : list binary64 :=
  map (fun a => sqrt_newton a eps max_iters) tests.

(** "0.0 -> 0.0, 2.0 -> 1.4142135623730951, 9.0 -> 3.0, 0.25 -> 0.5,
    1e-12 -> 1.0e-6 within one ulp, 1e12 -> 1000000.0, -4.0 -> NaN." *)
Definition driver_table : Prop :=
  exists r0 r1 r2 r3 r4 r5 r6,
    driver_roots = [r0; r1; r2; r3; r4; r5; r6] /\
    r0 = c_zero /\ r1 = lit_sqrt2 /\ r2 = lit_3 /\ r3 = c_half /\
    within_ulps 1 r4 (1 # 1000000) /\ r5 = lit_1e6 /\ is_nan r6 = true.

(** ** Exact values over the reals

    The value of a float as a real number, the relation between a real
    and its rounding, and the quantities of the error analysis of the
    iteration. *)

Definition bpow (e : Z) : R := powerRZ 2 e.
Definition F2R (m e : Z) : R := (IZR m * bpow e)%R.
Definition B2R (x : binary64) : R :=
  match x with
  | S754_finite s m e => F2R (cond_Zopp s (Zpos m)) e
  | _ => 0%R
  end.

(** [loc_ok m r l]: the real [r] lies in [[m, m+1)] at the place the
    location [l] tells: on [m], below the middle, on it, or above it. *)
Definition loc_ok (m : Z) (r : R) (l : location) : Prop :=
  match l with
  | loc_Exact => r = IZR m
  | loc_Inexact Lt => (IZR m < r < IZR m + / 2)%R
  | loc_Inexact Eq => r = (IZR m + / 2)%R
  | loc_Inexact Gt => (IZR m + / 2 < r < IZR m + 1)%R
  end.

(** [rounded s rho r]: the binary64 value [r] is the real [rho >= 0]
    rounded to nearest (ties to even) and given the sign [s].  [e1] is the
    exponent of the format at the magnitude of [rho] and [m2] the integer
    nearest to [rho / 2^e1]. *)
Definition rounded (s : bool) (rho : R) (r : binary64) : Prop :=
  exists m2 e1 : Z,
    0 <= m2 /\ -1074 <= e1 /\
    (rho < bpow (e1 + prec))%R /\
    (e1 = -1074 \/ (bpow (e1 + prec - 1) <= rho)%R) /\
    (Rabs (F2R m2 e1 - rho) <= bpow e1 / 2)%R /\
    (forall k, (rho <= F2R k e1)%R -> m2 <= k) /\
    (forall k, (F2R k e1 <= rho)%R -> k <= m2) /\
    (Rabs (F2R m2 e1 - rho) = bpow e1 / 2 -> Z.even m2 = true)%R /\
    match r with
    | S754_zero s' => s' = s /\ m2 = 0
    | S754_infinity s' => s' = s /\ (bpow emax <= F2R m2 e1)%R
    | S754_finite s' m e =>
        s' = s /\ F2R (Zpos m) e = F2R m2 e1 /\ bounded prec emax m e = true
    | S754_nan => False
    end.

(** The magnitude of a finite value. *)
Definition Bmag (x : binary64) : R := Rabs (B2R x).

(** The result of [binary_normalize] on the exact integer sum [z * 2^e]:
    [+0] when the sum is zero, else the sum correctly rounded. *)
Definition rounded_signed (v : R) (r : binary64) : Prop :=
  (v = 0%R -> r = S754_zero false) /\
  (0 < v -> rounded false v r)%R /\
  (v < 0 -> rounded true (- v) r)%R.

(** The order of the reals, as a [comparison]. *)
Definition Rcmp (c : comparison) (x y : R) : Prop :=
  match c with
  | Eq => x = y
  | Lt => (x < y)%R
  | Gt => (y < x)%R
  end.

(** The unit roundoff of binary64. *)
Definition u : R := bpow (-53).

(** [est_ok a x]: the estimate [x] is a positive finite value of the
    format, not below [(1 - 2u) sqrt a]. *)
Definition est_ok (a x : binary64) : Prop :=
  is_pos_finite x = true /\ is_binary64 x = true /\
  ((1 - 2 * u) * sqrt (B2R a) <= B2R x)%R.

(** The contraction factor of the linear phase. *)
Definition q : R := (1 / 2 + 2 * u)%R.

(** The least factor by which a step changes the estimate. *)
Definition halving : R := ((1 - 201 / 100 * u) / 2)%R.

(** * Proofs *)

(** ** The loop and the sequence *)

Section Loop.
Variables a eps : binary64.

Lemma loop_step (k : nat) (x : binary64) :
  newton_loop a eps (S k) x =
  if stop_test eps x (heron a x) then heron a x
  else newton_loop a eps k (heron a x).
Proof. reflexivity. Qed.

Lemma loop_stops_step (k : nat) (x : binary64) :
  loop_stops a eps (S k) x =
  if stop_test eps x (heron a x) then true
  else loop_stops a eps k (heron a x).
Proof. reflexivity. Qed.

Lemma loop_divisors_step (k : nat) (x : binary64) :
  loop_divisors a eps (S k) x =
  x :: (if stop_test eps x (heron a x) then []
        else loop_divisors a eps k (heron a x)).
Proof. reflexivity. Qed.

(** The loop started at [x_i] returns [x_{m+1}] for the first [m >= i]
    whose test holds, when that happens within the iterations left. *)
Lemma loop_first_stop (n i m : nat) :
  (i <= m < i + n)%nat ->
  (forall j, (i <= j < m)%nat -> stops a eps j = false) ->
  stops a eps m = true ->
  newton_loop a eps n (iterate a i) = iterate a (S m).
Proof.
  revert i. induction n as [|n IH]; intros i Hm Hbefore Hstop; [lia|].
  rewrite loop_step.
  destruct (Nat.eq_dec i m) as [->|Hne].
  - unfold stops in Hstop. simpl in Hstop. now rewrite Hstop.
  - assert (Hi : stops a eps i = false) by (apply Hbefore; lia).
    unfold stops in Hi. simpl in Hi. rewrite Hi.
    apply (IH (S i)); [lia| |exact Hstop].
    intros j Hj. apply Hbefore. lia.
Qed.

(** The loop started at [x_i] returns [x_{i+n}] when no test holds. *)
Lemma loop_no_stop (n i : nat) :
  (forall j, (i <= j < i + n)%nat -> stops a eps j = false) ->
  newton_loop a eps n (iterate a i) = iterate a (i + n).
Proof.
  revert i. induction n as [|n IH]; intros i Hno.
  - now rewrite Nat.add_0_r.
  - rewrite loop_step.
    assert (Hi : stops a eps i = false) by (apply Hno; lia).
    unfold stops in Hi. simpl in Hi. rewrite Hi.
    replace (i + S n)%nat with (S i + n)%nat by lia.
    apply (IH (S i)). intros j Hj. apply Hno. lia.
Qed.

Lemma loop_stops_true (n i : nat) :
  loop_stops a eps n (iterate a i) = true <->
  exists m, (i <= m < i + n)%nat /\ stops a eps m = true.
Proof.
  revert i. induction n as [|n IH]; intros i.
  - simpl. split; [discriminate|]. intros (m & Hm & _). lia.
  - rewrite loop_stops_step.
    destruct (stop_test eps (iterate a i) (heron a (iterate a i))) eqn:Hi.
    + split; [intros _|reflexivity]. exists i. split; [lia|exact Hi].
    + change (heron a (iterate a i)) with (iterate a (S i)).
      rewrite (IH (S i)). split; intros (m & Hm & Hs).
      * exists m. split; [lia|exact Hs].
      * exists m. split; [|exact Hs].
        destruct (Nat.eq_dec m i) as [->|]; [|lia].
        unfold stops in Hs. simpl in Hs. congruence.
Qed.
End Loop.

(** The third branch of [sqrt_newton]: the loop from the initial guess. *)
Lemma sqrt_newton_loop (a eps : binary64) (max_iters : Z) :
  (a <? c_zero)%b64 = false -> (a =? c_zero)%b64 = false ->
  sqrt_newton a eps max_iters =
  newton_loop a eps (Z.to_nat max_iters) (iterate a 0).
Proof. intros Hlt Heq. unfold sqrt_newton. now rewrite Hlt, Heq. Qed.

Lemma pos_not_neg_nor_zero (a : binary64) :
  (c_zero <? a)%b64 = true ->
  (a <? c_zero)%b64 = false /\ (a =? c_zero)%b64 = false.
Proof. destruct a as [s|s| |s m e]; try destruct s; now compute. Qed.

Lemma digits2_pos_log2 (p : positive) :
  Zpos (digits2_pos p) = Z.log2 (Zpos p) + 1.
Proof.
  induction p as [p IH|p IH|]; simpl digits2_pos; try reflexivity.
  - rewrite Pos2Z.inj_succ, IH. destruct p; simpl; lia.
  - rewrite Pos2Z.inj_succ, IH. destruct p; simpl; lia.
Qed.

Lemma Zdigits2_log2 (m : Z) : 0 < m -> Zdigits2 m = Z.log2 m + 1.
Proof. destruct m; try lia. intros _. apply digits2_pos_log2. Qed.

Lemma Zdigits2_mono (m n : Z) : 0 < m <= n -> Zdigits2 m <= Zdigits2 n.
Proof.
  intros H. rewrite !Zdigits2_log2 by lia.
  apply Z.add_le_mono_r, Z.log2_le_mono. lia.
Qed.

Lemma Zdigits2_mul_pow2 (m k : Z) :
  0 < m -> 0 <= k -> Zdigits2 (m * 2 ^ k) = Zdigits2 m + k.
Proof.
  intros Hm Hk. rewrite !Zdigits2_log2; [|lia|].
  - rewrite Z.log2_mul_pow2 by lia. lia.
  - apply Z.mul_pos_pos; [lia|]. apply Z.pow_pos_nonneg; lia.
Qed.

Lemma Zdigits2_div_pow2 (m k : Z) :
  0 < m -> 0 <= k < Zdigits2 m ->
  0 < m / 2 ^ k /\ Zdigits2 (m / 2 ^ k) = Zdigits2 m - k.
Proof.
  intros Hm Hk. rewrite Zdigits2_log2 in Hk by lia.
  assert (H2 : 2 ^ k <= m).
  { apply Z.le_trans with (2 ^ Z.log2 m).
    - apply Z.pow_le_mono_r; lia.
    - apply Z.log2_spec. lia. }
  assert (Hq : 0 < m / 2 ^ k).
  { apply Z.div_str_pos. split; [apply Z.pow_pos_nonneg; lia|exact H2]. }
  split; [exact Hq|].
  rewrite !Zdigits2_log2 by lia.
  rewrite <- Z.shiftr_div_pow2 by lia.
  rewrite Z.log2_shiftr by lia. lia.
Qed.

(** Right shifts of the rounding unit. *)
Lemma shr_1_m (r : shr_record) :
  0 <= shr_m r -> shr_m (shr_1 r) = shr_m r / 2.
Proof.
  destruct r as [m b s]. simpl. intros Hm.
  destruct m as [|[p|p|]|p]; try lia; simpl shr_m.
  - reflexivity.
  - apply Z.div_unique with 1; lia.
  - apply Z.div_unique with 0; lia.
  - reflexivity.
Qed.

Lemma iter_shr_1_m (p : positive) (r : shr_record) :
  0 <= shr_m r ->
  shr_m (iter_pos shr_1 p r) = shr_m r / 2 ^ Zpos p.
Proof.
  revert r. induction p as [p IH|p IH|]; intros r Hr; simpl iter_pos.
  - assert (H1 : 0 <= shr_m (shr_1 r)).
    { rewrite shr_1_m by exact Hr. apply Z.div_pos; lia. }
    assert (H2 : 0 <= shr_m (iter_pos shr_1 p (shr_1 r))).
    { rewrite IH by exact H1. apply Z.div_pos; [exact H1|].
      apply Z.pow_pos_nonneg; lia. }
    rewrite IH, IH, shr_1_m by assumption.
    rewrite !Z.div_div by (try apply Z.pow_pos_nonneg; lia).
    f_equal.
    replace (Z.pos p~1) with (1 + Z.pos p + Z.pos p) by lia.
    rewrite !Z.pow_add_r by lia. lia.
  - assert (H2 : 0 <= shr_m (iter_pos shr_1 p r)).
    { rewrite IH by exact Hr. apply Z.div_pos; [exact Hr|].
      apply Z.pow_pos_nonneg; lia. }
    rewrite IH, IH by assumption.
    rewrite !Z.div_div by (try apply Z.pow_pos_nonneg; lia).
    f_equal.
    replace (Z.pos p~0) with (Z.pos p + Z.pos p) by lia.
    rewrite !Z.pow_add_r by lia. lia.
  - rewrite shr_1_m by exact Hr. reflexivity.
Qed.

Lemma shr_record_of_loc_m (m : Z) (l : location) :
  shr_m (shr_record_of_loc m l) = m.
Proof. destruct l as [|[ | | ]]; reflexivity. Qed.

(** [shr_fexp] leaves a non-negative mantissa non-negative. *)
Lemma shr_fexp_nonneg (m e : Z) (l : location) :
  0 <= m -> 0 <= shr_m (fst (shr_fexp prec emax m e l)).
Proof.
  intros Hm. unfold shr_fexp, shr.
  destruct (fexp prec emax (Zdigits2 m + e) - e) as [|n|n]; simpl fst;
    rewrite ?shr_record_of_loc_m; try exact Hm.
  rewrite iter_shr_1_m by (now rewrite shr_record_of_loc_m).
  rewrite shr_record_of_loc_m. apply Z.div_pos; [exact Hm|].
  apply Z.pow_pos_nonneg; lia.
Qed.

(** Above the smallest subnormal, [shr_fexp] keeps the position of the
    leading bit: the mantissa stays positive and [digits + exponent] is
    unchanged. *)
Lemma shr_fexp_bexp (m e : Z) (l : location) :
  0 < m -> 3 - emax - prec < Zdigits2 m + e ->
  let '(r, e') := shr_fexp prec emax m e l in
  0 < shr_m r /\ Zdigits2 (shr_m r) + e' = Zdigits2 m + e.
Proof.
  intros Hm Hmin. unfold shr_fexp, shr.
  destruct (fexp prec emax (Zdigits2 m + e) - e) as [|n|n] eqn:Hn;
    rewrite ?shr_record_of_loc_m; try (split; [exact Hm|reflexivity]).
  rewrite iter_shr_1_m by (rewrite shr_record_of_loc_m; lia).
  rewrite shr_record_of_loc_m.
  assert (Hk : 0 <= Zpos n < Zdigits2 m).
  { split; [lia|]. unfold fexp, SpecFloat.emin, prec in *. lia. }
  destruct (Zdigits2_div_pow2 m (Zpos n) Hm Hk) as [Hpos Hd].
  split; [exact Hpos|]. rewrite Hd. lia.
Qed.

Lemma round_nearest_even_bounds (m : Z) (l : location) :
  m <= round_nearest_even m l <= m + 1.
Proof.
  unfold round_nearest_even.
  destruct l as [|[ | | ]]; try destruct (Z.even m); lia.
Qed.

(** The leading bit of a non-zero exact value above the smallest subnormal
    survives rounding: the result is infinite or finite with
    [digits + exponent] at least that of the input. *)
Lemma binary_round_aux_bexp (s : bool) (m e : Z) (l : location) :
  0 < m -> 3 - emax - prec < Zdigits2 m + e ->
  binary_round_aux prec emax s m e l = S754_infinity s \/
  exists m' e', binary_round_aux prec emax s m e l = S754_finite s m' e' /\
                Zdigits2 m + e <= Zpos (digits2_pos m') + e'.
Proof.
  intros Hm Hmin. unfold binary_round_aux.
  pose proof (shr_fexp_bexp m e l Hm Hmin) as H1.
  destruct (shr_fexp prec emax m e l) as [r1 e1]. destruct H1 as [Hr1 Hd1].
  pose proof (round_nearest_even_bounds (shr_m r1) (loc_of_shr_record r1)) as Hrne.
  set (m1 := round_nearest_even (shr_m r1) (loc_of_shr_record r1)) in *.
  assert (Hm1 : 0 < m1) by lia.
  assert (Hd : Zdigits2 (shr_m r1) <= Zdigits2 m1)
    by (apply Zdigits2_mono; lia).
  assert (Hmin1 : 3 - emax - prec < Zdigits2 m1 + e1) by lia.
  pose proof (shr_fexp_bexp m1 e1 loc_Exact Hm1 Hmin1) as H2.
  destruct (shr_fexp prec emax m1 e1 loc_Exact) as [r2 e2].
  destruct H2 as [Hr2 Hd2].
  destruct (shr_m r2) as [|m2|m2] eqn:Em2; try lia.
  destruct (e2 <=? emax - prec); [right|now left].
  exists m2, e2. split; [reflexivity|]. simpl Zdigits2 in Hd2. lia.
Qed.

(** A non-negative exact value rounds to a zero, a finite value or an
    infinity of the given sign, never to NaN. *)
Lemma binary_round_aux_sign (s : bool) (m e : Z) (l : location) :
  0 <= m ->
  binary_round_aux prec emax s m e l = S754_zero s \/
  binary_round_aux prec emax s m e l = S754_infinity s \/
  exists m' e', binary_round_aux prec emax s m e l = S754_finite s m' e'.
Proof.
  intros Hm. unfold binary_round_aux.
  pose proof (shr_fexp_nonneg m e l Hm) as H1.
  destruct (shr_fexp prec emax m e l) as [r1 e1]. simpl fst in H1.
  pose proof (round_nearest_even_bounds (shr_m r1) (loc_of_shr_record r1)) as Hrne.
  set (m1 := round_nearest_even (shr_m r1) (loc_of_shr_record r1)) in *.
  assert (Hm1 : 0 <= m1) by lia.
  pose proof (shr_fexp_nonneg m1 e1 loc_Exact Hm1) as H2.
  destruct (shr_fexp prec emax m1 e1 loc_Exact) as [r2 e2]. simpl fst in H2.
  destruct (shr_m r2) as [|m2|m2]; try lia.
  - now left.
  - right. destruct (e2 <=? emax - prec); [right|now left].
    now exists m2, e2.
Qed.

(** Left shifts. *)
Lemma iter_xO (m d : positive) :
  Zpos (Pos.iter xO m d) = Zpos m * 2 ^ Zpos d.
Proof.
  induction d as [|d IH] using Pos.peano_ind.
  - simpl. lia.
  - rewrite Pos.iter_succ, Pos2Z.inj_xO, IH, Pos2Z.inj_succ.
    rewrite Z.pow_succ_r by lia. lia.
Qed.

(** [shl_align] towards a smaller exponent keeps the value and so the
    position of the leading bit. *)
Lemma shl_align_bexp (m : positive) (e e' : Z) :
  let '(m1, e1) := shl_align m e e' in
  Zpos (digits2_pos m1) + e1 = Zpos (digits2_pos m) + e /\
  (e' <= e -> e1 = e').
Proof.
  unfold shl_align.
  destruct (e' - e) as [|d|d] eqn:Hd; try (split; [reflexivity|lia]).
  split; [|lia].
  change (Zdigits2 (Zpos (Pos.iter xO m d)) + e' = Zdigits2 (Zpos m) + e).
  rewrite iter_xO, Zdigits2_mul_pow2 by lia. lia.
Qed.

Lemma shl_align_mono (m : positive) (e e' : Z) :
  Zpos m <= Zpos (fst (shl_align m e e')).
Proof.
  unfold shl_align. destruct (e' - e) as [|d|d]; simpl fst; try lia.
  rewrite iter_xO. assert (0 < 2 ^ Zpos d) by (apply Z.pow_pos_nonneg; lia).
  nia.
Qed.

Lemma binary_round_bexp (s : bool) (m : positive) (e : Z) :
  3 - emax - prec < Zpos (digits2_pos m) + e ->
  binary_round prec emax s m e = S754_infinity s \/
  exists m' e', binary_round prec emax s m e = S754_finite s m' e' /\
                Zpos (digits2_pos m) + e <= Zpos (digits2_pos m') + e'.
Proof.
  intros Hmin. unfold binary_round.
  pose proof (shl_align_bexp m e (fexp prec emax (Zpos (digits2_pos m) + e)))
    as H.
  destruct (shl_align m e (fexp prec emax (Zpos (digits2_pos m) + e)))
    as [m1 e1].
  destruct H as [H _].
  destruct (binary_round_aux_bexp s (Zpos m1) e1 loc_Exact) as [Hi|Hf].
  - lia.
  - simpl Zdigits2. lia.
  - now left.
  - right. destruct Hf as (m' & e' & Hr & Hd). exists m', e'.
    split; [exact Hr|]. simpl Zdigits2 in Hd. lia.
Qed.

(** ** Positions of leading bits through the operations *)

Lemma lead_ge_weaken (k k' : Z) (x : binary64) :
  k' <= k -> lead_ge k x = true -> lead_ge k' x = true.
Proof.
  intros Hk. destruct x as [s|[|]| |[|] m e]; unfold lead_ge; try easy.
  rewrite !Z.leb_le. lia.
Qed.

Lemma lead_ge_nonneg (k : Z) (x : binary64) :
  lead_ge k x = true -> nonneg x = true.
Proof. destruct x as [s|[|]| |[|] m e]; simpl; easy. Qed.

Lemma div_nonneg (ma mx : positive) (ea ex : Z) :
  nonneg (S754_finite false ma ea / S754_finite false mx ex)%b64 = true.
Proof.
  unfold b64_div, SFdiv.
  destruct (SFdiv_core_binary prec emax (Zpos ma) ea (Zpos mx) ex)
    as [[q e'] l] eqn:Hcore.
  assert (Hq : 0 <= q).
  { unfold SFdiv_core_binary in Hcore.
    set (e1 := Z.min _ _) in Hcore. set (sh := ea - ex - e1) in Hcore.
    set (m' := match sh with Z0 => Zpos ma | Zpos _ => Z.shiftl (Zpos ma) sh
                             | Zneg _ => 0 end) in Hcore.
    assert (Hm' : 0 <= m').
    { subst m'. destruct sh; try lia. apply Z.shiftl_nonneg. lia. }
    pose proof (Z_div_mod m' (Zpos mx) eq_refl) as Hdm.
    destruct (Z.div_eucl m' (Zpos mx)) as [q0 r0].
    injection Hcore as <- _ _. nia. }
  destruct (binary_round_aux_sign false q e' l Hq) as [H|[H|(m1 & e1 & H)]];
    simpl xorb; rewrite H; reflexivity.
Qed.

(** The quotient of two positive finite values has its leading bit at
    least at the difference of the operands' positions, when that is above
    the smallest subnormal. *)
Lemma div_lead (ma mx : positive) (ea ex : Z) :
  let D := (Zpos (digits2_pos ma) + ea) - (Zpos (digits2_pos mx) + ex) in
  3 - emax - prec < D ->
  lead_ge D (S754_finite false ma ea / S754_finite false mx ex)%b64 = true.
Proof.
  intros D HD. unfold b64_div, SFdiv.
  destruct (SFdiv_core_binary prec emax (Zpos ma) ea (Zpos mx) ex)
    as [[q e'] l] eqn:Hcore.
  assert (Hq : 0 < q /\ D <= Zdigits2 q + e').
  { unfold SFdiv_core_binary in Hcore.
    change (Zdigits2 (Zpos ma) + ea - (Zdigits2 (Zpos mx) + ex)) with D in Hcore.
    set (e1 := Z.min (fexp prec emax D) (ea - ex)) in Hcore.
    set (sh := ea - ex - e1) in Hcore.
    assert (Hsh : 0 <= sh) by (subst sh e1; lia).
    assert (He1 : e1 < D)
      by (subst e1; unfold fexp, SpecFloat.emin, prec in *; lia).
    set (m' := match sh with Z0 => Zpos ma | Zpos _ => Z.shiftl (Zpos ma) sh
                             | Zneg _ => 0 end) in Hcore.
    assert (Hm' : m' = Zpos ma * 2 ^ sh).
    { subst m'. destruct sh as [|p|p] eqn:Es; try lia.
      now rewrite Z.shiftl_mul_pow2 by lia. }
    pose proof (Z_div_mod m' (Zpos mx) eq_refl) as Hdm.
    destruct (Z.div_eucl m' (Zpos mx)) as [q0 r0].
    injection Hcore as <- <- _. destruct Hdm as [Hdm Hr0].
    (* the leading bit of the quotient *)
    set (da := Zpos (digits2_pos ma)) in *.
    set (dx := Zpos (digits2_pos mx)) in *.
    assert (Hda : 2 ^ (da - 1) <= Zpos ma).
    { subst da. rewrite digits2_pos_log2.
      replace (Z.log2 (Zpos ma) + 1 - 1) with (Z.log2 (Zpos ma)) by lia.
      apply Z.log2_spec. lia. }
    assert (Hdx : Zpos mx < 2 ^ dx).
    { subst dx. rewrite digits2_pos_log2. apply Z.log2_spec. lia. }
    assert (Hk : 0 <= da - 1 + sh - dx) by (subst sh D; lia).
    assert (Hda1 : 0 <= da - 1) by (subst da; lia).
    assert (Hdx0 : 0 <= dx) by (subst dx; lia).
    assert (Hlow : 2 ^ (da - 1 + sh - dx) <= q0).
    { assert (Hp : 2 ^ (da - 1 + sh - dx) * 2 ^ dx = 2 ^ (da - 1) * 2 ^ sh).
      { rewrite <- !Z.pow_add_r by lia. f_equal. lia. }
      assert (0 < 2 ^ sh) by (apply Z.pow_pos_nonneg; lia).
      assert (0 < 2 ^ (da - 1 + sh - dx)) by (apply Z.pow_pos_nonneg; lia).
      nia. }
    assert (Hq0 : 0 < q0).
    { assert (0 < 2 ^ (da - 1 + sh - dx)) by (apply Z.pow_pos_nonneg; lia).
      lia. }
    split; [exact Hq0|].
    rewrite Zdigits2_log2 by exact Hq0.
    assert (da - 1 + sh - dx <= Z.log2 q0).
    { apply Z.log2_le_pow2; [exact Hq0|exact Hlow]. }
    subst sh D. lia. }
  destruct Hq as [Hq HDq]. simpl xorb.
  destruct (binary_round_aux_bexp false q e' l Hq) as [H|(m1 & e1 & H & Hd)].
  - lia.
  - rewrite H. reflexivity.
  - rewrite H. unfold lead_ge. apply Z.leb_le. lia.
Qed.

(** The sum of a positive finite value and a non-negative one keeps the
    leading bit of the first at least where it was. *)
Lemma add_lead_l (k : Z) (x y : binary64) :
  3 - emax - prec < k ->
  lead_ge k x = true -> nonneg y = true -> lead_ge k (x + y)%b64 = true.
Proof.
  intros Hk Hx Hy.
  destruct x as [sx|[|]| |[|] mx ex]; try discriminate Hx;
    destruct y as [[|]|[|]| |[|] my ey]; try discriminate Hy;
    try exact Hx; try reflexivity.
  unfold lead_ge in Hx. apply Z.leb_le in Hx.
  unfold b64_add, SFadd, cond_Zopp.
  set (ez := Z.min ex ey).
  pose proof (shl_align_bexp mx ex ez) as Hax.
  pose proof (shl_align_mono my ey ez) as Hay.
  destruct (shl_align mx ex ez) as [mx1 ex1].
  destruct (shl_align my ey ez) as [my1 ey1].
  destruct Hax as [Hdx Hex]. specialize (Hex ltac:(subst ez; lia)). subst ex1.
  simpl fst in *. change (Zpos mx1 + Zpos my1) with (Zpos (mx1 + my1)).
  unfold binary_normalize.
  assert (Hd : Zpos (digits2_pos mx1) <= Zpos (digits2_pos (mx1 + my1))).
  { apply (Zdigits2_mono (Zpos mx1) (Zpos (mx1 + my1))). lia. }
  destruct (binary_round_bexp false (mx1 + my1) ez) as [H|(m' & e' & H & Hd')].
  - lia.
  - rewrite H. reflexivity.
  - rewrite H. unfold lead_ge. apply Z.leb_le. lia.
Qed.

(** The same, on the side of the second operand. *)
Lemma add_lead_r (k : Z) (x y : binary64) :
  3 - emax - prec < k ->
  nonneg x = true -> lead_ge k y = true -> lead_ge k (x + y)%b64 = true.
Proof.
  intros Hk Hx Hy.
  destruct y as [sy|[|]| |[|] my ey]; try discriminate Hy;
    destruct x as [[|]|[|]| |[|] mx ex]; try discriminate Hx;
    try exact Hy; try reflexivity.
  unfold lead_ge in Hy. apply Z.leb_le in Hy.
  unfold b64_add, SFadd, cond_Zopp.
  set (ez := Z.min ex ey).
  pose proof (shl_align_bexp my ey ez) as Hay.
  pose proof (shl_align_mono mx ex ez) as Hax.
  destruct (shl_align mx ex ez) as [mx1 ex1].
  destruct (shl_align my ey ez) as [my1 ey1].
  destruct Hay as [Hdy Hey]. specialize (Hey ltac:(subst ez; lia)). subst ey1.
  simpl fst in *. change (Zpos mx1 + Zpos my1) with (Zpos (mx1 + my1)).
  unfold binary_normalize.
  assert (Hd : Zpos (digits2_pos my1) <= Zpos (digits2_pos (mx1 + my1))).
  { apply (Zdigits2_mono (Zpos my1) (Zpos (mx1 + my1))). lia. }
  destruct (binary_round_bexp false (mx1 + my1) ez) as [H|(m' & e' & H & Hd')].
  - lia.
  - rewrite H. reflexivity.
  - rewrite H. unfold lead_ge. apply Z.leb_le. lia.
Qed.

(** Halving lowers the leading bit by one position. *)
Lemma half_lead (k : Z) (x : binary64) :
  3 - emax - prec < k - 1 ->
  lead_ge k x = true -> lead_ge (k - 1) (c_half * x)%b64 = true.
Proof.
  intros Hk Hx.
  destruct x as [sx|[|]| |[|] mx ex]; try discriminate Hx; try reflexivity.
  unfold lead_ge in Hx. apply Z.leb_le in Hx.
  unfold b64_mul, c_half, SFmul. simpl xorb.
  assert (Hd : Zdigits2 (Zpos (4503599627370496 * mx)) + (-53 + ex)
               = Zpos (digits2_pos mx) + ex - 1).
  { rewrite Pos2Z.inj_mul, Z.mul_comm.
    change (Zpos 4503599627370496) with (2 ^ 52).
    rewrite Zdigits2_mul_pow2 by lia. simpl Zdigits2. lia. }
  destruct (binary_round_aux_bexp false (Zpos (4503599627370496 * mx))
              (-53 + ex) loc_Exact) as [H|(m' & e' & H & Hd')].
  - lia.
  - lia.
  - rewrite H. reflexivity.
  - rewrite H. unfold lead_ge. apply Z.leb_le. lia.
Qed.

(** ** The estimate stays away from zero *)

(** Every value of the format that is positive and finite is at least the
    smallest subnormal [2^-1074]. *)
Lemma binary64_lead (m : positive) (e : Z) :
  is_binary64 (S754_finite false m e) = true ->
  -1073 <= Zpos (digits2_pos m) + e.
Proof.
  unfold is_binary64, valid_binary, bounded, canonical_mantissa.
  intros H. apply andb_prop in H. destruct H as [H _].
  apply Z.eqb_eq in H. unfold fexp, SpecFloat.emin, emax, prec in H. lia.
Qed.

(** One step from an estimate [x >= 2^-540] gives an estimate
    [>= 2^-540] again: either [x >= 2^-539] and halving [x + a/x >= x]
    loses one position, or [x < 2^-539] and then [a/x > 2^-535]. *)
Lemma heron_lead (ma : positive) (ea : Z) (x : binary64) :
  is_binary64 (S754_finite false ma ea) = true ->
  lead_ge least_lead x = true ->
  lead_ge least_lead (heron (S754_finite false ma ea) x) = true.
Proof.
  intros Ha Hx. apply binary64_lead in Ha. unfold heron, least_lead in *.
  destruct x as [sx|[|]| |[|] mx ex]; try discriminate Hx; try reflexivity.
  pose proof (div_nonneg ma mx ea ex) as Hy.
  set (a := S754_finite false ma ea) in *.
  set (x := S754_finite false mx ex) in *.
  change (-539) with (-538 - 1).
  apply half_lead; [unfold emax, prec; lia|].
  destruct (Z_le_gt_dec (-538) (Zpos (digits2_pos mx) + ex)) as [Hbig|Hsmall].
  - apply add_lead_l; [unfold emax, prec; lia| |exact Hy].
    unfold x, lead_ge. apply Z.leb_le. exact Hbig.
  - apply (lead_ge_weaken (-534)); [lia|].
    apply add_lead_r; [unfold emax, prec; lia|reflexivity|].
    pose proof (div_lead ma mx ea ex) as Hd. cbv zeta in Hd.
    apply lead_ge_weaken with (2 := Hd ltac:(unfold emax, prec; lia)). lia.
Qed.

Lemma initial_guess_lead (a : binary64) :
  is_pos_finite a = true -> lead_ge least_lead (initial_guess a) = true.
Proof.
  destruct a as [s|s| |[|] m e]; try discriminate. intros _.
  unfold initial_guess.
  destruct (S754_finite false m e >=? c_one)%b64 eqn:Hge; [|reflexivity].
  unfold b64_ge, SFleb, c_one, SFcompare in Hge.
  unfold lead_ge, least_lead. apply Z.leb_le.
  destruct (Z.compare_spec (-52) e); try discriminate Hge; lia.
Qed.

Section Invariant.
Variables (ma : positive) (ea : Z) (eps : binary64).
Let a := S754_finite false ma ea.
Hypothesis Ha : is_binary64 a = true.

Lemma loop_divisors_lead (n : nat) (x : binary64) :
  lead_ge least_lead x = true ->
  Forall (fun d => lead_ge least_lead d = true) (loop_divisors a eps n x).
Proof.
  revert x. induction n as [|n IH]; intros x Hx; [constructor|].
  rewrite loop_divisors_step. constructor; [exact Hx|].
  destruct (stop_test eps x (heron a x)); [constructor|].
  apply IH, heron_lead; assumption.
Qed.

Lemma newton_loop_lead (n : nat) (x : binary64) :
  lead_ge least_lead x = true ->
  lead_ge least_lead (newton_loop a eps n x) = true.
Proof.
  revert x. induction n as [|n IH]; intros x Hx; [exact Hx|].
  rewrite loop_step.
  destruct (stop_test eps x (heron a x)); [|apply IH];
    apply heron_lead; assumption.
Qed.
End Invariant.

Lemma is_nan_spec (x : binary64) : is_nan x = true <-> x = S754_nan.
Proof.
  unfold is_nan, b64_ne, SFeqb, SFcompare.
  destruct x as [s|[|]| |[|] m e]; try (split; [discriminate|easy]);
    try easy; rewrite Z.compare_refl, Pos.compare_cont_refl;
    (split; [discriminate|easy]).
Qed.

Lemma lead_ge_pos (k : Z) (x : binary64) :
  lead_ge k x = true ->
  (c_zero <? x)%b64 = true /\ (x =? c_zero)%b64 = false /\
  is_nan x = false /\ (x >=? c_zero)%b64 = true.
Proof.
  intros H. assert (Hn : is_nan x = false).
  { destruct (is_nan x) eqn:E; [|reflexivity].
    apply is_nan_spec in E. now subst x. }
  rewrite Hn.
  destruct x as [s|[|]| |[|] m e]; try discriminate; now compute.
Qed.

Lemma pow2_pos (e : Z) : (0 < pow2 e)%Q.
Proof. apply Qpower_0_lt. reflexivity. Qed.

Lemma pow2_le (e e' : Z) : e <= e' -> (pow2 e <= pow2 e')%Q.
Proof. intros H. apply Qpower_le_compat_l; [exact H|]. discriminate. Qed.

Lemma digits2_pos_bound (m : positive) : Zpos m < 2 ^ Zpos (digits2_pos m).
Proof. rewrite digits2_pos_log2. apply Z.log2_spec. lia. Qed.

Lemma digits2_pos_lower (m : positive) : 2 ^ (Zpos (digits2_pos m) - 1) <= Zpos m.
Proof.
  rewrite digits2_pos_log2.
  replace (Z.log2 (Zpos m) + 1 - 1) with (Z.log2 (Zpos m)) by lia.
  apply Z.log2_spec. lia.
Qed.

Lemma B2Q_pos (m : positive) (e : Z) : (0 < B2Q (S754_finite false m e))%Q.
Proof.
  unfold B2Q, cond_Zopp. apply Qmult_lt_0_compat; [|apply pow2_pos].
  reflexivity.
Qed.

Lemma B2Q_one : (B2Q c_one == 1)%Q.
Proof. now vm_compute. Qed.

Lemma pow2_52_one : (inject_Z 4503599627370496 * pow2 (-52) == 1)%Q.
Proof. vm_compute. reflexivity. Qed.

Lemma pow2_53_one : (inject_Z 9007199254740992 * pow2 (-53) == 1)%Q.
Proof. vm_compute. reflexivity. Qed.

(** A value of the format compares with [1.0] as its exact value with 1. *)
Lemma ge_one_exact (m : positive) (e : Z) :
  is_binary64 (S754_finite false m e) = true ->
  if (S754_finite false m e >=? c_one)%b64
  then (1 <= B2Q (S754_finite false m e))%Q
  else (B2Q (S754_finite false m e) <= 1)%Q.
Proof.
  intros Hv. unfold is_binary64, valid_binary, bounded, canonical_mantissa in Hv.
  apply andb_prop in Hv. destruct Hv as [Hc _]. apply Z.eqb_eq in Hc.
  unfold fexp, SpecFloat.emin, emax, prec in Hc.
  pose proof (digits2_pos_bound m) as Hub.
  pose proof (digits2_pos_lower m) as Hlb.
  unfold b64_ge, SFleb, c_one, SFcompare, B2Q, cond_Zopp.
  destruct (Z.compare_spec (-52) e) as [He|He|He].
  - (* e = -52: the mantissas decide *)
    subst e. change (Pos.compare_cont Eq 4503599627370496 m)
      with (Z.compare 4503599627370496 (Zpos m)).
    pose proof pow2_52_one as Hone.
    assert (Hp : (0 <= pow2 (-52))%Q) by apply Qlt_le_weak, pow2_pos.
    destruct (Z.compare_spec 4503599627370496 (Zpos m)) as [Hm|Hm|Hm].
    + injection Hm as <-. cbv iota. rewrite Hone. apply Qle_refl.
    + cbv iota. rewrite <- Hone. apply Qmult_le_compat_r; [|exact Hp].
      rewrite <- Zle_Qle. clear - Hm. lia.
    + cbv iota. rewrite <- Hone. apply Qmult_le_compat_r; [|exact Hp].
      rewrite <- Zle_Qle. clear - Hm. lia.
  - (* e > -52: a normal value, at least 2 *)
    cbv iota. assert (Hd : Zpos (digits2_pos m) = 53) by lia.
    rewrite Hd in Hlb. change (2 ^ (53 - 1)) with 4503599627370496 in Hlb.
    rewrite <- pow2_52_one.
    apply Qle_trans with (inject_Z (Zpos m) * pow2 (-52))%Q.
    + apply Qmult_le_compat_r; [now rewrite <- Zle_Qle|].
      apply Qlt_le_weak, pow2_pos.
    + apply Qmult_le_l; [reflexivity|]. apply pow2_le. clear - He. lia.
  - (* e < -52: below 1 *)
    cbv iota. assert (Hd : Zpos (digits2_pos m) <= 53) by lia.
    assert (Hm : Zpos m < 2 ^ 53).
    { apply Z.lt_le_trans with (1 := Hub). apply Z.pow_le_mono_r; lia. }
    change (2 ^ 53) with 9007199254740992 in Hm.
    rewrite <- pow2_53_one.
    apply Qle_trans with (inject_Z (Zpos m) * pow2 (-53))%Q.
    + apply Qmult_le_l; [reflexivity|]. apply pow2_le. clear - He. lia.
    + apply Qmult_le_compat_r; [rewrite <- Zle_Qle; clear - Hm; lia|].
      apply Qlt_le_weak, pow2_pos.
Qed.

Lemma initial_guess_above_sqrt (a : binary64) :
  is_binary64 a = true -> is_pos_finite a = true ->
  above_sqrt a (initial_guess a) /\ (0 < B2Q a)%Q /\
  (0 < B2Q (initial_guess a))%Q.
Proof.
  destruct a as [s|s| |[|] m e]; try discriminate. intros Hv _.
  pose proof (ge_one_exact m e Hv) as H.
  pose proof (B2Q_pos m e) as Hpos.
  unfold above_sqrt, initial_guess.
  destruct (S754_finite false m e >=? c_one)%b64.
  - set (v := B2Q (S754_finite false m e)) in *.
    repeat split; try lra. nra.
  - rewrite B2Q_one. repeat split; lra.
Qed.

(** ** Evaluation of the exact comparisons *)

Lemma above_sqrt_b_spec (a x : binary64) :
  above_sqrt_b a x = true <-> above_sqrt a x.
Proof.
  unfold above_sqrt_b, above_sqrt.
  rewrite andb_true_iff, !Qle_bool_iff. reflexivity.
Qed.

Lemma square_within_b_spec (k : Z) (a r : binary64) :
  square_within_b k a r = true <-> square_within k a r.
Proof.
  unfold square_within_b, square_within.
  rewrite andb_true_iff, Qle_bool_iff. reflexivity.
Qed.

Lemma within_ulps_b_spec (k : Z) (r : binary64) (v : Q) :
  within_ulps_b k r v = true <-> within_ulps k r v.
Proof.
  unfold within_ulps_b, within_ulps.
  rewrite andb_true_iff, Qle_bool_iff. reflexivity.
Qed.

Lemma nearest_b_spec (x : binary64) (v : Q) :
  nearest_b x v = true <-> nearest x v.
Proof.
  unfold nearest_b, nearest.
  rewrite !andb_true_iff, Qle_bool_iff. tauto.
Qed.

Lemma below_not_above (a x : binary64) : below_sqrt a x -> ~ above_sqrt a x.
Proof.
  unfold below_sqrt, above_sqrt. intros [_ Hlt] [_ Hle].
  apply (Qlt_irrefl (B2Q a)). eapply Qle_lt_trans; eassumption.
Qed.

(** ** Steps entered *)

Lemma enters_before_stop (a eps' : binary64) (N n : nat) :
  stops a eps' N = true -> enters a eps' n -> (n <= N)%nat.
Proof.
  intros Hstop Hent. destruct (le_lt_dec n N) as [H|H]; [exact H|].
  specialize (Hent N H). congruence.
Qed.

Lemma enters_check (a eps' : binary64) (n : nat) :
  forallb (fun m => negb (stops a eps' m)) (seq 0 n) = true ->
  enters a eps' n.
Proof.
  intros H m Hm. rewrite forallb_forall in H.
  specialize (H m). rewrite in_seq in H.
  apply negb_true_iff, H. lia.
Qed.

Lemma stops_within_spec (a eps' : binary64) (bound : nat) :
  stops_within a eps' bound = true <->
  exists n, (n < bound)%nat /\ stops a eps' n = true.
Proof.
  unfold stops_within. change (initial_guess a) with (iterate a 0).
  rewrite loop_stops_true. split; intros (n & Hn & Hs); exists n;
    (split; [lia|exact Hs]).
Qed.

Lemma run_profile_spec (a : binary64) (N : nat) :
  run_profile a N = true ->
  forall n, (1 <= n)%nat -> enters a eps n ->
    above_sqrt a (iterate a n) /\
    (B2Q (iterate a (S n)) <= B2Q (iterate a n))%Q.
Proof.
  unfold run_profile. rewrite andb_true_iff, forallb_forall.
  intros [Hstop Hall] n Hn Hent.
  pose proof (enters_before_stop a eps N n Hstop Hent) as HnN.
  specialize (Hall n). rewrite in_seq, andb_true_iff in Hall.
  destruct Hall as [Ha Hm]; [lia|].
  split; [now apply above_sqrt_b_spec|now apply Qle_bool_iff].
Qed.

(** ** The literals

    The binary64 values above are the correctly rounded values of the
    decimal literals of the source and of the specification's table. *)

Lemma lit_exact :
  (B2Q c_half == 1 # 2)%Q /\ (B2Q c_one == 1)%Q /\ (B2Q lit_2 == 2)%Q /\
  (B2Q lit_3 == 3)%Q /\ (B2Q lit_5 == 5)%Q /\ (B2Q lit_9 == 9)%Q /\
  (B2Q lit_0_25 == 1 # 4)%Q /\ (B2Q lit_1e12 == 1000000000000)%Q /\
  (B2Q lit_1e6 == 1000000)%Q /\ (B2Q lit_m4 == -4)%Q.
Proof. vm_compute. repeat split. Qed.

Lemma lit_rounded :
  nearest lit_1em12 (1 # 1000000000000) /\
  nearest lit_1em6 (1 # 1000000) /\
  nearest lit_sqrt2 (14142135623730951 # 10000000000000000) /\
  nearest lit_sqrt2_below (14142135623730949 # 10000000000000000) /\
  nearest lit_1em6_above
          (10000000000000052 # 10000000000000000000000).
Proof. repeat split; now vm_compute. Qed.

Lemma tests_are_binary64 : forallb is_binary64 tests = true.
Proof. reflexivity. Qed.

(** [lit_sqrt2] is the binary64 value nearest to the true root of 2: its
    square is above 2, the square of its predecessor [lit_sqrt2_below] is
    below, and 2 is nearer to the former. *)
Lemma lit_sqrt2_nearest_root :
  below_sqrt lit_2 lit_sqrt2_below /\ above_sqrt lit_2 lit_sqrt2 /\
  (B2Q lit_sqrt2 - B2Q lit_sqrt2_below == ulp lit_sqrt2)%Q /\
  (let mid := (B2Q lit_sqrt2_below + B2Q lit_sqrt2) / 2 in
   mid * mid < 2)%Q.
Proof. vm_compute. repeat split; discriminate. Qed.

(** * binary64 arithmetic over the reals

    The operations of [SpecFloat] round the exact result to nearest, ties
    to even.  This part derives that from their definitions: the value of
    a float as a real, the location of a real between two integers through
    the shifts of [shr_fexp], and from there the predicate [rounded] for
    each of [* / + -] and the comparisons. *)

(** ** Absolute values and powers of two *)

Lemma Rabs_le_elim (x y : R) : (Rabs x <= y -> - y <= x <= y)%R.
Proof. unfold Rabs. destruct (Rcase_abs x); lra. Qed.

Lemma Rabs_le_intro (x y : R) : (- y <= x <= y -> Rabs x <= y)%R.
Proof. unfold Rabs. destruct (Rcase_abs x); lra. Qed.

Lemma bpow_gt_0 (e : Z) : (0 < bpow e)%R.
Proof. apply powerRZ_lt. lra. Qed.

Lemma bpow_add (e1 e2 : Z) : bpow (e1 + e2) = (bpow e1 * bpow e2)%R.
Proof. apply powerRZ_add. lra. Qed.

Lemma bpow_0 : bpow 0 = 1%R.
Proof. reflexivity. Qed.

Lemma bpow_1 : bpow 1 = 2%R.
Proof. unfold bpow. simpl. lra. Qed.

Lemma bpow_opp (e : Z) : bpow (- e) = (/ bpow e)%R.
Proof. apply powerRZ_neg'. Qed.

Lemma bpow_succ (e : Z) : bpow (e + 1) = (2 * bpow e)%R.
Proof. rewrite bpow_add, bpow_1. lra. Qed.

Lemma bpow_pred (e : Z) : bpow (e - 1) = (bpow e / 2)%R.
Proof.
  replace e with ((e - 1) + 1) at 2 by lia. rewrite bpow_succ. lra.
Qed.

Lemma bpow_nat_ge_1 (n : nat) : (1 <= bpow (Z.of_nat n))%R.
Proof.
  unfold bpow. rewrite <- pow_powerRZ. apply pow_R1_Rle. lra.
Qed.

Lemma bpow_le (e1 e2 : Z) : e1 <= e2 -> (bpow e1 <= bpow e2)%R.
Proof.
  intros H. replace e2 with (e1 + Z.of_nat (Z.to_nat (e2 - e1))) by lia.
  rewrite bpow_add.
  pose proof (bpow_nat_ge_1 (Z.to_nat (e2 - e1))).
  pose proof (bpow_gt_0 e1). nra.
Qed.

Lemma bpow_lt (e1 e2 : Z) : e1 < e2 -> (bpow e1 < bpow e2)%R.
Proof.
  intros H. apply Rlt_le_trans with (bpow (e1 + 1)).
  - rewrite bpow_succ. pose proof (bpow_gt_0 e1). lra.
  - apply bpow_le. lia.
Qed.

Lemma bpow_le_inv (e1 e2 : Z) : (bpow e1 <= bpow e2)%R -> e1 <= e2.
Proof.
  intros H. destruct (Z_le_gt_dec e1 e2) as [|Hgt]; [assumption|].
  apply Z.gt_lt, bpow_lt in Hgt. lra.
Qed.

Lemma bpow_lt_inv (e1 e2 : Z) : (bpow e1 < bpow e2)%R -> e1 < e2.
Proof.
  intros H. destruct (Z_lt_ge_dec e1 e2) as [|Hge]; [assumption|].
  apply Z.ge_le, bpow_le in Hge. lra.
Qed.

Lemma IZR_pow2 (k : Z) : 0 <= k -> IZR (2 ^ k) = bpow k.
Proof.
  intros Hk. rewrite <- (Z2Nat.id k Hk) at 1 2.
  rewrite <- pow_IZR. unfold bpow. now rewrite <- pow_powerRZ.
Qed.

Lemma F2R_shift (m e k : Z) : 0 <= k -> F2R (m * 2 ^ k) e = F2R m (e + k).
Proof.
  intros Hk. unfold F2R. rewrite mult_IZR, IZR_pow2 by exact Hk.
  rewrite bpow_add. ring.
Qed.

(** [2^(d-1) <= m < 2^d] for [d] the number of digits of [m > 0]. *)
Lemma digits_bounds_R (m : Z) :
  0 < m ->
  (bpow (Zdigits2 m - 1) <= IZR m < bpow (Zdigits2 m))%R.
Proof.
  intros Hm. rewrite Zdigits2_log2 by exact Hm.
  pose proof (Z.log2_spec m Hm) as [Hlo Hhi].
  pose proof (Z.log2_nonneg m) as Hl.
  replace (Z.log2 m + 1 - 1) with (Z.log2 m) by lia.
  rewrite <- !IZR_pow2 by lia.
  split; [apply IZR_le; exact Hlo|apply IZR_lt].
  now rewrite <- Z.add_1_r in Hhi.
Qed.

(** ** Locations *)

Lemma loc_ok_bounds (m : Z) (r : R) (l : location) :
  loc_ok m r l -> (IZR m <= r < IZR m + 1)%R.
Proof. destruct l as [|[ | | ]]; simpl; lra. Qed.

Lemma loc_of_shr_record_of_loc (m : Z) (l : location) :
  loc_of_shr_record (shr_record_of_loc m l) = l.
Proof. destruct l as [|[ | | ]]; reflexivity. Qed.

(** One shift to the right halves the real and keeps the location right. *)
Lemma shr_1_loc (rec : shr_record) (r : R) :
  0 <= shr_m rec ->
  loc_ok (shr_m rec) r (loc_of_shr_record rec) ->
  loc_ok (shr_m (shr_1 rec)) (r / 2) (loc_of_shr_record (shr_1 rec)).
Proof.
  destruct rec as [m rb sb]. simpl shr_m. intros Hm Hl.
  destruct m as [|[p|p|]|p]; try lia.
  - (* m = 0 *)
    destruct rb, sb; simpl in *; lra.
  - (* m = 2p+1 *)
    assert (Hp : IZR (Zpos p~1) = (2 * IZR (Zpos p) + 1)%R).
    { rewrite Pos2Z.inj_xI, plus_IZR, mult_IZR. reflexivity. }
    destruct rb, sb; simpl in *; rewrite Hp in Hl; lra.
  - (* m = 2p *)
    assert (Hp : IZR (Zpos p~0) = (2 * IZR (Zpos p))%R).
    { rewrite Pos2Z.inj_xO, mult_IZR. reflexivity. }
    destruct rb, sb; simpl in *; rewrite Hp in Hl; lra.
  - (* m = 1 *)
    destruct rb, sb; simpl in *; lra.
Qed.

Lemma iter_shr_1_loc (p : positive) (rec : shr_record) (r : R) :
  0 <= shr_m rec ->
  loc_ok (shr_m rec) r (loc_of_shr_record rec) ->
  loc_ok (shr_m (iter_pos shr_1 p rec)) (r / bpow (Zpos p))
         (loc_of_shr_record (iter_pos shr_1 p rec)).
Proof.
  revert rec r. induction p as [p IH|p IH|]; intros rec r Hm Hl;
    simpl iter_pos.
  - assert (H1 : 0 <= shr_m (shr_1 rec)).
    { rewrite shr_1_m by exact Hm. apply Z.div_pos; lia. }
    assert (H2 : 0 <= shr_m (iter_pos shr_1 p (shr_1 rec))).
    { rewrite iter_shr_1_m by exact H1. apply Z.div_pos; [exact H1|].
      apply Z.pow_pos_nonneg; lia. }
    replace (r / bpow (Zpos p~1))%R
      with (r / 2 / bpow (Zpos p) / bpow (Zpos p))%R.
    + apply IH; [exact H2|]. apply IH; [exact H1|].
      apply shr_1_loc; assumption.
    + replace (Zpos p~1) with (1 + Zpos p + Zpos p) by lia.
      rewrite !bpow_add, bpow_1. pose proof (bpow_gt_0 (Zpos p)).
      field. lra.
  - assert (H2 : 0 <= shr_m (iter_pos shr_1 p rec)).
    { rewrite iter_shr_1_m by exact Hm. apply Z.div_pos; [exact Hm|].
      apply Z.pow_pos_nonneg; lia. }
    replace (r / bpow (Zpos p~0))%R
      with (r / bpow (Zpos p) / bpow (Zpos p))%R.
    + apply IH; [exact H2|]. apply IH; assumption.
    + replace (Zpos p~0) with (Zpos p + Zpos p) by lia.
      rewrite !bpow_add. pose proof (bpow_gt_0 (Zpos p)).
      field. lra.
  - rewrite bpow_1. apply shr_1_loc; assumption.
Qed.

(** [shr_fexp] on a located real: the mantissa and the location of the
    same real on the grid of the exponent returned. *)
Lemma shr_fexp_loc (m e : Z) (l : location) (rho : R) :
  0 <= m -> loc_ok m (rho / bpow e) l ->
  let '(rec, e') := shr_fexp prec emax m e l in
  0 <= shr_m rec /\
  loc_ok (shr_m rec) (rho / bpow e') (loc_of_shr_record rec) /\
  e' = Z.max e (fexp prec emax (Zdigits2 m + e)) /\
  shr_m rec = m / 2 ^ (e' - e).
Proof.
  intros Hm Hl. unfold shr_fexp, shr.
  destruct (fexp prec emax (Zdigits2 m + e) - e) as [|n|n] eqn:Hn.
  - rewrite shr_record_of_loc_m, loc_of_shr_record_of_loc.
    replace (Z.max e (fexp prec emax (Zdigits2 m + e))) with e by lia.
    repeat split; try assumption. rewrite Z.sub_diag, Z.pow_0_r.
    now rewrite Z.div_1_r.
  - assert (H0 : 0 <= shr_m (shr_record_of_loc m l))
      by now rewrite shr_record_of_loc_m.
    pose proof (iter_shr_1_loc n (shr_record_of_loc m l) (rho / bpow e) H0)
      as Hloc.
    rewrite shr_record_of_loc_m, loc_of_shr_record_of_loc in Hloc.
    specialize (Hloc Hl).
    rewrite iter_shr_1_m in * by exact H0.
    rewrite shr_record_of_loc_m in *.
    replace (Z.max e (fexp prec emax (Zdigits2 m + e))) with (e + Zpos n)
      by lia.
    repeat split.
    + apply Z.div_pos; [exact Hm|]. apply Z.pow_pos_nonneg; lia.
    + replace (rho / bpow (e + Zpos n))%R
        with (rho / bpow e / bpow (Zpos n))%R; [exact Hloc|].
      rewrite bpow_add. pose proof (bpow_gt_0 e).
      pose proof (bpow_gt_0 (Zpos n)). field. lra.
    + f_equal. f_equal. lia.
  - rewrite shr_record_of_loc_m, loc_of_shr_record_of_loc.
    replace (Z.max e (fexp prec emax (Zdigits2 m + e))) with e by lia.
    repeat split; try assumption. rewrite Z.sub_diag, Z.pow_0_r.
    now rewrite Z.div_1_r.
Qed.

(** Rounding to nearest, ties to even, of a located real. *)
Lemma round_nearest_even_loc (m : Z) (r : R) (l : location) :
  loc_ok m r l ->
  let m' := round_nearest_even m l in
  (m' = m \/ m' = m + 1) /\
  (Rabs (IZR m' - r) <= / 2)%R /\
  (forall k : Z, (r <= IZR k)%R -> m' <= k) /\
  (forall k : Z, (IZR k <= r)%R -> k <= m').
Proof.
  intros Hl. unfold round_nearest_even.
  assert (Hk1 : forall k : Z, (r <= IZR k)%R -> (IZR m < r)%R -> m + 1 <= k).
  { intros k Hk Hr. apply Z.lt_succ_r, Z.succ_lt_mono.
    rewrite <- !Z.add_1_r. apply lt_IZR. rewrite !plus_IZR.
    pose proof (loc_ok_bounds _ _ _ Hl). lra. }
  assert (Hk0 : forall k : Z, (r <= IZR k)%R -> m <= k).
  { intros k Hk. apply le_IZR. pose proof (loc_ok_bounds _ _ _ Hl). lra. }
  assert (Hk2 : forall k : Z, (IZR k <= r)%R -> k <= m).
  { intros k Hk. apply Z.lt_succ_r. rewrite <- Z.add_1_r. apply lt_IZR.
    rewrite plus_IZR. pose proof (loc_ok_bounds _ _ _ Hl). lra. }
  destruct l as [|[ | | ]]; simpl in Hl.
  - subst r. repeat split.
    + now left.
    + rewrite Rminus_diag, Rabs_R0. lra.
    + intros k Hk. now apply le_IZR.
    + intros k Hk. now apply le_IZR.
  - destruct (Z.even m); repeat split.
    + now left.
    + subst r. rewrite Rabs_left1; lra.
    + exact Hk0.
    + exact Hk2.
    + now right.
    + subst r. rewrite plus_IZR, Rabs_right; lra.
    + intros k Hk. apply Hk1; [exact Hk|]. subst r. lra.
    + intros k Hk. specialize (Hk2 k Hk). lia.
  - repeat split.
    + now left.
    + rewrite Rabs_left1; lra.
    + exact Hk0.
    + exact Hk2.
  - repeat split.
    + now right.
    + rewrite plus_IZR, Rabs_right; lra.
    + intros k Hk. apply Hk1; [exact Hk|]. lra.
    + intros k Hk. specialize (Hk2 k Hk). lia.
Qed.

(** On a tie the mantissa chosen is even. *)
Lemma round_nearest_even_tie (m : Z) (r : R) (l : location) :
  loc_ok m r l ->
  Rabs (IZR (round_nearest_even m l) - r) = (/ 2)%R ->
  Z.even (round_nearest_even m l) = true.
Proof.
  intros Hl. unfold round_nearest_even.
  destruct l as [|[ | | ]]; simpl in Hl.
  - subst r. rewrite Rminus_diag, Rabs_R0. lra.
  - intros _. destruct (Z.even m) eqn:E; [exact E|].
    rewrite Z.even_add, E. reflexivity.
  - rewrite Rabs_left1 by lra. lra.
  - rewrite plus_IZR, Rabs_right by lra. lra.
Qed.

(** ** The rounding unit

    [binary_round_aux] applied to a non-negative real [rho] located at
    [(mx, lx)] on the grid [2^ex], with [ex] not above the exponent [e1]
    of the format at that magnitude: the result is the integer [m2]
    nearest to [rho / 2^e1] (ties to even) times [2^e1]. *)

Lemma fexp_mono (k k' : Z) : k <= k' -> fexp prec emax k <= fexp prec emax k'.
Proof. unfold fexp. lia. Qed.

Lemma fexp_ge_emin (k : Z) : -1074 <= fexp prec emax k.
Proof. unfold fexp, SpecFloat.emin, emax, prec. lia. Qed.

Lemma fexp_lt (k : Z) : -1074 < k -> fexp prec emax k < k.
Proof. unfold fexp, SpecFloat.emin, emax, prec. lia. Qed.

Lemma Zdigits2_nonneg (m : Z) : 0 <= Zdigits2 m.
Proof. destruct m; simpl; lia. Qed.

Lemma Zdigits2_succ (m : Z) :
  0 < m -> Zdigits2 m < Zdigits2 (m + 1) -> m + 1 = 2 ^ Zdigits2 m.
Proof.
  intros Hm Hd.
  assert (Hd0 := Zdigits2_nonneg m).
  rewrite !Zdigits2_log2 in * by lia.
  pose proof (Z.log2_spec m Hm) as [_ Hhi].
  pose proof (Z.log2_spec (m + 1) ltac:(lia)) as [Hlo _].
  rewrite <- Z.add_1_r in Hhi.
  assert (2 ^ (Z.log2 m + 1) <= 2 ^ Z.log2 (m + 1))
    by (apply Z.pow_le_mono_r; lia).
  lia.
Qed.

Lemma Zdigits2_pow2 (k : Z) : 0 <= k -> Zdigits2 (2 ^ k) = k + 1.
Proof.
  intros Hk. rewrite Zdigits2_log2 by (apply Z.pow_pos_nonneg; lia).
  now rewrite Z.log2_pow2.
Qed.

Lemma bounded_intro (m : positive) (e : Z) :
  fexp prec emax (Zpos (digits2_pos m) + e) = e -> e <= emax - prec ->
  bounded prec emax m e = true.
Proof.
  intros Hc He. unfold bounded, canonical_mantissa.
  apply andb_true_intro. split; [now apply Z.eqb_eq|now apply Z.leb_le].
Qed.

Lemma bra_spec (s : bool) (mx ex : Z) (lx : location) (rho : R) :
  0 <= mx -> ex <= fexp prec emax (Zdigits2 mx + ex) ->
  loc_ok mx (rho / bpow ex) lx ->
  exists m2 : Z,
    0 <= m2 /\
    (Rabs (F2R m2 (fexp prec emax (Zdigits2 mx + ex)) - rho)
     <= bpow (fexp prec emax (Zdigits2 mx + ex)) / 2)%R /\
    (forall k, (rho <= F2R k (fexp prec emax (Zdigits2 mx + ex)))%R ->
               m2 <= k) /\
    (forall k, (F2R k (fexp prec emax (Zdigits2 mx + ex)) <= rho)%R ->
               k <= m2) /\
    (Rabs (F2R m2 (fexp prec emax (Zdigits2 mx + ex)) - rho)
     = bpow (fexp prec emax (Zdigits2 mx + ex)) / 2 ->
     Z.even m2 = true)%R /\
    match binary_round_aux prec emax s mx ex lx with
    | S754_zero s' => s' = s /\ m2 = 0
    | S754_infinity s' =>
        s' = s /\
        (bpow emax <= F2R m2 (fexp prec emax (Zdigits2 mx + ex)))%R
    | S754_finite s' m e =>
        s' = s /\
        F2R (Zpos m) e = F2R m2 (fexp prec emax (Zdigits2 mx + ex)) /\
        bounded prec emax m e = true
    | S754_nan => False
    end.
Proof.
  intros Hmx Hex Hloc. set (e1 := fexp prec emax (Zdigits2 mx + ex)) in *.
  unfold binary_round_aux.
  pose proof (shr_fexp_loc mx ex lx rho Hmx Hloc) as H1.
  destruct (shr_fexp prec emax mx ex lx) as [rec1 e1'].
  destruct H1 as (Hm1 & Hloc1 & He1 & Hm1v).
  fold e1 in He1. replace (Z.max ex e1) with e1 in He1 by lia. subst e1'.
  set (m1 := shr_m rec1) in *.
  pose proof (round_nearest_even_loc m1 _ _ Hloc1) as Hrne.
  set (m2 := round_nearest_even m1 (loc_of_shr_record rec1)) in *.
  cbv zeta in Hrne. destruct Hrne as (Hm2 & Habs & Hle & Hge).
  assert (Hm2pos : 0 <= m2) by lia.
  pose proof (bpow_gt_0 e1) as Hbp.
  exists m2. split; [exact Hm2pos|]. split; [|split; [|split; [|split]]].
  - (* the error *)
    replace (F2R m2 e1 - rho)%R with ((IZR m2 - rho / bpow e1) * bpow e1)%R
      by (unfold F2R; field; lra).
    rewrite Rabs_mult, (Rabs_right (bpow e1)) by lra.
    apply Rle_trans with (/ 2 * bpow e1)%R; [|lra].
    apply Rmult_le_compat_r; lra.
  - intros k Hk. apply Hle. unfold F2R in Hk.
    apply Rmult_le_reg_r with (bpow e1); [exact Hbp|].
    replace (rho / bpow e1 * bpow e1)%R with rho by (field; lra). exact Hk.
  - intros k Hk. apply Hge. unfold F2R in Hk.
    apply Rmult_le_reg_r with (bpow e1); [exact Hbp|].
    replace (rho / bpow e1 * bpow e1)%R with rho by (field; lra). exact Hk.
  - (* a tie goes to the even mantissa *)
    intros Htie. apply (round_nearest_even_tie m1 _ _ Hloc1). fold m2.
    replace (IZR m2 - rho / bpow e1)%R
      with ((F2R m2 e1 - rho) / bpow e1)%R by (unfold F2R; field; lra).
    unfold Rdiv at 1. rewrite Rabs_mult, Htie.
    rewrite (Rabs_right (/ bpow e1)).
    + field. lra.
    + apply Rle_ge, Rlt_le, Rinv_0_lt_compat. exact Hbp.
  - (* the shape of the result *)
    assert (Hfe1 : 0 < m2 -> fexp prec emax (Zdigits2 m2 + e1) = e1
                             \/ (m2 = 2 ^ Zdigits2 m1 /\ 0 < m1 /\
                                 fexp prec emax (Zdigits2 m2 + e1) = e1 + 1)).
    { intros Hpos. destruct (Z.eq_dec m1 0) as [Hz|Hnz].
      - (* underflow to the smallest subnormal *)
        left. assert (Hone : m2 = 1) by lia.
        assert (Hsmall : Zdigits2 mx + ex <= e1).
        { destruct (Z.eq_dec mx 0) as [->|Hmx0].
          - simpl Zdigits2 in *. lia.
          - destruct (Z_lt_le_dec (e1 - ex) (Zdigits2 mx)) as [Hlt|Hge'];
              [|lia].
            destruct (Zdigits2_div_pow2 mx (e1 - ex)) as [Hq _]; lia. }
        assert (He1min : e1 = -1074).
        { subst e1. unfold fexp, SpecFloat.emin, emax, prec in *. lia. }
        rewrite Hone, He1min. reflexivity.
      - assert (Hm1pos : 0 < m1) by lia.
        assert (Hmxpos : 0 < mx).
        { destruct (Z.eq_dec mx 0) as [->|]; [|lia].
          rewrite Z.div_0_l in Hm1v; [lia|].
          apply Z.pow_nonzero; lia. }
        assert (Hsh : e1 - ex < Zdigits2 mx).
        { destruct (Z_lt_le_dec (e1 - ex) (Zdigits2 mx)) as [|Hge'];
            [assumption|].
          rewrite Z.div_small in Hm1v; [lia|]. split; [lia|].
          apply Z.lt_le_trans with (2 ^ Zdigits2 mx).
          - rewrite Zdigits2_log2 by lia. apply Z.log2_spec. lia.
          - apply Z.pow_le_mono_r; lia. }
        destruct (Zdigits2_div_pow2 mx (e1 - ex)) as [_ Hd1]; try lia.
        rewrite <- Hm1v in Hd1.
        assert (Hc1 : fexp prec emax (Zdigits2 m1 + e1) = e1).
        { replace (Zdigits2 m1 + e1) with (Zdigits2 mx + ex) by lia.
          reflexivity. }
        destruct Hm2 as [Hm2|Hm2].
        + left. now rewrite Hm2.
        + destruct (Z_lt_le_dec (Zdigits2 m1) (Zdigits2 m2)) as [Hlt|Hge'].
          * rewrite Hm2 in Hlt.
            pose proof (Zdigits2_succ m1 Hm1pos Hlt) as Hpow.
            assert (Hd2 : Zdigits2 m2 = Zdigits2 m1 + 1).
            { rewrite Hm2, Hpow. apply Zdigits2_pow2, Zdigits2_nonneg. }
            rewrite Hd2.
            unfold fexp in *. unfold SpecFloat.emin, emax, prec in *.
            destruct (Z_le_gt_dec (Zdigits2 m1 + 1 + e1 - 53) (3 - 1024 - 53)).
            -- left. lia.
            -- right. split; [lia|]. split; [lia|]. lia.
          * left. assert (Zdigits2 m1 <= Zdigits2 m2)
              by (apply Zdigits2_mono; lia).
            replace (Zdigits2 m2) with (Zdigits2 m1) by lia. exact Hc1. }
    pose proof (shr_fexp_loc m2 e1 loc_Exact (F2R m2 e1) Hm2pos) as H2.
    destruct (shr_fexp prec emax m2 e1 loc_Exact) as [rec2 e2].
    destruct H2 as (Hm3 & _ & He2 & Hm3v).
    { simpl. unfold F2R. field. lra. }
    destruct (Z.eq_dec m2 0) as [Hz|Hnz].
    + rewrite Hz in Hm3v. rewrite Z.div_0_l in Hm3v
        by (apply Z.pow_nonzero; lia).
      rewrite Hm3v. split; [reflexivity|exact Hz].
    + destruct (Hfe1 ltac:(lia)) as [Hc|(Hpow & Hm1pos & Hc)].
      * (* no second shift *)
        rewrite Hc in He2. replace (Z.max e1 e1) with e1 in He2 by lia.
        subst e2. rewrite Z.sub_diag, Z.pow_0_r, Z.div_1_r in Hm3v.
        rewrite Hm3v. destruct m2 as [|p|p]; try lia.
        destruct (e1 <=? emax - prec) eqn:Hov.
        -- split; [reflexivity|]. split; [reflexivity|].
           apply bounded_intro; [exact Hc|now apply Z.leb_le].
        -- split; [reflexivity|]. apply Z.leb_gt in Hov.
           assert (Hd : Zdigits2 (Zpos p) = prec).
           { unfold fexp, SpecFloat.emin, emax, prec in *. lia. }
           pose proof (digits_bounds_R (Zpos p) ltac:(lia)) as [Hlo _].
           unfold F2R. apply Rle_trans with (bpow (prec - 1) * bpow e1)%R.
           ++ rewrite <- bpow_add. apply bpow_le. unfold emax, prec in *. lia.
           ++ apply Rmult_le_compat_r; [lra|]. now rewrite Hd in Hlo.
      * (* the carry: one more shift, exact *)
        rewrite Hc in He2. replace (Z.max e1 (e1 + 1)) with (e1 + 1) in He2
          by lia.
        subst e2. replace (e1 + 1 - e1) with 1 in Hm3v by lia.
        assert (Hd1 : 1 <= Zdigits2 m1)
          by (rewrite Zdigits2_log2 by lia; pose proof (Z.log2_nonneg m1); lia).
        assert (Hm3e : shr_m rec2 = 2 ^ (Zdigits2 m1 - 1)).
        { rewrite Hm3v, Hpow.
          replace (Zdigits2 m1) with (Zdigits2 m1 - 1 + 1) at 1 by lia.
          rewrite Z.pow_add_r by lia. now rewrite Z.div_mul. }
        assert (Hval : F2R (shr_m rec2) (e1 + 1) = F2R m2 e1).
        { rewrite Hm3e, Hpow. unfold F2R.
          rewrite !IZR_pow2 by lia. rewrite <- !bpow_add. f_equal. lia. }
        assert (Hd3 : Zdigits2 (shr_m rec2) = Zdigits2 m1).
        { rewrite Hm3e, Zdigits2_pow2 by lia. lia. }
        assert (Hd2 : Zdigits2 m2 = Zdigits2 m1 + 1).
        { rewrite Hpow. apply Zdigits2_pow2. lia. }
        destruct (shr_m rec2) as [|p|p] eqn:Ep.
        -- exfalso. assert (0 < 2 ^ (Zdigits2 m1 - 1))
             by (apply Z.pow_pos_nonneg; lia). lia.
        -- destruct (e1 + 1 <=? emax - prec) eqn:Hov.
           ++ split; [reflexivity|]. split; [exact Hval|].
              apply bounded_intro; [|now apply Z.leb_le].
              change (Zpos (digits2_pos p)) with (Zdigits2 (Zpos p)).
              rewrite Hd3. rewrite <- Hc. f_equal. lia.
           ++ split; [reflexivity|]. apply Z.leb_gt in Hov.
              rewrite <- Hval.
              assert (Hd : Zdigits2 (Zpos p) = prec).
              { rewrite Hd3. rewrite Hd2 in Hc.
                unfold fexp, SpecFloat.emin, emax, prec in *. lia. }
              pose proof (digits_bounds_R (Zpos p) ltac:(lia)) as [Hlo _].
              unfold F2R.
              apply Rle_trans with (bpow (prec - 1) * bpow (e1 + 1))%R.
              ** rewrite <- bpow_add. apply bpow_le.
                 unfold emax, prec in *. lia.
              ** pose proof (bpow_gt_0 (e1 + 1)).
                 apply Rmult_le_compat_r; [lra|]. now rewrite Hd in Hlo.
        -- lia.
Qed.

(** ** Correct rounding *)

Lemma F2R_le (m m' e : Z) : m <= m' -> (F2R m e <= F2R m' e)%R.
Proof.
  intros H. unfold F2R. apply Rmult_le_compat_r.
  - apply Rlt_le, bpow_gt_0.
  - now apply IZR_le.
Qed.

Lemma F2R_bounds (m e : Z) :
  0 < m ->
  (bpow (Zdigits2 m + e - 1) <= F2R m e < bpow (Zdigits2 m + e))%R.
Proof.
  intros Hm. pose proof (digits_bounds_R m Hm) as [Hlo Hhi].
  pose proof (bpow_gt_0 e) as Hp. unfold F2R.
  replace (Zdigits2 m + e - 1) with (Zdigits2 m - 1 + e) by lia.
  rewrite !bpow_add. split.
  - apply Rmult_le_compat_r; lra.
  - apply Rmult_lt_compat_r; lra.
Qed.

Lemma bra_rounded (s : bool) (mx ex : Z) (lx : location) (rho : R) :
  0 <= mx -> ex <= fexp prec emax (Zdigits2 mx + ex) ->
  loc_ok mx (rho / bpow ex) lx ->
  rounded s rho (binary_round_aux prec emax s mx ex lx).
Proof.
  intros Hmx Hex Hloc.
  destruct (bra_spec s mx ex lx rho Hmx Hex Hloc)
    as (m2 & Hm2 & Habs & Hle & Hge & Hev & Hshape).
  set (e1 := fexp prec emax (Zdigits2 mx + ex)) in *.
  exists m2, e1.
  pose proof (loc_ok_bounds _ _ _ Hloc) as [Hlo Hhi].
  pose proof (bpow_gt_0 ex) as Hpx.
  assert (Hrlo : (F2R mx ex <= rho)%R).
  { unfold F2R. apply Rmult_le_reg_r with (/ bpow ex)%R.
    - now apply Rinv_0_lt_compat.
    - rewrite Rmult_assoc, Rinv_r by lra. unfold Rdiv in Hlo. lra. }
  assert (Hrhi : (rho < F2R (mx + 1) ex)%R).
  { unfold F2R. rewrite plus_IZR. apply Rmult_lt_reg_r with (/ bpow ex)%R.
    - now apply Rinv_0_lt_compat.
    - rewrite Rmult_assoc, Rinv_r by lra. unfold Rdiv in Hhi. lra. }
  repeat split; try assumption.
  - apply fexp_ge_emin.
  - (* rho below the top of its binade *)
    apply Rlt_le_trans with (1 := Hrhi).
    apply Rle_trans with (bpow (Zdigits2 mx + ex)).
    + destruct (Z.eq_dec mx 0) as [->|Hnz].
      * simpl. unfold F2R. rewrite Rmult_1_l. apply Rle_refl.
      * assert (H : (IZR (mx + 1) <= bpow (Zdigits2 mx))%R).
        { rewrite <- IZR_pow2 by apply Zdigits2_nonneg. apply IZR_le.
          assert (mx < 2 ^ Zdigits2 mx); [|lia].
          rewrite Zdigits2_log2 by lia. apply Z.log2_spec. lia. }
        unfold F2R. rewrite bpow_add. apply Rmult_le_compat_r; lra.
    + apply bpow_le. subst e1. unfold fexp, prec. lia.
  - (* and, in the normal range, in it *)
    destruct (Z.eq_dec e1 (-1074)) as [He|He]; [now left|right].
    assert (Hmxpos : 0 < mx).
    { destruct (Z.eq_dec mx 0) as [Hz|]; [|lia].
      subst mx e1. simpl Zdigits2 in *.
      unfold fexp, SpecFloat.emin, emax, prec in *. lia. }
    apply Rle_trans with (2 := Hrlo).
    apply Rle_trans with (bpow (Zdigits2 mx + ex - 1)).
    + apply bpow_le. subst e1.
      unfold fexp, SpecFloat.emin, emax, prec in *. lia.
    + now apply F2R_bounds.
Qed.

(** *** Values of the format *)

Lemma bounded_elim (m : positive) (e : Z) :
  bounded prec emax m e = true ->
  fexp prec emax (Zpos (digits2_pos m) + e) = e /\ e <= emax - prec /\
  -1074 <= e /\ Zpos (digits2_pos m) <= prec /\
  (e = -1074 \/ Zpos (digits2_pos m) = prec).
Proof.
  unfold bounded, canonical_mantissa. intros H.
  apply andb_prop in H. destruct H as [Hc He].
  apply Z.eqb_eq in Hc. apply Z.leb_le in He.
  split; [exact Hc|]. split; [exact He|].
  unfold fexp, SpecFloat.emin, emax, prec in *. lia.
Qed.

Lemma bounded_lt_emax (m : positive) (e : Z) :
  bounded prec emax m e = true -> (F2R (Zpos m) e < bpow emax)%R.
Proof.
  intros H. apply bounded_elim in H. destruct H as (_ & He & _ & Hd & _).
  pose proof (F2R_bounds (Zpos m) e ltac:(lia)) as [_ Hhi].
  apply Rlt_le_trans with (1 := Hhi). apply bpow_le.
  simpl Zdigits2. lia.
Qed.

Lemma F2R_pos (m : positive) (e : Z) : (0 < F2R (Zpos m) e)%R.
Proof.
  unfold F2R. apply Rmult_lt_0_compat; [|apply bpow_gt_0].
  apply IZR_lt. lia.
Qed.

(** A value of the format above [rho] is above the rounding of [rho]. *)
Lemma rounded_grid_le (s : bool) (rho : R) (r : binary64) (mf : positive)
      (ef : Z) (m2 e1 : Z) :
  -1074 <= e1 ->
  (e1 = -1074 \/ (bpow (e1 + prec - 1) <= rho)%R) ->
  (forall k, (rho <= F2R k e1)%R -> m2 <= k) ->
  bounded prec emax mf ef = true ->
  (rho <= F2R (Zpos mf) ef)%R ->
  (F2R m2 e1 <= F2R (Zpos mf) ef)%R.
Proof.
  intros He1 Hnorm Hle Hb Hrho.
  destruct (bounded_elim _ _ Hb) as (Hc & _ & Hef & Hd & _).
  destruct (Z_le_gt_dec e1 ef) as [Hge|Hlt].
  - replace ef with (e1 + (ef - e1)) by lia.
    rewrite <- F2R_shift by lia. apply F2R_le. apply Hle.
    rewrite F2R_shift by lia. now replace (e1 + (ef - e1)) with ef by lia.
  - exfalso. destruct Hnorm as [->|Hnorm]; [lia|].
    pose proof (F2R_bounds (Zpos mf) ef ltac:(lia)) as [_ Hhi].
    assert (bpow (Zdigits2 (Zpos mf) + ef) <= bpow (e1 + prec - 1))%R
      by (apply bpow_le; simpl Zdigits2; lia).
    lra.
Qed.

(** A value of the format below [rho] is below the rounding of [rho]. *)
Lemma rounded_grid_ge (rho : R) (mf : positive) (ef : Z) (m2 e1 : Z) :
  -1074 <= e1 ->
  (e1 = -1074 \/ (bpow (e1 + prec - 1) <= rho)%R) ->
  (forall k, (F2R k e1 <= rho)%R -> k <= m2) ->
  bounded prec emax mf ef = true ->
  (F2R (Zpos mf) ef <= rho)%R ->
  (F2R (Zpos mf) ef <= F2R m2 e1)%R.
Proof.
  intros He1 Hnorm Hge Hb Hrho.
  destruct (bounded_elim _ _ Hb) as (Hc & _ & Hef & Hd & _).
  destruct (Z_le_gt_dec e1 ef) as [Hge'|Hlt].
  - replace ef with (e1 + (ef - e1)) at 1 by lia.
    rewrite <- F2R_shift by lia. apply F2R_le. apply Hge.
    rewrite F2R_shift by lia. now replace (e1 + (ef - e1)) with ef by lia.
  - destruct Hnorm as [->|Hnorm]; [lia|].
    pose proof (F2R_bounds (Zpos mf) ef ltac:(lia)) as [_ Hhi].
    assert (H1 : (bpow (Zdigits2 (Zpos mf) + ef) <= bpow (e1 + prec - 1))%R)
      by (apply bpow_le; simpl Zdigits2; lia).
    assert (H2 : 2 ^ (prec - 1) <= m2).
    { apply Hge. unfold F2R. rewrite IZR_pow2 by (unfold prec; lia).
      rewrite <- bpow_add. now replace (prec - 1 + e1) with (e1 + prec - 1)
        by lia. }
    apply (F2R_le _ _ e1) in H2. unfold F2R at 1 in H2.
    rewrite IZR_pow2, <- bpow_add in H2 by (unfold prec; lia).
    replace (prec - 1 + e1) with (e1 + prec - 1) in H2 by lia. lra.
Qed.

Lemma Bmag_finite (s : bool) (m : positive) (e : Z) :
  Bmag (S754_finite s m e) = F2R (Zpos m) e.
Proof.
  unfold Bmag, B2R, F2R. pose proof (bpow_gt_0 e).
  rewrite Rabs_mult, (Rabs_right (bpow e)) by lra. f_equal.
  destruct s; simpl cond_Zopp.
  - rewrite Rabs_left; [|apply IZR_lt; lia].
    rewrite <- opp_IZR. reflexivity.
  - apply Rabs_right. apply Rle_ge, IZR_le. lia.
Qed.

Lemma Bmag_zero (s : bool) : Bmag (S754_zero s) = 0%R.
Proof. unfold Bmag. simpl. apply Rabs_R0. Qed.

Lemma rounded_is_binary64 (s : bool) (rho : R) (r : binary64) :
  rounded s rho r -> is_binary64 r = true.
Proof.
  intros (m2 & e1 & _ & _ & _ & _ & _ & _ & _ & _ & Hs).
  destruct r as [s'|s'| |s' m e]; try reflexivity.
  apply Hs.
Qed.

Lemma rounded_not_nan (s : bool) (rho : R) (r : binary64) :
  rounded s rho r -> r <> S754_nan.
Proof.
  intros (m2 & e1 & _ & _ & _ & _ & _ & _ & _ & _ & Hs) ->. exact Hs.
Qed.

(** Rounding does not cross a value of the format, from below... *)
Lemma rounded_le_float (s : bool) (rho : R) (r : binary64) (mf : positive)
      (ef : Z) :
  rounded s rho r -> bounded prec emax mf ef = true ->
  (rho <= F2R (Zpos mf) ef)%R ->
  is_finite r = true /\ (Bmag r <= F2R (Zpos mf) ef)%R.
Proof.
  intros (m2 & e1 & Hm2 & He1 & Hhi & Hnorm & Habs & Hle & Hge & Hev & Hs)
         Hb Hrho.
  pose proof (rounded_grid_le s rho r mf ef m2 e1 He1 Hnorm Hle Hb Hrho) as H.
  pose proof (bounded_lt_emax _ _ Hb) as Hmax.
  destruct r as [s'|s'| |s' m e].
  - split; [reflexivity|]. rewrite Bmag_zero.
    apply Rlt_le, F2R_pos.
  - destruct Hs as [_ Hs]. lra.
  - contradiction.
  - destruct Hs as (_ & Hv & _). split; [reflexivity|].
    rewrite Bmag_finite, Hv. exact H.
Qed.

(** ... nor from above. *)
Lemma rounded_ge_float (s : bool) (rho : R) (r : binary64) (mf : positive)
      (ef : Z) :
  rounded s rho r -> bounded prec emax mf ef = true ->
  (F2R (Zpos mf) ef <= rho)%R ->
  r = S754_infinity s \/
  (exists m e, r = S754_finite s m e /\
               (F2R (Zpos mf) ef <= F2R (Zpos m) e)%R).
Proof.
  intros (m2 & e1 & Hm2 & He1 & Hhi & Hnorm & Habs & Hle & Hge & Hev & Hs)
         Hb Hrho.
  pose proof (rounded_grid_ge rho mf ef m2 e1 He1 Hnorm Hge Hb Hrho) as H.
  pose proof (F2R_pos mf ef) as Hpos.
  destruct r as [s'|s'| |s' m e].
  - destruct Hs as [_ ->]. unfold F2R at 2 in H. rewrite Rmult_0_l in H. lra.
  - left. destruct Hs as [-> _]. reflexivity.
  - contradiction.
  - right. destruct Hs as (-> & Hv & _). exists m, e.
    split; [reflexivity|]. now rewrite Hv.
Qed.

(** The error of rounding: half a unit of the grid, which in the normal
    range is at most [2^-53] of the real. *)
Lemma rounded_error (s : bool) (rho : R) (r : binary64) :
  rounded s rho r -> is_finite r = true ->
  (bpow (-1022) <= rho)%R ->
  (Rabs (Bmag r - rho) <= bpow (-53) * rho)%R.
Proof.
  intros (m2 & e1 & Hm2 & He1 & Hhi & Hnorm & Habs & Hle & Hge & Hev & Hs)
         Hfin Hrho.
  assert (He : (bpow e1 / 2 <= bpow (-53) * rho)%R).
  { destruct Hnorm as [->|Hnorm].
    - apply Rle_trans with (bpow (-53) * bpow (-1022))%R.
      + rewrite <- bpow_add, <- bpow_pred. apply bpow_le. lia.
      + apply Rmult_le_compat_l; [apply Rlt_le, bpow_gt_0|exact Hrho].
    - apply Rle_trans with (bpow (-53) * bpow (e1 + prec - 1))%R.
      + rewrite <- bpow_add, <- bpow_pred. apply bpow_le. unfold prec. lia.
      + apply Rmult_le_compat_l; [apply Rlt_le, bpow_gt_0|exact Hnorm]. }
  assert (Hv : Bmag r = F2R m2 e1).
  { destruct r as [s'|s'| |s' m e]; try discriminate Hfin.
    - destruct Hs as [_ ->]. rewrite Bmag_zero. unfold F2R. ring.
    - destruct Hs as (_ & Hv & _). now rewrite Bmag_finite. }
  rewrite Hv. lra.
Qed.

Lemma rounded_error_abs (s : bool) (rho : R) (r : binary64) :
  rounded s rho r -> is_finite r = true ->
  (rho < bpow (-1021))%R ->
  (Rabs (Bmag r - rho) <= bpow (-1075))%R.
Proof.
  intros (m2 & e1 & Hm2 & He1 & Hhi & Hnorm & Habs & Hle & Hge & Hev & Hs)
         Hfin Hrho.
  assert (He : e1 = -1074).
  { destruct Hnorm as [->|Hnorm]; [reflexivity|].
    assert (Hlt : (bpow (e1 + prec - 1) < bpow (-1021))%R) by lra.
    apply bpow_lt_inv in Hlt. unfold prec in Hlt. lia. }
  subst e1.
  assert (Hv : Bmag r = F2R m2 (-1074)).
  { destruct r as [s'|s'| |s' m e]; try discriminate Hfin.
    - destruct Hs as [_ ->]. rewrite Bmag_zero. unfold F2R. ring.
    - destruct Hs as (_ & Hv & _). now rewrite Bmag_finite. }
  rewrite Hv. rewrite bpow_pred in *.
  replace (bpow (-1075)) with (bpow (-1074) / 2)%R; [exact Habs|].
  now rewrite <- bpow_pred.
Qed.

(** ** The operations *)

Lemma shl_align_value (m : positive) (e e' : Z) :
  F2R (Zpos (fst (shl_align m e e'))) (snd (shl_align m e e'))
  = F2R (Zpos m) e.
Proof.
  unfold shl_align. destruct (e' - e) as [|d|d] eqn:Hd; simpl fst; simpl snd;
    try reflexivity.
  rewrite iter_xO, F2R_shift by lia. f_equal. lia.
Qed.

Lemma shl_align_snd (m : positive) (e e' : Z) :
  e' <= e -> snd (shl_align m e e') = e'.
Proof.
  intros H. unfold shl_align. destruct (e' - e) as [|d|d] eqn:Hd; simpl snd;
    lia.
Qed.

Lemma loc_exact_F2R (m e : Z) : loc_ok m (F2R m e / bpow e) loc_Exact.
Proof. simpl. unfold F2R. pose proof (bpow_gt_0 e). field. lra. Qed.

(** [binary_round] rounds [m * 2^e] correctly. *)
Lemma binary_round_rounded (s : bool) (m : positive) (e : Z) :
  rounded s (F2R (Zpos m) e) (binary_round prec emax s m e).
Proof.
  unfold binary_round.
  pose proof (shl_align_value m e (fexp prec emax (Zpos (digits2_pos m) + e)))
    as Hv.
  pose proof (shl_align_bexp m e (fexp prec emax (Zpos (digits2_pos m) + e)))
    as Hd.
  destruct (shl_align m e (fexp prec emax (Zpos (digits2_pos m) + e)))
    as [mz ez] eqn:Hsa.
  simpl fst in Hv. simpl snd in Hv. destruct Hd as [Hd Hez].
  rewrite <- Hv. apply bra_rounded; [lia| |apply loc_exact_F2R].
  simpl Zdigits2. rewrite Hd.
  destruct (Z_le_gt_dec (fexp prec emax (Zpos (digits2_pos m) + e)) e)
    as [Hle|Hgt].
  - rewrite (Hez Hle). lia.
  - unfold shl_align in Hsa.
    destruct (fexp prec emax (Z.pos (digits2_pos m) + e) - e) eqn:E;
      try lia; injection Hsa as <- <-; lia.
Qed.

Lemma binary_normalize_rounded (z e : Z) :
  match z with
  | Z0 => binary_normalize prec emax z e false = S754_zero false
  | Zpos m => rounded false (F2R z e) (binary_normalize prec emax z e false)
  | Zneg m => rounded true (- F2R z e) (binary_normalize prec emax z e false)
  end.
Proof.
  destruct z as [|m|m]; simpl binary_normalize.
  - reflexivity.
  - apply binary_round_rounded.
  - replace (- F2R (Zneg m) e)%R with (F2R (Zpos m) e).
    + apply binary_round_rounded.
    + unfold F2R. change (Zneg m) with (- Zpos m). rewrite opp_IZR. ring.
Qed.

(** Multiplication of two finite non-zero values of the format. *)
Lemma mul_digits (mx my : positive) :
  Zpos (digits2_pos mx) + Zpos (digits2_pos my) - 1
  <= Zpos (digits2_pos (mx * my)).
Proof.
  pose proof (digits2_pos_lower mx) as Hx.
  pose proof (digits2_pos_lower my) as Hy.
  assert (H0x : 0 <= Zpos (digits2_pos mx) - 1) by lia.
  assert (H0y : 0 <= Zpos (digits2_pos my) - 1) by lia.
  assert (Hp : 2 ^ (Zpos (digits2_pos mx) - 1 + (Zpos (digits2_pos my) - 1))
               <= Zpos (mx * my)).
  { rewrite Z.pow_add_r by lia. rewrite Pos2Z.inj_mul.
    apply Z.mul_le_mono_nonneg; try lia; apply Z.pow_nonneg; lia. }
  rewrite (digits2_pos_log2 (mx * my)).
  apply Z.log2_le_pow2 in Hp; lia.
Qed.

Lemma mul_rounded (sx sy : bool) (mx my : positive) (ex ey : Z) :
  bounded prec emax mx ex = true -> bounded prec emax my ey = true ->
  rounded (xorb sx sy) (F2R (Zpos mx) ex * F2R (Zpos my) ey)
          (S754_finite sx mx ex * S754_finite sy my ey)%b64.
Proof.
  intros Hx Hy. unfold b64_mul, SFmul.
  destruct (bounded_elim _ _ Hx) as (_ & _ & Hex & Hdx & Hnx).
  destruct (bounded_elim _ _ Hy) as (_ & _ & Hey & Hdy & Hny).
  pose proof (mul_digits mx my) as Hd.
  assert (Hv : (F2R (Zpos mx) ex * F2R (Zpos my) ey
                = F2R (Zpos (mx * my)) (ex + ey))%R).
  { unfold F2R. rewrite Pos2Z.inj_mul, mult_IZR, bpow_add. ring. }
  rewrite Hv. apply bra_rounded; [lia| |apply loc_exact_F2R].
  simpl Zdigits2. unfold fexp, SpecFloat.emin, emax, prec in *. lia.
Qed.

(** Division of two positive finite values. *)
Lemma new_location_loc (d r : Z) (q : Z) :
  0 < d -> 0 <= r < d ->
  loc_ok q (IZR q + IZR r / IZR d) (new_location d r).
Proof.
  intros Hd Hr.
  assert (HdR : (0 < IZR d)%R) by (apply IZR_lt; lia).
  assert (Hfrac : forall c : R, (IZR r / IZR d < c)%R <-> (IZR r < c * IZR d)%R).
  { intros c. split; intros H.
    - apply Rmult_lt_reg_r with (/ IZR d)%R; [now apply Rinv_0_lt_compat|].
      rewrite Rmult_assoc, Rinv_r by lra. unfold Rdiv in H. lra.
    - unfold Rdiv. apply Rmult_lt_reg_r with (IZR d); [exact HdR|].
      rewrite Rmult_assoc, Rinv_l by lra. lra. }
  assert (Hfrac' : forall c : R, (c < IZR r / IZR d)%R <-> (c * IZR d < IZR r)%R).
  { intros c. split; intros H.
    - apply Rmult_lt_reg_r with (/ IZR d)%R; [now apply Rinv_0_lt_compat|].
      rewrite Rmult_assoc, Rinv_r by lra. unfold Rdiv in H. lra.
    - unfold Rdiv. apply Rmult_lt_reg_r with (IZR d); [exact HdR|].
      rewrite Rmult_assoc, Rinv_l by lra. lra. }
  assert (H2r : IZR (2 * r) = (2 * IZR r)%R) by (rewrite mult_IZR; reflexivity).
  unfold new_location.
  destruct (Z.eqb_spec r 0) as [->|Hr0].
  - destruct (Z.even d); simpl; unfold Rdiv; ring.
  - assert (Hrpos : (0 < IZR r)%R) by (apply IZR_lt; lia).
    assert (Hpos : (0 < IZR r / IZR d)%R).
    { apply Hfrac'. lra. }
    assert (Hlt1 : (IZR r / IZR d < 1)%R).
    { apply Hfrac. rewrite Rmult_1_l. apply IZR_lt. lia. }
    assert (Hr0' : (r =? 0) = false) by now apply Z.eqb_neq.
    destruct (Z.even d) eqn:Hev.
    + unfold new_location_even. rewrite Hr0'.
      destruct (Z.compare_spec (2 * r) d) as [He|Hl|Hg]; simpl.
      * apply (f_equal IZR) in He. rewrite H2r in He.
        assert (E : (IZR r / IZR d = / 2)%R).
        { apply Rmult_eq_reg_r with (IZR d); [|lra].
          unfold Rdiv. rewrite Rmult_assoc, Rinv_l by lra. lra. }
        rewrite E. reflexivity.
      * apply IZR_lt in Hl. rewrite H2r in Hl.
        split; [lra|]. apply Rplus_lt_compat_l. apply Hfrac. lra.
      * apply IZR_lt in Hg. rewrite H2r in Hg.
        split; [|lra]. apply Rplus_lt_compat_l. apply Hfrac'. lra.
    + assert (Hne : 2 * r <> d).
      { intros He. rewrite <- He in Hev.
        rewrite Z.even_mul in Hev. discriminate. }
      unfold new_location_odd. rewrite Hr0'.
      destruct (Z.compare_spec (2 * r + 1) d) as [He|Hl|Hg]; simpl.
      * assert (Hl : 2 * r < d) by lia.
        apply IZR_lt in Hl. rewrite H2r in Hl.
        split; [lra|]. apply Rplus_lt_compat_l. apply Hfrac. lra.
      * assert (Hl' : 2 * r < d) by lia.
        apply IZR_lt in Hl'. rewrite H2r in Hl'.
        split; [lra|]. apply Rplus_lt_compat_l. apply Hfrac. lra.
      * assert (Hg' : d < 2 * r) by lia.
        apply IZR_lt in Hg'. rewrite H2r in Hg'.
        split; [|lra]. apply Rplus_lt_compat_l. apply Hfrac'. lra.
Qed.

Lemma div_rounded (sx sy : bool) (mx my : positive) (ex ey : Z) :
  rounded (xorb sx sy) (F2R (Zpos mx) ex / F2R (Zpos my) ey)
          (S754_finite sx mx ex / S754_finite sy my ey)%b64.
Proof.
  unfold b64_div, SFdiv.
  destruct (SFdiv_core_binary prec emax (Zpos mx) ex (Zpos my) ey)
    as [[q e'] l] eqn:Hcore.
  unfold SFdiv_core_binary in Hcore.
  set (D := Zdigits2 (Zpos mx) + ex - (Zdigits2 (Zpos my) + ey)) in *.
  set (e1 := Z.min (fexp prec emax D) (ex - ey)) in Hcore.
  set (sh := ex - ey - e1) in Hcore.
  assert (Hsh : 0 <= sh) by (subst sh e1; lia).
  set (m' := match sh with Z0 => Zpos mx | Zpos _ => Z.shiftl (Zpos mx) sh
                           | Zneg _ => 0 end) in Hcore.
  assert (Hm' : m' = Zpos mx * 2 ^ sh).
  { subst m'. destruct sh as [|p|p] eqn:Es; try lia.
    now rewrite Z.shiftl_mul_pow2 by lia. }
  pose proof (Z_div_mod m' (Zpos my) eq_refl) as Hdm.
  destruct (Z.div_eucl m' (Zpos my)) as [q0 r0].
  injection Hcore as <- <- <-. destruct Hdm as [Hdm Hr0].
  assert (H2sh : 0 < 2 ^ sh) by (apply Z.pow_pos_nonneg; lia).
  assert (Hq0 : 0 <= q0) by nia.
  pose proof (bpow_gt_0 e1) as Hbe1. pose proof (bpow_gt_0 ey) as Hbey.
  assert (HmyR : (0 < IZR (Zpos my))%R) by (apply IZR_lt; lia).
  (* the real quotient on the grid of e1 *)
  assert (Hrho : (F2R (Zpos mx) ex / F2R (Zpos my) ey / bpow e1
                  = IZR q0 + IZR r0 / IZR (Zpos my))%R).
  { assert (Hmx : (IZR (Zpos mx) * bpow sh
                   = IZR (Zpos my) * IZR q0 + IZR r0)%R).
    { rewrite <- IZR_pow2, <- !mult_IZR, <- plus_IZR by lia.
      f_equal. lia. }
    assert (Hex : bpow ex = (bpow sh * bpow ey * bpow e1)%R).
    { rewrite <- !bpow_add. f_equal. subst sh. lia. }
    unfold F2R. rewrite Hex. pose proof (bpow_gt_0 sh).
    transitivity ((IZR (Zpos mx) * bpow sh) / IZR (Zpos my))%R.
    - field. repeat split; lra.
    - rewrite Hmx. field. lra. }
  apply bra_rounded; [exact Hq0| |].
  - (* the exponent is low enough *)
    destruct (Z.eq_dec q0 0) as [->|Hq0nz].
    + simpl Zdigits2.
      assert (Hsmall : m' < Zpos my) by nia.
      assert (He1 : e1 <= -1074).
      { destruct (Z_le_gt_dec e1 (-1074)) as [|Hgt]; [assumption|exfalso].
        assert (Hs53 : Zdigits2 (Zpos my) - Zdigits2 (Zpos mx) + 53 <= sh).
        { subst sh e1 D. unfold fexp, SpecFloat.emin, emax, prec in *. lia. }
        pose proof (digits2_pos_lower mx) as Hlx.
        pose proof (digits2_pos_bound my) as Hhy.
        simpl Zdigits2 in Hs53.
        assert (Hpw : 2 ^ Zpos (digits2_pos my)
                      <= 2 ^ (Zpos (digits2_pos mx) - 1) * 2 ^ sh).
        { rewrite <- Z.pow_add_r by lia. apply Z.pow_le_mono_r; lia. }
        assert (0 < 2 ^ (Zpos (digits2_pos mx) - 1))
          by (apply Z.pow_pos_nonneg; lia).
        nia. }
      unfold fexp, SpecFloat.emin, emax, prec in *. lia.
    + assert (Hq0pos : 0 < q0) by lia.
      assert (Hdq : Zdigits2 (Zpos mx) + sh - Zdigits2 (Zpos my)
                    <= Zdigits2 q0).
      { simpl Zdigits2 at 1 2.
        set (da := Zpos (digits2_pos mx)). set (dy := Zpos (digits2_pos my)).
        destruct (Z_le_gt_dec (da + sh - dy) 1) as [Hsm|Hbig].
        - rewrite Zdigits2_log2 by lia. pose proof (Z.log2_nonneg q0). lia.
        - pose proof (digits2_pos_lower mx) as Hlx. fold da in Hlx.
          pose proof (digits2_pos_bound my) as Hhy. fold dy in Hhy.
          assert (Hda1 : 0 <= da - 1) by (subst da; lia).
          assert (Hdy0 : 0 <= dy) by (subst dy; lia).
          assert (Hlow : 2 ^ (da - 1 + sh - dy) <= q0).
          { assert (Hp : 2 ^ (da - 1 + sh - dy) * 2 ^ dy
                         = 2 ^ (da - 1) * 2 ^ sh).
            { rewrite <- !Z.pow_add_r by lia. f_equal. lia. }
            assert (0 < 2 ^ (da - 1 + sh - dy))
              by (apply Z.pow_pos_nonneg; lia).
            nia. }
          rewrite Zdigits2_log2 by lia.
          apply Z.log2_le_pow2 in Hlow; lia. }
      apply Z.le_trans with (fexp prec emax D); [subst e1; lia|].
      apply fexp_mono. subst D sh. lia.
  - rewrite Hrho. apply new_location_loc; lia.
Qed.

(** Addition and subtraction of two finite non-zero values. *)
Lemma B2R_finite (s : bool) (m : positive) (e : Z) :
  B2R (S754_finite s m e) = F2R (cond_Zopp s (Zpos m)) e.
Proof. reflexivity. Qed.

Lemma F2R_cond_Zopp (s : bool) (m : positive) (e : Z) :
  F2R (cond_Zopp s (Zpos m)) e
  = (if s then - F2R (Zpos m) e else F2R (Zpos m) e)%R.
Proof.
  destruct s; simpl cond_Zopp; [|reflexivity].
  unfold F2R. change (Zneg m) with (- Zpos m). rewrite opp_IZR. ring.
Qed.

Lemma aligned_value (s : bool) (m : positive) (e ez : Z) :
  ez <= e ->
  F2R (cond_Zopp s (Zpos (fst (shl_align m e ez)))) ez
  = B2R (S754_finite s m e).
Proof.
  intros H. rewrite B2R_finite, !F2R_cond_Zopp.
  pose proof (shl_align_value m e ez) as Hv.
  rewrite (shl_align_snd m e ez H) in Hv. now rewrite Hv.
Qed.

Lemma F2R_plus (m1 m2 e : Z) : F2R (m1 + m2) e = (F2R m1 e + F2R m2 e)%R.
Proof. unfold F2R. rewrite plus_IZR. ring. Qed.

Lemma F2R_minus (m1 m2 e : Z) : F2R (m1 - m2) e = (F2R m1 e - F2R m2 e)%R.
Proof. unfold F2R. rewrite minus_IZR. ring. Qed.

Lemma F2R_sign (z e : Z) :
  match z with
  | Z0 => F2R z e = 0%R
  | Zpos _ => (0 < F2R z e)%R
  | Zneg _ => (F2R z e < 0)%R
  end.
Proof.
  pose proof (bpow_gt_0 e). unfold F2R. destruct z as [|p|p].
  - ring.
  - apply Rmult_lt_0_compat; [apply IZR_lt; lia|assumption].
  - assert (IZR (Zneg p) < 0)%R by (apply IZR_lt; lia). nra.
Qed.

Lemma binary_normalize_signed (z e : Z) :
  rounded_signed (F2R z e) (binary_normalize prec emax z e false).
Proof.
  pose proof (binary_normalize_rounded z e) as H.
  pose proof (F2R_sign z e) as Hs.
  unfold rounded_signed. destruct z as [|p|p]; repeat split; intros Hv;
    try lra; try assumption.
Qed.

Lemma add_rounded (sx sy : bool) (mx my : positive) (ex ey : Z) :
  rounded_signed
    (B2R (S754_finite sx mx ex) + B2R (S754_finite sy my ey))
    (S754_finite sx mx ex + S754_finite sy my ey)%b64.
Proof.
  unfold b64_add, SFadd. set (ez := Z.min ex ey).
  rewrite <- (aligned_value sx mx ex ez), <- (aligned_value sy my ey ez)
    by (subst ez; lia).
  rewrite <- F2R_plus. apply binary_normalize_signed.
Qed.

Lemma sub_rounded (sx sy : bool) (mx my : positive) (ex ey : Z) :
  rounded_signed
    (B2R (S754_finite sx mx ex) - B2R (S754_finite sy my ey))
    (S754_finite sx mx ex - S754_finite sy my ey)%b64.
Proof.
  unfold b64_sub, SFsub. set (ez := Z.min ex ey).
  rewrite <- (aligned_value sx mx ex ez), <- (aligned_value sy my ey ez)
    by (subst ez; lia).
  rewrite <- F2R_minus. apply binary_normalize_signed.
Qed.

(** ** Comparisons *)

Lemma bounded_lt (m1 m2 : positive) (e1 e2 : Z) :
  bounded prec emax m1 e1 = true -> bounded prec emax m2 e2 = true ->
  e1 < e2 -> (F2R (Zpos m1) e1 < F2R (Zpos m2) e2)%R.
Proof.
  intros H1 H2 He.
  destruct (bounded_elim _ _ H1) as (Hc1 & _ & Hm1 & Hd1 & _).
  destruct (bounded_elim _ _ H2) as (Hc2 & _ & Hm2 & Hd2 & Hn2).
  pose proof (F2R_bounds (Zpos m1) e1 ltac:(lia)) as [_ Hhi].
  pose proof (F2R_bounds (Zpos m2) e2 ltac:(lia)) as [Hlo _].
  simpl Zdigits2 in *.
  assert (Zpos (digits2_pos m1) + e1 <= Zpos (digits2_pos m2) + e2 - 1).
  { unfold fexp, SpecFloat.emin, emax, prec in *. lia. }
  apply Rlt_le_trans with (1 := Hhi). apply Rle_trans with (2 := Hlo).
  now apply bpow_le.
Qed.

Lemma F2R_lt_same (m1 m2 e : Z) : m1 < m2 -> (F2R m1 e < F2R m2 e)%R.
Proof.
  intros H. unfold F2R. apply Rmult_lt_compat_r; [apply bpow_gt_0|].
  now apply IZR_lt.
Qed.

Lemma Rcmp_opp (c : comparison) (x y : R) :
  Rcmp c x y -> Rcmp (CompOpp c) y x.
Proof. destruct c; simpl; auto. Qed.

Lemma compare_pos (m1 m2 : positive) (e1 e2 : Z) :
  bounded prec emax m1 e1 = true -> bounded prec emax m2 e2 = true ->
  Rcmp (match Z.compare e1 e2 with
        | Lt => Lt
        | Gt => Gt
        | Eq => Pos.compare_cont Eq m1 m2
        end) (F2R (Zpos m1) e1) (F2R (Zpos m2) e2).
Proof.
  intros H1 H2. destruct (Z.compare_spec e1 e2) as [He|He|He].
  - subst e2. change (Pos.compare_cont Eq m1 m2)
      with (Z.compare (Zpos m1) (Zpos m2)).
    destruct (Z.compare_spec (Zpos m1) (Zpos m2)) as [Hm|Hm|Hm]; simpl.
    + now rewrite Hm.
    + now apply F2R_lt_same.
    + now apply F2R_lt_same.
  - simpl. now apply bounded_lt.
  - simpl. now apply bounded_lt.
Qed.

(** On finite values of the format the comparison of [SpecFloat] is the
    comparison of the reals. *)
Lemma SFcompare_spec (x y : binary64) :
  is_binary64 x = true -> is_binary64 y = true ->
  is_finite x = true -> is_finite y = true ->
  exists c, SFcompare x y = Some c /\ Rcmp c (B2R x) (B2R y).
Proof.
  intros Hx Hy Hfx Hfy.
  destruct x as [sx|sx| |sx mx ex]; try discriminate Hfx;
    destruct y as [sy|sy| |sy my ey]; try discriminate Hfy.
  - exists Eq. split; reflexivity.
  - pose proof (F2R_pos my ey).
    exists (if sy then Gt else Lt). split; [reflexivity|].
    rewrite B2R_finite, F2R_cond_Zopp. simpl B2R.
    destruct sy; simpl; lra.
  - pose proof (F2R_pos mx ex).
    exists (if sx then Lt else Gt). split; [reflexivity|].
    rewrite B2R_finite, F2R_cond_Zopp. simpl B2R.
    destruct sx; simpl; lra.
  - unfold is_binary64, valid_binary in Hx, Hy.
    pose proof (compare_pos mx my ex ey Hx Hy) as Hc.
    pose proof (F2R_pos mx ex). pose proof (F2R_pos my ey).
    rewrite !B2R_finite, !F2R_cond_Zopp. simpl SFcompare.
    destruct sx, sy.
    + eexists. split; [reflexivity|].
      destruct (ex ?= ey); simpl in *; try lra.
      destruct (Pos.compare_cont Eq mx my); simpl in *; lra.
    + exists Lt. split; [reflexivity|]. simpl. lra.
    + exists Gt. split; [reflexivity|]. simpl. lra.
    + eexists. split; [reflexivity|]. exact Hc.
Qed.

Lemma b64_le_spec (x y : binary64) :
  is_binary64 x = true -> is_binary64 y = true ->
  is_finite x = true -> is_finite y = true ->
  ((x <=? y)%b64 = true <-> (B2R x <= B2R y)%R).
Proof.
  intros Hx Hy Hfx Hfy.
  destruct (SFcompare_spec x y Hx Hy Hfx Hfy) as (c & Hc & Hr).
  unfold b64_le, SFleb. rewrite Hc.
  destruct c; simpl in Hr; split; intros H; try reflexivity;
    try discriminate; lra.
Qed.

Lemma b64_lt_spec (x y : binary64) :
  is_binary64 x = true -> is_binary64 y = true ->
  is_finite x = true -> is_finite y = true ->
  ((x <? y)%b64 = true <-> (B2R x < B2R y)%R).
Proof.
  intros Hx Hy Hfx Hfy.
  destruct (SFcompare_spec x y Hx Hy Hfx Hfy) as (c & Hc & Hr).
  unfold b64_lt, SFltb. rewrite Hc.
  destruct c; simpl in Hr; split; intros H; try reflexivity;
    try discriminate; lra.
Qed.

(** ** Further consequences of correct rounding *)

(** No overflow below [2^1024 - 2^970]. *)
Lemma rounded_finite (s : bool) (rho : R) (r : binary64) :
  rounded s rho r -> (rho < bpow emax - bpow (emax - prec - 1))%R ->
  is_finite r = true.
Proof.
  intros (m2 & e1 & Hm2 & He1 & Hhi & Hnorm & Habs & Hle & Hge & Hev & Hs)
         Hrho.
  destruct r as [s'|s'| |s' m e]; try reflexivity; [|contradiction].
  exfalso. destruct Hs as [_ Hov].
  assert (He : e1 <= emax - prec).
  { destruct Hnorm as [->|Hnorm]; [unfold emax, prec; lia|].
    pose proof (bpow_gt_0 (emax - prec - 1)).
    assert (Hlt : (bpow (e1 + prec - 1) < bpow emax)%R) by lra.
    apply bpow_lt_inv in Hlt. lia. }
  assert (Hb : (bpow e1 / 2 <= bpow (emax - prec - 1))%R).
  { rewrite <- bpow_pred. apply bpow_le. lia. }
  apply Rabs_le_elim in Habs. lra.
Qed.

(** The error is at most half a unit of the grid, [2^970] at most. *)
Lemma rounded_error_max (s : bool) (rho : R) (r : binary64) :
  rounded s rho r -> is_finite r = true -> (rho < bpow emax)%R ->
  (Rabs (Bmag r - rho) <= bpow (emax - prec - 1))%R.
Proof.
  intros (m2 & e1 & Hm2 & He1 & Hhi & Hnorm & Habs & Hle & Hge & Hev & Hs)
         Hfin Hrho.
  assert (He : e1 <= emax - prec).
  { destruct Hnorm as [->|Hnorm]; [unfold emax, prec; lia|].
    assert (Hlt : (bpow (e1 + prec - 1) < bpow emax)%R) by lra.
    apply bpow_lt_inv in Hlt. lia. }
  assert (Hb : (bpow e1 / 2 <= bpow (emax - prec - 1))%R).
  { rewrite <- bpow_pred. apply bpow_le. lia. }
  assert (Hv : Bmag r = F2R m2 e1).
  { destruct r as [s'|s'| |s' m e]; try discriminate Hfin.
    - destruct Hs as [_ ->]. rewrite Bmag_zero. unfold F2R. ring.
    - destruct Hs as (_ & Hv & _). now rewrite Bmag_finite. }
  rewrite Hv. lra.
Qed.

(** A positive result of sign [+] is a positive finite value or [+inf]. *)
Lemma rounded_pos_shape (rho : R) (r : binary64) :
  rounded false rho r ->
  match r with
  | S754_zero s => s = false
  | S754_infinity s => s = false
  | S754_finite s m e => s = false /\ bounded prec emax m e = true
  | S754_nan => False
  end.
Proof.
  intros (m2 & e1 & _ & _ & _ & _ & _ & _ & _ & _ & Hs).
  destruct r as [s'|s'| |s' m e]; try apply Hs. split; apply Hs.
Qed.

(** A real that is a value of the format rounds to itself. *)
Lemma rounded_exact (s : bool) (r : binary64) (mf : positive) (ef : Z) :
  rounded s (F2R (Zpos mf) ef) r -> bounded prec emax mf ef = true ->
  is_finite r = true /\ Bmag r = F2R (Zpos mf) ef.
Proof.
  intros Hr Hb.
  destruct (rounded_le_float s _ r mf ef Hr Hb (Rle_refl _)) as [Hfin Hle].
  split; [exact Hfin|].
  destruct (rounded_ge_float s _ r mf ef Hr Hb (Rle_refl _))
    as [->|(m & e & -> & Hge)]; [discriminate Hfin|].
  rewrite Bmag_finite in *. lra.
Qed.

(** Half of a normal value of the format is a value of the format. *)
Lemma half_bounded (m : positive) (e : Z) :
  bounded prec emax m e = true -> (bpow (-1021) <= F2R (Zpos m) e)%R ->
  bounded prec emax m (e - 1) = true.
Proof.
  intros Hb Hlo. destruct (bounded_elim _ _ Hb) as (Hc & He & Hmin & Hd & Hn).
  pose proof (F2R_bounds (Zpos m) e ltac:(lia)) as [_ Hhi].
  assert (Hlt : (bpow (-1021) < bpow (Zdigits2 (Zpos m) + e))%R) by lra.
  apply bpow_lt_inv in Hlt. simpl Zdigits2 in Hlt.
  apply bounded_intro; [|lia].
  unfold fexp, SpecFloat.emin, emax, prec in *. lia.
Qed.

Lemma half_value (m e : Z) : F2R m (e - 1) = (F2R m e / 2)%R.
Proof. unfold F2R. rewrite bpow_pred. field. Qed.

Lemma B2R_half : B2R c_half = (/ 2)%R.
Proof.
  unfold c_half, B2R, F2R. simpl cond_Zopp.
  change 4503599627370496 with (2 ^ 52). rewrite IZR_pow2 by lia.
  rewrite <- bpow_add. simpl Z.add. unfold bpow. simpl. lra.
Qed.

Lemma c_half_bounded : bounded prec emax 4503599627370496 (-53) = true.
Proof. reflexivity. Qed.

(** Halving a normal value of the format is exact. *)
Lemma half_exact (m : positive) (e : Z) :
  bounded prec emax m e = true -> (bpow (-1021) <= F2R (Zpos m) e)%R ->
  exists m' e',
    (c_half * S754_finite false m e)%b64 = S754_finite false m' e' /\
    bounded prec emax m' e' = true /\
    F2R (Zpos m') e' = (F2R (Zpos m) e / 2)%R.
Proof.
  intros Hb Hlo.
  pose proof (mul_rounded false false _ m _ e c_half_bounded Hb) as Hr.
  fold c_half in Hr. simpl xorb in Hr.
  assert (Hv : (F2R 4503599627370496 (-53) * F2R (Zpos m) e
                = F2R (Zpos m) (e - 1))%R).
  { rewrite half_value. change (F2R 4503599627370496 (-53)) with (B2R c_half).
    rewrite B2R_half. field. }
  rewrite Hv in Hr.
  pose proof (half_bounded m e Hb Hlo) as Hb'.
  destruct (rounded_exact _ _ _ _ Hr Hb') as [Hfin Hval].
  pose proof (rounded_pos_shape _ _ Hr) as Hsh.
  pose proof (F2R_pos m (e - 1)) as Hpos.
  destruct (c_half * S754_finite false m e)%b64 as [s'|s'| |s' m' e'];
    try discriminate Hfin.
  - rewrite Bmag_zero in Hval. lra.
  - destruct Hsh as [-> Hb'']. exists m', e'. split; [reflexivity|].
    split; [exact Hb''|]. rewrite Bmag_finite in Hval.
    now rewrite Hval, half_value.
Qed.

(** * The computed step over the reals *)

Lemma u_val : u = (/ 9007199254740992)%R.
Proof.
  unfold u. change (-53) with (- (53)). rewrite bpow_opp.
  rewrite <- IZR_pow2 by lia. reflexivity.
Qed.

Lemma bounded_ge_min (m : positive) (e : Z) :
  bounded prec emax m e = true -> (bpow (-1074) <= F2R (Zpos m) e)%R.
Proof.
  intros Hb. destruct (bounded_elim _ _ Hb) as (_ & _ & He & _).
  pose proof (F2R_bounds (Zpos m) e ltac:(lia)) as [Hlo _].
  apply Rle_trans with (2 := Hlo). apply bpow_le. simpl Zdigits2. lia.
Qed.

(** The largest finite value, [2^1024 - 2^971]. *)
Lemma bounded_le_max (m : positive) (e : Z) :
  bounded prec emax m e = true ->
  (F2R (Zpos m) e <= bpow 1024 - bpow 971)%R.
Proof.
  intros Hb. destruct (bounded_elim _ _ Hb) as (_ & He & _ & Hd & _).
  pose proof (digits2_pos_bound m) as Hm.
  assert (Hm' : Zpos m <= 2 ^ 53 - 1).
  { assert (2 ^ Zpos (digits2_pos m) <= 2 ^ 53)
      by (apply Z.pow_le_mono_r; unfold prec in Hd; lia). lia. }
  apply IZR_le in Hm'. rewrite minus_IZR, IZR_pow2 in Hm' by lia.
  unfold F2R. pose proof (bpow_gt_0 e).
  apply Rle_trans with ((bpow 53 - 1) * bpow e)%R.
  - apply Rmult_le_compat_r; lra.
  - assert (Hle : (bpow e <= bpow 971)%R)
      by (apply bpow_le; unfold emax, prec in He; lia).
    replace 1024 with (53 + 971) by lia. rewrite bpow_add.
    pose proof (bpow_gt_0 53). pose proof (bpow_lt 0 53 ltac:(lia)) as H1.
    rewrite bpow_0 in H1. nra.
Qed.

(** Powers of two in the normal range, as values of the format. *)
Lemma pow2_bounded (k : Z) :
  -1022 <= k <= 1023 ->
  bounded prec emax 4503599627370496 (k - 52) = true /\
  F2R 4503599627370496 (k - 52) = bpow k.
Proof.
  intros Hk. split.
  - apply bounded_intro.
    + change (Zpos (digits2_pos 4503599627370496)) with 53.
      unfold fexp, SpecFloat.emin, emax, prec. lia.
    + unfold emax, prec. lia.
  - unfold F2R. change 4503599627370496 with (2 ^ 52).
    rewrite IZR_pow2 by lia. rewrite <- bpow_add. f_equal. lia.
Qed.

Lemma sqrt_bpow (k : Z) : sqrt (bpow (2 * k)) = bpow k.
Proof.
  replace (2 * k) with (k + k) by lia. rewrite bpow_add.
  apply sqrt_square. apply Rlt_le, bpow_gt_0.
Qed.

Lemma add_zero_r (s : bool) (m : positive) (e : Z) :
  (S754_finite s m e + S754_zero false)%b64 = S754_finite s m e.
Proof. reflexivity. Qed.

(** What one step computes, for a positive finite [a] and a positive
    finite estimate [x] that is not below [(1 - 2u) sqrt a]: the quotient
    [y = a / x], the sum [sigma = x + y] and the new estimate
    [x' = sigma / 2], with the errors of the two roundings. *)
Lemma heron_spec (ma mx : positive) (ea ex : Z) :
  bounded prec emax ma ea = true -> bounded prec emax mx ex = true ->
  ((1 - 2 * u) * sqrt (F2R (Zpos ma) ea) <= F2R (Zpos mx) ex)%R ->
  exists (m' : positive) (e' : Z) (Y Sg : R),
    heron (S754_finite false ma ea) (S754_finite false mx ex)
      = S754_finite false m' e' /\
    bounded prec emax m' e' = true /\
    F2R (Zpos m') e' = (Sg / 2)%R /\
    (0 <= Y)%R /\
    (Rabs (Sg - (F2R (Zpos mx) ex + Y))
     <= u * (F2R (Zpos mx) ex + Y))%R /\
    (F2R (Zpos mx) ex <= Sg)%R /\
    (bpow (-1022) <= F2R (Zpos ma) ea / F2R (Zpos mx) ex ->
     Rabs (Y - F2R (Zpos ma) ea / F2R (Zpos mx) ex)
     <= u * (F2R (Zpos ma) ea / F2R (Zpos mx) ex))%R /\
    (F2R (Zpos ma) ea / F2R (Zpos mx) ex < bpow (-1022) ->
     Rabs (Y - F2R (Zpos ma) ea / F2R (Zpos mx) ex) <= bpow (-1075))%R /\
    (F2R (Zpos ma) ea <= F2R (Zpos mx) ex * F2R (Zpos mx) ex ->
     Y <= F2R (Zpos mx) ex /\ Sg <= 2 * F2R (Zpos mx) ex)%R.
Proof.
  intros Ha Hx Hlow.
  set (A := F2R (Zpos ma) ea) in *. set (X := F2R (Zpos mx) ex) in *.
  pose proof (F2R_pos ma ea) as HA. fold A in HA.
  pose proof (F2R_pos mx ex) as HX. fold X in HX.
  pose proof (bounded_lt_emax _ _ Ha) as HAmax. fold A in HAmax.
  pose proof (bounded_ge_min _ _ Ha) as HAmin. fold A in HAmin.
  pose proof (bounded_le_max _ _ Hx) as HXmax. fold X in HXmax.
  pose proof u_val as Hu.
  (* the root *)
  set (s := sqrt A) in *.
  assert (Hs0 : (0 < s)%R) by (apply sqrt_lt_R0; exact HA).
  assert (Hss : (s * s = A)%R) by (apply sqrt_sqrt; lra).
  change emax with 1024 in HAmax.
  assert (Hs512 : (s < bpow 512)%R).
  { rewrite <- (sqrt_bpow 512). change (2 * 512) with 1024.
    apply sqrt_lt_1; lra. }
  assert (Hs537 : (bpow (-537) <= s)%R).
  { rewrite <- (sqrt_bpow (-537)). change (2 * -537) with (-1074).
    pose proof (bpow_gt_0 (-1074)). apply sqrt_le_1; lra. }
  assert (Hb538 : (bpow (-538) <= X)%R).
  { replace (bpow (-538)) with (bpow (-537) / 2)%R
      by (rewrite <- bpow_pred; reflexivity).
    pose proof (bpow_gt_0 (-537)).
    apply Rle_trans with ((1 - 2 * u) * bpow (-537))%R; [nra|].
    apply Rle_trans with (2 := Hlow).
    apply Rmult_le_compat_l; lra. }
  assert (HXn : (bpow (-1021) <= X)%R).
  { apply Rle_trans with (2 := Hb538). apply bpow_le. lia. }
  (* the quotient *)
  assert (Hq513 : (A / X <= bpow 513)%R).
  { apply Rle_trans with (s / (1 - 2 * u))%R.
    - unfold Rdiv. rewrite <- Hss.
      apply Rmult_le_reg_r with (X * (1 - 2 * u))%R; [nra|].
      field_simplify; [|lra|lra]. nra.
    - replace 513 with (512 + 1) by lia. rewrite bpow_succ.
      apply Rmult_le_reg_r with (1 - 2 * u)%R; [lra|].
      unfold Rdiv. rewrite Rmult_assoc, Rinv_l by lra. nra. }
  pose proof (div_rounded false false ma mx ea ex) as Hy.
  simpl xorb in Hy. fold A X in Hy.
  set (y := (S754_finite false ma ea / S754_finite false mx ex)%b64) in *.
  destruct (pow2_bounded 513 ltac:(lia)) as [Hb513 Hv513].
  destruct (rounded_le_float _ _ _ _ _ Hy Hb513) as [Hyfin HY513];
    [rewrite Hv513; exact Hq513|].
  rewrite Hv513 in HY513.
  assert (HYerr1 : (bpow (-1022) <= A / X ->
                    Rabs (Bmag y - A / X) <= u * (A / X))%R).
  { intros H. now apply (rounded_error false). }
  assert (HYerr2 : (A / X < bpow (-1022) ->
                    Rabs (Bmag y - A / X) <= bpow (-1075))%R).
  { intros H. apply (rounded_error_abs false); try assumption.
    apply Rlt_trans with (1 := H). apply bpow_lt. lia. }
  assert (HYle : (A <= X * X -> Bmag y <= X)%R).
  { intros H. apply (rounded_le_float false (A / X) y mx ex Hy Hx).
    fold X. apply Rmult_le_reg_r with X; [exact HX|].
    unfold Rdiv. rewrite Rmult_assoc, Rinv_l by lra. lra. }
  assert (HY0 : (0 <= Bmag y)%R) by apply Rabs_pos.
  pose proof (rounded_pos_shape _ _ Hy) as Hysh.
  (* the sum *)
  assert (Hsum : exists ms es,
             (S754_finite false mx ex + y)%b64 = S754_finite false ms es /\
             bounded prec emax ms es = true /\
             (Rabs (F2R (Zpos ms) es - (X + Bmag y)) <= u * (X + Bmag y))%R /\
             (X <= F2R (Zpos ms) es)%R /\
             (A <= X * X -> F2R (Zpos ms) es <= 2 * X)%R).
  { destruct y as [sy|sy| |sy my ey] eqn:Ey; try discriminate Hyfin.
    - (* the quotient underflowed to +0 *)
      subst sy. rewrite add_zero_r. exists mx, ex.
      rewrite Bmag_zero, Rplus_0_r. fold X.
      repeat split; [exact Hx| |lra|intros _; lra].
      rewrite Rminus_diag, Rabs_R0. nra.
    - destruct Hysh as [-> Hby].
      pose proof (add_rounded false false mx my ex ey) as Hadd.
      rewrite !B2R_finite in Hadd. simpl cond_Zopp in Hadd.
      rewrite Bmag_finite in *. set (Y := F2R (Zpos my) ey) in *.
      pose proof (F2R_pos my ey) as HYpos. fold Y in HYpos. fold X in Hadd.
      destruct Hadd as (_ & Hpos & _). specialize (Hpos ltac:(lra)).
      set (sg := (S754_finite false mx ex + S754_finite false my ey)%b64)
        in *.
      assert (Hlt : (X + Y < bpow emax - bpow (emax - prec - 1))%R).
      { change (emax - prec - 1) with 970. change emax with 1024.
        pose proof (bpow_lt 513 970 ltac:(lia)).
        replace 971 with (970 + 1) in HXmax by lia.
        rewrite bpow_succ in HXmax. lra. }
      pose proof (rounded_finite _ _ _ Hpos Hlt) as Hfin.
      pose proof (rounded_pos_shape _ _ Hpos) as Hsh.
      destruct (rounded_ge_float _ _ _ mx ex Hpos Hx)
        as [Hinf|(ms & es & Hsg & Hge)]; [fold X; lra| |].
      { rewrite Hinf in Hfin. discriminate Hfin. }
      exists ms, es. rewrite Hsg in *. destruct Hsh as [_ Hbs].
      fold X in Hge.
      assert (Herr : (Rabs (F2R (Zpos ms) es - (X + Y)) <= u * (X + Y))%R).
      { rewrite <- (Bmag_finite false ms es).
        apply (rounded_error false); try assumption.
        apply Rle_trans with (bpow (-1021)); [apply bpow_le; lia|lra]. }
      repeat split; try assumption.
      intros HAX. specialize (HYle HAX).
      destruct (bounded_elim _ _ Hx) as (_ & Hex & _ & _ & Hnx).
      destruct (Z_le_gt_dec (ex + 1) (emax - prec)) as [Hsmall|Htop].
      + (* [2x] is a value of the format *)
        assert (Hb2 : bounded prec emax mx (ex + 1) = true).
        { apply bounded_intro; [|exact Hsmall].
          destruct Hnx as [->|Hd].
          - exfalso. pose proof (F2R_bounds (Zpos mx) (-1074) ltac:(lia))
              as [_ Hhi]. fold X in Hhi.
            destruct (bounded_elim _ _ Hx) as (_ & _ & _ & Hd & _).
            assert (Hlt2 : (bpow (-1021) < bpow (Zdigits2 (Zpos mx) + -1074))%R)
              by lra.
            apply bpow_lt_inv in Hlt2. simpl Zdigits2 in Hlt2.
            unfold prec in Hd. lia.
          - rewrite Hd. destruct (bounded_elim _ _ Hx) as (Hc & _).
            rewrite Hd in Hc.
            unfold fexp, SpecFloat.emin, emax, prec in *. lia. }
        assert (Hv2 : F2R (Zpos mx) (ex + 1) = (2 * X)%R).
        { unfold F2R, X. rewrite bpow_succ. unfold F2R. ring. }
        destruct (rounded_le_float _ _ _ mx (ex + 1) Hpos Hb2) as [_ Hle2].
        * rewrite Hv2. lra.
        * rewrite Bmag_finite, Hv2 in Hle2. exact Hle2.
      + (* the top binade: the sum rounds by less than [2^970] *)
        assert (Hex971 : ex = 971) by (unfold emax, prec in *; lia).
        assert (Hd : Zpos (digits2_pos mx) = prec).
        { destruct Hnx as [->|Hd]; [lia|exact Hd]. }
        pose proof (F2R_bounds (Zpos mx) ex ltac:(lia)) as [Hlo _].
        fold X in Hlo. simpl Zdigits2 in Hlo. rewrite Hd, Hex971 in Hlo.
        change (prec + 971 - 1) with 1023 in Hlo.
        assert (Hmax : (X + Y < bpow emax)%R).
        { pose proof (bpow_gt_0 (emax - prec - 1)). lra. }
        pose proof (rounded_error_max _ _ _ Hpos eq_refl Hmax) as Hem.
        rewrite Bmag_finite in Hem. change (emax - prec - 1) with 970 in Hem.
        apply Rabs_le_elim in Hem.
        pose proof (bpow_lt 513 970 ltac:(lia)).
        pose proof (bpow_lt 970 1023 ltac:(lia)).
        assert (bpow 970 + bpow 970 <= bpow 1023)%R.
        { replace (bpow 970 + bpow 970)%R with (2 * bpow 970)%R by ring.
          rewrite <- bpow_succ. apply bpow_le. lia. }
        lra. }
  destruct Hsum as (ms & es & Hsg & Hbs & Hserr & Hsge & Hsle).
  (* the halving *)
  destruct (half_exact ms es Hbs) as (m' & e' & Hh & Hb' & Hv').
  { lra. }
  exists m', e', (Bmag y), (F2R (Zpos ms) es).
  unfold heron. fold y. rewrite Hsg.
  repeat split; try assumption.
  - now apply HYle.
  - now apply Hsle.
Qed.

(** ** The lower bound through a step *)

Lemma u_bounds : (0 < u < / 1000000)%R.
Proof. rewrite u_val. lra. Qed.

(** The arithmetic-geometric inequality for the Newton map. *)
Lemma am_gm (s X Q : R) :
  (0 < X -> 0 <= s -> Q * X = s * s -> 2 * s <= X + Q)%R.
Proof.
  intros HX Hs HQ.
  pose proof (Rle_0_sqr (X - s)) as H. unfold Rsqr in H.
  apply Rmult_le_reg_r with X; [exact HX|]. nra.
Qed.

(** The lower bound survives a step: the new estimate is at least
    [(1 - u)^2] times the exact Newton value, itself at least the root. *)
Lemma step_lower_normal (s X Q Y Sg : R) :
  (0 < X -> 0 < s -> Q * X = s * s ->
   Rabs (Y - Q) <= u * Q ->
   Rabs (Sg - (X + Y)) <= u * (X + Y) ->
   (1 - 2 * u) * s <= Sg / 2)%R.
Proof.
  intros HX Hs HQ HY HS. pose proof u_bounds as Hu.
  assert (HQ0 : (0 < Q)%R) by nra.
  apply Rabs_le_elim in HY. apply Rabs_le_elim in HS.
  pose proof (am_gm s X Q HX ltac:(lra) HQ) as Ham.
  assert (H1 : ((1 - u) * (X + Q) <= X + Y)%R) by nra.
  assert (H2 : ((1 - u) * ((1 - u) * (X + Q)) <= Sg)%R) by nra.
  assert (H3 : ((1 - 2 * u) * (2 * s) <= (1 - u) * ((1 - u) * (X + Q)))%R)
    by nra.
  lra.
Qed.

Lemma step_lower_underflow (s X Q Y Sg : R) :
  (0 < X -> bpow (-537) <= s -> Q * X = s * s ->
   Q < bpow (-1022) -> 0 <= Y ->
   Rabs (Sg - (X + Y)) <= u * (X + Y) ->
   (1 - 2 * u) * s <= Sg / 2)%R.
Proof.
  intros HX Hs HQ HQs HY HS. pose proof u_bounds as Hu.
  pose proof (bpow_gt_0 (-537)) as Hp.
  apply Rabs_le_elim in HS.
  assert (Hb : (bpow (-537) * bpow 485 = 4 * bpow (-54))%R).
  { rewrite <- bpow_add. simpl Z.add.
    replace (-52) with (-54 + 1 + 1) by lia. rewrite !bpow_succ. ring. }
  assert (Hc : (bpow (-1022) * bpow 485 = bpow (-537))%R).
  { rewrite <- bpow_add. reflexivity. }
  pose proof (bpow_gt_0 485) as H485.
  pose proof (bpow_gt_0 (-54)) as H54.
  pose proof (bpow_gt_0 (-1022)) as H1022.
  (* [s * s < X * 2^-1022] and [s >= 2^-537] give [X > 2^485 * s] *)
  assert (HXbig : (4 * s <= X)%R).
  { assert (Hss : (s * s < X * bpow (-1022))%R) by nra.
    assert (H485' : (4 <= bpow 485)%R).
    { replace 4%R with (bpow 2) by (rewrite <- IZR_pow2 by lia; reflexivity).
      apply bpow_le. lia. }
    assert (Hx1 : (s * bpow (-537) <= s * s)%R) by nra.
    assert (Hx2 : (s * bpow (-537) < X * bpow (-1022))%R) by lra.
    rewrite <- Hc in Hx2.
    assert (Hx3 : (s * bpow 485 < X)%R) by nra.
    nra. }
  nra.
Qed.

(** ** The invariant of the estimates *)

Lemma B2R_pos_finite (m : positive) (e : Z) :
  B2R (S754_finite false m e) = F2R (Zpos m) e.
Proof. reflexivity. Qed.

Lemma heron_est_ok (a x : binary64) :
  is_binary64 a = true -> is_pos_finite a = true -> est_ok a x ->
  est_ok a (heron a x) /\
  (sqrt (B2R a) <= B2R x -> B2R (heron a x) <= B2R x)%R /\
  (B2R a / B2R x < bpow 514)%R.
Proof.
  intros Ha Hpa (Hpx & Hx & Hlow).
  destruct a as [s|s| |[|] ma ea]; try discriminate Hpa.
  destruct x as [s|s| |[|] mx ex]; try discriminate Hpx.
  unfold is_binary64, valid_binary in Ha, Hx.
  rewrite !B2R_pos_finite in *.
  destruct (heron_spec ma mx ea ex Ha Hx Hlow)
    as (m' & e' & Y & Sg & Hh & Hb' & Hv & HY0 & HSg & HSge & HY1 & HY2 & Hmono).
  unfold est_ok. rewrite Hh, !B2R_pos_finite.
  set (A := F2R (Zpos ma) ea) in *. set (X := F2R (Zpos mx) ex) in *.
  pose proof (F2R_pos ma ea) as HA. fold A in HA.
  pose proof (F2R_pos mx ex) as HX. fold X in HX.
  pose proof (bounded_ge_min _ _ Ha) as HAmin. fold A in HAmin.
  pose proof (bounded_lt_emax _ _ Ha) as HAmax. fold A in HAmax.
  change emax with 1024 in HAmax.
  assert (Hs0 : (0 < sqrt A)%R) by (apply sqrt_lt_R0; exact HA).
  assert (Hss : (sqrt A * sqrt A = A)%R) by (apply sqrt_sqrt; lra).
  assert (Hs537 : (bpow (-537) <= sqrt A)%R).
  { rewrite <- (sqrt_bpow (-537)). change (2 * -537) with (-1074).
    pose proof (bpow_gt_0 (-1074)). apply sqrt_le_1; lra. }
  assert (Hs512 : (sqrt A < bpow 512)%R).
  { rewrite <- (sqrt_bpow 512). change (2 * 512) with 1024.
    apply sqrt_lt_1; lra. }
  assert (HQ : (A / X * X = sqrt A * sqrt A)%R).
  { rewrite Hss. field. lra. }
  pose proof u_bounds as Hu.
  split; [|split].
  - split; [reflexivity|]. split; [exact Hb'|]. rewrite Hv.
    destruct (Rle_lt_dec (bpow (-1022)) (A / X)) as [Hn|Hs].
    + apply (step_lower_normal (sqrt A) X (A / X) Y Sg); auto.
    + apply (step_lower_underflow (sqrt A) X (A / X) Y Sg); auto.
  - intros Hge. rewrite Hv.
    assert (HAX : (A <= X * X)%R) by nra.
    destruct (Hmono HAX) as [_ H2]. lra.
  - apply Rmult_lt_reg_r with X; [exact HX|]. rewrite HQ.
    replace 514 with (512 + 1 + 1) by lia. rewrite !bpow_succ.
    pose proof (bpow_gt_0 512). nra.
Qed.

Lemma b64_one_value : B2R c_one = 1%R /\ is_binary64 c_one = true.
Proof.
  split; [|reflexivity]. unfold c_one, B2R, F2R. simpl cond_Zopp.
  change 4503599627370496 with (2 ^ 52). rewrite IZR_pow2 by lia.
  rewrite <- bpow_add. reflexivity.
Qed.

(** The initial guess is at least the root. *)
Lemma initial_guess_ge_sqrt (a : binary64) :
  is_binary64 a = true -> is_pos_finite a = true ->
  is_pos_finite (initial_guess a) = true /\
  is_binary64 (initial_guess a) = true /\
  (0 < sqrt (B2R a) <= B2R (initial_guess a))%R /\
  (B2R (initial_guess a) = Rmax (B2R a) 1)%R.
Proof.
  intros Ha Hpa. destruct b64_one_value as [H1 Hv1].
  assert (Hfa : is_finite a = true) by (destruct a as [| | |[|]]; easy).
  pose proof (b64_le_spec c_one a Hv1 Ha eq_refl Hfa) as Hle.
  rewrite H1 in Hle.
  assert (HA : (0 < B2R a)%R).
  { destruct a as [s|s| |[|] m e]; try discriminate Hpa. apply F2R_pos. }
  assert (Hs0 : (0 < sqrt (B2R a))%R) by (apply sqrt_lt_R0; exact HA).
  assert (Hss : (sqrt (B2R a) * sqrt (B2R a) = B2R a)%R)
    by (apply sqrt_sqrt; lra).
  unfold initial_guess, b64_ge. fold (b64_le c_one a).
  destruct (c_one <=? a)%b64 eqn:E.
  - assert (H : (1 <= B2R a)%R) by now apply Hle.
    repeat split; try assumption.
    + nra.
    + rewrite Rmax_left; lra.
  - assert (H : ~ (1 <= B2R a)%R) by (intros H; apply Hle in H; congruence).
    rewrite H1. repeat split; try reflexivity; try assumption.
    + nra.
    + rewrite Rmax_right; lra.
Qed.

Lemma initial_guess_est_ok (a : binary64) :
  is_binary64 a = true -> is_pos_finite a = true ->
  est_ok a (initial_guess a).
Proof.
  intros Ha Hpa.
  destruct (initial_guess_ge_sqrt a Ha Hpa) as (H1 & H2 & H3 & _).
  pose proof u_bounds. repeat split; try assumption. nra.
Qed.

Lemma iterate_est_ok (a : binary64) (n : nat) :
  is_binary64 a = true -> is_pos_finite a = true ->
  est_ok a (iterate a n).
Proof.
  intros Ha Hpa. induction n as [|n IH].
  - now apply initial_guess_est_ok.
  - simpl. now apply heron_est_ok.
Qed.

(** ** The stopping test over the reals *)

Lemma abs_double_pos (m : positive) (e : Z) :
  abs_double (S754_finite false m e) = S754_finite false m e.
Proof. reflexivity. Qed.

(** The difference [|x' - x|] as computed: finite, of the format, and the
    correctly rounded magnitude of the real difference. *)
Lemma stop_diff_spec (mx mx' : positive) (ex ex' : Z) :
  bounded prec emax mx ex = true -> bounded prec emax mx' ex' = true ->
  let d := stop_diff (S754_finite false mx ex) (S754_finite false mx' ex') in
  let X := F2R (Zpos mx) ex in
  let X' := F2R (Zpos mx') ex' in
  is_finite d = true /\ is_binary64 d = true /\ (0 <= B2R d)%R /\
  (forall mf ef, bounded prec emax mf ef = true ->
     (Rabs (X' - X) <= F2R (Zpos mf) ef)%R -> (B2R d <= F2R (Zpos mf) ef)%R) /\
  (bpow (-1022) <= Rabs (X' - X) ->
   Rabs (X' - X) * (1 - u) <= B2R d)%R.
Proof.
  intros Hx Hx' d X X'.
  pose proof (sub_rounded false false mx' mx ex' ex) as Hsub.
  rewrite !B2R_pos_finite in Hsub. fold X X' in Hsub.
  unfold d, stop_diff.
  set (d0 := (S754_finite false mx' ex' - S754_finite false mx ex)%b64) in *.
  destruct Hsub as (Hz & Hp & Hn).
  pose proof (F2R_pos mx ex) as HX. fold X in HX.
  pose proof (F2R_pos mx' ex') as HX'. fold X' in HX'.
  pose proof (bounded_le_max _ _ Hx) as HXm. fold X in HXm.
  pose proof (bounded_le_max _ _ Hx') as HXm'. fold X' in HXm'.
  assert (Hb970 : (bpow 970 < bpow 971)%R) by (apply bpow_lt; lia).
  pose proof (bpow_gt_0 970) as H970.
  pose proof u_bounds as Hu.
  (* in each case the magnitude of [d0] is the rounded [|X' - X|] *)
  assert (Hcases : (X' = X /\ d0 = S754_zero false) \/
                   exists sg, rounded sg (Rabs (X' - X)) d0).
  { destruct (Rtotal_order X' X) as [Hlt|[Heq|Hgt]].
    - right. exists true. rewrite Rabs_left by lra. apply Hn. lra.
    - left. split; [exact Heq|]. apply Hz. lra.
    - right. exists false. rewrite Rabs_right by lra. apply Hp. lra. }
  assert (Habs : forall sg, rounded sg (Rabs (X' - X)) d0 ->
            is_finite d0 = true /\
            is_finite (abs_double d0) = true /\
            is_binary64 (abs_double d0) = true /\
            B2R (abs_double d0) = Bmag d0).
  { intros sg Hr.
    assert (Hfin : is_finite d0 = true).
    { apply (rounded_finite sg (Rabs (X' - X))); [exact Hr|].
      change (emax - prec - 1) with 970. change emax with 1024.
      unfold Rabs. destruct (Rcase_abs (X' - X)); lra. }
    pose proof (rounded_is_binary64 _ _ _ Hr) as Hv.
    split; [exact Hfin|].
    destruct d0 as [s0|s0| |s0 m0 e0]; try discriminate Hfin.
    - destruct s0; repeat split; unfold Bmag; simpl; now rewrite Rabs_R0.
    - destruct s0.
      + change (abs_double (S754_finite true m0 e0))
          with (S754_finite false m0 e0).
        repeat split; [exact Hv|].
        now rewrite Bmag_finite, B2R_pos_finite.
      + rewrite abs_double_pos. repeat split; [exact Hv|].
        now rewrite Bmag_finite, B2R_pos_finite. }
  destruct Hcases as [[Heq Hd0]|[sg Hr]].
  - rewrite Hd0. change (abs_double (S754_zero false)) with (S754_zero false).
    simpl B2R. repeat split; try lra.
    + intros mf ef _ _. apply Rlt_le, F2R_pos.
    + intros H. rewrite Heq, Rminus_diag, Rabs_R0 in H.
      pose proof (bpow_gt_0 (-1022)). lra.
  - destruct (Habs sg Hr) as (Hfin0 & Hfin & Hval & HB).
    rewrite HB. repeat split; try assumption.
    + apply Rabs_pos.
    + intros mf ef Hbf Hle.
      now destruct (rounded_le_float sg _ d0 mf ef Hr Hbf Hle).
    + intros Hnorm.
      pose proof (rounded_error sg _ d0 Hr Hfin0 Hnorm) as Herr.
      fold u in Herr. apply Rabs_le_elim in Herr. lra.
Qed.

(** The driver's tolerance [eps = 1e-12], between [2^-40] and [2^-39]. *)
Lemma eps_bounds :
  bounded prec emax 4951760157141521 (-92) = true /\
  (bpow (-40) < B2R eps < bpow (-39))%R /\
  (B2R eps = 4951760157141521 * bpow (-92))%R.
Proof.
  split; [reflexivity|]. split; [|reflexivity].
  unfold eps, lit_1em12, B2R, F2R. simpl cond_Zopp.
  pose proof (bpow_gt_0 (-92)) as Hp.
  replace (bpow (-40)) with (4503599627370496 * bpow (-92))%R.
  - replace (bpow (-39)) with (9007199254740992 * bpow (-92))%R.
    + split; apply Rmult_lt_compat_r; lra.
    + change 9007199254740992%R with (IZR (2 ^ 53)).
      rewrite IZR_pow2, <- bpow_add by lia. reflexivity.
  - change 4503599627370496%R with (IZR (2 ^ 52)).
    rewrite IZR_pow2, <- bpow_add by lia. reflexivity.
Qed.

(** The tolerance [eps * (1 + |x'|)] as computed, for a positive finite
    estimate: a positive finite value of the format within two roundings
    of the real tolerance. *)
Lemma stop_tol_spec (mx' : positive) (ex' : Z) :
  bounded prec emax mx' ex' = true ->
  let X' := F2R (Zpos mx') ex' in
  exists mt et,
    stop_tol eps (S754_finite false mx' ex') = S754_finite false mt et /\
    bounded prec emax mt et = true /\
    (B2R eps * (1 + X') * ((1 - u) * (1 - u)) <= F2R (Zpos mt) et
     <= B2R eps * (1 + X') * ((1 + u) * (1 + u)))%R.
Proof.
  intros Hx' X'. unfold stop_tol. rewrite abs_double_pos.
  destruct eps_bounds as (Hbe & He & _).
  pose proof (F2R_pos mx' ex') as HX'. fold X' in HX'.
  pose proof (bounded_le_max _ _ Hx') as HXm'. fold X' in HXm'.
  pose proof u_bounds as Hu.
  assert (Hb970 : (2 * bpow 970 = bpow 971)%R).
  { rewrite <- bpow_succ. reflexivity. }
  assert (H970 : (4 <= bpow 970)%R).
  { replace 4%R with (bpow 2) by (rewrite <- IZR_pow2 by lia; reflexivity).
    apply bpow_le. lia. }
  (* 1 + x' *)
  pose proof (add_rounded false false 4503599627370496 mx' (-52) ex') as Hadd.
  fold c_one in Hadd. destruct b64_one_value as [H1 _].
  rewrite H1, B2R_pos_finite in Hadd. fold X' in Hadd.
  destruct Hadd as (_ & Hp & _). specialize (Hp ltac:(lra)).
  set (t1 := (c_one + S754_finite false mx' ex')%b64) in *.
  assert (Hfin1 : is_finite t1 = true).
  { apply (rounded_finite false (1 + X')); [exact Hp|].
    change (emax - prec - 1) with 970. change emax with 1024. lra. }
  pose proof (rounded_pos_shape _ _ Hp) as Hsh1.
  pose proof (rounded_error false _ t1 Hp Hfin1) as Herr1.
  fold u in Herr1.
  assert (Hn1 : (bpow (-1022) <= 1 + X')%R).
  { apply Rle_trans with (bpow 0); [apply bpow_le; lia|rewrite bpow_0; lra]. }
  specialize (Herr1 Hn1). apply Rabs_le_elim in Herr1.
  destruct t1 as [s1|s1| |s1 m1 e1] eqn:Et1; try discriminate Hfin1.
  { rewrite Bmag_zero in Herr1. nra. }
  destruct Hsh1 as [-> Hb1]. rewrite Bmag_finite in Herr1.
  set (T1 := F2R (Zpos m1) e1) in *.
  (* eps * (1 + x') *)
  pose proof (mul_rounded false false _ m1 _ e1 Hbe Hb1) as Hmul.
  simpl xorb in Hmul. fold T1 in Hmul.
  change (F2R 4951760157141521 (-92)) with (B2R eps) in Hmul.
  change (S754_finite false 4951760157141521 (-92)) with eps in Hmul.
  set (tl := (eps * S754_finite false m1 e1)%b64) in *.
  set (E := B2R eps) in *.
  assert (HT1lo : (1 - u <= T1)%R) by nra.
  assert (HT1hi : (T1 <= bpow 1024)%R).
  { apply Rlt_le. apply (bounded_lt_emax _ _ Hb1). }
  pose proof (bpow_gt_0 (-40)) as H40.
  assert (H39 : (bpow (-39) * bpow 1024 = bpow 985)%R)
    by (rewrite <- bpow_add; reflexivity).
  assert (H985 : (bpow 985 < bpow 1023)%R) by (apply bpow_lt; lia).
  assert (H1023 : (bpow 1023 + bpow 1023 = bpow 1024)%R).
  { replace (bpow 1023 + bpow 1023)%R with (2 * bpow 1023)%R by ring.
    rewrite <- bpow_succ. reflexivity. }
  assert (H971 : (bpow 971 < bpow 1023)%R) by (apply bpow_lt; lia).
  assert (Hfin2 : is_finite tl = true).
  { apply (rounded_finite false (E * T1)); [exact Hmul|].
    change (emax - prec - 1) with 970. change emax with 1024.
    assert (E * T1 <= bpow (-39) * bpow 1024)%R.
    { apply Rmult_le_compat; lra. }
    lra. }
  pose proof (rounded_pos_shape _ _ Hmul) as Hsh2.
  pose proof (rounded_error false _ tl Hmul Hfin2) as Herr2.
  fold u in Herr2.
  assert (Hn2 : (bpow (-1022) <= E * T1)%R).
  { apply Rle_trans with (bpow (-40) * (/ 2))%R.
    - replace (/ 2)%R with (bpow (-1)) by (unfold bpow; simpl; lra).
      rewrite <- bpow_add. apply bpow_le. lia.
    - apply Rmult_le_compat; lra. }
  specialize (Herr2 Hn2). apply Rabs_le_elim in Herr2.
  destruct tl as [s2|s2| |s2 m2 e2] eqn:Etl; try discriminate Hfin2.
  { rewrite Bmag_zero in Herr2. pose proof (bpow_gt_0 (-1022)). nra. }
  destruct Hsh2 as [-> Hb2]. rewrite Bmag_finite in Herr2.
  exists m2, e2. split; [reflexivity|]. split; [exact Hb2|].
  set (TL := F2R (Zpos m2) e2) in *.
  assert (HE0 : (0 < E)%R) by lra.
  split.
  - apply Rle_trans with (E * T1 * (1 - u))%R; [|lra].
    replace (E * (1 + X') * ((1 - u) * (1 - u)))%R
      with (E * ((1 + X') * (1 - u)) * (1 - u))%R by ring.
    apply Rmult_le_compat_r; [lra|].
    apply Rmult_le_compat_l; lra.
  - apply Rle_trans with (E * T1 * (1 + u))%R; [lra|].
    replace (E * (1 + X') * ((1 + u) * (1 + u)))%R
      with (E * ((1 + X') * (1 + u)) * (1 + u))%R by ring.
    apply Rmult_le_compat_r; [lra|].
    apply Rmult_le_compat_l; lra.
Qed.

Lemma stop_test_spec (x x' : binary64) :
  is_pos_finite x = true -> is_binary64 x = true ->
  is_pos_finite x' = true -> is_binary64 x' = true ->
  ((Rabs (B2R x' - B2R x)
    <= B2R eps * (1 + B2R x') * ((1 - u) * (1 - u)))%R ->
   stop_test eps x x' = true) /\
  (stop_test eps x x' = true ->
   (Rabs (B2R x' - B2R x) < bpow (-1022))%R \/
   (Rabs (B2R x' - B2R x) * (1 - u)
    <= B2R eps * (1 + B2R x') * ((1 + u) * (1 + u)))%R).
Proof.
  intros Hpx Hx Hpx' Hx'.
  destruct x as [s|s| |[|] mx ex]; try discriminate Hpx.
  destruct x' as [s|s| |[|] mx' ex']; try discriminate Hpx'.
  unfold is_binary64, valid_binary in Hx, Hx'.
  destruct (stop_diff_spec mx mx' ex ex' Hx Hx')
    as (Hdfin & Hdv & Hd0 & Hdle & Hderr).
  destruct (stop_tol_spec mx' ex' Hx') as (mt & et & Ht & Hbt & Htlo & Hthi).
  rewrite !B2R_pos_finite.
  set (X := F2R (Zpos mx) ex) in *. set (X' := F2R (Zpos mx') ex') in *.
  set (d := stop_diff (S754_finite false mx ex) (S754_finite false mx' ex'))
    in *.
  assert (Hle : stop_test eps (S754_finite false mx ex)
                          (S754_finite false mx' ex') = true
                <-> (B2R d <= F2R (Zpos mt) et)%R).
  { unfold stop_test. fold d. rewrite Ht.
    rewrite <- (B2R_pos_finite mt et).
    apply b64_le_spec; try assumption; reflexivity. }
  split.
  - intros H. apply Hle. apply Hdle; [exact Hbt|]. lra.
  - intros H. apply Hle in H.
    destruct (Rlt_le_dec (Rabs (X' - X)) (bpow (-1022))) as [Hs|Hn];
      [now left|right].
    specialize (Hderr Hn). lra.
Qed.

(** The error of one step against the exact Newton value
    [N = (X + A/X) / 2]. *)
Lemma step_error_normal (X Q Y Sg : R) :
  (0 < X -> 0 < Q ->
   Rabs (Y - Q) <= u * Q ->
   Rabs (Sg - (X + Y)) <= u * (X + Y) ->
   Rabs (Sg / 2 - (X + Q) / 2)
   <= u * ((X + Q) / 2) + u * Q * (1 + u) / 2)%R.
Proof.
  intros HX HQ HY HS. pose proof u_bounds as Hu.
  apply Rabs_le_elim in HY. apply Rabs_le_elim in HS.
  apply Rabs_le_intro. split; nra.
Qed.

Lemma step_error_underflow (X Q Y Sg : R) :
  (bpow (-538) <= X -> 0 < Q -> Q < bpow (-1022) ->
   Rabs (Y - Q) <= bpow (-1075) ->
   Rabs (Sg - (X + Y)) <= u * (X + Y) ->
   Rabs (Sg / 2 - (X + Q) / 2) <= (201 / 100) * u * ((X + Q) / 2))%R.
Proof.
  intros HX HQ HQs HY HS. pose proof u_bounds as Hu.
  apply Rabs_le_elim in HY. apply Rabs_le_elim in HS.
  pose proof (bpow_gt_0 (-1075)) as H1075.
  assert (Hsmall : (bpow (-1075) <= / 1000 * u * bpow (-538))%R).
  { apply Rle_trans with (bpow (-10) * u * bpow (-538))%R.
    - unfold u. rewrite <- !bpow_add. apply bpow_le. lia.
    - apply Rmult_le_compat_r; [apply Rlt_le, bpow_gt_0|].
      apply Rmult_le_compat_r; [lra|].
      replace (bpow (-10)) with (/ 1024)%R; [lra|].
      change (-10) with (- (10)). rewrite bpow_opp.
      rewrite <- IZR_pow2 by lia. reflexivity. }
  pose proof (bpow_gt_0 (-538)) as H538.
  apply Rabs_le_intro. split; nra.
Qed.

Lemma heron_error (a x : binary64) :
  is_binary64 a = true -> is_pos_finite a = true -> est_ok a x ->
  let N := ((B2R x + B2R a / B2R x) / 2)%R in
  (Rabs (B2R (heron a x) - N) <= (201 / 100) * u * N)%R /\
  (bpow (-1022) <= B2R a / B2R x ->
   Rabs (B2R (heron a x) - N)
   <= u * N + u * (B2R a / B2R x) * (1 + u) / 2)%R.
Proof.
  intros Ha Hpa (Hpx & Hx & Hlow).
  destruct a as [s|s| |[|] ma ea]; try discriminate Hpa.
  destruct x as [s|s| |[|] mx ex]; try discriminate Hpx.
  unfold is_binary64, valid_binary in Ha, Hx.
  rewrite !B2R_pos_finite in *.
  destruct (heron_spec ma mx ea ex Ha Hx Hlow)
    as (m' & e' & Y & Sg & Hh & Hb' & Hv & HY0 & HSg & HSge & HY1 & HY2 & Hmono).
  rewrite Hh, !B2R_pos_finite.
  set (A := F2R (Zpos ma) ea) in *. set (X := F2R (Zpos mx) ex) in *.
  pose proof (F2R_pos ma ea) as HA. fold A in HA.
  pose proof (F2R_pos mx ex) as HX. fold X in HX.
  pose proof (bounded_ge_min _ _ Ha) as HAmin. fold A in HAmin.
  pose proof u_bounds as Hu.
  assert (HQ0 : (0 < A / X)%R) by (apply Rdiv_lt_0_compat; lra).
  assert (Hs537 : (bpow (-537) <= sqrt A)%R).
  { rewrite <- (sqrt_bpow (-537)). change (2 * -537) with (-1074).
    pose proof (bpow_gt_0 (-1074)). apply sqrt_le_1; lra. }
  assert (Hb538 : (bpow (-538) <= X)%R).
  { replace (bpow (-538)) with (bpow (-537) / 2)%R
      by (rewrite <- bpow_pred; reflexivity).
    pose proof (bpow_gt_0 (-537)). nra. }
  cbv zeta. rewrite Hv. split.
  - destruct (Rle_lt_dec (bpow (-1022)) (A / X)) as [Hn|Hs].
    + pose proof (step_error_normal X (A / X) Y Sg HX HQ0 (HY1 Hn) HSg) as H.
      apply Rle_trans with (1 := H).
      set (Q := (A / X)%R) in *.
      assert (HuQ : (0 < u * Q)%R) by (apply Rmult_lt_0_compat; lra).
      assert (HuX : (0 < u * X)%R) by (apply Rmult_lt_0_compat; lra).
      assert (HuuQ : (u * Q * u <= u * Q * / 1000000)%R)
        by (apply Rmult_le_compat_l; lra).
      lra.
    + apply step_error_underflow with (Y := Y); auto.
  - intros Hn. apply step_error_normal with (Y := Y); auto.
Qed.

(** * The iteration over the reals *)

(** ** One exact step

    [s] is the root, [X] the estimate, [Q] the exact quotient [s*s / X],
    [N = (X + Q) / 2] the exact Newton value and [X'] the computed one. *)
Section RealStep.

Variables s X Q N X' : R.
Hypothesis Hs : (0 < s)%R.
Hypothesis HX : ((1 - 2 * u) * s <= X)%R.
Hypothesis HQ : (Q * X = s * s)%R.
Hypothesis HN : (N = (X + Q) / 2)%R.

Lemma step_X_pos : (0 < X)%R.
Proof. pose proof u_bounds. nra. Qed.

Lemma step_Q_pos : (0 < Q)%R.
Proof.
  pose proof step_X_pos as H.
  apply Rmult_lt_reg_r with X; [exact H|]. nra.
Qed.

Lemma step_N_ge : (s <= N)%R.
Proof.
  pose proof (am_gm s X Q step_X_pos (Rlt_le _ _ Hs) HQ). lra.
Qed.

(** The exact Newton value exceeds the root by [(X - s)^2 / (2 X)]. *)
Lemma step_gap : (2 * X * (N - s) = (X - s) * (X - s))%R.
Proof. rewrite HN. nra. Qed.

Lemma step_Q_le : (s <= X -> Q <= s)%R.
Proof.
  intros H. apply Rmult_le_reg_r with X; [exact step_X_pos|]. nra.
Qed.

Lemma step_Q_below : (X <= s -> Q <= (1 + (201 / 100) * u) * s)%R.
Proof.
  intros H. pose proof u_bounds as Hu. pose proof step_Q_pos as HQ0.
  assert (H1 : (Q * ((1 - 2 * u) * s) <= s * s)%R).
  { rewrite <- HQ. apply Rmult_le_compat_l; lra. }
  assert (H2 : (Q * (1 - 2 * u) <= s)%R).
  { apply Rmult_le_reg_r with s; [exact Hs|]. lra. }
  assert (H3 : (1 <= (1 - 2 * u) * (1 + (201 / 100) * u))%R) by nra.
  assert (H4 : (Q * 1 <= Q * ((1 - 2 * u) * (1 + (201 / 100) * u)))%R)
    by (apply Rmult_le_compat_l; lra).
  assert (H5 : (Q * (1 - 2 * u) * (1 + (201 / 100) * u)
                <= s * (1 + (201 / 100) * u))%R)
    by (apply Rmult_le_compat_r; lra).
  lra.
Qed.

Lemma step_N_below : (X <= s -> N <= (1 + (201 / 200) * u) * s)%R.
Proof. intros H. pose proof (step_Q_below H). lra. Qed.

Lemma step_N_above : (s <= X -> N <= (X + s) / 2 /\ N <= X)%R.
Proof. intros H. pose proof (step_Q_le H). lra. Qed.

Hypothesis HX' : (Rabs (X' - N) <= (201 / 100) * u * N)%R.

(** Linear phase: the excess over the root is at least halved. *)
Lemma step_linear :
  (s <= X -> X' - s <= (1 / 2 + 2 * u) * (X - s) + (201 / 100) * u * s)%R.
Proof.
  intros H. pose proof u_bounds as Hu.
  destruct (step_N_above H) as [HN1 _].
  apply Rabs_le_elim in HX'. pose proof step_N_ge. nra.
Qed.

Lemma step_below : (X <= s -> X' - s <= 4 * u * s)%R.
Proof.
  intros H. pose proof u_bounds as Hu. pose proof (step_N_below H) as HN1.
  apply Rabs_le_elim in HX'. pose proof step_N_ge. nra.
Qed.

(** Quadratic phase. *)
Lemma step_quadratic (c : R) :
  (0 <= c -> s <= X -> X - s <= c * s ->
   2 * (1 + c) * (N - s) <= c * c * s)%R.
Proof.
  intros Hc H Hcs. pose proof step_X_pos as HX0.
  apply Rmult_le_reg_r with X; [exact HX0|].
  replace (2 * (1 + c) * (N - s) * X)%R
    with ((1 + c) * (2 * X * (N - s)))%R by ring.
  rewrite step_gap.
  set (t := (X - s)%R) in *.
  replace X with (s + t)%R by (unfold t; ring).
  assert (Ht : (0 <= t)%R) by (unfold t; lra).
  assert (H1 : (t * t <= c * s * t)%R) by (apply Rmult_le_compat_r; lra).
  assert (H2 : (t * t <= c * s * (c * s))%R)
    by (apply Rmult_le_compat; lra).
  assert (H3 : (c * (t * t) <= c * (c * s * t))%R)
    by (apply Rmult_le_compat_l; lra).
  lra.
Qed.

Lemma step_excess :
  (X' - s <= (1 + (201 / 100) * u) * (N - s) + (201 / 100) * u * s)%R.
Proof. apply Rabs_le_elim in HX'. lra. Qed.

Lemma step_lower : ((1 - (201 / 100) * u) * s <= X')%R.
Proof.
  pose proof u_bounds as Hu. apply Rabs_le_elim in HX'.
  pose proof step_N_ge. nra.
Qed.

(** The difference tested by the stopping criterion. *)
Lemma step_diff_above :
  (s <= X -> Rabs (X' - X) <= (1 + (201 / 100) * u) * (X - s)
                              + (201 / 100) * u * s)%R.
Proof.
  intros H. pose proof u_bounds as Hu.
  destruct (step_N_above H) as [HN1 HN2]. pose proof step_N_ge as HN3.
  apply Rabs_le_elim in HX'. apply Rabs_le_intro.
  assert (HuN : (u * N <= u * X)%R) by (apply Rmult_le_compat_l; lra).
  assert (0 <= u * N)%R by (apply Rmult_le_pos; lra).
  replace ((1 + 201 / 100 * u) * (X - s) + 201 / 100 * u * s)%R
    with ((X - s) + 201 / 100 * (u * X))%R by ring.
  split; lra.
Qed.

Lemma step_diff_below :
  (X <= s -> Rabs (X' - X) <= 6 * u * s)%R.
Proof.
  intros H. pose proof u_bounds as Hu.
  pose proof (step_N_below H) as HN1. pose proof step_N_ge as HN3.
  apply Rabs_le_elim in HX'. apply Rabs_le_intro.
  assert (Hus : (0 < u * s)%R) by (apply Rmult_lt_0_compat; lra).
  assert (HuN : (u * N <= u * ((1 + 201 / 200 * u) * s))%R)
    by (apply Rmult_le_compat_l; lra).
  assert (Huu : (u * (u * s) <= / 1000000 * (u * s))%R)
    by (apply Rmult_le_compat_r; lra).
  split; nra.
Qed.

End RealStep.

(** ** The sequence of estimates *)

Lemma bpow_neg_val (k : Z) : 0 <= k -> bpow (- k) = (/ IZR (2 ^ k))%R.
Proof. intros Hk. rewrite bpow_opp, IZR_pow2 by exact Hk. reflexivity. Qed.

Lemma q_pow (n : nat) :
  (n <= 1000)%nat ->
  (q ^ n <= (1 + 5 * INR n * u) * bpow (- Z.of_nat n))%R.
Proof.
  pose proof u_bounds as Hu.
  induction n as [|n IH]; intros Hn.
  - change (1 <= (1 + 5 * 0 * u) * bpow 0)%R. rewrite bpow_0. lra.
  - specialize (IH ltac:(lia)).
    rewrite S_INR. change (q ^ S n)%R with (q * q ^ n)%R.
    replace (- Z.of_nat (S n)) with (- Z.of_nat n - 1) by lia.
    rewrite bpow_pred.
    pose proof (bpow_gt_0 (- Z.of_nat n)) as Hb.
    assert (Hq : (0 <= q)%R) by (unfold q; lra).
    assert (Hn1 : (0 <= INR n <= 1000)%R).
    { split; [apply pos_INR|]. rewrite INR_IZR_INZ. apply IZR_le. lia. }
    apply Rle_trans with (q * ((1 + 5 * INR n * u) * bpow (- Z.of_nat n)))%R.
    + apply Rmult_le_compat_l; assumption.
    + unfold q.
      assert (H : ((1 / 2 + 2 * u) * (1 + 5 * INR n * u)
                   <= (1 + 5 * (INR n + 1) * u) / 2)%R).
      { assert (Hnu : (0 <= INR n * u)%R) by (apply Rmult_le_pos; lra).
        assert (Hnuu : (INR n * u * u <= 1000 * u * / 1000000)%R).
        { apply Rmult_le_compat; try lra.
          apply Rmult_le_compat_r; lra. }
        lra. }
      apply Rmult_le_compat_r with (r := bpow (- Z.of_nat n)) in H; lra.
Qed.

Lemma q_pow_le (n m : nat) : (n <= m)%nat -> (q ^ m <= q ^ n)%R.
Proof.
  pose proof u_bounds as Hu.
  assert (Hq : (0 <= q <= 1)%R) by (unfold q; lra).
  induction 1 as [|m _ IH].
  - lra.
  - change (q ^ S m)%R with (q * q ^ m)%R.
    assert (0 <= q ^ m)%R by (apply pow_le; lra). nra.
Qed.

Section Orbit.

Variable a : binary64.
Hypothesis Ha : is_binary64 a = true.
Hypothesis Hpa : is_pos_finite a = true.

Let s : R := sqrt (B2R a).
Let X (n : nat) : R := B2R (iterate a n).

Lemma orbit_A_pos : (0 < B2R a)%R.
Proof.
  destruct a as [?|?| |[|] m e]; try discriminate Hpa. apply F2R_pos.
Qed.

Lemma orbit_s_pos : (0 < s)%R.
Proof. apply sqrt_lt_R0, orbit_A_pos. Qed.

Lemma orbit_s_sqr : (s * s = B2R a)%R.
Proof. apply sqrt_sqrt. pose proof orbit_A_pos. lra. Qed.

(** The facts of [RealStep] for an estimate [x] of the invariant. *)
Lemma orbit_step (x : binary64) :
  est_ok a x ->
  let Q := (B2R a / B2R x)%R in
  let N := ((B2R x + Q) / 2)%R in
  ((1 - 2 * u) * s <= B2R x)%R /\
  (Q * B2R x = s * s)%R /\
  (Rabs (B2R (heron a x) - N) <= (201 / 100) * u * N)%R /\
  (bpow (-1022) <= Q ->
   Rabs (B2R (heron a x) - N) <= u * N + u * Q * (1 + u) / 2)%R /\
  est_ok a (heron a x).
Proof.
  intros Hx. cbv zeta.
  destruct (heron_error a x Ha Hpa Hx) as [H1 H2].
  destruct (heron_est_ok a x Ha Hpa Hx) as (H3 & _ & _).
  destruct Hx as (Hpx & Hvx & Hlow).
  assert (HX0 : (0 < B2R x)%R).
  { pose proof u_bounds. pose proof orbit_s_pos. fold s in Hlow. nra. }
  repeat split; try assumption; try apply H3.
  rewrite orbit_s_sqr. field. lra.
Qed.

Lemma orbit_est_ok (n : nat) : est_ok a (iterate a n).
Proof. apply iterate_est_ok; assumption. Qed.

Lemma orbit_linear_step (n : nat) :
  ((s <= X n -> X (S n) - s
                <= q * (X n - s) + (201 / 100) * u * s) /\
   (X n <= s -> X (S n) - s <= 4 * u * s))%R.
Proof.
  destruct (orbit_step (iterate a n) (orbit_est_ok n))
    as (H1 & H2 & H3 & _ & _).
  split; intros H.
  - apply (step_linear s (X n) _ _ (X (S n)) orbit_s_pos H1 H2 eq_refl H3 H).
  - apply (step_below s (X n) _ _ (X (S n)) orbit_s_pos H1 H2 eq_refl H3 H).
Qed.

(** Linear phase: the excess of the estimate over the root at least halves
    at each step, down to a few units of rounding. *)
Lemma orbit_linear (n : nat) :
  (X n - s <= (X 0 - s) * q ^ n + 5 * u * s)%R.
Proof.
  pose proof u_bounds as Hu. pose proof orbit_s_pos as Hs.
  assert (Hus : (0 < u * s)%R) by (apply Rmult_lt_0_compat; lra).
  assert (Hq : (0 <= q)%R) by (unfold q; lra).
  assert (H0 : (0 <= X 0 - s)%R).
  { destruct (initial_guess_ge_sqrt a Ha Hpa) as (_ & _ & H & _).
    unfold X. simpl. fold s in H. lra. }
  induction n as [|n IH].
  - simpl. lra.
  - destruct (orbit_linear_step n) as [Habove Hbelow].
    change (q ^ S n)%R with (q * q ^ n)%R.
    assert (Hqn : (0 <= q ^ n)%R) by (apply pow_le; exact Hq).
    assert (Hp : (0 <= (X 0 - s) * (q * q ^ n))%R).
    { apply Rmult_le_pos; [exact H0|]. apply Rmult_le_pos; assumption. }
    destruct (Rle_lt_dec s (X n)) as [Hge|Hlt].
    + specialize (Habove Hge).
      assert (H : (q * (X n - s)
                   <= q * ((X 0 - s) * q ^ n + 5 * u * s))%R)
        by (apply Rmult_le_compat_l; assumption).
      assert (Hqu : (q * (u * s) <= (1 / 2 + / 100) * (u * s))%R)
        by (apply Rmult_le_compat_r; unfold q; lra).
      lra.
    + specialize (Hbelow (Rlt_le _ _ Hlt)). lra.
Qed.

(** Quadratic phase: an excess of [c * s] becomes one of [c' * s]. *)
Lemma orbit_quadratic (c c' : R) (n : nat) :
  (0 <= c -> 4 * u <= c' ->
   (1 + (201 / 100) * u) * (c * c) + (201 / 50) * u * (1 + c)
   <= 2 * (1 + c) * c' ->
   X n - s <= c * s -> X (S n) - s <= c' * s)%R.
Proof.
  intros Hc Hc' Hcc Hn. pose proof orbit_s_pos as Hs.
  pose proof u_bounds as Hu.
  destruct (orbit_step (iterate a n) (orbit_est_ok n))
    as (H1 & H2 & H3 & _ & _).
  destruct (Rle_lt_dec s (X n)) as [Hge|Hlt].
  - pose proof (step_quadratic s (X n) _ _ orbit_s_pos H1 H2 eq_refl
                  c Hc Hge Hn) as Hq.
    pose proof (step_excess s _ (X (S n)) H3) as He.
    fold (X n) in Hq, He. fold (X (S n)) in He.
    set (N := ((X n + B2R a / X n) / 2)%R) in *.
    apply Rmult_le_reg_l with (2 * (1 + c))%R; [lra|].
    assert (H4 : (2 * (1 + c) * (X (S n) - s)
                  <= (1 + 201 / 100 * u) * (2 * (1 + c) * (N - s))
                     + 201 / 50 * u * (1 + c) * s)%R).
    { apply Rmult_le_compat_l with (r := (2 * (1 + c))%R) in He; lra. }
    assert (H5 : ((1 + 201 / 100 * u) * (2 * (1 + c) * (N - s))
                  <= (1 + 201 / 100 * u) * (c * c * s))%R)
      by (apply Rmult_le_compat_l; lra).
    assert (H6 : (((1 + 201 / 100 * u) * (c * c)
                   + 201 / 50 * u * (1 + c)) * s
                  <= 2 * (1 + c) * c' * s)%R)
      by (apply Rmult_le_compat_r; lra).
    lra.
  - destruct (orbit_linear_step n) as [_ Hbelow].
    specialize (Hbelow (Rlt_le _ _ Hlt)).
    assert (H : (4 * u * s <= c' * s)%R)
      by (apply Rmult_le_compat_r; lra).
    lra.
Qed.

End Orbit.

(** ** Termination *)

Lemma bpow_m40 : bpow (-40) = (/ 1099511627776)%R.
Proof. exact (bpow_neg_val 40 ltac:(lia)). Qed.

Lemma bpow_m41 : bpow (-41) = (/ 2199023255552)%R.
Proof. exact (bpow_neg_val 41 ltac:(lia)). Qed.

Lemma bpow_m42 : bpow (-42) = (/ 4398046511104)%R.
Proof. exact (bpow_neg_val 42 ltac:(lia)). Qed.

Section Termination.

Variable a : binary64.
Hypothesis Ha : is_binary64 a = true.
Hypothesis Hpa : is_pos_finite a = true.

Let s : R := sqrt (B2R a).
Let X (n : nat) : R := B2R (iterate a n).

(** The test holds as soon as the estimate is within [2^-41 * (1 + s)]
    above the root. *)
Lemma stop_when_close (x : binary64) :
  est_ok a x ->
  (B2R x - s <= bpow (-41) * (1 + s))%R ->
  stop_test eps x (heron a x) = true.
Proof.
  intros Hx Hclose.
  destruct (orbit_step a Ha Hpa x Hx) as (H1 & H2 & H3 & _ & Hx').
  pose proof (orbit_s_pos a Ha Hpa) as Hs. fold s in Hs, H1, H2.
  destruct Hx as (Hpx & Hvx & _). destruct Hx' as (Hpx' & Hvx' & _).
  apply (stop_test_spec x (heron a x) Hpx Hvx Hpx' Hvx').
  destruct eps_bounds as (_ & [HE _] & _).
  set (E := B2R eps) in *. set (Xx := B2R x) in *.
  set (X' := B2R (heron a x)) in *.
  set (N := ((Xx + B2R a / Xx) / 2)%R) in *.
  pose proof (step_lower s Xx _ N X' Hs H1 H2 eq_refl H3) as Hlow.
  pose proof u_val as Hu. pose proof bpow_m40 as H40.
  pose proof bpow_m41 as H41.
  apply Rle_trans
    with (bpow (-40) * (1 + (1 - 201 / 100 * u) * s)
          * ((1 - u) * (1 - u)))%R.
  - destruct (Rle_lt_dec s Xx) as [Hge|Hlt].
    + pose proof (step_diff_above s Xx _ N X' Hs H1 H2 eq_refl H3 Hge) as Hd.
      apply Rle_trans with (1 := Hd).
      apply Rle_trans
        with ((1 + 201 / 100 * u) * (bpow (-41) * (1 + s))
              + 201 / 100 * u * s)%R.
      * apply Rplus_le_compat_r. apply Rmult_le_compat_l; [|exact Hclose].
        rewrite Hu. lra.
      * rewrite Hu, H40, H41. lra.
    + pose proof (step_diff_below s Xx _ N X' Hs H1 H2 eq_refl H3
                    (Rlt_le _ _ Hlt)) as Hd.
      apply Rle_trans with (1 := Hd). rewrite Hu, H40. lra.
  - apply Rmult_le_compat_r.
    + apply Rmult_le_pos; rewrite Hu; lra.
    + apply Rmult_le_compat; try lra. rewrite Hu. lra.
Qed.

(** Large inputs: [K] halving steps bring the estimate from [a] to about
    twice the root, and five more steps to within rounding of it. *)
Lemma orbit_large (K : nat) :
  (K <= 512)%nat -> (1 <= B2R a)%R -> (B2R a <= bpow (2 * Z.of_nat K))%R ->
  (X (K + 5) - s <= 2 / 1000000000000000 * s)%R.
Proof.
  intros HK H1 HaK.
  pose proof (orbit_s_pos a Ha Hpa) as Hs. pose proof (orbit_s_sqr a Ha Hpa) as Hss.
  fold s in Hs, Hss. pose proof u_val as Hu.
  assert (HsK : (s <= bpow (Z.of_nat K))%R).
  { unfold s. rewrite <- (sqrt_bpow (Z.of_nat K)). apply sqrt_le_1; lra. }
  assert (Hs1 : (1 <= s)%R).
  { unfold s. rewrite <- sqrt_1. apply sqrt_le_1; lra. }
  assert (HX0 : X 0 = B2R a).
  { destruct (initial_guess_ge_sqrt a Ha Hpa) as (_ & _ & _ & H).
    unfold X. simpl. rewrite H. apply Rmax_left. exact H1. }
  assert (HK0 : (X K - s <= 1001 / 1000 * s)%R).
  { assert (Hlin : (X K - s <= (X 0 - s) * q ^ K + 5 * u * s)%R)
      by exact (orbit_linear a Ha Hpa K).
    rewrite HX0 in Hlin.
    pose proof (q_pow K ltac:(lia)) as Hq.
    assert (HKR : (0 <= INR K <= 512)%R).
    { split; [apply pos_INR|]. rewrite INR_IZR_INZ. apply IZR_le. lia. }
    assert (Hqn : (0 <= q ^ K)%R) by (apply pow_le; unfold q; rewrite Hu; lra).
    assert (Hb : (s * bpow (- Z.of_nat K) <= 1)%R).
    { rewrite bpow_opp. apply Rmult_le_reg_r with (bpow (Z.of_nat K)).
      - apply bpow_gt_0.
      - rewrite Rmult_assoc, Rinv_l, Rmult_1_r, Rmult_1_l; [exact HsK|].
        pose proof (bpow_gt_0 (Z.of_nat K)). lra. }
    pose proof (bpow_gt_0 (- Z.of_nat K)) as Hbp.
    assert (H2 : ((B2R a - s) * q ^ K <= s * s * q ^ K)%R)
      by (apply Rmult_le_compat_r; lra).
    assert (H3 : (s * s * q ^ K
                  <= s * s * ((1 + 5 * INR K * u) * bpow (- Z.of_nat K)))%R)
      by (apply Rmult_le_compat_l; [nra|exact Hq]).
    assert (H4 : (s * s * ((1 + 5 * INR K * u) * bpow (- Z.of_nat K))
                  <= s * (1 + 5 * INR K * u))%R).
    { replace (s * s * ((1 + 5 * INR K * u) * bpow (- Z.of_nat K)))%R
        with (s * (1 + 5 * INR K * u) * (s * bpow (- Z.of_nat K)))%R by ring.
      rewrite <- (Rmult_1_r (s * (1 + 5 * INR K * u))) at 2.
      apply Rmult_le_compat_l; [|exact Hb].
      apply Rmult_le_pos; [lra|]. rewrite Hu. nra. }
    assert (H5 : (s * (5 * INR K * u) <= s * (5 * 512 * u))%R).
    { apply Rmult_le_compat_l; [lra|]. rewrite Hu. nra. }
    rewrite Hu in *. nra. }
  assert (Hc1 : (X (S K) - s <= 2505 / 10000 * s)%R).
  { apply (orbit_quadratic a Ha Hpa (1001 / 1000)); rewrite ?Hu; try lra.
    exact HK0. }
  assert (Hc2 : (X (S (S K)) - s <= 251 / 10000 * s)%R).
  { apply (orbit_quadratic a Ha Hpa (2505 / 10000)); rewrite ?Hu; try lra.
    exact Hc1. }
  assert (Hc3 : (X (S (S (S K))) - s <= 31 / 100000 * s)%R).
  { apply (orbit_quadratic a Ha Hpa (251 / 10000)); rewrite ?Hu; try lra.
    exact Hc2. }
  assert (Hc4 : (X (S (S (S (S K)))) - s <= 5 / 100000000 * s)%R).
  { apply (orbit_quadratic a Ha Hpa (31 / 100000)); rewrite ?Hu; try lra.
    exact Hc3. }
  replace (K + 5)%nat with (S (S (S (S (S K))))) by lia.
  apply (orbit_quadratic a Ha Hpa (5 / 100000000)); rewrite ?Hu; try lra.
  exact Hc4.
Qed.

(** Inputs below one: the estimate starts from 1 and the absolute floor
    of the tolerance is reached after 42 halvings. *)
Lemma orbit_small (n : nat) :
  (42 <= n)%nat -> (B2R a < 1)%R ->
  (X n - s <= bpow (-41))%R.
Proof.
  intros Hn H1.
  pose proof (orbit_s_pos a Ha Hpa) as Hs. pose proof (orbit_s_sqr a Ha Hpa) as Hss.
  fold s in Hs, Hss. pose proof u_val as Hu.
  assert (Hs1 : (s < 1)%R) by nra.
  assert (HX0 : X 0 = 1%R).
  { destruct (initial_guess_ge_sqrt a Ha Hpa) as (_ & _ & _ & H).
    unfold X. simpl. rewrite H. apply Rmax_right. lra. }
  assert (Hlin : (X n - s <= (X 0 - s) * q ^ n + 5 * u * s)%R)
    by exact (orbit_linear a Ha Hpa n).
  rewrite HX0 in Hlin.
  pose proof (q_pow_le 42 n Hn) as Hq1.
  pose proof (q_pow 42 ltac:(lia)) as Hq2.
  change (- Z.of_nat 42) with (-42) in Hq2. rewrite bpow_m42 in Hq2.
  replace (INR 42) with 42%R in Hq2 by (rewrite INR_IZR_INZ; reflexivity).
  assert (Hqn : (0 <= q ^ n)%R) by (apply pow_le; unfold q; rewrite Hu; lra).
  assert (H2 : ((1 - s) * q ^ n <= 1 * q ^ n)%R)
    by (apply Rmult_le_compat_r; lra).
  assert (H3 : (u * s <= u * 1)%R)
    by (apply Rmult_le_compat_l; rewrite ?Hu; lra).
  rewrite bpow_m41. rewrite Hu in *. lra.
Qed.

(** Every positive finite input at most [2^(2K)] passes the test of step
    [K + 5]. *)
Lemma stops_at (K : nat) :
  (37 <= K <= 512)%nat -> (B2R a <= bpow (2 * Z.of_nat K))%R ->
  stops a eps (K + 5) = true.
Proof.
  intros HK HaK. unfold stops. simpl iterate.
  pose proof (orbit_s_pos a Ha Hpa) as Hs. fold s in Hs.
  apply stop_when_close; [apply orbit_est_ok; assumption|].
  fold (X (K + 5)).
  pose proof bpow_m41 as H41.
  destruct (Rle_lt_dec 1 (B2R a)) as [Hge|Hlt].
  - pose proof (orbit_large K ltac:(lia) Hge HaK) as H.
    rewrite H41. lra.
  - pose proof (orbit_small (K + 5) ltac:(lia) Hlt) as H.
    rewrite H41 in *. nra.
Qed.

End Termination.

(** ** Accuracy of the estimate returned through the stopping test *)
Section RealAccuracy.

Variables s X Q N X' E : R.
Hypothesis Hs : (bpow (-11) <= s)%R.
Hypothesis HX : ((1 - 2 * u) * s <= X)%R.
Hypothesis HQ : (Q * X = s * s)%R.
Hypothesis HN : (N = (X + Q) / 2)%R.
Hypothesis HX' : (Rabs (X' - N) <= u * N + u * Q * (1 + u) / 2)%R.

Lemma bpow_m11 : bpow (-11) = (/ 2048)%R.
Proof. exact (bpow_neg_val 11 ltac:(lia)). Qed.

Lemma bpow_m39 : bpow (-39) = (/ 549755813888)%R.
Proof. exact (bpow_neg_val 39 ltac:(lia)). Qed.

Lemma square_error (c : R) :
  (0 <= c <= 1 -> Rabs (X' - s) <= c * s ->
   Rabs (X' * X' - s * s) <= (2 * c + c * c) * (s * s))%R.
Proof.
  intros Hc Hd. pose proof (bpow_gt_0 (-11)) as H11.
  apply Rabs_le_elim in Hd. apply Rabs_le_intro.
  set (d := (X' - s)%R) in *.
  replace (X' * X' - s * s)%R with (2 * s * d + d * d)%R by (unfold d; ring).
  assert (H1 : (0 <= (c * s - d) * (c * s + d))%R)
    by (apply Rmult_le_pos; lra).
  assert (H2 : (0 <= d * d)%R) by apply Rle_0_sqr.
  assert (H3 : (2 * s * d <= 2 * s * (c * s))%R)
    by (apply Rmult_le_compat_l; lra).
  assert (H4 : (2 * s * (- (c * s)) <= 2 * s * d)%R)
    by (apply Rmult_le_compat_l; lra).
  assert (H5 : (0 <= c * c * (s * s))%R).
  { apply Rmult_le_pos; [apply Rle_0_sqr|apply Rle_0_sqr]. }
  split; lra.
Qed.

Lemma accuracy_below :
  (X <= s -> Rabs (X' * X' - s * s) <= 4 * u * (s * s))%R.
Proof.
  intros Hle. pose proof (bpow_gt_0 (-11)) as H11.
  assert (Hs0 : (0 < s)%R) by lra.
  pose proof u_val as Hu.
  pose proof (step_X_pos s X Hs0 HX) as HX0.
  pose proof (step_Q_below s X Q Hs0 HX HQ Hle) as HQle.
  pose proof (step_Q_pos s X Q Hs0 HX HQ) as HQ0.
  pose proof (step_N_ge s X Q N Hs0 HX HQ HN) as HNge.
  pose proof (step_N_below s X Q N Hs0 HX HQ HN Hle) as HNle.
  assert (Hd : (Rabs (X' - s) <= 16 / 10 * u * s)%R).
  { apply Rabs_le_elim in HX'. apply Rabs_le_intro.
    rewrite Hu in *. split; nra. }
  apply Rle_trans with ((2 * (16 / 10 * u) + 16 / 10 * u * (16 / 10 * u))
                        * (s * s))%R.
  - apply square_error; [rewrite Hu; lra|exact Hd].
  - apply Rmult_le_compat_r; [apply Rle_0_sqr|]. rewrite Hu. lra.
Qed.

Hypothesis HE : (E < bpow (-39))%R.
Hypothesis HE0 : (0 < E)%R.
Hypothesis Hstop :
  (Rabs (X' - X) * (1 - u) <= E * (1 + X') * ((1 + u) * (1 + u)))%R.

Lemma accuracy_above :
  (s <= X -> Rabs (X' * X' - s * s) <= 4 * u * (s * s))%R.
Proof.
  intros Hge. pose proof (bpow_gt_0 (-11)) as H11.
  assert (Hs0 : (0 < s)%R) by lra.
  pose proof u_val as Hu. pose proof bpow_m11 as Hb11.
  pose proof bpow_m39 as Hb39.
  pose proof (step_X_pos s X Hs0 HX) as HX0.
  pose proof (step_Q_le s X Q Hs0 HX HQ Hge) as HQle.
  pose proof (step_Q_pos s X Q Hs0 HX HQ) as HQ0.
  pose proof (step_N_ge s X Q N Hs0 HX HQ HN) as HNge.
  destruct (step_N_above s X Q N Hs0 HX HQ HN Hge) as [HN1 HN2].
  pose proof (step_gap s X Q N HQ HN) as Hgap.
  set (e := (X - s)%R) in *.
  assert (Hedef : e = (X - s)%R) by reflexivity. clearbody e.
  apply Rabs_le_elim in HX'.
  assert (HX'0 : (0 < 1 + X')%R) by (rewrite Hu in *; lra).
  assert (Hst : (Rabs (X' - X) * (1 - u)
                 <= bpow (-39) * (1 + X') * ((1 + u) * (1 + u)))%R).
  { apply Rle_trans with (1 := Hstop). apply Rmult_le_compat_r.
    - apply Rle_0_sqr.
    - apply Rmult_le_compat_r; lra. }
  assert (HD : (X - X' <= Rabs (X' - X))%R).
  { rewrite <- Rabs_Ropp. replace (- (X' - X))%R with (X - X')%R by ring.
    apply Rle_abs. }
  assert (He : (e <= 8 / 1000000000 * s)%R).
  { assert (HD1 : ((X - X') * (1 - u) <= Rabs (X' - X) * (1 - u))%R)
      by (apply Rmult_le_compat_r; rewrite ?Hu; lra).
    rewrite Hu, Hb39, Hb11 in *.
    assert (T1 : (X' <= (1 + / 9007199254740992) * ((X + s) / 2)
                        + / 9007199254740992 * s
                          * (1 + / 9007199254740992) / 2)%R) by lra.
    assert (T2 : ((X - X') * (1 - / 9007199254740992)
                  <= / 549755813888 * (1 + X')
                     * ((1 + / 9007199254740992)
                        * (1 + / 9007199254740992)))%R) by lra.
    clear - T1 T2 Hs Hge Hedef. lra. }
  assert (HNs : (N - s <= 32 / 1000000000000000000 * s)%R).
  { apply Rmult_le_reg_l with (2 * s)%R; [lra|].
    apply Rle_trans with (2 * X * (N - s))%R.
    - assert (H : (2 * s * (N - s) <= 2 * X * (N - s))%R)
        by (apply Rmult_le_compat_r; lra).
      lra.
    - rewrite Hgap.
      assert (H : (e * e <= 8 / 1000000000 * s * (8 / 1000000000 * s))%R)
        by (apply Rmult_le_compat; lra).
      nra. }
  assert (Hd : (Rabs (X' - s) <= 18 / 10 * u * s)%R).
  { apply Rabs_le_intro. rewrite Hu in *.
    clear - HX' HNs HNge HN1 HQle HQ0 Hs0 He Hedef. split; lra. }
  apply Rle_trans with ((2 * (18 / 10 * u) + 18 / 10 * u * (18 / 10 * u))
                        * (s * s))%R.
  - apply square_error; [rewrite Hu; lra|exact Hd].
  - apply Rmult_le_compat_r; [apply Rle_0_sqr|]. rewrite Hu. lra.
Qed.

End RealAccuracy.

(** The loop, when it stops, returns the iterate of the step that stopped. *)
Lemma loop_stops_result (a eps' : binary64) (n i : nat) :
  loop_stops a eps' n (iterate a i) = true ->
  exists m, (i <= m < i + n)%nat /\ stops a eps' m = true /\
    newton_loop a eps' n (iterate a i) = iterate a (S m).
Proof.
  revert i. induction n as [|n IH]; intros i H; [discriminate H|].
  rewrite loop_stops_step in H. rewrite loop_step.
  destruct (stop_test eps' (iterate a i) (heron a (iterate a i))) eqn:Hi.
  - exists i. repeat split; [lia|lia|exact Hi].
  - destruct (IH (S i) H) as (m & Hm & Hs & Hr).
    exists m. repeat split; [lia|lia|exact Hs|exact Hr].
Qed.

Section Accuracy.

Variable a : binary64.
Hypothesis Ha : is_binary64 a = true.
Hypothesis Hpa : is_pos_finite a = true.

Let s : R := sqrt (B2R a).

(** No estimate exceeds twice the initial guess. *)
Lemma orbit_upper (n : nat) :
  (B2R (iterate a n) <= 2 * Rmax (B2R a) 1)%R.
Proof.
  assert (Hlin : (B2R (iterate a n) - s
                  <= (B2R (initial_guess a) - s) * q ^ n + 5 * u * s)%R)
    by exact (orbit_linear a Ha Hpa n).
  destruct (initial_guess_ge_sqrt a Ha Hpa) as (_ & _ & [Hs0 Hs1] & H0).
  rewrite H0 in *. fold s in Hs0, Hs1.
  set (M := Rmax (B2R a) 1) in *.
  pose proof u_val as Hu.
  assert (Hq : (0 <= q ^ n <= 1)%R).
  { split; [apply pow_le; unfold q; rewrite Hu; lra|].
    pose proof (q_pow_le 0 n ltac:(lia)) as H. simpl in H. exact H. }
  assert (H1 : ((M - s) * q ^ n <= (M - s) * 1)%R)
    by (apply Rmult_le_compat_l; lra).
  assert (H2 : (u * s <= u * M)%R)
    by (apply Rmult_le_compat_l; rewrite ?Hu; lra).
  rewrite Hu in *. lra.
Qed.

Lemma orbit_quotient_normal (n : nat) :
  (bpow (-22) <= B2R a)%R ->
  (bpow (-1022) <= B2R a / B2R (iterate a n))%R.
Proof.
  intros H22. pose proof (orbit_upper n) as Hup.
  destruct (orbit_est_ok a Ha Hpa n) as (Hp & _ & Hlow).
  pose proof (orbit_s_pos a Ha Hpa) as Hs0. fold s in Hs0, Hlow.
  pose proof u_val as Hu.
  set (Xn := B2R (iterate a n)) in *.
  assert (HX0 : (0 < Xn)%R) by (rewrite Hu in Hlow; nra).
  apply Rmult_le_reg_r with Xn; [exact HX0|].
  replace (B2R a / Xn * Xn)%R with (B2R a) by (field; lra).
  pose proof (bpow_gt_0 (-1022)) as Hb.
  pose proof (bpow_lt (-1022) (-23) ltac:(lia)) as Hb23.
  assert (Hb22 : bpow (-22) = (2 * bpow (-23))%R)
    by (rewrite <- bpow_succ; reflexivity).
  destruct (Rle_lt_dec (B2R a) 1) as [Hle|Hgt].
  - rewrite Rmax_right in Hup by exact Hle.
    assert (bpow (-1022) * Xn <= bpow (-1022) * 2)%R
      by (apply Rmult_le_compat_l; lra).
    pose proof (bpow_lt (-1022) (-24) ltac:(lia)).
    assert (bpow (-23) = 2 * bpow (-24))%R
      by (rewrite <- bpow_succ; reflexivity).
    clear - H H0 H1 Hb Hb22 H22 Hle. lra.
  - rewrite Rmax_left in Hup by lra.
    assert (bpow (-1022) * Xn <= bpow (-1022) * (2 * B2R a))%R
      by (apply Rmult_le_compat_l; lra).
    pose proof (bpow_lt (-1022) (-1) ltac:(lia)) as Hb1.
    assert (Hh : bpow (-1) = (/ 2)%R) by exact (bpow_neg_val 1 ltac:(lia)).
    assert (H1 : (bpow (-1022) * (2 * B2R a)
                  <= bpow (-1) * (2 * B2R a))%R)
      by (apply Rmult_le_compat_r; lra).
    rewrite Hh in H1. clear - H H1. lra.
Qed.

(** The estimate returned by a passing test has a square within
    [4 * 2^-53 * a] of [a], for [a >= 2^-22]. *)
Lemma stop_accurate (n : nat) :
  (bpow (-22) <= B2R a)%R ->
  stops a eps n = true ->
  (Rabs (B2R (iterate a (S n)) * B2R (iterate a (S n)) - B2R a)
   <= 4 * u * B2R a)%R.
Proof.
  intros H22 Hstop. unfold stops in Hstop. simpl iterate in *.
  set (x := iterate a n) in *.
  pose proof (orbit_quotient_normal n H22) as HQn. fold x in HQn.
  pose proof (orbit_est_ok a Ha Hpa n) as Hx. fold x in Hx.
  destruct (orbit_step a Ha Hpa x Hx) as (H1 & H2 & _ & H3 & Hx').
  specialize (H3 HQn).
  pose proof (orbit_s_pos a Ha Hpa) as Hs0.
  pose proof (orbit_s_sqr a Ha Hpa) as Hss. fold s in Hs0, Hss, H1, H2.
  destruct Hx as (Hpx & Hvx & _). destruct Hx' as (Hpx' & Hvx' & Hlow').
  fold s in Hlow'.
  destruct (stop_test_spec x (heron a x) Hpx Hvx Hpx' Hvx') as [_ Hnec].
  specialize (Hnec Hstop).
  destruct eps_bounds as (_ & [HElo HEhi] & _).
  pose proof u_val as Hu.
  assert (Hs11 : (bpow (-11) <= s)%R).
  { unfold s. rewrite <- (sqrt_bpow (-11)). change (2 * -11) with (-22).
    pose proof (bpow_gt_0 (-22)). apply sqrt_le_1; lra. }
  assert (HE0 : (0 < B2R eps)%R) by (pose proof (bpow_gt_0 (-40)); lra).
  assert (Hst : (Rabs (B2R (heron a x) - B2R x) * (1 - u)
                 <= B2R eps * (1 + B2R (heron a x))
                    * ((1 + u) * (1 + u)))%R).
  { destruct Hnec as [Hsmall|Hok]; [|exact Hok].
    pose proof (bpow_lt (-1022) (-40) ltac:(lia)) as Hb.
    pose proof (Rabs_pos (B2R (heron a x) - B2R x)) as HD0.
    set (D := Rabs (B2R (heron a x) - B2R x)) in *.
    set (X' := B2R (heron a x)) in *.
    assert (HX'0 : (0 <= X')%R) by (rewrite Hu in Hlow'; nra).
    assert (H4 : (D * (1 - u) <= D * 1)%R)
      by (apply Rmult_le_compat_l; rewrite ?Hu; lra).
    assert (H5 : (B2R eps * 1 <= B2R eps * (1 + X'))%R)
      by (apply Rmult_le_compat_l; lra).
    assert (H6 : (B2R eps * (1 + X') * 1
                  <= B2R eps * (1 + X') * ((1 + u) * (1 + u)))%R).
    { apply Rmult_le_compat_l; [nra|]. rewrite Hu. lra. }
    lra. }
  rewrite <- Hss.
  destruct (Rle_lt_dec s (B2R x)) as [Hge|Hlt].
  - apply (accuracy_above s (B2R x) _ _ (B2R (heron a x)) (B2R eps)
             Hs11 H1 H2 eq_refl H3 HEhi HE0 Hst Hge).
  - apply (accuracy_below s (B2R x) _ _ (B2R (heron a x))
             Hs11 H1 H2 eq_refl H3 (Rlt_le _ _ Hlt)).
Qed.

End Accuracy.

(** ** Exact values: the rationals of the specification and the reals *)

Lemma Q2R_inject_Z (z : Z) : Q2R (inject_Z z) = IZR z.
Proof. unfold Q2R. simpl. rewrite Rinv_1. ring. Qed.

Lemma Q2R_pow2 (e : Z) : Q2R (pow2 e) = bpow e.
Proof.
  unfold pow2, bpow. rewrite RMicromega.Q2RpowerRZ.
  - f_equal. apply (Q2R_inject_Z 2).
  - left. discriminate.
Qed.

Lemma Q2R_B2Q (x : binary64) : Q2R (B2Q x) = B2R x.
Proof.
  destruct x as [?|?| |sx m e]; try apply RMicromega.Q2R_0.
  unfold B2Q, B2R, F2R. now rewrite Q2R_mult, Q2R_inject_Z, Q2R_pow2.
Qed.

Lemma Q2R_Qabs (x : Q) : Q2R (Qabs x) = Rabs (Q2R x).
Proof.
  apply Qabs_case; intros H; apply Qle_Rle in H;
    rewrite RMicromega.Q2R_0 in H.
  - now rewrite Rabs_right by lra.
  - rewrite Q2R_opp. now rewrite Rabs_left1 by lra.
Qed.

(** [ulp a] exceeds [2^-53 * a]. *)
Lemma ulp_lower (m : positive) (e : Z) :
  bounded prec emax m e = true ->
  (u * F2R (Zpos m) e <= Q2R (ulp (S754_finite false m e)))%R.
Proof.
  intros Hb. destruct (bounded_elim m e Hb) as (_ & _ & _ & Hd & _).
  simpl ulp. rewrite Q2R_pow2. unfold F2R.
  destruct (digits_bounds_R (Zpos m) ltac:(lia)) as [_ Hm].
  assert (Hm53 : (IZR (Zpos m) <= bpow 53)%R).
  { apply Rlt_le, Rlt_le_trans with (1 := Hm). apply bpow_le.
    change (Zdigits2 (Zpos m)) with (Zpos (digits2_pos m)).
    exact Hd. }
  pose proof (bpow_gt_0 e) as He.
  assert (H53 : (u * bpow 53 = 1)%R).
  { unfold u. rewrite <- bpow_add. reflexivity. }
  pose proof u_bounds as Hu.
  assert (H : (u * IZR (Zpos m) <= u * bpow 53)%R)
    by (apply Rmult_le_compat_l; lra).
  rewrite <- Rmult_assoc.
  rewrite <- (Rmult_1_l (bpow e)) at 2.
  apply Rmult_le_compat_r; lra.
Qed.

Lemma square_within_intro (a r : binary64) :
  is_binary64 a = true -> is_pos_finite a = true -> is_finite r = true ->
  (Rabs (B2R r * B2R r - B2R a) <= 4 * u * B2R a)%R ->
  square_within 4 a r.
Proof.
  intros Ha Hpa Hr H. split; [exact Hr|].
  destruct a as [?|?| |[|] m e]; try discriminate Hpa.
  apply Rle_Qle.
  rewrite Q2R_Qabs, Q2R_minus, !Q2R_mult, !Q2R_B2Q, Q2R_inject_Z.
  apply Rle_trans with (1 := H).
  pose proof (ulp_lower m e Ha) as Hu.
  rewrite B2R_pos_finite. lra.
Qed.

(** Range hypotheses, from the rationals to the reals. *)
Lemma B2Q_le_pow2 (a : binary64) (k : Z) :
  (B2Q a <= pow2 k)%Q -> (B2R a <= bpow k)%R.
Proof. intros H. apply Qle_Rle in H. now rewrite Q2R_B2Q, Q2R_pow2 in H. Qed.

Lemma pow2_le_B2Q (a : binary64) (k : Z) :
  (pow2 k <= B2Q a)%Q -> (bpow k <= B2R a)%R.
Proof. intros H. apply Qle_Rle in H. now rewrite Q2R_B2Q, Q2R_pow2 in H. Qed.

(** * The estimates do not increase

    An estimate at least the root is followed by a smaller one.  An
    estimate below the root is a rounding artefact of the step that
    produced it, and that step leaves it so close to the root that the
    next one returns it unchanged.  The argument needs the rule for ties
    and the fact that [a] itself is a value of the format. *)

(** ** Rounding against a grid *)

(** A value of the format has one representation. *)
Lemma bounded_unique (m m' : positive) (e e' : Z) :
  bounded prec emax m e = true -> bounded prec emax m' e' = true ->
  F2R (Zpos m) e = F2R (Zpos m') e' -> m = m' /\ e = e'.
Proof.
  intros Hb Hb' Heq.
  assert (He : e = e').
  { destruct (Z.lt_trichotomy e e') as [Hlt|[He|Hgt]]; [|exact He|].
    - pose proof (bounded_lt m m' e e' Hb Hb' Hlt). lra.
    - pose proof (bounded_lt m' m e' e Hb' Hb Hgt). lra. }
  subst e'. split; [|reflexivity].
  unfold F2R in Heq. pose proof (bpow_gt_0 e) as Hp.
  apply Rmult_eq_reg_r in Heq; [|lra].
  apply eq_IZR in Heq. congruence.
Qed.

Lemma F2R_lt_inv (m m' e : Z) : (F2R m e < F2R m' e)%R -> m < m'.
Proof.
  unfold F2R. intros H. pose proof (bpow_gt_0 e) as Hp.
  apply lt_IZR. apply Rmult_lt_reg_r with (1 := Hp). exact H.
Qed.

Lemma F2R_le_inv (m m' e : Z) : (F2R m e <= F2R m' e)%R -> m <= m'.
Proof.
  unfold F2R. intros H. pose proof (bpow_gt_0 e) as Hp.
  apply le_IZR. apply Rmult_le_reg_r with (1 := Hp). exact H.
Qed.

Lemma F2R_eq_inv (m m' e : Z) : F2R m e = F2R m' e -> m = m'.
Proof.
  unfold F2R. intros H. pose proof (bpow_gt_0 e) as Hp.
  apply eq_IZR. apply Rmult_eq_reg_r with (bpow e); [exact H|lra].
Qed.

Lemma F2R_pow2 (k e : Z) : 0 <= k -> F2R (2 ^ k) e = bpow (k + e).
Proof.
  intros Hk. unfold F2R. rewrite IZR_pow2 by exact Hk.
  now rewrite <- bpow_add.
Qed.

(** The magnitude of a finite rounding is the grid point chosen. *)
Lemma rounded_Bmag (s : bool) (r : binary64) (m2 e1 : Z) :
  match r with
  | S754_zero s' => s' = s /\ m2 = 0
  | S754_infinity s' => s' = s /\ (bpow emax <= F2R m2 e1)%R
  | S754_finite s' m e =>
      s' = s /\ F2R (Zpos m) e = F2R m2 e1 /\ bounded prec emax m e = true
  | S754_nan => False
  end ->
  is_finite r = true -> Bmag r = F2R m2 e1.
Proof.
  destruct r as [s'|s'| |s' m e]; intros Hs Hf; try discriminate Hf.
  - destruct Hs as [_ ->]. rewrite Bmag_zero. unfold F2R. ring.
  - destruct Hs as (_ & Hv & _). now rewrite Bmag_finite.
Qed.

(** A rounding above the binade of the grid [2^ex] is at least
    [2^(ex + 53)]. *)
Lemma rounded_high (rho : R) (m2 e1 ex : Z) :
  ex < e1 ->
  (e1 = -1074 \/ (bpow (e1 + prec - 1) <= rho)%R) -> -1074 <= ex ->
  (forall k, (F2R k e1 <= rho)%R -> k <= m2) ->
  (bpow (ex + prec) <= F2R m2 e1)%R.
Proof.
  intros He [->|Hn] Hex Hge; [lia|].
  assert (H2 : 2 ^ (prec - 1) <= m2).
  { apply Hge. rewrite F2R_pow2 by (unfold prec; lia).
    now replace (prec - 1 + e1) with (e1 + prec - 1) by lia. }
  apply (F2R_le _ _ e1) in H2. rewrite F2R_pow2 in H2 by (unfold prec; lia).
  apply Rle_trans with (2 := H2). apply bpow_le. lia.
Qed.

(** A finite rounding that is at most the grid point [z * 2^ex] comes
    from a real at most half a step above it; from that very real only
    when [z] is even. *)
Lemma rounded_le_grid (s : bool) (rho : R) (r : binary64) (z ex : Z) :
  rounded s rho r -> is_finite r = true ->
  0 <= z < 2 ^ prec -> -1074 <= ex ->
  (Bmag r <= F2R z ex)%R ->
  (rho <= F2R z ex + bpow ex / 2)%R /\
  (rho = F2R z ex + bpow ex / 2 -> Z.even z = true)%R.
Proof.
  intros (m2 & e1 & Hm2 & He1 & Hhi & Hnorm & Habs & Hle & Hge & Hev & Hs)
         Hfin Hz Hex Hr.
  rewrite (rounded_Bmag s r m2 e1 Hs Hfin) in Hr.
  assert (Hzlt : (F2R z ex < bpow (ex + prec))%R).
  { replace (ex + prec) with (prec + ex) by lia.
    rewrite <- (F2R_pow2 prec ex) by (unfold prec; lia).
    apply F2R_lt_same. lia. }
  destruct (Z_le_gt_dec e1 ex) as [Hlow|Hup].
  - pose proof (bpow_le e1 ex Hlow) as Hb. pose proof (bpow_gt_0 e1) as Hp.
    apply Rabs_le_elim in Habs as Habs'. split; [lra|].
    intros Htie.
    assert (Hee : e1 = ex).
    { apply Z.le_antisymm; [exact Hlow|]. apply bpow_le_inv. lra. }
    subst e1. assert (Hmz : m2 = z).
    { apply (F2R_eq_inv _ _ ex). lra. }
    subst m2. apply Hev. rewrite Htie.
    replace (F2R z ex - (F2R z ex + bpow ex / 2))%R with (- (bpow ex / 2))%R
      by ring.
    rewrite Rabs_Ropp. apply Rabs_right. lra.
  - exfalso.
    pose proof (rounded_high rho m2 e1 ex ltac:(lia) Hnorm Hex Hge). lra.
Qed.

(** Rounding does not go below a grid point [z * 2^ex], [z < 2^53], that
    the real is not below. *)
Lemma rounded_ge_grid (s : bool) (rho : R) (r : binary64) (z ex : Z) :
  rounded s rho r -> is_finite r = true ->
  0 <= z < 2 ^ prec -> -1074 <= ex ->
  (F2R z ex <= rho)%R -> (F2R z ex <= Bmag r)%R.
Proof.
  intros (m2 & e1 & Hm2 & He1 & Hhi & Hnorm & Habs & Hle & Hge & Hev & Hs)
         Hfin Hz Hex Hr.
  rewrite (rounded_Bmag s r m2 e1 Hs Hfin).
  assert (Hzlt : (F2R z ex < bpow (ex + prec))%R).
  { replace (ex + prec) with (prec + ex) by lia.
    rewrite <- (F2R_pow2 prec ex) by (unfold prec; lia).
    apply F2R_lt_same. lia. }
  destruct (Z_le_gt_dec e1 ex) as [Hlow|Hup].
  - replace ex with (e1 + (ex - e1)) by lia.
    rewrite <- F2R_shift by lia. apply F2R_le. apply Hge.
    rewrite F2R_shift by lia. now replace (e1 + (ex - e1)) with ex by lia.
  - pose proof (rounded_high rho m2 e1 ex ltac:(lia) Hnorm Hex Hge). lra.
Qed.

(** The rounding of a real of the binade [[2^(ex+52), 2^(ex+53))] is made
    on the grid [2^ex]. *)
Lemma rounded_binade (s : bool) (rho : R) (r : binary64) (ex : Z) :
  rounded s rho r -> -1074 <= ex ->
  (bpow (ex + prec - 1) <= rho < bpow (ex + prec))%R ->
  exists m2 : Z,
    (Rabs (F2R m2 ex - rho) <= bpow ex / 2)%R /\
    (forall k, (rho <= F2R k ex)%R -> m2 <= k) /\
    (forall k, (F2R k ex <= rho)%R -> k <= m2) /\
    (Rabs (F2R m2 ex - rho) = bpow ex / 2 -> Z.even m2 = true)%R /\
    match r with
    | S754_zero s' => s' = s /\ m2 = 0
    | S754_infinity s' => s' = s /\ (bpow emax <= F2R m2 ex)%R
    | S754_finite s' m e =>
        s' = s /\ F2R (Zpos m) e = F2R m2 ex /\ bounded prec emax m e = true
    | S754_nan => False
    end.
Proof.
  intros (m2 & e1 & Hm2 & He1 & Hhi & Hnorm & Habs & Hle & Hge & Hev & Hs)
         Hex [Hlo Hup].
  assert (Hee : e1 = ex).
  { destruct (Z.lt_trichotomy e1 ex) as [Hlt|[He|Hgt]]; [|exact He|].
    - assert (H : (bpow (e1 + prec) <= bpow (ex + prec - 1))%R)
        by (apply bpow_le; lia). lra.
    - destruct Hnorm as [->|Hn]; [lia|].
      assert (H : (bpow (ex + prec) <= bpow (e1 + prec - 1))%R)
        by (apply bpow_le; lia). lra. }
  subst e1. exists m2. repeat split; assumption.
Qed.

(** A value of the format below a grid point [z * 2^ex] with
    [z > 2^52] is at most the grid point before it. *)
Lemma float_below_grid (mq : positive) (eq z ex : Z) :
  bounded prec emax mq eq = true -> 2 ^ (prec - 1) < z -> -1074 <= ex ->
  (F2R (Zpos mq) eq < F2R z ex)%R ->
  (F2R (Zpos mq) eq <= F2R (z - 1) ex)%R.
Proof.
  intros Hb Hz Hex Hlt.
  destruct (bounded_elim _ _ Hb) as (_ & _ & Heq & Hd & _).
  destruct (Z_le_gt_dec ex eq) as [Hge|Hlow].
  - replace eq with (ex + (eq - ex)) in * by lia.
    rewrite <- F2R_shift in * by lia.
    apply F2R_lt_inv in Hlt. apply F2R_le. lia.
  - pose proof (F2R_bounds (Zpos mq) eq ltac:(lia)) as [_ Hhi].
    apply Rlt_le. apply Rlt_le_trans with (1 := Hhi).
    apply Rle_trans with (bpow (prec - 1 + ex)).
    + apply bpow_le. simpl Zdigits2. lia.
    + rewrite <- F2R_pow2 by (unfold prec; lia). apply F2R_le. lia.
Qed.

(** ** The arithmetic of a step

    In units of the last place of the estimate [x = mx * 2^ex]: [Yi] is
    the previous estimate, [2^52 * t] is [a] in units of [2^(2 ex)]. *)

Lemma pow2_divide_odd (n : nat) (j o : Z) :
  Z.odd o = true -> (2 ^ Z.of_nat n | j * o) -> (2 ^ Z.of_nat n | j).
Proof.
  intros Ho. revert j. induction n as [|n IH]; intros j Hd.
  - apply Z.divide_1_l.
  - rewrite Nat2Z.inj_succ, Z.pow_succ_r in * by lia.
    destruct Hd as [c Hc].
    assert (Hev : Z.even j = true).
    { assert (He : Z.even (j * o) = true).
      { rewrite Hc. rewrite Z.even_mul, (Z.even_mul 2). simpl.
        apply orb_true_r. }
      rewrite Z.even_mul in He.
      assert (Heo : Z.even o = false)
        by (rewrite <- Z.negb_odd, Ho; reflexivity).
      now rewrite Heo, orb_false_r in He. }
    apply Z.even_spec in Hev. destruct Hev as [j' ->].
    destruct (IH j') as [d Hd'].
    + exists c. rewrite <- Z.mul_assoc in Hc. lia.
    + exists d. rewrite Hd'. ring.
Qed.

Lemma step_even (mx Yi t : Z) :
  2 ^ 52 <= mx < 2 ^ 53 -> Z.even mx = true -> mx < Yi ->
  mx * mx < 2 ^ 52 * t ->
  2 * (2 ^ 52 * t) <= (2 * (2 * mx + 1 - Yi) + 1) * Yi ->
  2 * (2 ^ 52 * t) < mx * (2 * mx + 3).
Proof.
  intros Hmx Hev HY Hlo Hhi.
  set (k := Yi - mx).
  assert (Hk : 1 <= k) by (unfold k; lia).
  assert (He : (2 * (2 * mx + 1 - Yi) + 1) * Yi
               = mx * (2 * mx + 3) + (3 * k - 2 * (k * k)))
    by (unfold k; ring).
  rewrite He in Hhi. clear He.
  destruct (Z_le_gt_dec 2 k) as [Hk2|Hk1].
  - assert (2 * k <= k * k) by nia. lia.
  - assert (Hk' : k = 1) by lia. rewrite Hk' in Hhi.
    apply Z.even_spec in Hev. destruct Hev as [j Hj].
    assert (Hp : mx * (2 * mx + 3) = 2 * (j * (4 * j + 3)))
      by (rewrite Hj; ring).
    rewrite Hp in *.
    assert (H1 : 2 ^ 52 * t <= j * (4 * j + 3)) by lia.
    assert (H2 : 2 ^ 52 * t <> j * (4 * j + 3)).
    { intros Heq.
      assert (Hd : (2 ^ Z.of_nat 52 | j * (4 * j + 3))).
      { exists t. rewrite <- Heq. simpl Z.of_nat. ring. }
      apply pow2_divide_odd in Hd.
      - simpl Z.of_nat in Hd. destruct Hd as [c Hc]. lia.
      - replace (4 * j + 3) with (1 + 2 * (2 * j + 1)) by ring.
        rewrite Z.odd_add_mul_2. reflexivity. }
    lia.
Qed.

Lemma step_low (mx Yi t : Z) :
  2 ^ 52 <= mx < 2 ^ 53 -> mx < Yi -> 2 * mx + 1 - Yi <= 2 ^ 52 ->
  mx * mx < 2 ^ 52 * t -> 2 ^ 52 * t < (2 * mx + 1 - Yi) * Yi -> False.
Proof.
  intros Hmx HY HQ Hlo Hhi.
  set (i := mx - 2 ^ 52). set (k := Yi - mx).
  assert (Hi : 0 <= i) by (unfold i; lia).
  assert (Hk : i + 1 <= k) by (unfold i, k; lia).
  assert (H1 : i * i + i <= k * k - k) by (clear - Hi Hk; nia).
  assert (H2 : (2 * mx + 1 - Yi) * Yi = mx * mx + mx - (k * k - k))
    by (unfold k; ring).
  assert (H3 : mx * mx = 2 ^ 104 + 2 ^ 53 * i + i * i)
    by (unfold i; ring).
  assert (H4 : 0 <= i * i) by (apply Z.mul_nonneg_nonneg; exact Hi).
  set (w := t - 2 ^ 52 - 2 * i).
  assert (H5 : 2 ^ 52 * t = 2 ^ 104 + 2 ^ 53 * i + 2 ^ 52 * w)
    by (unfold w; ring).
  assert (Hw0 : 0 < 2 ^ 52 * w) by lia.
  assert (Hw1 : 2 ^ 52 * w < 2 ^ 52) by (unfold i in *; lia).
  lia.
Qed.

Lemma step_high (mx Yi A' : Z) :
  mx < Yi -> 2 * A' <= (2 * (2 * mx + 1 - Yi) - 1) * Yi ->
  2 * A' < mx * (2 * mx + 1).
Proof. intros HY H. nia. Qed.

(** ** The step that produced an estimate *)

Lemma bounded_mantissa (m : positive) (e : Z) :
  bounded prec emax m e = true -> 0 <= Zpos m < 2 ^ prec.
Proof.
  intros Hb. destruct (bounded_elim _ _ Hb) as (_ & _ & _ & Hd & _).
  pose proof (digits2_pos_bound m) as Hm.
  assert (2 ^ Zpos (digits2_pos m) <= 2 ^ prec)
    by (apply Z.pow_le_mono_r; lia).
  lia.
Qed.

(** When a step from [y] returns the finite value [x = mx * 2^ex]: the
    quotient [q = a / y] is finite, and the exact sum [y + q] is at most
    half a unit (of the sum) above [2 x]; it is that only for even
    [mx]. *)
Lemma heron_inv (ma my mx : positive) (ea ey ex : Z) :
  bounded prec emax my ey = true -> bounded prec emax mx ex = true ->
  (bpow (-1021) <= F2R (Zpos my) ey)%R ->
  heron (S754_finite false ma ea) (S754_finite false my ey)
    = S754_finite false mx ex ->
  let q := (S754_finite false ma ea / S754_finite false my ey)%b64 in
  rounded false (F2R (Zpos ma) ea / F2R (Zpos my) ey) q /\
  is_finite q = true /\
  (F2R (Zpos my) ey + Bmag q <= F2R (2 * Zpos mx + 1) ex)%R /\
  (F2R (Zpos my) ey + Bmag q = F2R (2 * Zpos mx + 1) ex ->
   Z.even (Zpos mx) = true)%R.
Proof.
  intros Hy Hx HY Hh. cbv zeta.
  pose proof (div_rounded false false ma my ea ey) as Hq. simpl xorb in Hq.
  unfold heron in Hh.
  set (q := (S754_finite false ma ea / S754_finite false my ey)%b64) in *.
  pose proof (rounded_pos_shape _ _ Hq) as Hsh.
  set (Y := F2R (Zpos my) ey) in *. set (X := F2R (Zpos mx) ex).
  pose proof (bpow_gt_0 ex) as Hpx.
  assert (H2X : F2R (2 * Zpos mx + 1) ex = (2 * X + bpow ex)%R).
  { unfold X, F2R. rewrite plus_IZR, mult_IZR. ring. }
  split; [exact Hq|]. rewrite H2X.
  destruct q as [sq|sq| |sq mq eq] eqn:Eq.
  - (* the quotient underflowed to +0 *)
    subst sq. rewrite add_zero_r in Hh.
    destruct (half_exact my ey Hy HY) as (m' & e' & Hhalf & Hb' & Hv').
    rewrite Hhalf in Hh. injection Hh as -> ->. fold X Y in Hv'.
    split; [reflexivity|]. rewrite Bmag_zero. split; [lra|].
    intros Heq. exfalso. lra.
  - subst sq. discriminate Hh.
  - contradiction.
  - destruct Hsh as [-> Hbq]. split; [reflexivity|].
    rewrite Bmag_finite. set (Qv := F2R (Zpos mq) eq) in *.
    pose proof (F2R_pos mq eq) as HQ. fold Qv in HQ.
    pose proof (add_rounded false false my mq ey eq) as Hadd.
    rewrite !B2R_pos_finite in Hadd. fold Y Qv in Hadd.
    destruct Hadd as (_ & Hpos & _).
    assert (HYpos : (0 < Y)%R).
    { apply Rlt_le_trans with (2 := HY). apply bpow_gt_0. }
    specialize (Hpos ltac:(lra)).
    set (S := (S754_finite false my ey + S754_finite false mq eq)%b64) in *.
    pose proof (rounded_pos_shape _ _ Hpos) as Hsh.
    destruct (rounded_ge_float _ _ _ my ey Hpos Hy)
      as [Hinf|(ms & es & HS & Hge)]; [fold Y; lra| |].
    { rewrite Hinf in Hh. discriminate Hh. }
    rewrite HS in Hh, Hsh, Hpos. destruct Hsh as [_ Hbs]. fold Y in Hge.
    destruct (half_exact ms es Hbs) as (m' & e' & Hhalf & Hb' & Hv'); [lra|].
    rewrite Hhalf in Hh. injection Hh as -> ->. fold X in Hv'.
    destruct (bounded_elim _ _ Hx) as (_ & _ & Hex & _).
    assert (Hv2 : F2R (Zpos mx) (ex + 1) = (2 * X)%R).
    { unfold X, F2R. rewrite bpow_succ. ring. }
    destruct (rounded_le_grid false (Y + Qv) _ (Zpos mx) (ex + 1) Hpos
                eq_refl (bounded_mantissa mx ex Hx) ltac:(lia)) as [Hle Htie].
    { rewrite Bmag_finite, Hv2. lra. }
    rewrite Hv2, bpow_succ in Hle, Htie. split; [lra|].
    intros Heq. apply Htie. lra.
Qed.

(** ** A step that returns its argument *)

Lemma bounded_normal_digits (m : positive) (e : Z) :
  bounded prec emax m e = true -> 2 ^ (prec - 1) <= Zpos m ->
  Zpos (digits2_pos m) = prec.
Proof.
  intros Hb Hm. destruct (bounded_elim _ _ Hb) as (_ & _ & _ & Hd & _).
  pose proof (digits2_pos_bound m) as Hub.
  assert (Hlt : 2 ^ (prec - 1) < 2 ^ Zpos (digits2_pos m)) by lia.
  apply Z.pow_lt_mono_r_iff in Hlt; lia.
Qed.

Lemma bounded_double (m : positive) (e : Z) :
  bounded prec emax m e = true -> 2 ^ (prec - 1) <= Zpos m ->
  e + 1 <= emax - prec -> bounded prec emax m (e + 1) = true.
Proof.
  intros Hb Hm He. destruct (bounded_elim _ _ Hb) as (_ & _ & Hmin & _).
  apply bounded_intro; [|exact He].
  rewrite (bounded_normal_digits m e Hb Hm).
  unfold fexp, SpecFloat.emin, emax, prec in *. lia.
Qed.

Lemma F2R_succ (m e : Z) : F2R (m + 1) e = (F2R m e + bpow e)%R.
Proof. unfold F2R. rewrite plus_IZR. ring. Qed.

Lemma F2R_double (m e : Z) : F2R m (e + 1) = (2 * F2R m e)%R.
Proof. unfold F2R. rewrite bpow_succ. ring. Qed.

(** The sum [x + q] for [q = x] or, [mx] being even, [q = x + 2^ex], is
    [2 x] as computed. *)
Lemma add_near_double (mx mq : positive) (ex eq m2 : Z) :
  bounded prec emax mx ex = true -> bounded prec emax mq eq = true ->
  2 ^ (prec - 1) <= Zpos mx -> ex + 1 <= emax - prec ->
  F2R (Zpos mq) eq = F2R m2 ex ->
  m2 = Zpos mx \/ (m2 = Zpos mx + 1 /\ Z.even (Zpos mx) = true) ->
  (S754_finite false mx ex + S754_finite false mq eq)%b64
  = S754_finite false mx (ex + 1).
Proof.
  intros Hx Hq Hn Hex Hv Hm2.
  pose proof (bounded_mantissa mx ex Hx) as [_ Hm53].
  destruct (bounded_elim _ _ Hx) as (_ & _ & Hmin & _).
  pose proof (add_rounded false false mx mq ex eq) as Hadd.
  rewrite !B2R_pos_finite in Hadd. rewrite Hv in Hadd.
  set (X := F2R (Zpos mx) ex) in *.
  pose proof (F2R_pos mx ex) as HX. fold X in HX.
  pose proof (bpow_gt_0 ex) as Hh.
  assert (HQ : (F2R m2 ex = X \/
                (F2R m2 ex = X + bpow ex /\ Z.even (Zpos mx) = true))%R).
  { destruct Hm2 as [->|[-> He]]; [now left|right].
    split; [apply F2R_succ|exact He]. }
  assert (Hlo : (bpow (ex + prec) <= 2 * X)%R).
  { replace (ex + prec) with (prec - 1 + ex + 1) by lia.
    rewrite bpow_succ. rewrite <- F2R_pow2 by (unfold prec; lia).
    apply (F2R_le _ _ ex) in Hn. fold X in Hn. lra. }
  assert (Hup : (2 * X + 2 * bpow ex <= bpow (ex + prec + 1))%R).
  { rewrite bpow_succ. replace (ex + prec) with (prec + ex) by lia.
    rewrite <- F2R_pow2 by (unfold prec; lia).
    assert (H1 : Zpos mx + 1 <= 2 ^ prec) by lia.
    apply (F2R_le _ _ ex) in H1. rewrite F2R_succ in H1. fold X in H1. lra. }
  destruct Hadd as (_ & Hpos & _).
  assert (Hsum : (0 < X + F2R m2 ex)%R) by (destruct HQ as [->|[-> _]]; lra).
  specialize (Hpos Hsum).
  set (S := (S754_finite false mx ex + S754_finite false mq eq)%b64) in *.
  destruct (rounded_binade false _ S (ex + 1) Hpos ltac:(lia))
    as (m3 & Habs & Hle & Hge & Hev & Hs).
  { replace (ex + 1 + prec - 1) with (ex + prec) by lia.
    replace (ex + 1 + prec) with (ex + prec + 1) by lia.
    destruct HQ as [->|[-> _]]; lra. }
  assert (H3lo : Zpos mx <= m3).
  { apply Hge. rewrite F2R_double. fold X.
    destruct HQ as [->|[-> _]]; lra. }
  assert (H3 : m3 = Zpos mx).
  { destruct HQ as [HQ|[HQ He]].
    - apply Z.le_antisymm; [|exact H3lo]. apply Hle.
      rewrite F2R_double. fold X. lra.
    - assert (H3hi : m3 <= Zpos mx + 1).
      { apply Hle. rewrite F2R_double, F2R_succ. fold X. lra. }
      destruct (Z.eq_dec m3 (Zpos mx)) as [E|E]; [exact E|exfalso].
      assert (E' : m3 = Zpos mx + 1) by lia. rewrite E' in Hev.
      assert (Hodd : Z.even (Zpos mx + 1) = false)
        by (rewrite Z.even_add, He; reflexivity).
      assert (Ht : Z.even (Zpos mx + 1) = true); [|congruence].
      apply Hev. rewrite F2R_double, F2R_succ, bpow_succ. fold X.
      rewrite HQ.
      replace (2 * (X + bpow ex) - (X + (X + bpow ex)))%R with (bpow ex)
        by ring.
      rewrite Rabs_right by lra. field. }
  subst m3.
  pose proof (bounded_double mx ex Hx Hn Hex) as Hb2.
  destruct S as [sS|sS| |sS ms es].
  - destruct Hs as [_ Hs]. lia.
  - destruct Hs as [_ Hs]. exfalso. rewrite F2R_double in Hs. fold X in Hs.
    assert (H1 : (bpow (ex + prec + 1) <= bpow emax)%R)
      by (apply bpow_le; lia). lra.
  - contradiction.
  - destruct Hs as (-> & Hvs & Hbs).
    destruct (bounded_unique ms mx es (ex + 1) Hbs Hb2 Hvs) as [-> ->].
    reflexivity.
Qed.

(** The quotient [a / x] when [a] is [A'] in units of [2^(2 ex)] with
    [mx^2 < A'] and [A' / mx] less than half a unit above [mx], or,
    [mx] being even, less than three halves above it: it is [x], or the
    next value after [x] in the second case. *)
Lemma div_near (ma mx : positive) (ea ex A' : Z) :
  bounded prec emax mx ex = true ->
  2 ^ (prec - 1) <= Zpos mx -> ex + 1 <= emax - prec ->
  F2R (Zpos ma) ea = F2R A' (2 * ex) ->
  Zpos mx * Zpos mx < A' ->
  (2 * A' < Zpos mx * (2 * Zpos mx + 1) \/
   (Z.even (Zpos mx) = true /\ 2 * A' < Zpos mx * (2 * Zpos mx + 3))) ->
  exists (mq : positive) (eq m2 : Z),
    (S754_finite false ma ea / S754_finite false mx ex)%b64
    = S754_finite false mq eq /\
    bounded prec emax mq eq = true /\
    F2R (Zpos mq) eq = F2R m2 ex /\
    (m2 = Zpos mx \/ (m2 = Zpos mx + 1 /\ Z.even (Zpos mx) = true)).
Proof.
  intros Hx Hn Hex HA Hlo Hhi.
  pose proof (bounded_mantissa mx ex Hx) as [_ Hm53].
  destruct (bounded_elim _ _ Hx) as (_ & _ & Hmin & _).
  pose proof (div_rounded false false ma mx ea ex) as Hq. simpl xorb in Hq.
  rewrite HA in Hq.
  set (rho := (F2R A' (2 * ex) / F2R (Zpos mx) ex)%R) in *.
  set (X := F2R (Zpos mx) ex) in *.
  set (M := IZR (Zpos mx)). set (h := bpow ex).
  assert (HM : (0 < M)%R) by (apply IZR_lt; lia).
  assert (Hh : (0 < h)%R) by apply bpow_gt_0.
  assert (HX : X = (M * h)%R) by reflexivity.
  assert (Hrho : (rho * M = IZR A' * h)%R).
  { unfold rho, X, F2R. replace (2 * ex) with (ex + ex) by lia.
    rewrite bpow_add. fold M h. field. lra. }
  assert (Hlo' : (M * M < IZR A')%R).
  { unfold M. rewrite <- mult_IZR. now apply IZR_lt. }
  assert (HXrho : (X < rho)%R).
  { apply Rmult_lt_reg_r with (1 := HM). rewrite Hrho, HX. nra. }
  assert (Hhi' : (rho < X + h / 2 \/
                  (Z.even (Zpos mx) = true /\ rho < X + 3 * h / 2))%R).
  { destruct Hhi as [H|[He H]]; [left|right; split; [exact He|]];
      apply IZR_lt in H; rewrite !mult_IZR, plus_IZR, mult_IZR in H;
      fold M in H; apply Rmult_lt_reg_r with (1 := HM); rewrite Hrho, HX;
      nra. }
  assert (Hbot : (bpow (ex + prec - 1) <= X)%R).
  { replace (ex + prec - 1) with (prec - 1 + ex) by lia.
    rewrite <- F2R_pow2 by (unfold prec; lia). now apply F2R_le. }
  assert (Htop : (rho < bpow (ex + prec))%R).
  { replace (ex + prec) with (prec + ex) by lia.
    rewrite <- F2R_pow2 by (unfold prec; lia).
    destruct Hhi' as [H|[He H]].
    - assert (H1 : Zpos mx + 1 <= 2 ^ prec) by lia.
      apply (F2R_le _ _ ex) in H1. rewrite F2R_succ in H1.
      fold X h in H1. lra.
    - assert (H1 : Zpos mx + 1 + 1 <= 2 ^ prec).
      { assert (Hne : Zpos mx + 1 <> 2 ^ prec); [|lia].
        intros E. assert (Ho : Z.even (Zpos mx + 1) = false)
          by (rewrite Z.even_add, He; reflexivity).
        rewrite E in Ho. discriminate Ho. }
      apply (F2R_le _ _ ex) in H1. rewrite !F2R_succ in H1.
      fold X h in H1. lra. }
  destruct (rounded_binade false rho _ ex Hq Hmin (conj (Rle_trans _ _ _ Hbot
              (Rlt_le _ _ HXrho)) Htop))
    as (m2 & Habs & Hle & Hge & Hev & Hs).
  apply Rabs_le_elim in Habs. fold h in Habs.
  assert (H2lo : Zpos mx <= m2) by (apply Hge; fold X; lra).
  assert (H2 : m2 = Zpos mx \/ (m2 = Zpos mx + 1 /\ Z.even (Zpos mx) = true)).
  { destruct Hhi' as [H|[He H]].
    - left. destruct (Z_le_gt_dec m2 (Zpos mx)) as [|Hgt]; [lia|exfalso].
      assert (H1 : Zpos mx + 1 <= m2) by lia.
      apply (F2R_le _ _ ex) in H1. rewrite F2R_succ in H1.
      fold X h in H1. lra.
    - destruct (Z_le_gt_dec m2 (Zpos mx + 1)) as [|Hgt].
      + destruct (Z.eq_dec m2 (Zpos mx)); [now left|right].
        split; [lia|exact He].
      + exfalso. assert (H1 : Zpos mx + 1 + 1 <= m2) by lia.
        apply (F2R_le _ _ ex) in H1. rewrite !F2R_succ in H1.
        fold X h in H1. lra. }
  assert (H2hi : (F2R m2 ex <= X + h)%R).
  { destruct H2 as [->|[-> _]]; [fold X; lra|].
    rewrite F2R_succ. fold X h. lra. }
  destruct (S754_finite false ma ea / S754_finite false mx ex)%b64
    as [sq|sq| |sq mq eq].
  - destruct Hs as [_ Hs]. lia.
  - destruct Hs as [_ Hs]. exfalso.
    assert (H1 : (bpow (ex + prec) <= bpow emax)%R) by (apply bpow_le; lia).
    assert (H3 : (X + h <= bpow (ex + prec))%R).
    { replace (ex + prec) with (prec + ex) by lia.
      rewrite <- F2R_pow2 by (unfold prec; lia).
      assert (H4 : Zpos mx + 1 <= 2 ^ prec) by lia.
      apply (F2R_le _ _ ex) in H4. rewrite F2R_succ in H4.
      fold X h in H4. exact H4. }
    assert (H5 : (bpow (ex + prec) < bpow emax)%R)
      by (apply bpow_lt; lia).
    lra.
  - contradiction.
  - destruct Hs as (-> & Hv & Hb). exists mq, eq, m2. now repeat split.
Qed.

(** Under the conditions of [div_near] the step returns [x]. *)
Lemma heron_fixed (ma mx : positive) (ea ex A' : Z) :
  bounded prec emax mx ex = true ->
  2 ^ (prec - 1) <= Zpos mx -> ex + 1 <= emax - prec ->
  F2R (Zpos ma) ea = F2R A' (2 * ex) ->
  Zpos mx * Zpos mx < A' ->
  (2 * A' < Zpos mx * (2 * Zpos mx + 1) \/
   (Z.even (Zpos mx) = true /\ 2 * A' < Zpos mx * (2 * Zpos mx + 3))) ->
  heron (S754_finite false ma ea) (S754_finite false mx ex)
  = S754_finite false mx ex.
Proof.
  intros Hx Hn Hex HA Hlo Hhi.
  destruct (div_near ma mx ea ex A' Hx Hn Hex HA Hlo Hhi)
    as (mq & eq & m2 & Hq & Hbq & Hv & Hm2).
  unfold heron. rewrite Hq.
  rewrite (add_near_double mx mq ex eq m2 Hx Hbq Hn Hex Hv Hm2).
  pose proof (bounded_double mx ex Hx Hn Hex) as Hb2.
  destruct (bounded_elim _ _ Hx) as (_ & _ & Hmin & _).
  destruct (half_exact mx (ex + 1) Hb2) as (m' & e' & Hh & Hb' & Hv').
  - apply Rle_trans with (bpow (prec - 1 + (ex + 1))).
    + apply bpow_le. unfold prec. lia.
    + rewrite <- F2R_pow2 by (unfold prec; lia). now apply F2R_le.
  - rewrite Hh. rewrite F2R_double in Hv'.
    assert (Hv2 : F2R (Zpos m') e' = F2R (Zpos mx) ex) by lra.
    destruct (bounded_unique m' mx e' ex Hb' Hx Hv2) as [-> ->].
    reflexivity.
Qed.

(** ** An estimate below the root *)

Lemma quot_grid (A' Yi ex : Z) :
  0 < Yi ->
  (F2R A' (2 * ex) / F2R Yi ex * IZR Yi = IZR A' * bpow ex)%R.
Proof.
  intros HY. apply IZR_lt in HY. pose proof (bpow_gt_0 ex) as Hh.
  unfold F2R. replace (2 * ex) with (ex + ex) by lia. rewrite bpow_add.
  field. lra.
Qed.

Lemma quot_le_half (A' Yi z ex : Z) :
  0 < Yi ->
  (F2R A' (2 * ex) / F2R Yi ex <= F2R z ex + bpow ex / 2)%R ->
  2 * A' <= (2 * z + 1) * Yi.
Proof.
  intros HY H. pose proof (quot_grid A' Yi ex HY) as Hq.
  apply le_IZR. rewrite !mult_IZR, plus_IZR, mult_IZR.
  apply IZR_lt in HY. pose proof (bpow_gt_0 ex) as Hh.
  set (rho := (F2R A' (2 * ex) / F2R Yi ex)%R) in *. unfold F2R in H.
  apply Rmult_le_reg_r with (1 := Hh).
  apply Rmult_le_compat_r with (r := IZR Yi) in H; [|lra].
  rewrite Hq in H. lra.
Qed.

Lemma quot_lt (A' Yi z ex : Z) :
  0 < Yi ->
  (F2R A' (2 * ex) / F2R Yi ex < F2R z ex)%R -> A' < z * Yi.
Proof.
  intros HY H. pose proof (quot_grid A' Yi ex HY) as Hq.
  apply lt_IZR. rewrite mult_IZR.
  apply IZR_lt in HY. pose proof (bpow_gt_0 ex) as Hh.
  set (rho := (F2R A' (2 * ex) / F2R Yi ex)%R) in *. unfold F2R in H.
  apply Rmult_lt_reg_r with (1 := Hh).
  apply Rmult_lt_compat_r with (r := IZR Yi) in H; [|lra].
  rewrite Hq in H. lra.
Qed.

(** The magnitudes of a positive finite [a], of its root, and of an
    estimate below the root. *)
Lemma root_bounds (ma : positive) (ea : Z) :
  bounded prec emax ma ea = true ->
  (bpow (-537) <= sqrt (F2R (Zpos ma) ea) < bpow 512)%R.
Proof.
  intros Ha. pose proof (bounded_ge_min _ _ Ha) as Hmin.
  pose proof (bounded_lt_emax _ _ Ha) as Hmax. change emax with 1024 in Hmax.
  pose proof (bpow_gt_0 (-1074)) as Hp. split.
  - rewrite <- (sqrt_bpow (-537)). change (2 * -537) with (-1074).
    apply sqrt_le_1; lra.
  - rewrite <- (sqrt_bpow 512). change (2 * 512) with 1024.
    apply sqrt_lt_1; lra.
Qed.

Lemma bounded_normal (m : positive) (e : Z) :
  bounded prec emax m e = true -> (bpow (-1022) <= F2R (Zpos m) e)%R ->
  2 ^ (prec - 1) <= Zpos m.
Proof.
  intros Hb Hlo. destruct (bounded_elim _ _ Hb) as (_ & _ & _ & Hd & Hn).
  pose proof (digits2_pos_lower m) as Hl.
  destruct Hn as [->|Hn]; [|now rewrite Hn in Hl].
  destruct (Z.eq_dec (Zpos (digits2_pos m)) prec) as [E|E];
    [now rewrite E in Hl|exfalso].
  pose proof (F2R_bounds (Zpos m) (-1074) ltac:(lia)) as [_ Hhi].
  assert (H : (bpow (Zdigits2 (Zpos m) + -1074) <= bpow (-1022))%R)
    by (apply bpow_le; simpl Zdigits2; unfold prec in *; lia).
  lra.
Qed.

(** An estimate [x] below the root that a step from [y >= sqrt a]
    returned is returned again by the step from [x]. *)
Lemma below_root_fixed (ma my mx : positive) (ea ey ex : Z) :
  bounded prec emax ma ea = true -> bounded prec emax my ey = true ->
  bounded prec emax mx ex = true ->
  (F2R (Zpos ma) ea <= F2R (Zpos my) ey * F2R (Zpos my) ey)%R ->
  ((1 - 2 * u) * sqrt (F2R (Zpos ma) ea) <= F2R (Zpos mx) ex)%R ->
  heron (S754_finite false ma ea) (S754_finite false my ey)
  = S754_finite false mx ex ->
  (F2R (Zpos mx) ex * F2R (Zpos mx) ex < F2R (Zpos ma) ea)%R ->
  heron (S754_finite false ma ea) (S754_finite false mx ex)
  = S754_finite false mx ex.
Proof.
  intros Ha Hy Hx HAY Hest Hh HXA.
  set (A := F2R (Zpos ma) ea) in *. set (Y := F2R (Zpos my) ey) in *.
  set (X := F2R (Zpos mx) ex) in *.
  pose proof (F2R_pos ma ea) as HA0. fold A in HA0.
  pose proof (F2R_pos my ey) as HY0. fold Y in HY0.
  pose proof (F2R_pos mx ex) as HX0. fold X in HX0.
  pose proof (root_bounds ma ea Ha) as [Hs537 Hs512]. fold A in Hs537, Hs512.
  assert (Hss : (sqrt A * sqrt A = A)%R) by (apply sqrt_sqrt; lra).
  pose proof u_bounds as Hu. pose proof (bpow_gt_0 (-537)) as Hp537.
  assert (HXs : (X < sqrt A)%R) by nra.
  assert (HsY : (sqrt A <= Y)%R) by nra.
  assert (HX538 : (bpow (-538) <= X)%R).
  { replace (-537) with (-538 + 1) in * by lia. rewrite bpow_succ in *.
    nra. }
  (* the shape of [x] *)
  assert (Hn : 2 ^ (prec - 1) <= Zpos mx).
  { apply (bounded_normal mx ex Hx). fold X.
    apply Rle_trans with (2 := HX538). apply bpow_le. lia. }
  destruct (bounded_elim _ _ Hx) as (_ & _ & Hmin & _).
  assert (HXbot : (bpow (prec - 1 + ex) <= X)%R).
  { rewrite <- F2R_pow2 by (unfold prec; lia). now apply F2R_le. }
  assert (Hex : ex + 1 <= emax - prec).
  { assert (H : (bpow (prec - 1 + ex) < bpow 512)%R) by lra.
    apply bpow_lt_inv in H. unfold emax, prec in *. lia. }
  (* [y] on the grid of [x] *)
  assert (Hey : ex <= ey).
  { destruct (Z_le_gt_dec ex ey) as [|Hlt]; [assumption|exfalso].
    pose proof (bounded_lt my mx ey ex Hy Hx ltac:(lia)) as H.
    fold X Y in H. lra. }
  set (Yi := Zpos my * 2 ^ (ey - ex)).
  assert (HYi : Y = F2R Yi ex).
  { unfold Yi. rewrite F2R_shift by lia. unfold Y. f_equal. lia. }
  assert (HmY : Zpos mx < Yi).
  { apply (F2R_lt_inv _ _ ex). rewrite <- HYi. fold X. lra. }
  (* [a] on the grid of [x * x] *)
  assert (Hea : 2 * ex + 52 <= ea).
  { destruct (bounded_elim _ _ Ha) as (_ & _ & _ & Hda & _).
    pose proof (F2R_bounds (Zpos ma) ea ltac:(lia)) as [_ Hhi].
    fold A in Hhi. simpl Zdigits2 in Hhi.
    assert (H1 : (bpow (prec - 1 + ex) * bpow (prec - 1 + ex) <= X * X)%R).
    { pose proof (bpow_gt_0 (prec - 1 + ex)). nra. }
    rewrite <- bpow_add in H1.
    assert (H2 : (bpow (prec - 1 + ex + (prec - 1 + ex))
                  < bpow (Zpos (digits2_pos ma) + ea))%R) by lra.
    apply bpow_lt_inv in H2. unfold prec in *. lia. }
  set (t := Zpos ma * 2 ^ (ea - 2 * ex - 52)).
  assert (HA' : A = F2R (2 ^ 52 * t) (2 * ex)).
  { unfold t.
    replace (2 ^ 52 * (Zpos ma * 2 ^ (ea - 2 * ex - 52)))
      with (Zpos ma * 2 ^ (ea - 2 * ex)).
    - rewrite F2R_shift by lia. unfold A. f_equal. lia.
    - replace (ea - 2 * ex) with (52 + (ea - 2 * ex - 52)) at 1 by lia.
      rewrite Z.pow_add_r by lia. ring. }
  assert (HXX : (X * X = F2R (Zpos mx * Zpos mx) (2 * ex))%R).
  { unfold X, F2R. rewrite mult_IZR. replace (2 * ex) with (ex + ex) by lia.
    rewrite bpow_add. ring. }
  assert (Hlo : Zpos mx * Zpos mx < 2 ^ 52 * t).
  { apply (F2R_lt_inv _ _ (2 * ex)). rewrite <- HXX, <- HA'. exact HXA. }
  (* the step from [y] *)
  destruct (heron_inv ma my mx ea ey ex Hy Hx) as (Hq & Hfin & Hsum & Htie);
    [|exact Hh|].
  { fold Y. apply Rle_trans with (2 := HsY).
    apply Rle_trans with (2 := Hs537). apply bpow_le. lia. }
  fold A Y in Hq, Hsum, Htie.
  set (q := (S754_finite false ma ea / S754_finite false my ey)%b64) in *.
  set (Q0 := 2 * Zpos mx + 1 - Yi).
  assert (HQ0 : F2R Q0 ex = (F2R (2 * Zpos mx + 1) ex - Y)%R).
  { unfold Q0. rewrite F2R_minus, HYi. reflexivity. }
  assert (HqQ0 : (Bmag q <= F2R Q0 ex)%R) by lra.
  assert (HQ0nn : 0 <= Q0).
  { apply (F2R_le_inv _ _ ex). unfold F2R at 1. rewrite Rmult_0_l.
    apply Rle_trans with (2 := HqQ0). apply Rabs_pos. }
  pose proof (bounded_mantissa mx ex Hx) as [_ Hm53].
  assert (HQ0hi : Q0 < 2 ^ prec) by (unfold Q0; lia).
  assert (HYipos : 0 < Yi) by lia.
  rewrite HA' in Hq. rewrite HYi in Hq.
  apply (heron_fixed ma mx ea ex (2 ^ 52 * t) Hx Hn Hex HA' Hlo).
  destruct (Z.even (Zpos mx)) eqn:Eev.
  - (* even mantissa *)
    right. split; [reflexivity|].
    destruct (rounded_le_grid false _ q Q0 ex Hq Hfin ltac:(lia) Hmin HqQ0)
      as [Hle _].
    apply quot_le_half in Hle; [|exact HYipos].
    apply (step_even (Zpos mx) Yi t); try assumption.
    unfold prec in *. lia.
  - (* odd mantissa *)
    left.
    assert (Hstrict : (Bmag q < F2R Q0 ex)%R).
    { destruct (Rle_lt_or_eq_dec _ _ HqQ0) as [Hlt|Heq]; [exact Hlt|].
      assert (Ht : false = true) by (apply Htie; lra).
      discriminate Ht. }
    destruct (Z_le_gt_dec Q0 (2 ^ 52)) as [Hsmall|Hbig].
    + exfalso.
      assert (Hlt : (F2R (2 ^ 52 * t) (2 * ex) / F2R Yi ex < F2R Q0 ex)%R).
      { destruct (Rlt_le_dec (F2R (2 ^ 52 * t) (2 * ex) / F2R Yi ex)
                             (F2R Q0 ex)) as [|Hge]; [assumption|exfalso].
        pose proof (rounded_ge_grid false _ q Q0 ex Hq Hfin ltac:(lia)
                      Hmin Hge). lra. }
      apply quot_lt in Hlt; [|exact HYipos].
      apply (step_low (Zpos mx) Yi t); try assumption.
      unfold prec in *. lia.
    + assert (Hprev : (Bmag q <= F2R (Q0 - 1) ex)%R).
      { pose proof (rounded_pos_shape _ _ Hq) as Hsh.
        destruct q as [sq|sq| |sq mq eq]; try discriminate Hfin.
        - rewrite Bmag_zero. unfold F2R. apply Rmult_le_pos.
          + apply IZR_le. lia.
          + apply Rlt_le, bpow_gt_0.
        - destruct Hsh as [_ Hbq]. rewrite Bmag_finite in *.
          apply float_below_grid; try assumption. unfold prec. lia. }
      destruct (rounded_le_grid false _ q (Q0 - 1) ex Hq Hfin ltac:(lia)
                  Hmin Hprev) as [Hle _].
      apply quot_le_half in Hle; [|exact HYipos].
      apply (step_high (Zpos mx) Yi (2 ^ 52 * t) HmY).
      unfold Q0 in Hle.
      replace (2 * (2 * Zpos mx + 1 - Yi) - 1)
        with (2 * (2 * Zpos mx + 1 - Yi - 1) + 1) by ring.
      exact Hle.
Qed.

(** ** The sequence of estimates *)

(** Every estimate is at least the root or is returned unchanged by the
    next step. *)
Lemma iterate_above_or_fixed (a : binary64) (n : nat) :
  is_binary64 a = true -> is_pos_finite a = true ->
  (sqrt (B2R a) <= B2R (iterate a n))%R \/
  heron a (iterate a n) = iterate a n.
Proof.
  intros Ha Hpa. induction n as [|n IH].
  - left. now apply initial_guess_ge_sqrt.
  - destruct IH as [Habove|Hfix].
    + destruct (Rle_lt_dec (sqrt (B2R a)) (B2R (iterate a (S n))))
        as [H|H]; [now left|right].
      destruct (iterate_est_ok a n Ha Hpa) as (Hpn & Hbn & _).
      destruct (iterate_est_ok a (S n) Ha Hpa) as (Hps & Hbs & Hest).
      simpl iterate in *.
      set (y := iterate a n) in *. set (x := heron a y) in *.
      assert (Hx : heron a y = x) by reflexivity. clearbody x. clearbody y.
      destruct a as [?|?| |[|] ma ea]; try discriminate Hpa.
      destruct y as [?|?| |[|] my ey]; try discriminate Hpn.
      destruct x as [?|?| |[|] mx ex]; try discriminate Hps.
      unfold is_binary64, valid_binary in Ha, Hbn, Hbs.
      rewrite !B2R_pos_finite in *.
      pose proof (F2R_pos ma ea) as HA0. pose proof (F2R_pos my ey) as HY0.
      pose proof (F2R_pos mx ex) as HX0.
      pose proof (sqrt_pos (F2R (Zpos ma) ea)) as Hs0.
      pose proof (sqrt_sqrt (F2R (Zpos ma) ea) ltac:(lra)) as Hss.
      apply (below_root_fixed ma my mx ea ey ex); try assumption; nra.
    + right. simpl. rewrite Hfix. exact Hfix.
Qed.

(** The estimates never increase. *)
Lemma iterate_non_increasing (a : binary64) (n : nat) :
  is_binary64 a = true -> is_pos_finite a = true ->
  (B2R (iterate a (S n)) <= B2R (iterate a n))%R.
Proof.
  intros Ha Hpa.
  destruct (iterate_above_or_fixed a n Ha Hpa) as [Habove|Hfix].
  - pose proof (iterate_est_ok a n Ha Hpa) as Hok.
    destruct (heron_est_ok a (iterate a n) Ha Hpa Hok) as (_ & Hmono & _).
    simpl. now apply Hmono.
  - simpl. rewrite Hfix. apply Rle_refl.
Qed.

(** An estimate below the root is the limit of the sequence: every later
    estimate is equal to it. *)
Lemma iterate_below_fixed (a : binary64) (n k : nat) :
  is_binary64 a = true -> is_pos_finite a = true ->
  (B2R (iterate a n) < sqrt (B2R a))%R ->
  iterate a (n + k) = iterate a n.
Proof.
  intros Ha Hpa Hlt.
  assert (Hfix : heron a (iterate a n) = iterate a n).
  { destruct (iterate_above_or_fixed a n Ha Hpa) as [H|H]; [lra|exact H]. }
  induction k as [|k IH].
  - now rewrite Nat.add_0_r.
  - rewrite Nat.add_succ_r. simpl. rewrite IH. exact Hfix.
Qed.

(** ** The value returned *)

(** Whichever way the loop ends, it returns one of the estimates. *)
Lemma newton_loop_iterate (a eps' : binary64) (n i : nat) :
  exists k, newton_loop a eps' n (iterate a i) = iterate a k.
Proof.
  revert i. induction n as [|n IH]; intros i.
  - exists i. reflexivity.
  - rewrite loop_step.
    destruct (stop_test eps' (iterate a i) (heron a (iterate a i))).
    + exists (S i). reflexivity.
    + apply (IH (S i)).
Qed.

Lemma sqrt_newton_iterate (a eps' : binary64) (cap : Z) :
  is_pos_finite a = true ->
  exists k, sqrt_newton a eps' cap = iterate a k.
Proof.
  intros Hp. destruct a as [?|?| |[|] m e]; try discriminate Hp.
  rewrite sqrt_newton_loop by reflexivity. apply newton_loop_iterate.
Qed.

Lemma pos_finite_sign (r : binary64) :
  is_pos_finite r = true ->
  is_finite r = true /\ is_nan r = false /\
  (r >=? c_zero)%b64 = true /\ (c_zero <? r)%b64 = true.
Proof.
  intros H. assert (Hn : is_nan r = false).
  { destruct (is_nan r) eqn:E; [|reflexivity].
    apply is_nan_spec in E. now subst r. }
  destruct r as [?|?| |[|] m e]; try discriminate H.
  repeat split. exact Hn.
Qed.

(** [x >= sqrt a] over the rationals and over the reals. *)
Lemma above_sqrt_real (a x : binary64) :
  above_sqrt a x -> (sqrt (B2R a) <= B2R x)%R.
Proof.
  intros [H0 H]. apply Qle_Rle in H0, H.
  rewrite Q2R_mult, !Q2R_B2Q in H. rewrite RMicromega.Q2R_0, Q2R_B2Q in H0.
  rewrite <- (sqrt_square (B2R x)) by exact H0.
  destruct (Rle_lt_dec 0 (B2R a)) as [Ha|Ha].
  - apply sqrt_le_1; [exact Ha|nra|exact H].
  - rewrite (sqrt_neg_0 (B2R a)) by lra. apply sqrt_pos.
Qed.

Lemma nearly_above_sqrt_intro (a x : binary64) :
  (0 <= B2R a)%R -> ((1 - 2 * u) * sqrt (B2R a) <= B2R x)%R ->
  nearly_above_sqrt a x.
Proof.
  intros Ha H. pose proof u_bounds as Hu. pose proof (sqrt_pos (B2R a)) as Hs.
  pose proof (sqrt_sqrt (B2R a) Ha) as Hss.
  assert (H2u : Q2R (1 - pow2 (-52)) = (1 - 2 * u)%R).
  { rewrite Q2R_minus, Q2R_pow2, RMicromega.Q2R_1. unfold u.
    replace (-52) with (-53 + 1) by lia. now rewrite bpow_succ. }
  assert (Hx0 : (0 <= B2R x)%R).
  { apply Rle_trans with (2 := H). apply Rmult_le_pos; lra. }
  split; apply Rle_Qle.
  - now rewrite RMicromega.Q2R_0, Q2R_B2Q.
  - rewrite !Q2R_mult, !Q2R_B2Q, H2u. rewrite <- Hss at 1.
    set (c := ((1 - 2 * u) * sqrt (B2R a))%R) in *.
    replace ((1 - 2 * u) * (1 - 2 * u) * (sqrt (B2R a) * sqrt (B2R a)))%R
      with (c * c)%R by (unfold c; ring).
    assert (Hc : (0 <= c)%R) by (apply Rmult_le_pos; lra).
    apply Rmult_le_compat; assumption.
Qed.

(** [x < sqrt a] over the rationals and over the reals. *)
Lemma below_sqrt_real (a x : binary64) :
  below_sqrt a x -> (B2R x < sqrt (B2R a))%R.
Proof.
  intros [H0 H]. apply Qle_Rle in H0. apply Qlt_Rlt in H.
  rewrite Q2R_mult, !Q2R_B2Q in H. rewrite RMicromega.Q2R_0, Q2R_B2Q in H0.
  destruct (Rlt_le_dec (B2R x) (sqrt (B2R a))) as [Hlt|Hge];
    [exact Hlt|exfalso].
  pose proof (sqrt_pos (B2R a)) as Hs.
  pose proof (sqrt_sqrt (B2R a) ltac:(nra)) as Hss. nra.
Qed.

(** * The claims *)

(** ** Degenerate inputs *)

(** The exceptions recorded agree with the values computed: on values of
    the format that are not NaN, an operation signals the invalid
    operation exactly when it delivers NaN. *)
Lemma add_finite_not_nan (sx sy : bool) (mx my : positive) (ex ey : Z) :
  (S754_finite sx mx ex + S754_finite sy my ey)%b64 <> S754_nan.
Proof.
  destruct (add_rounded sx sy mx my ex ey) as (H0 & Hp & Hn).
  destruct (Rtotal_order
              (B2R (S754_finite sx mx ex) + B2R (S754_finite sy my ey)) 0)
    as [H|[H|H]].
  - exact (rounded_not_nan _ _ _ (Hn H)).
  - rewrite (H0 H). discriminate.
  - exact (rounded_not_nan _ _ _ (Hp H)).
Qed.

Lemma sub_finite_not_nan (sx sy : bool) (mx my : positive) (ex ey : Z) :
  (S754_finite sx mx ex - S754_finite sy my ey)%b64 <> S754_nan.
Proof.
  destruct (sub_rounded sx sy mx my ex ey) as (H0 & Hp & Hn).
  destruct (Rtotal_order
              (B2R (S754_finite sx mx ex) - B2R (S754_finite sy my ey)) 0)
    as [H|[H|H]].
  - exact (rounded_not_nan _ _ _ (Hn H)).
  - rewrite (H0 H). discriminate.
  - exact (rounded_not_nan _ _ _ (Hp H)).
Qed.

Lemma invalid_exactly_nan (x y : binary64) :
  is_binary64 x = true -> is_binary64 y = true ->
  x <> S754_nan -> y <> S754_nan ->
  (signals (Op_add x y) = [Invalid] <-> (x + y)%b64 = S754_nan) /\
  (signals (Op_sub x y) = [Invalid] <-> (x - y)%b64 = S754_nan) /\
  (signals (Op_mul x y) = [Invalid] <-> (x * y)%b64 = S754_nan) /\
  (signals (Op_div x y) = [Invalid] <-> (x / y)%b64 = S754_nan).
Proof.
  intros Hvx Hvy Hx Hy.
  destruct x as [sx|sx| |sx mx ex]; try contradiction;
    destruct y as [sy|sy| |sy my ey]; try contradiction;
    (split; [|split; [|split]]);
    try (destruct sx, sy; split; intros H; easy).
  - split; [discriminate|]. intros H.
    now apply add_finite_not_nan in H.
  - split; [discriminate|]. intros H.
    now apply sub_finite_not_nan in H.
  - split; [discriminate|]. intros H. exfalso.
    exact (rounded_not_nan _ _ _ (mul_rounded sx sy mx my ex ey Hvx Hvy) H).
  - split; [discriminate|]. intros H. exfalso.
    exact (rounded_not_nan _ _ _ (div_rounded sx sy mx my ex ey) H).
Qed.




(** C6. Zero identity: [sqrt_newton(0, eps, n)] is [+0.0], bit for bit, for
    every tolerance and every cap. *)
Theorem zero_gives_zero (eps' : binary64) (n : Z) :
  sqrt_newton c_zero eps' n = S754_zero false.
Proof. reflexivity. Qed.

(** C10. Negative zero: [-0.0 < 0.0] is false and [-0.0 == 0.0] is true, so
    [sqrt_newton(-0.0, eps, n)] takes the zero branch and returns [+0.0],
    not NaN. *)
Theorem negative_zero_gives_zero (eps' : binary64) (n : Z) :
  (S754_zero true <? c_zero)%b64 = false /\
  (S754_zero true =? c_zero)%b64 = true /\
  sqrt_newton (S754_zero true) eps' n = S754_zero false /\
  is_nan (sqrt_newton (S754_zero true) eps' n) = false.
Proof. repeat split. Qed.

(** ** NaN through the loop *)

Lemma heron_nan (a : binary64) : heron a S754_nan = S754_nan.
Proof. unfold heron. destruct a as [s|s| |s m e]; reflexivity. Qed.

Lemma stop_test_nan (eps' x : binary64) : stop_test eps' x S754_nan = false.
Proof.
  unfold stop_test, stop_diff. destruct x as [s|s| |s m e]; reflexivity.
Qed.

Lemma newton_loop_nan (a eps' : binary64) (n : nat) :
  newton_loop a eps' n S754_nan = S754_nan.
Proof.
  induction n as [|n IH]; [reflexivity|].
  rewrite loop_step, heron_nan, stop_test_nan. exact IH.
Qed.

Lemma loop_divisors_nan (a eps' : binary64) (n : nat) :
  Forall (fun x => x = S754_nan) (loop_divisors a eps' n S754_nan).
Proof.
  induction n as [|n IH]; [constructor|].
  rewrite loop_divisors_step, heron_nan, stop_test_nan.
  constructor; [reflexivity|exact IH].
Qed.

(** C9. Non-finite inputs: for [a = +inf] the first step computes
    [0.5 * (inf + inf / inf)], which is NaN; the stopping test is false on
    a NaN estimate whatever the tolerance; so with a cap of at least one
    iteration the loop runs to the cap and returns NaN.  A NaN input gives
    NaN in the same way. *)
Theorem infinity_and_nan_give_nan (eps' : binary64) (n : Z) :
  1 <= n ->
  heron (S754_infinity false) (initial_guess (S754_infinity false))
    = S754_nan /\
  (forall x, stop_test eps' x S754_nan = false) /\
  sqrt_newton (S754_infinity false) eps' n = S754_nan /\
  sqrt_newton S754_nan eps' n = S754_nan.
Proof.
  intros Hn. split; [reflexivity|]. split; [apply stop_test_nan|].
  destruct (Z.to_nat n) as [|k] eqn:En; [lia|].
  split.
  - rewrite sqrt_newton_loop by reflexivity. rewrite En, loop_step.
    change (heron (S754_infinity false) (iterate (S754_infinity false) 0))
      with S754_nan.
    rewrite stop_test_nan. apply newton_loop_nan.
  - rewrite sqrt_newton_loop by reflexivity. rewrite En, loop_step.
    change (heron S754_nan (iterate S754_nan 0)) with S754_nan.
    rewrite stop_test_nan. apply newton_loop_nan.
Qed.

Lemma infinity_and_nan_give_nan_witness :
  1 <= max_iters /\
  sqrt_newton (S754_infinity false) eps max_iters = S754_nan /\
  sqrt_newton S754_nan eps max_iters = S754_nan.
Proof.
  assert (H : 1 <= max_iters) by (unfold max_iters; lia).
  split; [exact H|].
  split; apply (infinity_and_nan_give_nan eps max_iters H).
Defined.

(** ** The loop against the specification's sequence *)

Lemma le_of_eq (x y : binary64) :
  (x =? y)%b64 = true -> (x <=? y)%b64 = true.
Proof.
  unfold b64_eq, b64_le, SFeqb, SFleb.
  destruct (SFcompare x y) as [[ | | ]|]; easy.
Qed.

(** C5. For positive [a], [sqrt_newton] returns [x_{n+1}] for the first
    step [n] below the cap whose test [|x_{n+1} - x_n| <= eps * (1 +
    |x_{n+1}|)] holds; when no step below the cap passes the test it
    returns the last estimate computed, [x_{max_iters}]; and the test is
    not strict: a difference equal to the tolerance passes it. *)
Theorem returns_first_stopping_iterate (a eps' : binary64) (cap : Z) :
  (c_zero <? a)%b64 = true ->
  (forall n, (n < Z.to_nat cap)%nat ->
             enters a eps' n -> stops a eps' n = true ->
             sqrt_newton a eps' cap = iterate a (S n)) /\
  ((forall n, (n < Z.to_nat cap)%nat -> stops a eps' n = false) ->
   sqrt_newton a eps' cap = iterate a (Z.to_nat cap)) /\
  (forall x x_next,
     (stop_diff x x_next =? stop_tol eps' x_next)%b64 = true ->
     stop_test eps' x x_next = true).
Proof.
  intros Hpos. destruct (pos_not_neg_nor_zero a Hpos) as [Hlt Heq].
  rewrite (sqrt_newton_loop a eps' cap Hlt Heq).
  split; [|split].
  - intros n Hn Hent Hstop.
    apply loop_first_stop; [lia| |exact Hstop].
    intros j Hj. apply Hent. lia.
  - intros Hno. apply (loop_no_stop a eps' (Z.to_nat cap) 0).
    intros j Hj. apply Hno. lia.
  - intros x x_next. apply le_of_eq.
Qed.

(** At [a = 5] and [eps = 0.5] the first difference equals the tolerance
    (both are 2) and the loop returns [x_1 = 3]. *)
Lemma returns_first_stopping_iterate_witness :
  (c_zero <? lit_5)%b64 = true /\
  (stop_diff (iterate lit_5 0) (iterate lit_5 1) =?
   stop_tol c_half (iterate lit_5 1))%b64 = true /\
  sqrt_newton lit_5 c_half max_iters = iterate lit_5 1 /\
  iterate lit_5 1 = lit_3.
Proof.
  assert (Hpos : (c_zero <? lit_5)%b64 = true) by reflexivity.
  destruct (returns_first_stopping_iterate lit_5 c_half max_iters Hpos)
    as [Hfirst _].
  split; [exact Hpos|]. split; [reflexivity|]. split; [|reflexivity].
  apply (Hfirst 0%nat).
  - vm_compute. lia.
  - intros m Hm. lia.
  - reflexivity.
Defined.

(** ** Divisions by the estimate *)

(** Every estimate of an entered step is among the recorded divisors. *)
Lemma loop_divisors_complete (a eps' : binary64) (n i m : nat) :
  (i <= m < i + n)%nat ->
  (forall j, (i <= j < m)%nat -> stops a eps' j = false) ->
  In (iterate a m) (loop_divisors a eps' n (iterate a i)).
Proof.
  revert i. induction n as [|n IH]; intros i Hm Hbefore; [lia|].
  rewrite loop_divisors_step.
  destruct (Nat.eq_dec i m) as [->|Hne]; [now left|right].
  assert (Hi : stops a eps' i = false) by (apply Hbefore; lia).
  unfold stops in Hi. simpl in Hi. rewrite Hi.
  apply (IH (S i)); [lia|]. intros j Hj. apply Hbefore. lia.
Qed.

Lemma divisors_complete (a eps' : binary64) (cap : Z) (m : nat) :
  (a <? c_zero)%b64 = false -> (a =? c_zero)%b64 = false ->
  (m < Z.to_nat cap)%nat -> enters a eps' m ->
  In (iterate a m) (divisors a eps' cap).
Proof.
  intros Hlt Heq Hm Hent. unfold divisors. rewrite Hlt, Heq.
  apply (loop_divisors_complete a eps' (Z.to_nat cap) 0 m); [lia|].
  intros j Hj. apply Hent. lia.
Qed.

Lemma nan_ne_zero : (S754_nan =? c_zero)%b64 = false.
Proof. reflexivity. Qed.

(** Divisors of a run whose input is NaN or [+inf]: the initial guess,
    then NaN. *)
Lemma divisors_nonfinite (a eps' : binary64) (cap : Z) :
  a = S754_nan \/ a = S754_infinity false ->
  Forall (fun x => (x =? c_zero)%b64 = false) (divisors a eps' cap).
Proof.
  intros Ha. unfold divisors.
  assert (H : forall x0, (x0 =? c_zero)%b64 = false ->
                         heron a x0 = S754_nan ->
    Forall (fun x => (x =? c_zero)%b64 = false)
           (loop_divisors a eps' (Z.to_nat cap) x0)).
  { intros x0 Hx0 Hh. destruct (Z.to_nat cap) as [|k]; [constructor|].
    rewrite loop_divisors_step, Hh, stop_test_nan.
    constructor; [exact Hx0|].
    eapply Forall_impl; [|apply loop_divisors_nan].
    intros x ->. reflexivity. }
  destruct Ha as [-> | ->]; cbv iota beta zeta;
    change ((S754_nan <? c_zero)%b64) with false;
    change ((S754_infinity false <? c_zero)%b64) with false;
    cbv iota; apply H; reflexivity.
Qed.

(** C7. The kernel never divides by a zero estimate.  For every input of
    the format, every estimate [x] by which the loop divides [a] is
    non-zero; for positive finite [a] every such estimate, and the value
    returned, is strictly positive; and for [a < 0] or [a == 0] the
    function returns before the loop, so it divides by no estimate. *)
Theorem divisor_never_zero (a eps' : binary64) (cap : Z) :
  is_binary64 a = true ->
  Forall (fun x => (x =? c_zero)%b64 = false) (divisors a eps' cap) /\
  (is_pos_finite a = true ->
   Forall (fun x => (c_zero <? x)%b64 = true) (divisors a eps' cap) /\
   (c_zero <? sqrt_newton a eps' cap)%b64 = true) /\
  ((a <? c_zero)%b64 = true \/ (a =? c_zero)%b64 = true ->
   divisors a eps' cap = []).
Proof.
  intros Hv.
  assert (Hfin : forall m e, a = S754_finite false m e ->
    Forall (fun x => lead_ge least_lead x = true) (divisors a eps' cap) /\
    lead_ge least_lead (sqrt_newton a eps' cap) = true).
  { intros m e ->. unfold divisors, sqrt_newton.
    change ((S754_finite false m e <? c_zero)%b64) with false.
    change ((S754_finite false m e =? c_zero)%b64) with false.
    cbv iota zeta. fold (initial_guess (S754_finite false m e)).
    split.
    - apply loop_divisors_lead; [exact Hv|].
      now apply initial_guess_lead.
    - apply newton_loop_lead; [exact Hv|].
      now apply initial_guess_lead. }
  split; [|split].
  - destruct a as [s|[|]| |[|] m e].
    + unfold divisors. destruct s; constructor.
    + constructor.
    + apply divisors_nonfinite. now right.
    + apply divisors_nonfinite. now left.
    + constructor.
    + destruct (Hfin m e eq_refl) as [H _].
      eapply Forall_impl; [|exact H].
      intros x Hx. apply (lead_ge_pos _ _ Hx).
  - intros Hpos. destruct a as [s|s| |[|] m e]; try discriminate Hpos.
    destruct (Hfin m e eq_refl) as [H Hr]. split.
    + eapply Forall_impl; [|exact H].
      intros x Hx. apply (lead_ge_pos _ _ Hx).
    + apply (lead_ge_pos _ _ Hr).
  - unfold divisors. intros [H|H].
    + now rewrite H.
    + rewrite H. now destruct (a <? c_zero)%b64.
Qed.

Lemma divisor_never_zero_witness :
  is_binary64 lit_2 = true /\
  Forall (fun x => (x =? c_zero)%b64 = false) (divisors lit_2 eps max_iters) /\
  length (divisors lit_2 eps max_iters) = 5%nat.
Proof.
  assert (Hv : is_binary64 lit_2 = true) by reflexivity.
  split; [exact Hv|]. split; [|reflexivity].
  apply (divisor_never_zero lit_2 eps max_iters Hv).
Defined.

(** ** Accuracy on positive inputs *)

(** The specification's sentence fails at the driver's own input [1e-12]:
    the root returned there, [1.0000000000000052e-06], has a square more
    than four units in the last place away from [1e-12]. *)
Lemma correct_on_positives_fails : ~ correct_on_positives.
Proof.
  intros H.
  destruct (H lit_1em12 eq_refl eq_refl) as [_ [_ Hsq]].
  revert Hsq. vm_compute. intros Hsq. apply Hsq. reflexivity.
Qed.

(** C1, amended.  For every positive finite input of the format, whatever
    the tolerance and the cap, the value returned is a positive finite
    value of the format: it is not NaN and [r >= 0].  With the driver's
    tolerance [1e-12] and cap [100], the bound [|r*r - a| <= 4 ulp(a)]
    holds for every input with [2^-22 <= a <= 2^188]. *)
Theorem positive_result_and_accuracy (a eps' : binary64) (cap : Z) :
  is_binary64 a = true -> is_pos_finite a = true ->
  (is_pos_finite (sqrt_newton a eps' cap) = true /\
   is_binary64 (sqrt_newton a eps' cap) = true /\
   is_nan (sqrt_newton a eps' cap) = false /\
   (sqrt_newton a eps' cap >=? c_zero)%b64 = true /\
   (c_zero <? sqrt_newton a eps' cap)%b64 = true) /\
  ((pow2 (-22) <= B2Q a)%Q -> (B2Q a <= pow2 188)%Q ->
   square_within 4 a (sqrt_newton a eps max_iters)).
Proof.
  intros Hv Hpos. split.
  - destruct (sqrt_newton_iterate a eps' cap Hpos) as [k ->].
    destruct (iterate_est_ok a k Hv Hpos) as (Hp & Hb & _).
    destruct (pos_finite_sign _ Hp) as (_ & Hn & Hge & Hgt).
    now repeat split.
  - intros Hlo Hhi.
    apply pow2_le_B2Q in Hlo. apply B2Q_le_pow2 in Hhi.
    assert (Hstop : stops a eps 99 = true)
      by (apply (stops_at a Hv Hpos 94); [lia|exact Hhi]).
    assert (Hw : loop_stops a eps 100 (iterate a 0) = true).
    { apply loop_stops_true. exists 99%nat. split; [lia|exact Hstop]. }
    destruct (loop_stops_result a eps 100 0 Hw) as (m & _ & Hm & Hr).
    assert (Hrun : sqrt_newton a eps max_iters = iterate a (S m)).
    { destruct a as [?|?| |[|] ma ea]; try discriminate Hpos.
      rewrite sqrt_newton_loop by reflexivity. exact Hr. }
    rewrite Hrun.
    destruct (iterate_est_ok a (S m) Hv Hpos) as (Hp & _ & _).
    apply square_within_intro; try assumption.
    + now apply pos_finite_sign.
    + now apply stop_accurate.
Qed.

Lemma positive_result_and_accuracy_witness :
  is_binary64 lit_2 = true /\ is_pos_finite lit_2 = true /\
  (pow2 (-22) <= B2Q lit_2)%Q /\ (B2Q lit_2 <= pow2 188)%Q /\
  (c_zero <? sqrt_newton lit_2 eps max_iters)%b64 = true /\
  square_within 4 lit_2 (sqrt_newton lit_2 eps max_iters).
Proof.
  assert (Hv : is_binary64 lit_2 = true) by reflexivity.
  assert (Hp : is_pos_finite lit_2 = true) by reflexivity.
  assert (Hlo : (pow2 (-22) <= B2Q lit_2)%Q)
    by (apply Qle_bool_iff; vm_compute; reflexivity).
  assert (Hhi : (B2Q lit_2 <= pow2 188)%Q)
    by (apply Qle_bool_iff; vm_compute; reflexivity).
  destruct (positive_result_and_accuracy lit_2 eps max_iters Hv Hp)
    as [(_ & _ & _ & _ & Hgt) Hsq].
  split; [exact Hv|]. split; [exact Hp|]. split; [exact Hlo|].
  split; [exact Hhi|]. split; [exact Hgt|exact (Hsq Hlo Hhi)].
Defined.

(** ** Termination *)

Lemma pow2_200_never_stops :
  is_binary64 (b64_pow2 200) = true /\
  is_pos_finite (b64_pow2 200) = true /\
  SFclassify prec (b64_pow2 200) = FloatClass.PNormal /\
  stops_within (b64_pow2 200) eps 100 = false /\
  sqrt_newton (b64_pow2 200) eps max_iters = iterate (b64_pow2 200) 100.
Proof. vm_compute. repeat split. Qed.

(** The specification's sentence fails at [a = 2^200], a normal value: no
    step below 60 (nor below 100) passes the test. *)
Lemma terminates_within_60_fails : ~ terminates_within_60.
Proof.
  intros H. destruct pow2_200_never_stops as (Hv & Hp & _ & Hno & _).
  destruct (H (b64_pow2 200) Hv Hp) as (n & Hn & Hs).
  assert (Hw : stops_within (b64_pow2 200) eps 100 = true).
  { apply stops_within_spec. exists n. split; [lia|exact Hs]. }
  congruence.
Qed.

(** C2, amended.  With [eps = 1e-12] and the prescribed initial guess, the
    stopping test triggers within 60 iterations for every positive finite
    input [a <= 2^108], within 100 iterations (so that the cap of the
    driver is not reached) for every [a <= 2^188], and within 518
    iterations for every positive finite input.  Subnormal inputs are
    included. *)
Theorem stop_test_triggers (a : binary64) :
  is_binary64 a = true -> is_pos_finite a = true ->
  ((B2Q a <= pow2 108)%Q ->
   exists n, (n < 60)%nat /\ stops a eps n = true) /\
  ((B2Q a <= pow2 188)%Q ->
   exists n, (n < 100)%nat /\ stops a eps n = true) /\
  (exists n, (n < 518)%nat /\ stops a eps n = true).
Proof.
  intros Hv Hpos. split; [|split].
  - intros H. apply B2Q_le_pow2 in H. exists 59%nat. split; [lia|].
    apply (stops_at a Hv Hpos 54); [lia|exact H].
  - intros H. apply B2Q_le_pow2 in H. exists 99%nat. split; [lia|].
    apply (stops_at a Hv Hpos 94); [lia|exact H].
  - exists 517%nat. split; [lia|].
    apply (stops_at a Hv Hpos 512); [lia|].
    destruct a as [?|?| |[|] m e]; try discriminate Hpos.
    apply Rlt_le. exact (bounded_lt_emax m e Hv).
Qed.

Lemma stop_test_triggers_witness :
  is_binary64 lit_1e12 = true /\ is_pos_finite lit_1e12 = true /\
  (B2Q lit_1e12 <= pow2 108)%Q /\
  exists n, (n < 60)%nat /\ stops lit_1e12 eps n = true.
Proof.
  assert (Hv : is_binary64 lit_1e12 = true) by reflexivity.
  assert (Hp : is_pos_finite lit_1e12 = true) by reflexivity.
  assert (Hhi : (B2Q lit_1e12 <= pow2 108)%Q)
    by (apply Qle_bool_iff; vm_compute; reflexivity).
  split; [exact Hv|]. split; [exact Hp|]. split; [exact Hhi|].
  exact (proj1 (stop_test_triggers lit_1e12 Hv Hp) Hhi).
Defined.

(** The number of iterations of the driver's runs on its positive inputs:
    5, 7, 6, 24 and 25. *)
Lemma driver_iteration_counts :
  map (fun a => length (divisors a eps max_iters)) tests =
  [0; 5; 7; 6; 24; 25; 0]%nat.
Proof. vm_compute. reflexivity. Qed.

(** ** The estimates and the true root *)

Lemma driver_profiles :
  run_profile lit_2 4 = true /\ run_profile lit_9 6 = true /\
  run_profile lit_0_25 5 = true /\ run_profile lit_1em12 23 = true /\
  run_profile lit_1e12 24 = true.
Proof. vm_compute. repeat split. Qed.

(** At [a = 3] the estimate [x_5 = 1.7320508075688772] enters step 5, the
    tests of steps 0 to 4 having failed, and its square is below 3. *)
Lemma three_enters_below_root :
  is_binary64 lit_3 = true /\ is_pos_finite lit_3 = true /\
  enters lit_3 eps 5 /\
  iterate lit_3 5 = S754_finite false 7800463371553962 (-52) /\
  below_sqrt lit_3 (iterate lit_3 5).
Proof.
  split; [reflexivity|]. split; [reflexivity|]. split; [|split].
  - apply enters_check. vm_compute. reflexivity.
  - vm_compute. reflexivity.
  - vm_compute. split; [discriminate|reflexivity].
Qed.

(** The specification's sentence fails at [a = 3], on entry to step 5. *)
Lemma monotone_above_sqrt_fails : ~ monotone_above_sqrt.
Proof.
  intros H.
  destruct three_enters_below_root as (Hv & Hp & Hent & _ & Hbelow).
  destruct (H lit_3 Hv Hp) as (_ & _ & Hall).
  destruct (Hall 5%nat ltac:(lia) Hent) as [Habove _].
  exact (below_not_above _ _ Hbelow Habove).
Qed.

(** C4, amended.  For every positive finite input of the format the
    initial guess satisfies [x_0 >= sqrt a > 0] and the sequence of the
    estimates is non-increasing: [x_{n+1} <= x_n] for every [n].  It is
    bounded below by [(1 - 2^-52) * sqrt a], not by [sqrt a]: every
    estimate is a positive finite value of the format with
    [x_n >= (1 - 2^-52) * sqrt a], and one that rounding has put below
    [sqrt a] is returned unchanged by the next step.  On the driver's
    positive inputs, with its tolerance, every estimate entering a step
    [n >= 1] is at least the true root. *)
Theorem estimates_and_true_root (a : binary64) :
  is_binary64 a = true -> is_pos_finite a = true ->
  (above_sqrt a (initial_guess a) /\ (0 < B2Q a)%Q /\
   (0 < B2Q (initial_guess a))%Q) /\
  (forall n,
     is_pos_finite (iterate a n) = true /\
     is_binary64 (iterate a n) = true /\
     (B2Q (iterate a (S n)) <= B2Q (iterate a n))%Q /\
     nearly_above_sqrt a (iterate a n) /\
     (below_sqrt a (iterate a n) -> iterate a (S n) = iterate a n)) /\
  (In a positive_tests ->
   forall n, (1 <= n)%nat -> enters a eps n ->
     above_sqrt a (iterate a n) /\
     (B2Q (iterate a (S n)) <= B2Q (iterate a n))%Q).
Proof.
  intros Hv Hp. split; [now apply initial_guess_above_sqrt|]. split.
  - intros n. destruct (iterate_est_ok a n Hv Hp) as (Hpn & Hbn & Hlow).
    assert (HA : (0 <= B2R a)%R).
    { destruct a as [?|?| |[|] m e]; try discriminate Hp.
      apply Rlt_le, F2R_pos. }
    split; [exact Hpn|]. split; [exact Hbn|]. split; [|split].
    + apply Rle_Qle. rewrite !Q2R_B2Q.
      now apply iterate_non_increasing.
    + now apply nearly_above_sqrt_intro.
    + intros Hbelow. apply below_sqrt_real in Hbelow.
      rewrite <- (iterate_below_fixed a n 1 Hv Hp Hbelow).
      now rewrite Nat.add_1_r.
  - destruct driver_profiles as (H2 & H9 & H025 & Hm12 & H12).
    intros [<-|[<-|[<-|[<-|[<-|[]]]]]].
    + exact (run_profile_spec _ _ H2).
    + exact (run_profile_spec _ _ H9).
    + exact (run_profile_spec _ _ H025).
    + exact (run_profile_spec _ _ Hm12).
    + exact (run_profile_spec _ _ H12).
Qed.

(** At [a = 3] the estimate [x_5], below the root, is within the amended
    bound and [x_6 = x_5]. *)
Lemma estimates_and_true_root_witness :
  is_binary64 lit_3 = true /\ is_pos_finite lit_3 = true /\
  above_sqrt lit_3 (initial_guess lit_3) /\
  (B2Q (iterate lit_3 6) <= B2Q (iterate lit_3 5))%Q /\
  nearly_above_sqrt lit_3 (iterate lit_3 5).
Proof.
  assert (Hv : is_binary64 lit_3 = true) by reflexivity.
  assert (Hp : is_pos_finite lit_3 = true) by reflexivity.
  destruct (estimates_and_true_root lit_3 Hv Hp) as [(H0 & _) [Hall _]].
  destruct (Hall 5%nat) as (_ & _ & Hmono & Hnear & _).
  split; [exact Hv|]. split; [exact Hp|]. split; [exact H0|].
  split; [exact Hmono|exact Hnear].
Defined.

(** ** The driver's table *)

(** The specification's table fails on its second row: the root computed
    for 2.0 is not [1.4142135623730951]. *)
Lemma driver_table_fails : ~ driver_table.
Proof.
  intros (r0 & r1 & r2 & r3 & r4 & r5 & r6 & Hroots & _ & H1 & _).
  subst r1. vm_compute in Hroots. discriminate Hroots.
Qed.

(** It fails on its fifth row too: the root computed for [1e-12] is 25
    units in the last place away from [1e-6]. *)
Lemma driver_root_of_1em12 :
  sqrt_newton lit_1em12 eps max_iters = lit_1em6_above /\
  ~ within_ulps 1 lit_1em6_above (1 # 1000000) /\
  ~ within_ulps 24 lit_1em6_above (1 # 1000000) /\
  within_ulps 25 lit_1em6_above (1 # 1000000).
Proof.
  split; [vm_compute; reflexivity|].
  split; [|split].
  - intros [_ H]. revert H. vm_compute. intros H. apply H. reflexivity.
  - intros [_ H]. revert H. vm_compute. intros H. apply H. reflexivity.
  - apply within_ulps_b_spec. vm_compute. reflexivity.
Qed.

(** C8, amended.  With [eps = 1e-12] and [max_iters = 100] the driver
    computes, bit for bit: 0.0 -> 0.0; 2.0 -> 1.4142135623730949, the
    binary64 value just below the one nearest the true root, with check
    [r*r] below 2; 9.0 -> 3.0; 0.25 -> 0.5; 1e-12 ->
    1.0000000000000052e-06; 1e12 -> 1000000.0; and -4.0 -> NaN, for which
    it prints the line of the non-real case. *)
Theorem driver_computes :
  driver_roots =
    [c_zero; lit_sqrt2_below; lit_3; c_half; lit_1em6_above; lit_1e6;
     S754_nan] /\
  main =
    [Root c_zero c_zero c_zero;
     Root lit_2 lit_sqrt2_below (S754_finite false 9007199254740990 (-52));
     Root lit_9 lit_3 lit_9;
     Root lit_0_25 c_half lit_0_25;
     Root lit_1em12 lit_1em6_above
          (S754_finite false 4951760157141573 (-92));
     Root lit_1e12 lit_1e6 lit_1e12;
     NotReal lit_m4] /\
  is_nan S754_nan = true /\
  lit_sqrt2_below <> lit_sqrt2 /\
  (B2Q lit_sqrt2 - B2Q lit_sqrt2_below == ulp lit_sqrt2)%Q /\
  (B2Q lit_1em6_above - B2Q lit_1em6 == 25 * ulp lit_1em6)%Q.
Proof.
  split; [vm_compute; reflexivity|].
  split; [vm_compute; reflexivity|].
  split; [reflexivity|].
  split; [discriminate|].
  split; vm_compute; reflexivity.
Qed.

(** * Further properties of the code *)

(** ** [abs_double] *)

(** X1. On every argument that is neither [-0.0] nor NaN, [abs_double]
    returns the argument with its sign cleared, as the IEEE absolute
    value [SFabs] does.  On [-0.0] the test [x < 0.0] is false and the
    argument is returned with its sign bit.  On NaN the test is false too
    and the argument is returned as it is; the model has a single NaN and
    says nothing of the sign of a NaN. *)
Theorem abs_double_clears_sign (x : binary64) :
  abs_double (S754_zero true) = S754_zero true /\
  abs_double S754_nan = S754_nan /\
  (x <> S754_zero true -> x <> S754_nan -> abs_double x = SFabs x).
Proof.
  split; [reflexivity|]. split; [reflexivity|].
  destruct x as [[|]|[|]| |[|] m e]; intros H Hn; try reflexivity.
  now contradict H.
Qed.

Lemma abs_double_clears_sign_witness :
  lit_m4 <> S754_zero true /\ lit_m4 <> S754_nan /\
  abs_double lit_m4 = S754_finite false 4503599627370496 (-50).
Proof.
  assert (H : lit_m4 <> S754_zero true) by discriminate.
  assert (Hn : lit_m4 <> S754_nan) by discriminate.
  split; [exact H|]. split; [exact Hn|].
  exact (proj2 (proj2 (abs_double_clears_sign lit_m4)) H Hn).
Defined.

(** X2. The value returned by [abs_double] is exactly the magnitude of
    its argument, it is a value of the format when the argument is, and it
    never compares below zero. *)
Theorem abs_double_magnitude (x : binary64) :
  (B2Q (abs_double x) == Qabs (B2Q x))%Q /\
  (abs_double x <? c_zero)%b64 = false /\
  (is_binary64 x = true -> is_binary64 (abs_double x) = true).
Proof.
  destruct x as [[|]|[|]| |[|] m e]; (split; [|split]);
    try reflexivity; try (intros H; exact H).
  - change (abs_double (S754_finite true m e)) with (S754_finite false m e).
    unfold B2Q. simpl cond_Zopp.
    rewrite Qabs_Qmult. rewrite (Qabs_pos (pow2 e)).
    + apply Qmult_comp; [|reflexivity]. reflexivity.
    + apply Qlt_le_weak, pow2_pos.
  - unfold B2Q. simpl cond_Zopp. symmetry. apply Qabs_pos.
    apply Qmult_le_0_compat; [discriminate|].
    apply Qlt_le_weak, pow2_pos.
Qed.

(** X3. [abs_double] is idempotent, and it returns NaN exactly when its
    argument is NaN. *)
Theorem abs_double_idempotent (x : binary64) :
  abs_double (abs_double x) = abs_double x /\
  is_nan (abs_double x) = is_nan x.
Proof.
  split; [destruct x as [[|]|[|]| |[|] m e]; reflexivity|].
  assert (Hn : forall y, y <> S754_nan -> is_nan y = false).
  { intros y Hy. destruct (is_nan y) eqn:E; [|reflexivity].
    apply is_nan_spec in E. contradiction. }
  destruct x as [[|]|[|]| |[|] m e]; try reflexivity;
    rewrite !Hn; try reflexivity; discriminate.
Qed.

(** ** [is_nan] *)

(** X4. [x != x] holds for NaN and for nothing else: [is_nan] is false on
    both zeros, both infinities and every finite value. *)
Theorem is_nan_exactly_nan (x : binary64) :
  is_nan x = true <-> x = S754_nan.
Proof.
  unfold is_nan, b64_ne, SFeqb, SFcompare.
  destruct x as [s|[|]| |[|] m e]; try (split; [discriminate|easy]);
    try easy; rewrite Z.compare_refl, Pos.compare_cont_refl;
    (split; [discriminate|easy]).
Qed.

(** ** The error of the root returned *)

Lemma eps_upper : (B2R eps <= 10000001 / 10000000000000000000)%R.
Proof.
  destruct eps_bounds as (_ & _ & ->).
  pose proof (bpow_neg_val 92 ltac:(lia)) as H.
  change (- (92)) with (-92) in H. rewrite H.
  change (2 ^ 92) with 4951760157141521099596496896. lra.
Qed.

Section RealForward.

Variables s X Q N X' E : R.
Hypothesis Hs : (0 < s)%R.
Hypothesis HX : ((1 - 2 * u) * s <= X)%R.
Hypothesis HQ : (Q * X = s * s)%R.
Hypothesis HN : (N = (X + Q) / 2)%R.
Hypothesis HE0 : (0 < E)%R.
Hypothesis HE : (E <= 10000001 / 10000000000000000000)%R.
Hypothesis HX' : (Rabs (X' - N) <= (201 / 100) * u * N)%R.
Hypothesis Hstop :
  (Rabs (X' - X) * (1 - u) <= E * (1 + X') * ((1 + u) * (1 + u)))%R.

(** The estimate that passes the test is within the tolerance of the
    root, up to a thousandth. *)
Lemma forward_mixed :
  (Rabs (X' - s) <= 1001 / 1000000000000000 * (1 + s))%R.
Proof.
  pose proof u_val as Hu.
  pose proof (step_X_pos s X Hs HX) as HX0.
  pose proof (step_Q_pos s X Q Hs HX HQ) as HQ0.
  pose proof (step_N_ge s X Q N Hs HX HQ HN) as HNge.
  pose proof (step_lower s X Q N X' Hs HX HQ HN HX') as Hlow.
  destruct (Rle_lt_dec s X) as [Hge|Hlt].
  - pose proof (step_Q_le s X Q Hs HX HQ Hge) as HQle.
    destruct (step_N_above s X Q N Hs HX HQ HN Hge) as [HN1 HN2].
    pose proof (step_gap s X Q N HQ HN) as Hgap.
    assert (HX'0 : (0 < 1 + X')%R) by (rewrite Hu in Hlow; nra).
    assert (Hst : (Rabs (X' - X) * (1 - u)
                   <= 10000001 / 10000000000000000000 * (1 + X')
                      * ((1 + u) * (1 + u)))%R).
    { apply Rle_trans with (1 := Hstop). apply Rmult_le_compat_r.
      - apply Rle_0_sqr.
      - apply Rmult_le_compat_r; lra. }
    assert (HD : (X - X' <= Rabs (X' - X))%R).
    { rewrite <- Rabs_Ropp. replace (- (X' - X))%R with (X - X')%R by ring.
      apply Rle_abs. }
    assert (HD0 : (0 <= Rabs (X' - X))%R) by apply Rabs_pos.
    set (D := Rabs (X' - X)) in *.
    assert (HDdef : D = Rabs (X' - X)) by reflexivity. clearbody D.
    (* N - s <= (X - s) / 2, as (X - s)^2 <= (X - s) * X *)
    assert (Hhalf : (N - s <= (X - s) / 2)%R).
    { apply Rmult_le_reg_l with (2 * X)%R; [lra|]. rewrite Hgap.
      assert ((X - s) * (X - s) <= (X - s) * X)%R
        by (apply Rmult_le_compat_l; lra).
      lra. }
    apply Rabs_le_elim in HX'. apply Rabs_le_intro.
    rewrite Hu in *.
    clear - Hs Hge HN HQle HQ0 HNge Hlow Hst HD HD0 Hhalf HX'.
    split; lra.
  - pose proof (step_below s X Q N X' Hs HX HQ HN HX' (Rlt_le _ _ Hlt))
      as Hup.
    apply Rabs_le_intro. rewrite Hu in *. clear - Hs Hlow Hup. split; lra.
Qed.

End RealForward.

Section RealRelative.

Variables s X Q N X' E : R.
Hypothesis Hs : (bpow (-11) <= s)%R.
Hypothesis HX : ((1 - 2 * u) * s <= X)%R.
Hypothesis HQ : (Q * X = s * s)%R.
Hypothesis HN : (N = (X + Q) / 2)%R.
Hypothesis HX' : (Rabs (X' - N) <= u * N + u * Q * (1 + u) / 2)%R.

Lemma root_error_below :
  (X <= s -> Rabs (X' - s) <= 2 * u * s)%R.
Proof.
  intros Hle. pose proof (bpow_gt_0 (-11)) as H11.
  assert (Hs0 : (0 < s)%R) by lra.
  pose proof u_val as Hu.
  pose proof (step_X_pos s X Hs0 HX) as HX0.
  pose proof (step_Q_below s X Q Hs0 HX HQ Hle) as HQle.
  pose proof (step_Q_pos s X Q Hs0 HX HQ) as HQ0.
  pose proof (step_N_ge s X Q N Hs0 HX HQ HN) as HNge.
  pose proof (step_N_below s X Q N Hs0 HX HQ HN Hle) as HNle.
  apply Rabs_le_elim in HX'. apply Rabs_le_intro.
  rewrite Hu in *. split; nra.
Qed.

Hypothesis HE : (E < bpow (-39))%R.
Hypothesis HE0 : (0 < E)%R.
Hypothesis Hstop :
  (Rabs (X' - X) * (1 - u) <= E * (1 + X') * ((1 + u) * (1 + u)))%R.

Lemma root_error_above :
  (s <= X -> Rabs (X' - s) <= 2 * u * s)%R.
Proof.
  intros Hge. pose proof (bpow_gt_0 (-11)) as H11.
  assert (Hs0 : (0 < s)%R) by lra.
  pose proof u_val as Hu. pose proof bpow_m11 as Hb11.
  pose proof bpow_m39 as Hb39.
  pose proof (step_X_pos s X Hs0 HX) as HX0.
  pose proof (step_Q_le s X Q Hs0 HX HQ Hge) as HQle.
  pose proof (step_Q_pos s X Q Hs0 HX HQ) as HQ0.
  pose proof (step_N_ge s X Q N Hs0 HX HQ HN) as HNge.
  destruct (step_N_above s X Q N Hs0 HX HQ HN Hge) as [HN1 HN2].
  pose proof (step_gap s X Q N HQ HN) as Hgap.
  set (e := (X - s)%R) in *.
  assert (Hedef : e = (X - s)%R) by reflexivity. clearbody e.
  apply Rabs_le_elim in HX'.
  assert (HX'0 : (0 < 1 + X')%R) by (rewrite Hu in *; lra).
  assert (Hst : (Rabs (X' - X) * (1 - u)
                 <= bpow (-39) * (1 + X') * ((1 + u) * (1 + u)))%R).
  { apply Rle_trans with (1 := Hstop). apply Rmult_le_compat_r.
    - apply Rle_0_sqr.
    - apply Rmult_le_compat_r; lra. }
  assert (HD : (X - X' <= Rabs (X' - X))%R).
  { rewrite <- Rabs_Ropp. replace (- (X' - X))%R with (X - X')%R by ring.
    apply Rle_abs. }
  assert (He : (e <= 8 / 1000000000 * s)%R).
  { assert (HD1 : ((X - X') * (1 - u) <= Rabs (X' - X) * (1 - u))%R)
      by (apply Rmult_le_compat_r; rewrite ?Hu; lra).
    rewrite Hu, Hb39, Hb11 in *.
    assert (T1 : (X' <= (1 + / 9007199254740992) * ((X + s) / 2)
                        + / 9007199254740992 * s
                          * (1 + / 9007199254740992) / 2)%R) by lra.
    assert (T2 : ((X - X') * (1 - / 9007199254740992)
                  <= / 549755813888 * (1 + X')
                     * ((1 + / 9007199254740992)
                        * (1 + / 9007199254740992)))%R) by lra.
    clear - T1 T2 Hs Hge Hedef. lra. }
  assert (HNs : (N - s <= 32 / 1000000000000000000 * s)%R).
  { apply Rmult_le_reg_l with (2 * s)%R; [lra|].
    apply Rle_trans with (2 * X * (N - s))%R.
    - assert (H : (2 * s * (N - s) <= 2 * X * (N - s))%R)
        by (apply Rmult_le_compat_r; lra).
      lra.
    - rewrite Hgap.
      assert (H : (e * e <= 8 / 1000000000 * s * (8 / 1000000000 * s))%R)
        by (apply Rmult_le_compat; lra).
      nra. }
  apply Rabs_le_intro. rewrite Hu in *.
  clear - HX' HNs HNge HN1 HQle HQ0 Hs0 He Hedef. split; lra.
Qed.

End RealRelative.

(** ** The stopping test at the edges of the tolerance *)

(** [1.0 + |x'|] for a positive finite [x']: positive, finite, at least 1. *)
Lemma tol_sum_shape (x' : binary64) :
  is_pos_finite x' = true -> is_binary64 x' = true ->
  exists mt et,
    (c_one + abs_double x')%b64 = S754_finite false mt et /\
    bounded prec emax mt et = true /\ (1 <= F2R (Zpos mt) et)%R.
Proof.
  intros Hp Hv. destruct x' as [?|?| |[|] m e]; try discriminate Hp.
  rewrite abs_double_pos. unfold is_binary64, valid_binary in Hv.
  destruct b64_one_value as [H1 _].
  pose proof (add_rounded false false 4503599627370496 m (-52) e) as Hadd.
  fold c_one in Hadd. rewrite H1, B2R_pos_finite in Hadd.
  pose proof (F2R_pos m e) as HX.
  destruct Hadd as (_ & Hpos & _). specialize (Hpos ltac:(lra)).
  set (t := (c_one + S754_finite false m e)%b64) in *.
  assert (Hfin : is_finite t = true).
  { apply (rounded_finite _ _ _ Hpos).
    pose proof (bounded_le_max m e Hv) as Hmax.
    change (emax - prec - 1) with 970. change emax with 1024.
    assert (H971 : bpow 971 = (2 * bpow 970)%R)
      by (rewrite <- bpow_succ; reflexivity).
    pose proof (bpow_lt 0 970 ltac:(lia)) as H0. rewrite bpow_0 in H0.
    clear - Hmax H971 H0. lra. }
  assert (Hone : F2R (Zpos 4503599627370496) (-52) = 1%R) by exact H1.
  destruct (rounded_ge_float _ _ _ 4503599627370496 (-52) Hpos eq_refl)
    as [Hinf | (mt & et & Ht & Hge)]; [rewrite Hone; lra| |].
  - rewrite Hinf in Hfin. discriminate Hfin.
  - exists mt, et. pose proof (rounded_pos_shape _ _ Hpos) as Hsh.
    rewrite Ht in Hsh. destruct Hsh as [_ Hb].
    rewrite Hone in Hge. now repeat split.
Qed.

(** A negative tolerance gives a negative bound [tol]. *)
Lemma neg_tol_shape (eps' : binary64) (mt : positive) (et : Z) :
  is_binary64 eps' = true -> (eps' <? c_zero)%b64 = true ->
  bounded prec emax mt et = true -> (1 <= F2R (Zpos mt) et)%R ->
  let tol := (eps' * S754_finite false mt et)%b64 in
  tol = S754_infinity true \/ exists m e, tol = S754_finite true m e.
Proof.
  intros Hv Hneg Hb H1. cbv zeta.
  destruct eps' as [[|]|[|]| |[|] me ee]; try discriminate Hneg.
  - now left.
  - unfold is_binary64, valid_binary in Hv.
    pose proof (mul_rounded true false me mt ee et Hv Hb) as Hmul.
    simpl xorb in Hmul.
    pose proof (bounded_ge_min me ee Hv) as Hmin.
    pose proof (bpow_gt_0 (-1074)) as Hp.
    assert (Hmin1 : F2R (Zpos 1) (-1074) = bpow (-1074)).
    { unfold F2R. ring. }
    destruct (rounded_ge_float _ _ _ 1 (-1074) Hmul eq_refl)
      as [Hinf | (m & e & Ht & _)].
    + rewrite Hmin1.
      apply Rle_trans with (F2R (Zpos me) ee * 1)%R; [lra|].
      apply Rmult_le_compat_l; [lra|exact H1].
    + now left.
    + right. now exists m, e.
Qed.

(** What [abs_double] returns is never below a negative bound. *)
Lemma abs_not_le_negative (y tol : binary64) :
  tol = S754_infinity true \/ (exists m e, tol = S754_finite true m e) ->
  (abs_double y <=? tol)%b64 = false.
Proof.
  intros [-> | (m & e & ->)];
    destruct y as [[|]|[|]| |[|] my ey]; reflexivity.
Qed.

Lemma stop_test_nan_tol (x x' : binary64) :
  stop_test S754_nan x x' = false.
Proof.
  unfold stop_test, stop_tol.
  change (S754_nan * (c_one + abs_double x'))%b64 with S754_nan.
  unfold b64_le, SFleb, SFcompare. now destruct (stop_diff x x').
Qed.

Lemma stop_test_neg_tol (eps' x x' : binary64) :
  is_binary64 eps' = true -> (eps' <? c_zero)%b64 = true ->
  is_pos_finite x' = true -> is_binary64 x' = true ->
  stop_test eps' x x' = false.
Proof.
  intros Hv Hneg Hp' Hv'.
  destruct (tol_sum_shape x' Hp' Hv') as (mt & et & Ht & Hb & H1).
  unfold stop_test, stop_tol, stop_diff. rewrite Ht.
  apply abs_not_le_negative. now apply neg_tol_shape.
Qed.

Lemma stop_test_inf_tol (x x' : binary64) :
  is_pos_finite x = true -> is_binary64 x = true ->
  is_pos_finite x' = true -> is_binary64 x' = true ->
  stop_test (S754_infinity false) x x' = true.
Proof.
  intros Hp Hv Hp' Hv'.
  destruct (tol_sum_shape x' Hp' Hv') as (mt & et & Ht & _ & _).
  unfold stop_test, stop_tol. rewrite Ht.
  change (S754_infinity false * S754_finite false mt et)%b64
    with (S754_infinity false).
  destruct x as [?|?| |[|] m e]; try discriminate Hp.
  destruct x' as [?|?| |[|] m' e']; try discriminate Hp'.
  destruct (stop_diff_spec m m' e e' Hv Hv') as (Hfin & _).
  destruct (stop_diff (S754_finite false m e) (S754_finite false m' e'))
    as [?|?| |[|] md ed]; try discriminate Hfin; reflexivity.
Qed.

(** ** [sqrt_newton]: the cap and the tolerance *)

(** X5. With a cap of zero or less the loop body is not run: for an input
    that is neither negative nor zero the kernel returns its initial guess
    [(a >= 1.0) ? a : 1.0] and divides by nothing.  For a NaN input that
    guess is [1.0]. *)
Theorem zero_cap_returns_initial_guess (a eps' : binary64) (cap : Z) :
  cap <= 0 ->
  (a <? c_zero)%b64 = false -> (a =? c_zero)%b64 = false ->
  sqrt_newton a eps' cap = (if (a >=? c_one)%b64 then a else c_one) /\
  divisors a eps' cap = [] /\
  (is_nan a = true -> sqrt_newton a eps' cap = c_one).
Proof.
  intros Hcap Hlt Heq. unfold sqrt_newton, divisors. rewrite Hlt, Heq.
  replace (Z.to_nat cap) with 0%nat by lia. cbv zeta.
  split; [reflexivity|]. split; [reflexivity|].
  intros Hn. apply is_nan_spec in Hn. subst a. reflexivity.
Qed.

Lemma zero_cap_returns_initial_guess_witness :
  0 <= 0 /\ (lit_9 <? c_zero)%b64 = false /\ (lit_9 =? c_zero)%b64 = false /\
  sqrt_newton lit_9 eps 0 = lit_9.
Proof.
  assert (H0 : 0 <= 0) by lia.
  assert (H1 : (lit_9 <? c_zero)%b64 = false) by reflexivity.
  assert (H2 : (lit_9 =? c_zero)%b64 = false) by reflexivity.
  split; [exact H0|]. split; [exact H1|]. split; [exact H2|].
  exact (proj1 (zero_cap_returns_initial_guess lit_9 eps 0 H0 H1 H2)).
Defined.

(** X6. A tolerance that is NaN or negative is never met: for a positive
    finite input no step passes the test, and the kernel returns the
    estimate left when the cap is reached, [x_{max_iters}]. *)
Theorem bad_tolerance_never_stops (a eps' : binary64) (cap : Z) :
  is_binary64 a = true -> is_pos_finite a = true ->
  is_binary64 eps' = true ->
  is_nan eps' = true \/ (eps' <? c_zero)%b64 = true ->
  (forall n, stops a eps' n = false) /\
  sqrt_newton a eps' cap = iterate a (Z.to_nat cap).
Proof.
  intros Hv Hp Hve Hbad.
  assert (Hno : forall n, stops a eps' n = false).
  { intros n. unfold stops.
    destruct Hbad as [Hn|Hneg].
    - apply is_nan_spec in Hn. subst eps'. apply stop_test_nan_tol.
    - destruct (iterate_est_ok a (S n) Hv Hp) as (Hp' & Hv' & _).
      now apply stop_test_neg_tol. }
  split; [exact Hno|].
  destruct a as [?|?| |[|] m e]; try discriminate Hp.
  rewrite sqrt_newton_loop by reflexivity.
  apply (loop_no_stop _ eps' (Z.to_nat cap) 0). intros j _. apply Hno.
Qed.

Lemma bad_tolerance_never_stops_witness :
  is_binary64 lit_2 = true /\ is_pos_finite lit_2 = true /\
  is_binary64 lit_m4 = true /\ (lit_m4 <? c_zero)%b64 = true /\
  sqrt_newton lit_2 lit_m4 3 = iterate lit_2 3.
Proof.
  assert (Hv : is_binary64 lit_2 = true) by reflexivity.
  assert (Hp : is_pos_finite lit_2 = true) by reflexivity.
  assert (Hve : is_binary64 lit_m4 = true) by reflexivity.
  assert (Hneg : (lit_m4 <? c_zero)%b64 = true) by reflexivity.
  split; [exact Hv|]. split; [exact Hp|]. split; [exact Hve|].
  split; [exact Hneg|].
  exact (proj2 (bad_tolerance_never_stops lit_2 lit_m4 3 Hv Hp Hve
                  (or_intror Hneg))).
Defined.

(** X7. An infinite tolerance is met at once: for a positive finite input
    and a cap of at least one, the kernel returns after a single
    iteration, with [x_1 = 0.5 * (x_0 + a / x_0)]. *)
Theorem infinite_tolerance_one_iteration (a : binary64) (cap : Z) :
  is_binary64 a = true -> is_pos_finite a = true -> 1 <= cap ->
  sqrt_newton a (S754_infinity false) cap = heron a (initial_guess a) /\
  length (divisors a (S754_infinity false) cap) = 1%nat.
Proof.
  intros Hv Hp Hcap.
  destruct (iterate_est_ok a 0 Hv Hp) as (Hp0 & Hv0 & _).
  destruct (iterate_est_ok a 1 Hv Hp) as (Hp1 & Hv1 & _).
  pose proof (stop_test_inf_tol _ _ Hp0 Hv0 Hp1 Hv1) as Hstop.
  simpl iterate in Hstop.
  destruct a as [?|?| |[|] m e]; try discriminate Hp.
  unfold sqrt_newton, divisors.
  change ((S754_finite false m e <? c_zero)%b64) with false.
  change ((S754_finite false m e =? c_zero)%b64) with false.
  cbv iota zeta. fold (initial_guess (S754_finite false m e)).
  destruct (Z.to_nat cap) as [|k] eqn:Ek; [lia|].
  rewrite loop_step, loop_divisors_step, Hstop. split; reflexivity.
Qed.

Lemma infinite_tolerance_one_iteration_witness :
  is_binary64 lit_9 = true /\ is_pos_finite lit_9 = true /\
  1 <= max_iters /\
  sqrt_newton lit_9 (S754_infinity false) max_iters = lit_5.
Proof.
  assert (Hv : is_binary64 lit_9 = true) by reflexivity.
  assert (Hp : is_pos_finite lit_9 = true) by reflexivity.
  assert (Hc : 1 <= max_iters) by (unfold max_iters; lia).
  split; [exact Hv|]. split; [exact Hp|]. split; [exact Hc|].
  exact (proj1 (infinite_tolerance_one_iteration lit_9 max_iters Hv Hp Hc)).
Defined.

(** ** [sqrt_newton]: the class of the value returned *)

(** A NaN or [+inf] input: the initial guess for a cap below one, NaN
    otherwise. *)
Lemma nonfinite_run (a eps' : binary64) (cap : Z) :
  a = S754_nan \/ a = S754_infinity false ->
  sqrt_newton a eps' cap =
  if 1 <=? cap then S754_nan else initial_guess a.
Proof.
  intros Ha.
  assert (Hh : heron a (initial_guess a) = S754_nan)
    by (destruct Ha as [-> | ->]; reflexivity).
  assert (Hrun : sqrt_newton a eps' cap =
                 newton_loop a eps' (Z.to_nat cap) (initial_guess a))
    by (destruct Ha as [-> | ->]; reflexivity).
  rewrite Hrun. destruct (Z.leb_spec 1 cap) as [Hc|Hc].
  - destruct (Z.to_nat cap) as [|k] eqn:Ek; [lia|].
    rewrite loop_step, Hh, stop_test_nan. apply newton_loop_nan.
  - replace (Z.to_nat cap) with 0%nat by lia. reflexivity.
Qed.

(** X8. Whatever the input of the format, the tolerance and the cap, the
    kernel never returns a negative value, nor [-0.0]: the result is NaN,
    [+0.0], or compares above zero. *)
Theorem never_negative (a eps' : binary64) (cap : Z) :
  is_binary64 a = true ->
  (sqrt_newton a eps' cap <? c_zero)%b64 = false /\
  sqrt_newton a eps' cap <> S754_zero true /\
  (is_nan (sqrt_newton a eps' cap) = true \/
   sqrt_newton a eps' cap = c_zero \/
   (c_zero <? sqrt_newton a eps' cap)%b64 = true).
Proof.
  intros Hv.
  destruct a as [s|[|]| |[|] m e].
  - assert (H : sqrt_newton (S754_zero s) eps' cap = c_zero)
      by (destruct s; reflexivity).
    rewrite H. repeat split; [discriminate|now right; left].
  - change (sqrt_newton (S754_infinity true) eps' cap) with S754_nan.
    repeat split; [discriminate|now left].
  - rewrite nonfinite_run by now right.
    destruct (1 <=? cap); repeat split; try discriminate;
      [now left|now right; right].
  - rewrite nonfinite_run by now left.
    destruct (1 <=? cap); repeat split; try discriminate;
      [now left|now right; right].
  - change (sqrt_newton (S754_finite true m e) eps' cap) with S754_nan.
    repeat split; [discriminate|now left].
  - destruct (sqrt_newton_iterate (S754_finite false m e) eps' cap eq_refl)
      as [k ->].
    destruct (iterate_est_ok _ k Hv eq_refl) as (Hp & _ & _).
    destruct (pos_finite_sign _ Hp) as (_ & _ & _ & Hgt).
    destruct (iterate (S754_finite false m e) k) as [?|?| |[|] mr er];
      try discriminate Hp.
    repeat split; [discriminate|now right; right].
Qed.

Lemma never_negative_witness :
  is_binary64 lit_m4 = true /\
  (sqrt_newton lit_m4 eps max_iters <? c_zero)%b64 = false.
Proof.
  assert (Hv : is_binary64 lit_m4 = true) by reflexivity.
  split; [exact Hv|].
  exact (proj1 (never_negative lit_m4 eps max_iters Hv)).
Defined.

Lemma sqrt_newton_nan_iff (a eps' : binary64) (cap : Z) :
  is_binary64 a = true ->
  (is_nan (sqrt_newton a eps' cap) = true <->
   (a <? c_zero)%b64 = true \/
   (1 <= cap /\ (a = S754_nan \/ a = S754_infinity false))).
Proof.
  intros Hv.
  destruct a as [s|[|]| |[|] m e].
  - assert (H : sqrt_newton (S754_zero s) eps' cap = c_zero)
      by (destruct s; reflexivity).
    rewrite H. split; [discriminate|].
    intros [H0|[_ [H0|H0]]]; discriminate H0.
  - change (sqrt_newton (S754_infinity true) eps' cap) with S754_nan.
    split; [now left|reflexivity].
  - rewrite nonfinite_run by now right.
    destruct (Z.leb_spec 1 cap) as [Hc|Hc].
    + split; [|reflexivity]. intros _. right. split; [exact Hc|now right].
    + split; [discriminate|].
      intros [H0|[H0 _]]; [discriminate H0|lia].
  - rewrite nonfinite_run by now left.
    destruct (Z.leb_spec 1 cap) as [Hc|Hc].
    + split; [|reflexivity]. intros _. right. split; [exact Hc|now left].
    + split; [discriminate|].
      intros [H0|[H0 _]]; [discriminate H0|lia].
  - change (sqrt_newton (S754_finite true m e) eps' cap) with S754_nan.
    split; [now left|reflexivity].
  - destruct (sqrt_newton_iterate (S754_finite false m e) eps' cap eq_refl)
      as [k ->].
    destruct (iterate_est_ok _ k Hv eq_refl) as (Hp & _ & _).
    destruct (pos_finite_sign _ Hp) as (_ & Hn & _).
    rewrite Hn. split; [discriminate|].
    intros [H0|[_ [H0|H0]]]; discriminate H0.
Qed.

(** X9. NaN is returned exactly for a negative input and, when the cap is
    at least one, for a NaN or [+inf] input; never for a zero or a positive
    finite input. *)
Theorem nan_exactly_when (a eps' : binary64) (cap : Z) :
  is_binary64 a = true ->
  (is_nan (sqrt_newton a eps' cap) = true <->
   (a <? c_zero)%b64 = true \/
   (1 <= cap /\ (a = S754_nan \/ a = S754_infinity false))).
Proof. exact (sqrt_newton_nan_iff a eps' cap). Qed.

Lemma nan_exactly_when_witness :
  is_binary64 lit_1e12 = true /\
  is_nan (sqrt_newton lit_1e12 eps max_iters) = false.
Proof.
  assert (Hv : is_binary64 lit_1e12 = true) by reflexivity.
  split; [exact Hv|].
  destruct (is_nan (sqrt_newton lit_1e12 eps max_iters)) eqn:E;
    [|reflexivity].
  apply (nan_exactly_when lit_1e12 eps max_iters Hv) in E.
  destruct E as [E|[_ [E|E]]]; discriminate E.
Defined.

(** ** [sqrt_newton]: how far the value returned is from the root *)

(** For a positive finite input at most [2^188] the driver's run returns
    through the test, at a step below the cap. *)
Lemma sqrt_newton_stops (a : binary64) :
  is_binary64 a = true -> is_pos_finite a = true ->
  (B2R a <= bpow 188)%R ->
  exists m, (m < 100)%nat /\ stops a eps m = true /\
            sqrt_newton a eps max_iters = iterate a (S m).
Proof.
  intros Hv Hpos Hhi.
  assert (Hstop : stops a eps 99 = true)
    by (apply (stops_at a Hv Hpos 94); [lia|exact Hhi]).
  assert (Hw : loop_stops a eps 100 (iterate a 0) = true).
  { apply loop_stops_true. exists 99%nat. split; [lia|exact Hstop]. }
  destruct (loop_stops_result a eps 100 0 Hw) as (m & Hlt & Hm & Hr).
  exists m. split; [lia|]. split; [exact Hm|].
  destruct a as [?|?| |[|] ma ea]; try discriminate Hpos.
  rewrite sqrt_newton_loop by reflexivity. exact Hr.
Qed.

(** What a passing test tells about the two estimates it compares. *)
Lemma stop_necessary (a : binary64) (n : nat) :
  is_binary64 a = true -> is_pos_finite a = true ->
  stops a eps n = true ->
  (Rabs (B2R (iterate a (S n)) - B2R (iterate a n)) * (1 - u)
   <= B2R eps * (1 + B2R (iterate a (S n))) * ((1 + u) * (1 + u)))%R.
Proof.
  intros Hv Hp Hstop. unfold stops in Hstop.
  destruct (iterate_est_ok a n Hv Hp) as (Hpx & Hvx & _).
  destruct (iterate_est_ok a (S n) Hv Hp) as (Hpx' & Hvx' & Hlow').
  destruct (stop_test_spec _ _ Hpx Hvx Hpx' Hvx') as [_ Hnec].
  specialize (Hnec Hstop).
  destruct Hnec as [Hsmall|Hok]; [|exact Hok].
  destruct eps_bounds as (_ & [HElo _] & _).
  pose proof u_val as Hu.
  pose proof (bpow_lt (-1022) (-40) ltac:(lia)) as Hb.
  pose proof (bpow_gt_0 (-1022)) as Hb0.
  pose proof (Rabs_pos (B2R (iterate a (S n)) - B2R (iterate a n))) as HD0.
  pose proof (sqrt_pos (B2R a)) as Hs0.
  set (D := Rabs (B2R (iterate a (S n)) - B2R (iterate a n))) in *.
  set (X' := B2R (iterate a (S n))) in *.
  set (E := B2R eps) in *.
  assert (HX'0 : (0 <= X')%R).
  { apply Rle_trans with (2 := Hlow'). apply Rmult_le_pos; rewrite ?Hu; lra. }
  assert (H4 : (D * (1 - u) <= D * 1)%R)
    by (apply Rmult_le_compat_l; rewrite ?Hu; lra).
  assert (H5 : (E * 1 <= E * (1 + X'))%R)
    by (apply Rmult_le_compat_l; lra).
  assert (H6 : (E * (1 + X') * 1 <= E * (1 + X') * ((1 + u) * (1 + u)))%R).
  { apply Rmult_le_compat_l; [|rewrite Hu; lra].
    apply Rmult_le_pos; lra. }
  clear - Hsmall Hb H4 H5 H6 HElo. lra.
Qed.

(** X10. Whatever the tolerance and the cap, the value returned for a
    positive finite input is at least [(1 - 2^-52) * sqrt a] and at most
    [(1 + 5 * 2^-53)] times the initial guess [max(a, 1)]. *)
Theorem result_bounds (a eps' : binary64) (cap : Z) :
  is_binary64 a = true -> is_pos_finite a = true ->
  nearly_above_sqrt a (sqrt_newton a eps' cap) /\
  (B2Q (sqrt_newton a eps' cap)
   <= (1 + 5 * pow2 (-53)) * B2Q (initial_guess a))%Q.
Proof.
  intros Hv Hp. destruct (sqrt_newton_iterate a eps' cap Hp) as [k ->].
  destruct (iterate_est_ok a k Hv Hp) as (_ & _ & Hlow).
  pose proof (orbit_A_pos a Hv Hp) as HA.
  split; [apply nearly_above_sqrt_intro; [lra|exact Hlow]|].
  apply Rle_Qle.
  rewrite Q2R_mult, Q2R_plus, Q2R_mult, !Q2R_B2Q, Q2R_pow2.
  rewrite RMicromega.Q2R_1.
  replace (Q2R 5) with 5%R by (unfold Q2R; simpl; lra).
  fold u.
  assert (Hlin : (B2R (iterate a k) - sqrt (B2R a)
                  <= (B2R (initial_guess a) - sqrt (B2R a)) * q ^ k
                     + 5 * u * sqrt (B2R a))%R)
    by exact (orbit_linear a Hv Hp k).
  destruct (initial_guess_ge_sqrt a Hv Hp) as (_ & _ & [Hs0 Hs1] & _).
  pose proof u_val as Hu.
  assert (Hq : (0 <= q ^ k <= 1)%R).
  { split; [apply pow_le; unfold q; rewrite Hu; lra|].
    pose proof (q_pow_le 0 k ltac:(lia)) as H. simpl in H. exact H. }
  set (M := B2R (initial_guess a)) in *. set (s := sqrt (B2R a)) in *.
  assert (H1 : ((M - s) * q ^ k <= (M - s) * 1)%R)
    by (apply Rmult_le_compat_l; lra).
  assert (H2 : (u * s <= u * M)%R)
    by (apply Rmult_le_compat_l; rewrite ?Hu; lra).
  clear - Hlin H1 H2. lra.
Qed.

Lemma result_bounds_witness :
  is_binary64 lit_3 = true /\ is_pos_finite lit_3 = true /\
  nearly_above_sqrt lit_3 (sqrt_newton lit_3 eps max_iters).
Proof.
  assert (Hv : is_binary64 lit_3 = true) by reflexivity.
  assert (Hp : is_pos_finite lit_3 = true) by reflexivity.
  split; [exact Hv|]. split; [exact Hp|].
  exact (proj1 (result_bounds lit_3 eps max_iters Hv Hp)).
Defined.

(** X11. With the driver's tolerance [1e-12] and cap [100], for every
    positive finite input [a <= 2^188], subnormal inputs included, the
    value returned is within [1.001e-12 * (1 + sqrt a)] of the true root:
    the mixed tolerance of the test bounds the error of the result. *)
Theorem root_within_tolerance (a : binary64) :
  is_binary64 a = true -> is_pos_finite a = true ->
  (B2Q a <= pow2 188)%Q ->
  (Rabs (B2R (sqrt_newton a eps max_iters) - sqrt (B2R a))
   <= 1001 / 1000000000000000 * (1 + sqrt (B2R a)))%R.
Proof.
  intros Hv Hp Hhi. apply B2Q_le_pow2 in Hhi.
  destruct (sqrt_newton_stops a Hv Hp Hhi) as (m & _ & Hm & ->).
  pose proof (stop_necessary a m Hv Hp Hm) as Hst.
  destruct (orbit_step a Hv Hp _ (iterate_est_ok a m Hv Hp))
    as (H1 & H2 & H3 & _ & _).
  destruct eps_bounds as (_ & [HElo _] & _).
  assert (HE0 : (0 < B2R eps)%R) by (pose proof (bpow_gt_0 (-40)); lra).
  exact (forward_mixed _ _ _ _ _ _ (orbit_s_pos a Hv Hp) H1 H2 eq_refl
           HE0 eps_upper H3 Hst).
Qed.

Lemma root_within_tolerance_witness :
  is_binary64 lit_1em12 = true /\ is_pos_finite lit_1em12 = true /\
  (B2Q lit_1em12 <= pow2 188)%Q /\
  (Rabs (B2R (sqrt_newton lit_1em12 eps max_iters) - sqrt (B2R lit_1em12))
   <= 1001 / 1000000000000000 * (1 + sqrt (B2R lit_1em12)))%R.
Proof.
  assert (Hv : is_binary64 lit_1em12 = true) by reflexivity.
  assert (Hp : is_pos_finite lit_1em12 = true) by reflexivity.
  assert (Hhi : (B2Q lit_1em12 <= pow2 188)%Q)
    by (apply Qle_bool_iff; vm_compute; reflexivity).
  split; [exact Hv|]. split; [exact Hp|]. split; [exact Hhi|].
  exact (root_within_tolerance lit_1em12 Hv Hp Hhi).
Defined.

(** X12. With the driver's tolerance and cap, for every input with
    [2^-22 <= a <= 2^188] the value returned is within a relative error
    of [2^-52] of the true root. *)
Theorem root_within_two_roundoffs (a : binary64) :
  is_binary64 a = true -> is_pos_finite a = true ->
  (pow2 (-22) <= B2Q a)%Q -> (B2Q a <= pow2 188)%Q ->
  (Rabs (B2R (sqrt_newton a eps max_iters) - sqrt (B2R a))
   <= bpow (-52) * sqrt (B2R a))%R.
Proof.
  intros Hv Hp Hlo Hhi.
  apply pow2_le_B2Q in Hlo. apply B2Q_le_pow2 in Hhi.
  destruct (sqrt_newton_stops a Hv Hp Hhi) as (m & _ & Hm & ->).
  pose proof (stop_necessary a m Hv Hp Hm) as Hst.
  pose proof (orbit_quotient_normal a Hv Hp m Hlo) as HQn.
  destruct (orbit_step a Hv Hp _ (iterate_est_ok a m Hv Hp))
    as (H1 & H2 & _ & H3 & _).
  specialize (H3 HQn).
  destruct eps_bounds as (_ & [HElo HEhi] & _).
  assert (HE0 : (0 < B2R eps)%R) by (pose proof (bpow_gt_0 (-40)); lra).
  assert (Hs11 : (bpow (-11) <= sqrt (B2R a))%R).
  { rewrite <- (sqrt_bpow (-11)). change (2 * -11) with (-22).
    pose proof (bpow_gt_0 (-22)). apply sqrt_le_1; lra. }
  replace (bpow (-52)) with (2 * u)%R
    by (unfold u; rewrite <- bpow_succ; reflexivity).
  simpl iterate.
  destruct (Rle_lt_dec (sqrt (B2R a)) (B2R (iterate a m))) as [Hge|Hlt].
  - exact (root_error_above _ _ _ _ _ _ Hs11 H1 H2 eq_refl H3 HEhi HE0
             Hst Hge).
  - exact (root_error_below _ _ _ _ _ Hs11 H1 H2 eq_refl H3
             (Rlt_le _ _ Hlt)).
Qed.

Lemma root_within_two_roundoffs_witness :
  is_binary64 lit_2 = true /\ is_pos_finite lit_2 = true /\
  (pow2 (-22) <= B2Q lit_2)%Q /\ (B2Q lit_2 <= pow2 188)%Q /\
  (Rabs (B2R (sqrt_newton lit_2 eps max_iters) - sqrt (B2R lit_2))
   <= bpow (-52) * sqrt (B2R lit_2))%R.
Proof.
  assert (Hv : is_binary64 lit_2 = true) by reflexivity.
  assert (Hp : is_pos_finite lit_2 = true) by reflexivity.
  assert (Hlo : (pow2 (-22) <= B2Q lit_2)%Q)
    by (apply Qle_bool_iff; vm_compute; reflexivity).
  assert (Hhi : (B2Q lit_2 <= pow2 188)%Q)
    by (apply Qle_bool_iff; vm_compute; reflexivity).
  split; [exact Hv|]. split; [exact Hp|]. split; [exact Hlo|].
  split; [exact Hhi|].
  exact (root_within_two_roundoffs lit_2 Hv Hp Hlo Hhi).
Defined.

(** ** [sqrt_newton]: the cap and the number of iterations *)

Lemma loop_beyond_stop (a eps' : binary64) (n m : nat) (x : binary64) :
  loop_stops a eps' n x = true -> (n <= m)%nat ->
  newton_loop a eps' m x = newton_loop a eps' n x /\
  loop_divisors a eps' m x = loop_divisors a eps' n x.
Proof.
  revert m x. induction n as [|n IH]; intros m x Hs Hnm; [discriminate Hs|].
  destruct m as [|m]; [lia|].
  rewrite loop_stops_step in Hs.
  rewrite !loop_step, !loop_divisors_step.
  destruct (stop_test eps' x (heron a x)); [now split|].
  destruct (IH m (heron a x) Hs ltac:(lia)) as [H1 H2].
  now rewrite H1, H2.
Qed.

Lemma loop_divisors_length (a eps' : binary64) (n : nat) (x : binary64) :
  (length (loop_divisors a eps' n x) <= n)%nat.
Proof.
  revert x. induction n as [|n IH]; intros x; [simpl; lia|].
  rewrite loop_divisors_step.
  destruct (stop_test eps' x (heron a x)); simpl; [lia|].
  specialize (IH (heron a x)). lia.
Qed.

Lemma loop_divisors_length_stop (a eps' : binary64) (n i m : nat) :
  (i <= m)%nat -> stops a eps' m = true ->
  (length (loop_divisors a eps' n (iterate a i)) <= S m - i)%nat.
Proof.
  revert i. induction n as [|n IH]; intros i Him Hs; [simpl; lia|].
  rewrite loop_divisors_step.
  destruct (stop_test eps' (iterate a i) (heron a (iterate a i))) eqn:Hi;
    cbn [length]; [lia|].
  assert (Hne : i <> m).
  { intros ->. unfold stops in Hs. simpl in Hs. congruence. }
  specialize (IH (S i) ltac:(lia) Hs). cbn [iterate] in IH. lia.
Qed.

(** X13. Once the test has been met within the cap, a larger cap changes
    nothing: the kernel returns the same value after the same divisions. *)
Theorem cap_beyond_stop (a eps' : binary64) (cap cap' : Z) :
  stops_within a eps' (Z.to_nat cap) = true -> cap <= cap' ->
  sqrt_newton a eps' cap' = sqrt_newton a eps' cap /\
  divisors a eps' cap' = divisors a eps' cap.
Proof.
  intros Hs Hle. unfold sqrt_newton, divisors.
  destruct (a <? c_zero)%b64; [now split|].
  destruct (a =? c_zero)%b64; [now split|].
  cbv zeta. fold (initial_guess a).
  apply loop_beyond_stop; [exact Hs|lia].
Qed.

Lemma cap_beyond_stop_witness :
  stops_within lit_2 eps (Z.to_nat 5) = true /\ 5 <= max_iters /\
  sqrt_newton lit_2 eps max_iters = sqrt_newton lit_2 eps 5.
Proof.
  assert (Hs : stops_within lit_2 eps (Z.to_nat 5) = true)
    by (vm_compute; reflexivity).
  assert (Hle : 5 <= max_iters) by (unfold max_iters; lia).
  split; [exact Hs|]. split; [exact Hle|].
  exact (proj1 (cap_beyond_stop lit_2 eps 5 max_iters Hs Hle)).
Defined.

(** X14. With the driver's tolerance, for every positive finite input
    [a <= 2^188] a cap of 100 is enough: any larger cap gives the same
    value as [max_iters = 100]. *)
Theorem cap_100_suffices (a : binary64) (cap : Z) :
  is_binary64 a = true -> is_pos_finite a = true ->
  (B2Q a <= pow2 188)%Q -> max_iters <= cap ->
  sqrt_newton a eps cap = sqrt_newton a eps max_iters.
Proof.
  intros Hv Hp Hhi Hcap. apply B2Q_le_pow2 in Hhi.
  assert (Hstop : stops a eps 99 = true)
    by (apply (stops_at a Hv Hp 94); [lia|exact Hhi]).
  assert (Hw : loop_stops a eps 100 (iterate a 0) = true).
  { apply loop_stops_true. exists 99%nat. split; [lia|exact Hstop]. }
  destruct a as [?|?| |[|] m e]; try discriminate Hp.
  rewrite !sqrt_newton_loop by reflexivity.
  apply loop_beyond_stop; [exact Hw|].
  unfold max_iters in *. lia.
Qed.

Lemma cap_100_suffices_witness :
  is_binary64 lit_1e12 = true /\ is_pos_finite lit_1e12 = true /\
  (B2Q lit_1e12 <= pow2 188)%Q /\ max_iters <= 1000 /\
  sqrt_newton lit_1e12 eps 1000 = sqrt_newton lit_1e12 eps max_iters.
Proof.
  assert (Hv : is_binary64 lit_1e12 = true) by reflexivity.
  assert (Hp : is_pos_finite lit_1e12 = true) by reflexivity.
  assert (Hhi : (B2Q lit_1e12 <= pow2 188)%Q)
    by (apply Qle_bool_iff; vm_compute; reflexivity).
  assert (Hc : max_iters <= 1000) by (unfold max_iters; lia).
  split; [exact Hv|]. split; [exact Hp|]. split; [exact Hhi|].
  split; [exact Hc|].
  exact (cap_100_suffices lit_1e12 1000 Hv Hp Hhi Hc).
Defined.

(** X15. The kernel divides at most [max_iters] times, and not at all
    when [max_iters <= 0]; with the driver's tolerance it divides at most
    60 times for a positive finite input [a <= 2^108], however large the
    cap. *)
Theorem division_count_bounds (a eps' : binary64) (cap : Z) :
  (length (divisors a eps' cap) <= Z.to_nat cap)%nat /\
  (is_binary64 a = true -> is_pos_finite a = true ->
   (B2Q a <= pow2 108)%Q ->
   (length (divisors a eps cap) <= 60)%nat).
Proof.
  split.
  - unfold divisors.
    destruct (a <? c_zero)%b64; [simpl; lia|].
    destruct (a =? c_zero)%b64; [simpl; lia|].
    apply loop_divisors_length.
  - intros Hv Hp Hhi. apply B2Q_le_pow2 in Hhi.
    assert (Hstop : stops a eps 59 = true)
      by (apply (stops_at a Hv Hp 54); [lia|exact Hhi]).
    destruct a as [?|?| |[|] m e]; try discriminate Hp.
    unfold divisors.
    change ((S754_finite false m e <? c_zero)%b64) with false.
    change ((S754_finite false m e =? c_zero)%b64) with false.
    cbv iota zeta. fold (initial_guess (S754_finite false m e)).
    apply (loop_divisors_length_stop _ eps (Z.to_nat cap) 0 59);
      [lia|exact Hstop].
Qed.

Lemma division_count_bounds_witness :
  is_binary64 lit_1e12 = true /\ is_pos_finite lit_1e12 = true /\
  (B2Q lit_1e12 <= pow2 108)%Q /\
  (length (divisors lit_1e12 eps 1000) <= 60)%nat.
Proof.
  assert (Hv : is_binary64 lit_1e12 = true) by reflexivity.
  assert (Hp : is_pos_finite lit_1e12 = true) by reflexivity.
  assert (Hhi : (B2Q lit_1e12 <= pow2 108)%Q)
    by (apply Qle_bool_iff; vm_compute; reflexivity).
  split; [exact Hv|]. split; [exact Hp|]. split; [exact Hhi|].
  exact (proj2 (division_count_bounds lit_1e12 eps 1000) Hv Hp Hhi).
Defined.

(** ** The driver *)

(** X16. For an input of the format the driver prints the line of the
    non-real case exactly when the input is negative, NaN or [+inf]; for
    every other input it prints the root and the check [r * r]. *)
Theorem driver_line (a : binary64) :
  is_binary64 a = true ->
  (main_line a = NotReal a <->
   (a <? c_zero)%b64 = true \/ a = S754_nan \/ a = S754_infinity false) /\
  (main_line a = NotReal a \/
   main_line a = Root a (sqrt_newton a eps max_iters)
                   (sqrt_newton a eps max_iters
                    * sqrt_newton a eps max_iters)%b64).
Proof.
  intros Hv. pose proof (sqrt_newton_nan_iff a eps max_iters Hv) as Hiff.
  unfold main_line. cbv zeta.
  destruct (is_nan (sqrt_newton a eps max_iters)) eqn:E.
  - split; [|now left]. split; [intros _|reflexivity].
    destruct (proj1 Hiff eq_refl) as [H|[_ H]]; [now left|now right].
  - split; [|now right]. split; [discriminate|].
    intros H. assert (Ht : false = true); [|discriminate Ht].
    apply Hiff. destruct H as [H|H]; [now left|right].
    split; [unfold max_iters; lia|exact H].
Qed.

Lemma driver_line_witness :
  is_binary64 (S754_infinity false) = true /\
  main_line (S754_infinity false) = NotReal (S754_infinity false).
Proof.
  assert (Hv : is_binary64 (S754_infinity false) = true) by reflexivity.
  split; [exact Hv|].
  apply (proj1 (driver_line (S754_infinity false) Hv)).
  right. right. reflexivity.
Defined.

(** [ulp a] exceeds [2^-53 * a] by a factor [1 + 2^-53] at least. *)
Lemma ulp_lower_strict (m : positive) (e : Z) :
  bounded prec emax m e = true ->
  (u * (1 + u) * F2R (Zpos m) e <= Q2R (ulp (S754_finite false m e)))%R.
Proof.
  intros Hb. destruct (bounded_elim m e Hb) as (_ & _ & _ & Hd & _).
  simpl ulp. rewrite Q2R_pow2. unfold F2R.
  destruct (digits_bounds_R (Zpos m) ltac:(lia)) as [_ Hm].
  assert (Hm53 : (IZR (Zpos m) <= bpow 53 - 1)%R).
  { assert (Hlt : (IZR (Zpos m) < bpow 53)%R).
    { apply Rlt_le_trans with (1 := Hm). apply bpow_le.
      change (Zdigits2 (Zpos m)) with (Zpos (digits2_pos m)). exact Hd. }
    rewrite <- (IZR_pow2 53) in * by lia. apply lt_IZR in Hlt.
    rewrite <- minus_IZR. apply IZR_le. lia. }
  pose proof (bpow_gt_0 e) as He.
  assert (H53 : (u * bpow 53 = 1)%R).
  { unfold u. rewrite <- bpow_add. reflexivity. }
  pose proof u_bounds as Hu.
  assert (H1 : (u * IZR (Zpos m) <= 1 - u)%R).
  { apply Rle_trans with (u * (bpow 53 - 1))%R;
      [apply Rmult_le_compat_l; lra|lra]. }
  assert (H2 : (u * (1 + u) * IZR (Zpos m) <= 1)%R) by nra.
  replace (u * (1 + u) * (IZR (Zpos m) * bpow e))%R
    with (u * (1 + u) * IZR (Zpos m) * bpow e)%R by ring.
  rewrite <- (Rmult_1_l (bpow e)) at 2.
  apply Rmult_le_compat_r; lra.
Qed.

(** X17. For every input with [2^-22 <= a <= 2^188] the driver prints the
    root line, and the check [r * r] it prints, computed in binary64, is a
    positive finite value within 5 units in the last place of [a]. *)
Theorem driver_check (a : binary64) :
  is_binary64 a = true -> is_pos_finite a = true ->
  (pow2 (-22) <= B2Q a)%Q -> (B2Q a <= pow2 188)%Q ->
  exists r check,
    main_line a = Root a r check /\
    r = sqrt_newton a eps max_iters /\
    is_pos_finite check = true /\ is_binary64 check = true /\
    (Qabs (B2Q check - B2Q a) <= 5 * ulp a)%Q.
Proof.
  intros Hv Hp Hlo Hhi.
  apply pow2_le_B2Q in Hlo. apply B2Q_le_pow2 in Hhi.
  destruct (sqrt_newton_stops a Hv Hp Hhi) as (n & _ & Hn & Hrun).
  pose proof (stop_accurate a Hv Hp n Hlo Hn) as Hacc.
  destruct (iterate_est_ok a (S n) Hv Hp) as (Hpr & Hvr & _).
  destruct (pos_finite_sign _ Hpr) as (_ & Hnan & _).
  set (r := iterate a (S n)) in *.
  exists r, (r * r)%b64.
  split; [unfold main_line; cbv zeta; rewrite Hrun; fold r;
          now rewrite Hnan|].
  split; [now rewrite Hrun|].
  destruct r as [?|?| |[|] mr er]; try discriminate Hpr.
  unfold is_binary64, valid_binary in Hvr.
  pose proof (mul_rounded false false mr mr er er Hvr Hvr) as Hmul.
  simpl xorb in Hmul. rewrite B2R_pos_finite in Hacc.
  set (R2 := (F2R (Zpos mr) er * F2R (Zpos mr) er)%R) in *.
  set (check := (S754_finite false mr er * S754_finite false mr er)%b64)
    in *.
  pose proof (orbit_A_pos a Hv Hp) as HA.
  pose proof u_val as Hu.
  apply Rabs_le_elim in Hacc.
  assert (HuA : (0 < u * B2R a)%R) by (rewrite Hu; lra).
  assert (Hfin : is_finite check = true).
  { apply (rounded_finite _ _ _ Hmul).
    change (emax - prec - 1) with 970. change emax with 1024.
    pose proof (bpow_lt 189 970 ltac:(lia)) as H1.
    pose proof (bpow_lt 971 1024 ltac:(lia)) as H2.
    assert (H971 : bpow 971 = (2 * bpow 970)%R)
      by (rewrite <- bpow_succ; reflexivity).
    assert (H189 : bpow 189 = (2 * bpow 188)%R)
      by (rewrite <- bpow_succ; reflexivity).
    assert (H4 : (4 * (u * B2R a) <= B2R a)%R) by (rewrite Hu; lra).
    clear - Hacc Hhi H1 H2 H971 H189 H4. lra. }
  assert (Herr : (Rabs (Bmag check - R2) <= bpow (-53) * R2)%R).
  { apply (rounded_error _ _ _ Hmul Hfin).
    pose proof (bpow_lt (-1022) (-23) ltac:(lia)) as H1.
    assert (H22 : bpow (-22) = (2 * bpow (-23))%R)
      by (rewrite <- bpow_succ; reflexivity).
    assert (H4 : (4 * (u * B2R a) <= B2R a / 2)%R) by (rewrite Hu; lra).
    clear - Hacc Hlo H1 H22 H4. lra. }
  fold u in Herr. apply Rabs_le_elim in Herr.
  assert (HR2 : (0 < R2)%R).
  { assert (H4 : (4 * (u * B2R a) <= B2R a / 2)%R) by (rewrite Hu; lra).
    clear - Hacc HA H4. lra. }
  assert (HuR : (u * R2 <= u * ((1 + 4 * u) * B2R a))%R).
  { apply Rmult_le_compat_l; [rewrite Hu; lra|].
    clear - Hacc. lra. }
  assert (HuR0 : (u * R2 < R2)%R).
  { rewrite <- (Rmult_1_l R2) at 2. apply Rmult_lt_compat_r; [exact HR2|].
    rewrite Hu. lra. }
  pose proof (rounded_pos_shape _ _ Hmul) as Hsh.
  destruct check as [sc|sc| |sc mc ec]; try discriminate Hfin.
  - exfalso. unfold Bmag, B2R in Herr. rewrite Rabs_R0 in Herr.
    clear - Herr HuR0. lra.
  - destruct Hsh as [-> Hbc]. split; [reflexivity|].
    split; [exact Hbc|].
    rewrite Bmag_finite in Herr.
    destruct a as [?|?| |[|] ma ea]; try discriminate Hp.
    apply Rle_Qle.
    rewrite Q2R_Qabs, Q2R_minus, Q2R_mult, !Q2R_B2Q.
    replace (Q2R 5) with 5%R by (unfold Q2R; simpl; lra).
    pose proof (ulp_lower_strict ma ea Hv) as Hulp.
    rewrite !B2R_pos_finite in *.
    set (A := F2R (Zpos ma) ea) in *.
    set (C := F2R (Zpos mc) ec) in *.
    set (U := Q2R (ulp (S754_finite false ma ea))) in *.
    assert (HuuA : (u * (4 * u * A) <= 5 * (u * u * A))%R).
    { assert (0 <= u * u * A)%R.
      { apply Rmult_le_pos; [|lra]. apply Rmult_le_pos; rewrite Hu; lra. }
      lra. }
    apply Rabs_le_intro.
    assert (H5 : (5 * (u * (1 + u) * A) <= 5 * U)%R) by lra.
    clear - Herr Hacc HuR HuuA H5. split; lra.
Qed.

Lemma driver_check_witness :
  is_binary64 lit_2 = true /\ is_pos_finite lit_2 = true /\
  (pow2 (-22) <= B2Q lit_2)%Q /\ (B2Q lit_2 <= pow2 188)%Q /\
  exists r check,
    main_line lit_2 = Root lit_2 r check /\
    r = sqrt_newton lit_2 eps max_iters /\
    is_pos_finite check = true /\ is_binary64 check = true /\
    (Qabs (B2Q check - B2Q lit_2) <= 5 * ulp lit_2)%Q.
Proof.
  assert (Hv : is_binary64 lit_2 = true) by reflexivity.
  assert (Hp : is_pos_finite lit_2 = true) by reflexivity.
  assert (Hlo : (pow2 (-22) <= B2Q lit_2)%Q)
    by (apply Qle_bool_iff; vm_compute; reflexivity).
  assert (Hhi : (B2Q lit_2 <= pow2 188)%Q)
    by (apply Qle_bool_iff; vm_compute; reflexivity).
  split; [exact Hv|]. split; [exact Hp|]. split; [exact Hlo|].
  split; [exact Hhi|].
  exact (driver_check lit_2 Hv Hp Hlo Hhi).
Defined.

(** ** A tolerance of zero *)

(** Every value of the format is a multiple of [2^-1074]. *)
Lemma bounded_grid (m : positive) (e : Z) :
  bounded prec emax m e = true ->
  exists k : Z, F2R (Zpos m) e = F2R k (-1074).
Proof.
  intros Hb. destruct (bounded_elim m e Hb) as (_ & _ & He & _).
  exists (Zpos m * 2 ^ (e + 1074)).
  rewrite F2R_shift by lia. f_equal. lia.
Qed.

(** The difference of two distinct positive finite values is not zero as
    computed: [|x' - x|] is a positive finite value or [+inf]. *)
Lemma stop_diff_nonzero (m m' : positive) (e e' : Z) :
  bounded prec emax m e = true -> bounded prec emax m' e' = true ->
  F2R (Zpos m') e' <> F2R (Zpos m) e ->
  let d := stop_diff (S754_finite false m e) (S754_finite false m' e') in
  d = S754_infinity false \/ exists md ed, d = S754_finite false md ed.
Proof.
  intros Hb Hb' Hne. cbv zeta. unfold stop_diff.
  destruct (bounded_grid m e Hb) as [k Hk].
  destruct (bounded_grid m' e' Hb') as [k' Hk'].
  pose proof (sub_rounded false false m' m e' e) as Hsub.
  rewrite !B2R_pos_finite in Hsub.
  set (d0 := (S754_finite false m' e' - S754_finite false m e)%b64) in *.
  destruct Hsub as (_ & Hpos & Hneg).
  assert (Hd0 : exists s, d0 = S754_infinity s \/
                          exists md ed, d0 = S754_finite s md ed).
  { rewrite Hk, Hk' in *. rewrite <- F2R_minus in *.
    destruct (Z.lt_trichotomy k' k) as [Hlt|[Heq|Hgt]].
    - exists true.
      assert (Hv : (F2R (k' - k) (-1074) < 0)%R).
      { pose proof (F2R_lt_same (k' - k) 0 (-1074) ltac:(lia)) as H.
        unfold F2R at 2 in H. simpl in H. lra. }
      specialize (Hneg Hv).
      destruct (rounded_ge_float _ _ _ 1 (-1074) Hneg eq_refl)
        as [Hinf | (md & ed & Hd & _)].
      + replace (- F2R (k' - k) (-1074))%R with (F2R (k - k') (-1074))
          by (unfold F2R; rewrite !minus_IZR; ring).
        apply F2R_le. lia.
      + now left.
      + right. now exists md, ed.
    - subst k'. now contradict Hne.
    - exists false.
      assert (Hv : (0 < F2R (k' - k) (-1074))%R).
      { pose proof (F2R_lt_same 0 (k' - k) (-1074) ltac:(lia)) as H.
        unfold F2R at 1 in H. simpl in H. lra. }
      specialize (Hpos Hv).
      destruct (rounded_ge_float _ _ _ 1 (-1074) Hpos eq_refl)
        as [Hinf | (md & ed & Hd & _)].
      + apply F2R_le. lia.
      + now left.
      + right. now exists md, ed. }
  destruct Hd0 as (s & [-> | (md & ed & ->)]).
  - left. now destruct s.
  - right. exists md, ed. now destruct s.
Qed.

Lemma stop_test_zero_tol (s : bool) (x x' : binary64) :
  is_pos_finite x = true -> is_binary64 x = true ->
  is_pos_finite x' = true -> is_binary64 x' = true ->
  (stop_test (S754_zero s) x x' = true <-> x' = x).
Proof.
  intros Hp Hv Hp' Hv'.
  destruct (tol_sum_shape x' Hp' Hv') as (mt & et & Ht & _ & _).
  unfold stop_test, stop_tol. rewrite Ht.
  change (S754_zero s * S754_finite false mt et)%b64
    with (S754_zero (xorb s false)).
  destruct x as [?|?| |[|] m e]; try discriminate Hp.
  destruct x' as [?|?| |[|] m' e']; try discriminate Hp'.
  unfold is_binary64, valid_binary in Hv, Hv'.
  split.
  - intros Hle.
    destruct (Req_dec (F2R (Zpos m') e') (F2R (Zpos m) e)) as [Heq|Hne].
    + destruct (bounded_unique _ _ _ _ Hv' Hv Heq) as [-> ->]. reflexivity.
    + exfalso.
      destruct (stop_diff_nonzero m m' e e' Hv Hv' Hne)
        as [Hd | (md & ed & Hd)]; rewrite Hd in Hle;
        destruct s; discriminate Hle.
  - intros Heq. injection Heq as -> ->.
    unfold stop_diff.
    pose proof (sub_rounded false false m m e e) as (Hz & _ & _).
    rewrite (Hz ltac:(lra)). now destruct s.
Qed.

(** X18. With a tolerance of zero the test is met only at an exact fixed
    point of the rounded step: for a positive finite input, step [n]
    passes the test exactly when [x_{n+1}] and [x_n] are the same value,
    and the estimate then returned satisfies [r == 0.5 * (r + a / r)]. *)
Theorem zero_tolerance_fixed_point (a : binary64) (s : bool) (n : nat) :
  is_binary64 a = true -> is_pos_finite a = true ->
  (stops a (S754_zero s) n = true <-> iterate a (S n) = iterate a n) /\
  (stops a (S754_zero s) n = true ->
   heron a (iterate a (S n)) = iterate a (S n)).
Proof.
  intros Hv Hp.
  destruct (iterate_est_ok a n Hv Hp) as (Hpx & Hvx & _).
  destruct (iterate_est_ok a (S n) Hv Hp) as (Hpx' & Hvx' & _).
  pose proof (stop_test_zero_tol s _ _ Hpx Hvx Hpx' Hvx') as Hiff.
  split; [exact Hiff|].
  intros Hs. apply Hiff in Hs. rewrite Hs at 1. reflexivity.
Qed.

Lemma zero_tolerance_fixed_point_witness :
  is_binary64 lit_9 = true /\ is_pos_finite lit_9 = true /\
  stops lit_9 c_zero 6 = true /\ iterate lit_9 7 = lit_3 /\
  heron lit_9 lit_3 = lit_3.
Proof.
  assert (Hv : is_binary64 lit_9 = true) by reflexivity.
  assert (Hp : is_pos_finite lit_9 = true) by reflexivity.
  assert (Hs : stops lit_9 c_zero 6 = true) by (vm_compute; reflexivity).
  split; [exact Hv|]. split; [exact Hp|]. split; [exact Hs|].
  split; [vm_compute; reflexivity|].
  exact (proj2 (zero_tolerance_fixed_point lit_9 false 6 Hv Hp) Hs).
Defined.

(** ** The tolerance, from smaller to larger *)

(** Rounding is monotone: of two reals, the larger has the larger
    rounding.  [V1] and [V2] are the values [m2 * 2^e1] of [rounded]. *)
Lemma rounded_grid_mono (rho1 rho2 : R) (m1 e1 m2 e2 : Z) :
  (rho1 < rho2)%R ->
  -1074 <= e1 -> -1074 <= e2 ->
  (rho1 < bpow (e1 + prec))%R -> (rho2 < bpow (e2 + prec))%R ->
  (e1 = -1074 \/ (bpow (e1 + prec - 1) <= rho1)%R) ->
  (e2 = -1074 \/ (bpow (e2 + prec - 1) <= rho2)%R) ->
  (Rabs (F2R m1 e1 - rho1) <= bpow e1 / 2)%R ->
  (Rabs (F2R m2 e2 - rho2) <= bpow e2 / 2)%R ->
  (forall k, (rho1 <= F2R k e1)%R -> m1 <= k) ->
  (forall k, (F2R k e2 <= rho2)%R -> k <= m2) ->
  (F2R m1 e1 <= F2R m2 e2)%R.
Proof.
  intros Hlt He1 He2 Hhi1 Hhi2 Hn1 Hn2 Ha1 Ha2 Hle1 Hge2.
  assert (He : e1 <= e2).
  { destruct Hn1 as [->|Hn1]; [lia|].
    assert (H : (bpow (e1 + prec - 1) < bpow (e2 + prec))%R) by lra.
    apply bpow_lt_inv in H. lia. }
  destruct (Z.eq_dec e1 e2) as [->|Hne].
  - destruct (Z_le_gt_dec m1 m2) as [Hm|Hm]; [now apply F2R_le|].
    exfalso.
    assert (H1 : (F2R m2 e2 < rho1)%R).
    { destruct (Rle_lt_dec rho1 (F2R m2 e2)) as [H|H]; [|exact H].
      apply Hle1 in H. lia. }
    assert (H2 : (rho2 < F2R m1 e2)%R).
    { destruct (Rle_lt_dec (F2R m1 e2) rho2) as [H|H]; [|exact H].
      apply Hge2 in H. lia. }
    assert (H3 : (F2R (m2 + 1) e2 <= F2R m1 e2)%R)
      by (apply F2R_le; lia).
    rewrite F2R_plus in H3.
    assert (H4 : F2R 1 e2 = bpow e2) by (unfold F2R; ring).
    apply Rabs_le_elim in Ha1. apply Rabs_le_elim in Ha2.
    clear - Hlt H1 H2 H3 H4 Ha1 Ha2. lra.
  - assert (Hn2' : (bpow (e2 + prec - 1) <= rho2)%R)
      by (destruct Hn2 as [->|H]; [lia|exact H]).
    assert (HB : (bpow (e1 + prec) <= bpow (e2 + prec - 1))%R)
      by (apply bpow_le; lia).
    apply Rle_trans with (bpow (e1 + prec)).
    + assert (H : bpow (e1 + prec) = F2R (2 ^ prec) e1).
      { unfold F2R. rewrite IZR_pow2 by (unfold prec; lia).
        rewrite <- bpow_add. f_equal. lia. }
      rewrite H. apply F2R_le. apply Hle1. rewrite <- H. lra.
    + apply Rle_trans with (1 := HB).
      assert (H : bpow (e2 + prec - 1) = F2R (2 ^ (prec - 1)) e2).
      { unfold F2R. rewrite IZR_pow2 by (unfold prec; lia).
        rewrite <- bpow_add. f_equal. lia. }
      rewrite H. apply F2R_le. apply Hge2. rewrite <- H. exact Hn2'.
Qed.

(** The real value of a finite rounding. *)
Lemma rounded_value (r : binary64) (m2 e1 : Z) :
  match r with
  | S754_zero s' => s' = false /\ m2 = 0
  | S754_infinity s' => s' = false /\ (bpow emax <= F2R m2 e1)%R
  | S754_finite s' m e =>
      s' = false /\ F2R (Zpos m) e = F2R m2 e1 /\
      bounded prec emax m e = true
  | S754_nan => False
  end ->
  is_finite r = true -> B2R r = F2R m2 e1 /\ (F2R m2 e1 < bpow emax)%R.
Proof.
  destruct r as [s'|s'| |s' m e]; intros Hs Hf; try discriminate Hf.
  - destruct Hs as [_ ->]. unfold B2R, F2R. split; [ring|].
    pose proof (bpow_gt_0 emax). lra.
  - destruct Hs as (-> & Hv & Hb). rewrite B2R_pos_finite, Hv.
    split; [reflexivity|]. rewrite <- Hv. now apply bounded_lt_emax.
Qed.

(** A difference that is within the bound of a tolerance is within the
    bound of every larger tolerance. *)
Lemma tol_mono (m1 m2 mt : positive) (e1 e2 et : Z) (d : binary64) :
  bounded prec emax m1 e1 = true -> bounded prec emax m2 e2 = true ->
  bounded prec emax mt et = true ->
  (F2R (Zpos m1) e1 <= F2R (Zpos m2) e2)%R ->
  is_binary64 d = true -> is_finite d = true ->
  (d <=? S754_finite false m1 e1 * S754_finite false mt et)%b64 = true ->
  (d <=? S754_finite false m2 e2 * S754_finite false mt et)%b64 = true.
Proof.
  intros Hb1 Hb2 Hbt HE Hvd Hfd Hle.
  destruct (Req_dec (F2R (Zpos m1) e1) (F2R (Zpos m2) e2)) as [Heq|Hne].
  { destruct (bounded_unique _ _ _ _ Hb1 Hb2 Heq) as [-> ->]. exact Hle. }
  assert (Hlt : (F2R (Zpos m1) e1 < F2R (Zpos m2) e2)%R) by lra.
  pose proof (mul_rounded false false m1 mt e1 et Hb1 Hbt) as Hr1.
  pose proof (mul_rounded false false m2 mt e2 et Hb2 Hbt) as Hr2.
  simpl xorb in Hr1, Hr2.
  pose proof (rounded_is_binary64 _ _ _ Hr1) as Hv1.
  pose proof (rounded_is_binary64 _ _ _ Hr2) as Hv2.
  set (t1 := (S754_finite false m1 e1 * S754_finite false mt et)%b64) in *.
  set (t2 := (S754_finite false m2 e2 * S754_finite false mt et)%b64) in *.
  pose proof (F2R_pos mt et) as HT.
  assert (Hrho : (F2R (Zpos m1) e1 * F2R (Zpos mt) et
                  < F2R (Zpos m2) e2 * F2R (Zpos mt) et)%R)
    by (apply Rmult_lt_compat_r; assumption).
  destruct Hr1
    as (k1 & g1 & Hk1 & Hg1 & Hhi1 & Hn1 & Ha1 & Hle1 & Hge1 & _ & Hs1).
  destruct Hr2
    as (k2 & g2 & Hk2 & Hg2 & Hhi2 & Hn2 & Ha2 & Hle2 & Hge2 & _ & Hs2).
  pose proof (rounded_grid_mono _ _ k1 g1 k2 g2 Hrho Hg1 Hg2 Hhi1 Hhi2
                Hn1 Hn2 Ha1 Ha2 Hle1 Hge2) as Hmono.
  destruct (is_finite t2) eqn:Hf2.
  - destruct (rounded_value t2 k2 g2 Hs2 Hf2) as [HB2 Hmax2].
    assert (Hf1 : is_finite t1 = true).
    { destruct t1 as [?|s1| |? ? ?]; try reflexivity; [|contradiction].
      destruct Hs1 as [_ Hs1]. lra. }
    destruct (rounded_value t1 k1 g1 Hs1 Hf1) as [HB1 _].
    apply (b64_le_spec d t1 Hvd Hv1 Hfd Hf1) in Hle.
    apply (b64_le_spec d t2 Hvd Hv2 Hfd Hf2). lra.
  - destruct t2 as [?|s2| |? ? ?]; try discriminate Hf2; [|contradiction].
    destruct Hs2 as [-> _].
    destruct d as [?|?| |[|] ? ?]; try discriminate Hfd; reflexivity.
Qed.

Lemma stop_test_mono (eps1 eps2 x x' : binary64) :
  is_pos_finite x = true -> is_binary64 x = true ->
  is_pos_finite x' = true -> is_binary64 x' = true ->
  is_binary64 eps1 = true -> is_binary64 eps2 = true ->
  (c_zero <=? eps1)%b64 = true -> (eps1 <=? eps2)%b64 = true ->
  stop_test eps1 x x' = true -> stop_test eps2 x x' = true.
Proof.
  intros Hp Hv Hp' Hv' Hv1 Hv2 H0 H12.
  destruct (tol_sum_shape x' Hp' Hv') as (mt & et & Ht & Hbt & _).
  unfold stop_test, stop_tol. rewrite Ht.
  assert (Hd : is_finite (stop_diff x x') = true /\
               is_binary64 (stop_diff x x') = true /\
               (0 <= B2R (stop_diff x x'))%R).
  { destruct x as [?|?| |[|] m e]; try discriminate Hp.
    destruct x' as [?|?| |[|] m' e']; try discriminate Hp'.
    destruct (stop_diff_spec m m' e e' Hv Hv') as (Hf & Hb & Hn & _).
    now repeat split. }
  destruct Hd as (Hfd & Hvd & Hd0).
  set (d := stop_diff x x') in *.
  destruct eps2 as [s2|[|]| |[|] m2 e2];
    destruct eps1 as [s1|[|]| |[|] m1 e1];
    try discriminate H0; try discriminate H12.
  - (* both zero *)
    intros Hle. destruct d as [?|?| |[|] ? ?]; try discriminate Hfd;
      destruct s1, s2; exact Hle.
  - (* eps2 = +inf, eps1 = zero *)
    intros _. destruct d as [?|?| |[|] ? ?]; try discriminate Hfd;
      reflexivity.
  - intros _. destruct d as [?|?| |[|] ? ?]; try discriminate Hfd;
      reflexivity.
  - intros _. destruct d as [?|?| |[|] ? ?]; try discriminate Hfd;
      reflexivity.
  - (* eps2 finite, eps1 = zero *)
    intros Hle.
    pose proof (mul_rounded false false m2 mt e2 et Hv2 Hbt) as Hr2.
    simpl xorb in Hr2. apply rounded_pos_shape in Hr2.
    destruct d as [sd|?| |[|] md ed]; try discriminate Hfd.
    + destruct (S754_finite false m2 e2 * S754_finite false mt et)%b64
        as [?|?| |? ? ?]; try contradiction; subst; try reflexivity.
      destruct Hr2 as [-> _]. reflexivity.
    + exfalso. rewrite B2R_finite in Hd0. simpl cond_Zopp in Hd0.
      pose proof (F2R_sign (Zneg md) ed) as Hs. simpl in Hs. lra.
    + exfalso. destruct s1; discriminate Hle.
  - (* both finite *)
    unfold is_binary64, valid_binary in Hv1, Hv2.
    apply (tol_mono m1 m2 mt e1 e2 et d Hv1 Hv2 Hbt); try assumption.
    apply (b64_le_spec (S754_finite false m1 e1) (S754_finite false m2 e2))
      in H12; try assumption; reflexivity.
Qed.

Lemma loop_divisors_mono (a eps1 eps2 : binary64) (n i : nat) :
  (forall j, stops a eps1 j = true -> stops a eps2 j = true) ->
  (length (loop_divisors a eps2 n (iterate a i))
   <= length (loop_divisors a eps1 n (iterate a i)))%nat.
Proof.
  intros Hmono. revert i. induction n as [|n IH]; intros i; [simpl; lia|].
  rewrite !loop_divisors_step.
  destruct (stop_test eps2 (iterate a i) (heron a (iterate a i))) eqn:H2.
  - cbn [length]. lia.
  - destruct (stop_test eps1 (iterate a i) (heron a (iterate a i))) eqn:H1.
    + apply (Hmono i) in H1. unfold stops in H1. simpl in H1. congruence.
    + cbn [length]. specialize (IH (S i)). cbn [iterate] in IH. lia.
Qed.

(** X19. A larger tolerance stops no later: for a positive finite input
    and two tolerances [0 <= eps1 <= eps2], every step that passes the
    test with [eps1] passes it with [eps2], so the kernel run with [eps2]
    divides at most as many times as the one run with [eps1]. *)
Theorem larger_tolerance_stops_no_later
        (a eps1 eps2 : binary64) (cap : Z) :
  is_binary64 a = true -> is_pos_finite a = true ->
  is_binary64 eps1 = true -> is_binary64 eps2 = true ->
  (c_zero <=? eps1)%b64 = true -> (eps1 <=? eps2)%b64 = true ->
  (forall n, stops a eps1 n = true -> stops a eps2 n = true) /\
  (length (divisors a eps2 cap) <= length (divisors a eps1 cap))%nat.
Proof.
  intros Hv Hp Hv1 Hv2 H0 H12.
  assert (Hmono : forall n, stops a eps1 n = true -> stops a eps2 n = true).
  { intros n. unfold stops.
    destruct (iterate_est_ok a n Hv Hp) as (Hpx & Hvx & _).
    destruct (iterate_est_ok a (S n) Hv Hp) as (Hpx' & Hvx' & _).
    now apply stop_test_mono. }
  split; [exact Hmono|].
  destruct a as [?|?| |[|] m e]; try discriminate Hp.
  unfold divisors.
  change ((S754_finite false m e <? c_zero)%b64) with false.
  change ((S754_finite false m e =? c_zero)%b64) with false.
  cbv iota zeta. fold (initial_guess (S754_finite false m e)).
  exact (loop_divisors_mono _ eps1 eps2 (Z.to_nat cap) 0 Hmono).
Qed.

Lemma larger_tolerance_stops_no_later_witness :
  is_binary64 lit_2 = true /\ is_pos_finite lit_2 = true /\
  is_binary64 eps = true /\ is_binary64 c_half = true /\
  (c_zero <=? eps)%b64 = true /\ (eps <=? c_half)%b64 = true /\
  length (divisors lit_2 eps max_iters) = 5%nat /\
  (length (divisors lit_2 c_half max_iters) <= 5)%nat.
Proof.
  assert (Hv : is_binary64 lit_2 = true) by reflexivity.
  assert (Hp : is_pos_finite lit_2 = true) by reflexivity.
  assert (Hv1 : is_binary64 eps = true) by reflexivity.
  assert (Hv2 : is_binary64 c_half = true) by reflexivity.
  assert (H0 : (c_zero <=? eps)%b64 = true) by reflexivity.
  assert (H12 : (eps <=? c_half)%b64 = true) by reflexivity.
  assert (H5 : length (divisors lit_2 eps max_iters) = 5%nat)
    by (vm_compute; reflexivity).
  split; [exact Hv|]. split; [exact Hp|]. split; [exact Hv1|].
  split; [exact Hv2|]. split; [exact H0|]. split; [exact H12|].
  split; [exact H5|]. rewrite <- H5.
  exact (proj2 (larger_tolerance_stops_no_later lit_2 eps c_half max_iters
                  Hv Hp Hv1 Hv2 H0 H12)).
Defined.

(** X20. Termination for every tolerance of at least [1e-12]: the test is
    met within 60 iterations for a positive finite input [a <= 2^108], and
    within 518 iterations for every positive finite input. *)
Theorem coarser_tolerance_terminates (a eps' : binary64) :
  is_binary64 a = true -> is_pos_finite a = true ->
  is_binary64 eps' = true -> (eps <=? eps')%b64 = true ->
  ((B2Q a <= pow2 108)%Q ->
   exists n, (n < 60)%nat /\ stops a eps' n = true) /\
  (exists n, (n < 518)%nat /\ stops a eps' n = true).
Proof.
  intros Hv Hp Hve Hle.
  assert (Hmono : forall n, stops a eps n = true -> stops a eps' n = true).
  { intros n. unfold stops.
    destruct (iterate_est_ok a n Hv Hp) as (Hpx & Hvx & _).
    destruct (iterate_est_ok a (S n) Hv Hp) as (Hpx' & Hvx' & _).
    now apply stop_test_mono. }
  split.
  - intros H. apply B2Q_le_pow2 in H. exists 59%nat. split; [lia|].
    apply Hmono. apply (stops_at a Hv Hp 54); [lia|exact H].
  - exists 517%nat. split; [lia|]. apply Hmono.
    apply (stops_at a Hv Hp 512); [lia|].
    destruct a as [?|?| |[|] m e]; try discriminate Hp.
    apply Rlt_le. exact (bounded_lt_emax m e Hv).
Qed.

Lemma coarser_tolerance_terminates_witness :
  is_binary64 lit_9 = true /\ is_pos_finite lit_9 = true /\
  is_binary64 c_half = true /\ (eps <=? c_half)%b64 = true /\
  (B2Q lit_9 <= pow2 108)%Q /\
  exists n, (n < 60)%nat /\ stops lit_9 c_half n = true.
Proof.
  assert (Hv : is_binary64 lit_9 = true) by reflexivity.
  assert (Hp : is_pos_finite lit_9 = true) by reflexivity.
  assert (Hve : is_binary64 c_half = true) by reflexivity.
  assert (Hle : (eps <=? c_half)%b64 = true) by reflexivity.
  assert (Hhi : (B2Q lit_9 <= pow2 108)%Q)
    by (apply Qle_bool_iff; vm_compute; reflexivity).
  split; [exact Hv|]. split; [exact Hp|]. split; [exact Hve|].
  split; [exact Hle|]. split; [exact Hhi|].
  exact (proj1 (coarser_tolerance_terminates lit_9 c_half Hv Hp Hve Hle)
           Hhi).
Defined.

(** ** Where the driver's parameters fail *)

(** No step more than halves the estimate, up to rounding. *)
Lemma orbit_halving (a : binary64) (n : nat) :
  is_binary64 a = true -> is_pos_finite a = true ->
  ((1 - 201 / 100 * u) / 2 * B2R (iterate a n)
   <= B2R (iterate a (S n)))%R.
Proof.
  intros Hv Hp.
  destruct (orbit_step a Hv Hp _ (iterate_est_ok a n Hv Hp))
    as (H1 & H2 & H3 & _ & _).
  pose proof (orbit_s_pos a Hv Hp) as Hs.
  pose proof (step_X_pos _ _ Hs H1) as HX0.
  pose proof (step_Q_pos _ _ _ Hs H1 H2) as HQ0.
  simpl iterate. apply Rabs_le_elim in H3.
  pose proof u_val as Hu.
  set (X := B2R (iterate a n)) in *. set (Q := (B2R a / X)%R) in *.
  set (X' := B2R (heron a (iterate a n))) in *.
  rewrite Hu in *. clear - H3 HX0 HQ0. lra.
Qed.

Lemma halving_pow (n : nat) :
  (n <= 1000)%nat ->
  ((1 - 3 * INR n * u) * bpow (- Z.of_nat n) <= halving ^ n)%R.
Proof.
  pose proof u_val as Hu.
  induction n as [|n IH]; intros Hn.
  - change (((1 - 3 * 0 * u) * bpow 0 <= 1)%R). rewrite bpow_0. lra.
  - specialize (IH ltac:(lia)).
    rewrite S_INR. change (halving ^ S n)%R with (halving * halving ^ n)%R.
    replace (- Z.of_nat (S n)) with (- Z.of_nat n - 1) by lia.
    rewrite bpow_pred.
    pose proof (bpow_gt_0 (- Z.of_nat n)) as Hb.
    assert (Hh : (0 <= halving)%R) by (unfold halving; rewrite Hu; lra).
    assert (Hn1 : (0 <= INR n <= 1000)%R).
    { split; [apply pos_INR|]. rewrite INR_IZR_INZ. apply IZR_le. lia. }
    apply Rle_trans
      with (halving * ((1 - 3 * INR n * u) * bpow (- Z.of_nat n)))%R.
    + unfold halving.
      assert (H : ((1 - 3 * (INR n + 1) * u) / 2
                   <= (1 - 201 / 100 * u) / 2 * (1 - 3 * INR n * u))%R).
      { assert (Hnu : (0 <= INR n * u * u)%R).
        { apply Rmult_le_pos; [apply Rmult_le_pos|]; rewrite ?Hu; lra. }
        lra. }
      apply Rmult_le_compat_r with (r := bpow (- Z.of_nat n)) in H; lra.
    + apply Rmult_le_compat_l; assumption.
Qed.

Lemma orbit_lower (a : binary64) (n : nat) :
  is_binary64 a = true -> is_pos_finite a = true ->
  (B2R (iterate a 0) * halving ^ n <= B2R (iterate a n))%R.
Proof.
  intros Hv Hp. induction n as [|n IH]; [simpl; lra|].
  pose proof (orbit_halving a n Hv Hp) as H. fold halving in H.
  change (halving ^ S n)%R with (halving * halving ^ n)%R.
  assert (Hh : (0 <= halving)%R)
    by (unfold halving; rewrite u_val; lra).
  apply Rmult_le_compat_l with (r := halving) in IH; [|exact Hh].
  lra.
Qed.

(** The test fails while the estimate is at least 1 and four times the
    root: the step then moves it by almost half its value. *)
Lemma far_from_root_no_stop (a : binary64) (n : nat) :
  is_binary64 a = true -> is_pos_finite a = true ->
  (1 <= B2R (iterate a n))%R ->
  (4 * sqrt (B2R a) <= B2R (iterate a n))%R ->
  stops a eps n = false.
Proof.
  intros Hv Hp H1 H4.
  destruct (stops a eps n) eqn:Hs; [exfalso|reflexivity].
  pose proof (stop_necessary a n Hv Hp Hs) as Hst.
  destruct (orbit_step a Hv Hp _ (iterate_est_ok a n Hv Hp))
    as (HX & HQ & H3 & _ & _).
  pose proof (orbit_s_pos a Hv Hp) as Hs0.
  pose proof (step_Q_pos _ _ _ Hs0 HX HQ) as HQ0.
  destruct eps_bounds as (_ & [HElo HEhi] & _).
  pose proof u_val as Hu. pose proof bpow_m39 as Hb39.
  simpl iterate in Hst.
  set (s := sqrt (B2R a)) in *. set (X := B2R (iterate a n)) in *.
  set (Q := (B2R a / X)%R) in *.
  set (X' := B2R (heron a (iterate a n))) in *.
  assert (HQle : (16 * Q <= X)%R).
  { apply Rmult_le_reg_r with X; [lra|].
    replace (16 * Q * X)%R with (16 * (Q * X))%R by ring. rewrite HQ.
    assert (H : (4 * s * (4 * s) <= X * X)%R)
      by (apply Rmult_le_compat; lra).
    lra. }
  apply Rabs_le_elim in H3.
  assert (HX'0 : (0 < 1 + X')%R) by (rewrite Hu in H3; lra).
  assert (Hst' : (Rabs (X' - X) * (1 - u)
                  <= bpow (-39) * (1 + X') * ((1 + u) * (1 + u)))%R).
  { apply Rle_trans with (1 := Hst). apply Rmult_le_compat_r.
    - apply Rle_0_sqr.
    - apply Rmult_le_compat_r; lra. }
  assert (HD : (X - X' <= Rabs (X' - X))%R).
  { rewrite <- Rabs_Ropp. replace (- (X' - X))%R with (X - X')%R by ring.
    apply Rle_abs. }
  assert (HD1 : ((X - X') * (1 - u) <= Rabs (X' - X) * (1 - u))%R)
    by (apply Rmult_le_compat_r; rewrite ?Hu; lra).
  rewrite Hu, Hb39 in *.
  clear - H1 HQle HQ0 H3 Hst' HD1. lra.
Qed.

(** X21. With the driver's tolerance and cap, every finite input
    [a >= 2^210] exhausts the 100 iterations: no step passes the test, and
    the estimate returned, [x_100], is still at least 31 times the true
    root. *)
Theorem large_inputs_hit_the_cap (a : binary64) :
  is_binary64 a = true -> is_pos_finite a = true ->
  (pow2 210 <= B2Q a)%Q ->
  (forall n, (n < 100)%nat -> stops a eps n = false) /\
  sqrt_newton a eps max_iters = iterate a 100 /\
  (961 * B2Q a
   <= B2Q (sqrt_newton a eps max_iters)
      * B2Q (sqrt_newton a eps max_iters))%Q.
Proof.
  intros Hv Hp Hlo. apply pow2_le_B2Q in Hlo.
  pose proof (orbit_s_pos a Hv Hp) as Hs0.
  pose proof (orbit_s_sqr a Hv Hp) as Hss.
  pose proof u_val as Hu.
  set (s := sqrt (B2R a)) in *.
  assert (Hs105 : (bpow 105 <= s)%R).
  { unfold s. rewrite <- (sqrt_bpow 105). change (2 * 105) with 210.
    pose proof (bpow_gt_0 210). apply sqrt_le_1; lra. }
  assert (H1 : (1 <= B2R a)%R).
  { pose proof (bpow_le 0 210 ltac:(lia)) as H. rewrite bpow_0 in H. lra. }
  assert (HX0 : B2R (iterate a 0) = B2R a).
  { destruct (initial_guess_ge_sqrt a Hv Hp) as (_ & _ & _ & H).
    simpl. rewrite H. apply Rmax_left. exact H1. }
  assert (Hh : (0 <= halving <= 1)%R)
    by (unfold halving; rewrite Hu; lra).
  assert (Hlow : forall n, (n <= 100)%nat ->
            (32 * (1 - 300 * u) * s <= B2R (iterate a n))%R).
  { intros n Hn.
    apply Rle_trans with (B2R a * halving ^ 100)%R.
    - pose proof (halving_pow 100 ltac:(lia)) as Hp100.
      replace (INR 100) with 100%R in Hp100
        by (rewrite INR_IZR_INZ; reflexivity).
      change (- Z.of_nat 100) with (-100) in Hp100.
      apply Rle_trans
        with (B2R a * ((1 - 3 * 100 * u) * bpow (-100)))%R;
        [|apply Rmult_le_compat_l; [lra|exact Hp100]].
      rewrite <- Hss.
      assert (H5 : (32 <= s * bpow (-100))%R).
      { apply Rle_trans with (bpow 105 * bpow (-100))%R.
        - rewrite <- bpow_add. simpl Z.add.
          rewrite <- (IZR_pow2 5) by lia. simpl. lra.
        - apply Rmult_le_compat_r; [apply Rlt_le, bpow_gt_0|exact Hs105]. }
      replace (s * s * ((1 - 3 * 100 * u) * bpow (-100)))%R
        with ((s * bpow (-100)) * ((1 - 300 * u) * s))%R by ring.
      replace (32 * (1 - 300 * u) * s)%R
        with (32 * ((1 - 300 * u) * s))%R by ring.
      apply Rmult_le_compat_r; [|exact H5].
      apply Rmult_le_pos; rewrite ?Hu; lra.
    - apply Rle_trans with (B2R a * halving ^ n)%R.
      + apply Rmult_le_compat_l; [lra|].
        clear - Hh Hn. induction Hn as [|m Hm IH]; [lra|].
        change (halving ^ S m)%R with (halving * halving ^ m)%R.
        assert (0 <= halving ^ m)%R by (apply pow_le; lra).
        assert (halving * halving ^ m <= 1 * halving ^ m)%R
          by (apply Rmult_le_compat_r; lra).
        lra.
      + rewrite <- HX0. apply orbit_lower; assumption. }
  assert (H31 : forall n, (n <= 100)%nat ->
            (31 * s <= B2R (iterate a n))%R).
  { intros n Hn. apply Rle_trans with (2 := Hlow n Hn).
    replace (32 * (1 - 300 * u) * s)%R
      with ((32 * (1 - 300 * u)) * s)%R by ring.
    apply Rmult_le_compat_r; [lra|]. rewrite Hu. lra. }
  assert (Hno : forall n, (n < 100)%nat -> stops a eps n = false).
  { intros n Hn. pose proof (H31 n ltac:(lia)) as H.
    pose proof (bpow_le 0 105 ltac:(lia)) as Hb. rewrite bpow_0 in Hb.
    apply far_from_root_no_stop; try assumption; fold s; lra. }
  split; [exact Hno|].
  assert (Hrun : sqrt_newton a eps max_iters = iterate a 100).
  { destruct a as [?|?| |[|] m e]; try discriminate Hp.
    rewrite sqrt_newton_loop by reflexivity.
    apply (loop_no_stop _ eps 100 0). intros j Hj. apply Hno. lia. }
  split; [exact Hrun|]. rewrite Hrun.
  apply Rle_Qle. rewrite !Q2R_mult, !Q2R_B2Q.
  replace (Q2R 961) with 961%R by (unfold Q2R; simpl; lra).
  pose proof (H31 100%nat ltac:(lia)) as H.
  rewrite <- Hss.
  replace (961 * (s * s))%R with (31 * s * (31 * s))%R by ring.
  apply Rmult_le_compat; lra.
Qed.

Lemma large_inputs_hit_the_cap_witness :
  is_binary64 (b64_pow2 210) = true /\
  is_pos_finite (b64_pow2 210) = true /\
  (pow2 210 <= B2Q (b64_pow2 210))%Q /\
  sqrt_newton (b64_pow2 210) eps max_iters = iterate (b64_pow2 210) 100.
Proof.
  assert (Hv : is_binary64 (b64_pow2 210) = true) by reflexivity.
  assert (Hp : is_pos_finite (b64_pow2 210) = true) by reflexivity.
  assert (Hlo : (pow2 210 <= B2Q (b64_pow2 210))%Q)
    by (apply Qle_bool_iff; vm_compute; reflexivity).
  split; [exact Hv|]. split; [exact Hp|]. split; [exact Hlo|].
  exact (proj1 (proj2 (large_inputs_hit_the_cap (b64_pow2 210) Hv Hp Hlo))).
Defined.

(** A step whose test fails starts from an estimate of at least about
    [2^-40]: below that, the absolute part of the tolerance is met. *)
Lemma failed_step_lower (a : binary64) (n : nat) :
  is_binary64 a = true -> is_pos_finite a = true ->
  stops a eps n = false ->
  (bpow (-40) * (1 - 5 * u) <= B2R (iterate a n))%R.
Proof.
  intros Hv Hp Hs. unfold stops in Hs.
  destruct (iterate_est_ok a n Hv Hp) as (Hpx & Hvx & _).
  destruct (iterate_est_ok a (S n) Hv Hp) as (Hpx' & Hvx' & Hlow').
  destruct (stop_test_spec _ _ Hpx Hvx Hpx' Hvx') as [Hsuf _].
  destruct (orbit_step a Hv Hp _ (iterate_est_ok a n Hv Hp))
    as (HX & HQ & H3 & _ & _).
  pose proof (orbit_s_pos a Hv Hp) as Hs0.
  destruct eps_bounds as (_ & [HElo _] & _).
  pose proof u_val as Hu. pose proof bpow_m40 as Hb40.
  simpl iterate in *.
  set (s := sqrt (B2R a)) in *. set (X := B2R (iterate a n)) in *.
  set (X' := B2R (heron a (iterate a n))) in *.
  assert (HX'0 : (0 <= X')%R).
  { apply Rle_trans with (2 := Hlow'). apply Rmult_le_pos; rewrite ?Hu; lra. }
  assert (Hbig : (bpow (-40) * ((1 - u) * (1 - u)) < Rabs (X' - X))%R).
  { destruct (Rle_lt_dec (Rabs (X' - X))
                (B2R eps * (1 + X') * ((1 - u) * (1 - u)))) as [H|H].
    - apply Hsuf in H. congruence.
    - apply Rle_lt_trans with (2 := H).
      apply Rmult_le_compat_r; [apply Rle_0_sqr|].
      rewrite <- (Rmult_1_r (bpow (-40))).
      apply Rmult_le_compat; rewrite ?Hb40; lra. }
  destruct (Rle_lt_dec s X) as [Hge|Hlt].
  - pose proof (step_diff_above s X _ _ X' Hs0 HX HQ eq_refl H3 Hge) as Hd.
    rewrite Hu, Hb40 in *. clear - Hd Hbig Hs0 Hge. lra.
  - pose proof (step_diff_below s X _ _ X' Hs0 HX HQ eq_refl H3
                  (Rlt_le _ _ Hlt)) as Hd.
    rewrite Hu, Hb40 in *. clear - Hd Hbig Hs0 HX. lra.
Qed.

Lemma newton_loop_floor (a : binary64) (n i : nat) :
  is_binary64 a = true -> is_pos_finite a = true ->
  (halving * (bpow (-40) * (1 - 5 * u)) <= B2R (iterate a i))%R ->
  (bpow (-43) <= B2R (newton_loop a eps n (iterate a i)))%R.
Proof.
  intros Hv Hp. pose proof u_val as Hu. pose proof bpow_m40 as Hb40.
  assert (Hb43 : bpow (-43) = (/ 8796093022208)%R)
    by exact (bpow_neg_val 43 ltac:(lia)).
  revert i. induction n as [|n IH]; intros i HJ.
  - cbn [newton_loop]. unfold halving in HJ. rewrite Hu, Hb40 in HJ.
    rewrite Hb43. clear - HJ. lra.
  - rewrite loop_step.
    pose proof (orbit_halving a i Hv Hp) as Hh. fold halving in Hh.
    destruct (stop_test eps (iterate a i) (heron a (iterate a i))) eqn:Hs.
    + simpl iterate in Hh. unfold halving in *.
      rewrite Hu, Hb40 in *. rewrite Hb43. clear - Hh HJ. lra.
    + apply (IH (S i)).
      pose proof (failed_step_lower a i Hv Hp Hs) as Hf.
      apply Rle_trans with (2 := Hh).
      apply Rmult_le_compat_l; [unfold halving; rewrite Hu; lra|exact Hf].
Qed.

(** X22. With the driver's tolerance the kernel cannot return a small
    value: for every positive finite input, whatever the cap, the result
    is at least [2^-43].  Inputs much below [2^-86], whose root is
    smaller than that, are thus overestimated. *)
Theorem result_floor (a : binary64) (cap : Z) :
  is_binary64 a = true -> is_pos_finite a = true ->
  (pow2 (-43) <= B2Q (sqrt_newton a eps cap))%Q.
Proof.
  intros Hv Hp. apply Rle_Qle. rewrite Q2R_pow2, Q2R_B2Q.
  assert (Hrun : sqrt_newton a eps cap =
                 newton_loop a eps (Z.to_nat cap) (iterate a 0)).
  { destruct a as [?|?| |[|] m e]; try discriminate Hp.
    now rewrite sqrt_newton_loop. }
  rewrite Hrun. apply newton_loop_floor; try assumption.
  destruct (initial_guess_ge_sqrt a Hv Hp) as (_ & _ & _ & H0).
  simpl iterate. rewrite H0.
  pose proof (Rmax_r (B2R a) 1) as H1.
  unfold halving. rewrite u_val, bpow_m40.
  set (M := Rmax (B2R a) 1) in *. clear - H1. lra.
Qed.

Lemma result_floor_witness :
  is_binary64 (b64_pow2 (-1074)) = true /\
  is_pos_finite (b64_pow2 (-1074)) = true /\
  (pow2 (-43) <= B2Q (sqrt_newton (b64_pow2 (-1074)) eps max_iters))%Q.
Proof.
  assert (Hv : is_binary64 (b64_pow2 (-1074)) = true) by reflexivity.
  assert (Hp : is_pos_finite (b64_pow2 (-1074)) = true) by reflexivity.
  split; [exact Hv|]. split; [exact Hp|].
  exact (result_floor (b64_pow2 (-1074)) max_iters Hv Hp).
Defined.

(** ** No overflow inside the loop *)

(** The values computed by an iteration of the loop are finite. *)
Lemma loop_body_finite (a : binary64) (n : nat) :
  is_binary64 a = true -> is_pos_finite a = true ->
  let x := iterate a n in
  let x_next := (c_half * (x + (a / x)))%b64 in
  is_finite x = true /\
  is_finite (a / x)%b64 = true /\
  is_finite (x + (a / x))%b64 = true /\
  is_finite x_next = true /\
  is_finite (x_next - x)%b64 = true /\
  is_finite (abs_double (x_next - x)%b64) = true /\
  is_finite (c_one + abs_double x_next)%b64 = true /\
  is_finite (eps * (c_one + abs_double x_next))%b64 = true.
Proof.
  intros Hv Hp. cbv zeta.
  destruct (iterate_est_ok a n Hv Hp) as (Hpx & Hvx & _).
  destruct (iterate_est_ok a (S n) Hv Hp) as (Hpx' & Hvx' & _).
  simpl iterate in Hpx', Hvx'. unfold heron in Hpx', Hvx'.
  set (x := iterate a n) in *.
  assert (Hsum : is_finite (x + a / x)%b64 = true).
  { destruct (x + a / x)%b64 as [?|[|]| |? ? ?]; try reflexivity;
      discriminate Hpx'. }
  assert (Hfx : is_finite x = true)
    by (destruct x as [?|?| |[|] ? ?]; try discriminate Hpx; reflexivity).
  assert (Hquo : is_finite (a / x)%b64 = true).
  { destruct (a / x)%b64 as [?|sq| |? ? ?]; try reflexivity;
      destruct x as [?|?| |[|] ? ?]; try discriminate Hpx;
      discriminate Hsum. }
  set (x' := (c_half * (x + a / x))%b64) in *.
  assert (Hfx' : is_finite x' = true)
    by (destruct x' as [?|?| |[|] ? ?]; try discriminate Hpx'; reflexivity).
  assert (Hd : is_finite (abs_double (x' - x)%b64) = true).
  { destruct x as [?|?| |[|] m e]; try discriminate Hpx.
    destruct x' as [?|?| |[|] m' e']; try discriminate Hpx'.
    exact (proj1 (stop_diff_spec m m' e e' Hvx Hvx')). }
  assert (Hdf : is_finite (x' - x)%b64 = true).
  { destruct (x' - x)%b64 as [?|[|]| |? ? ?]; try reflexivity;
      discriminate Hd. }
  destruct (tol_sum_shape x' Hpx' Hvx') as (mt & et & Ht & _ & _).
  assert (Htol : is_finite (eps * (c_one + abs_double x'))%b64 = true).
  { destruct x' as [?|?| |[|] m' e']; try discriminate Hpx'.
    destruct (stop_tol_spec m' e' Hvx') as (mtl & etl & Htl & _).
    unfold stop_tol in Htl. now rewrite Htl. }
  rewrite Ht at 1. now repeat split.
Qed.

(** X23. For a positive finite input and the driver's tolerance, every
    value computed by an iteration of the loop is finite: the quotient
    [a / x], the sum [x + a / x], the new estimate, the difference
    [x_next - x], its absolute value, [1.0 + |x_next|] and the bound
    [tol].  No operation of the loop overflows or produces NaN. *)
Theorem loop_body_stays_finite (a : binary64) (n : nat) :
  is_binary64 a = true -> is_pos_finite a = true ->
  let x := iterate a n in
  let x_next := (c_half * (x + (a / x)))%b64 in
  is_finite x = true /\
  is_finite (a / x)%b64 = true /\
  is_finite (x + (a / x))%b64 = true /\
  is_finite x_next = true /\
  is_finite (x_next - x)%b64 = true /\
  is_finite (abs_double (x_next - x)%b64) = true /\
  is_finite (c_one + abs_double x_next)%b64 = true /\
  is_finite (eps * (c_one + abs_double x_next))%b64 = true.
Proof. exact (loop_body_finite a n). Qed.

Lemma loop_body_stays_finite_witness :
  is_binary64 lit_1e12 = true /\ is_pos_finite lit_1e12 = true /\
  is_finite (lit_1e12 / iterate lit_1e12 3)%b64 = true.
Proof.
  assert (Hv : is_binary64 lit_1e12 = true) by reflexivity.
  assert (Hp : is_pos_finite lit_1e12 = true) by reflexivity.
  split; [exact Hv|]. split; [exact Hp|].
  exact (proj1 (proj2 (loop_body_stays_finite lit_1e12 3 Hv Hp))).
Defined.

(** ** Exceptions and calls *)



Lemma finite_ordered (x y : binary64) :
  is_finite x = true -> is_finite y = true -> unordered x y = false.
Proof. destruct x, y; easy. Qed.

Lemma abs_double_events_quiet (x : binary64) :
  is_finite x = true -> flat_map signals (abs_double_events x) = [].
Proof.
  intros Hx. unfold abs_double_events.
  destruct x as [?|?| |[|] m e]; try discriminate Hx; reflexivity.
Qed.

Lemma loop_events_quiet (a : binary64) (n i : nat) :
  is_binary64 a = true -> is_pos_finite a = true ->
  flat_map signals (loop_events a eps n (iterate a i)) = [].
Proof.
  intros Hv Hp. revert i. induction n as [|n IH]; intros i; [reflexivity|].
  pose proof (loop_body_finite a i Hv Hp) as Hfin. cbv zeta in Hfin.
  destruct Hfin as (Hx & Hq & Hs & Hx' & Hd & Hdiff & Ht & Htol).
  destruct (iterate_est_ok a i Hv Hp) as (Hpx & _ & _).
  cbn [loop_events]. cbv zeta.
  change (c_half * (iterate a i + a / iterate a i))%b64
    with (iterate a (S i)) in *.
  set (x := iterate a i) in *. set (x' := iterate a (S i)) in *.
  rewrite !flat_map_app.
  rewrite (abs_double_events_quiet _ Hd), (abs_double_events_quiet _ Hx').
  assert (H1 : flat_map signals
                 [Op_div a x; Op_add x (a / x)%b64;
                  Op_mul c_half (x + a / x)%b64;
                  Op_sub x' x; Call Abs_double] = []).
  { destruct a as [?|?| |[|] ma ea]; try discriminate Hp.
    destruct x as [?|?| |[|] mx ex]; try discriminate Hpx.
    cbn [flat_map signals app].
    destruct (x' - _)%b64, x'; try reflexivity;
      destruct (_ + _)%b64; reflexivity. }
  assert (H2 : flat_map signals
                 [Op_add c_one (abs_double x');
                  Op_mul eps (c_one + abs_double x')%b64;
                  Op_le (abs_double (x' - x)%b64)
                        (eps * (c_one + abs_double x'))%b64] = []).
  { cbn [flat_map signals app]. rewrite (finite_ordered _ _ Hdiff Htol).
    unfold eps, lit_1em12, c_one.
    destruct (abs_double x'); reflexivity. }
  rewrite H1, H2. cbn [flat_map app].
  destruct (_ <=? _)%b64; [reflexivity|]. apply (IH (S i)).
Qed.

(** X25. On a positive finite input, with the driver's tolerance and any
    cap, no operation of the run signals the invalid operation or the
    division by zero: no comparison meets a NaN, no indeterminate form is
    evaluated and no divisor is zero. *)
Theorem positive_run_signals_nothing (a : binary64) (cap : Z) :
  is_binary64 a = true -> is_pos_finite a = true ->
  raised a eps cap = [].
Proof.
  intros Hv Hp. unfold raised, sqrt_newton_events.
  pose proof (loop_events_quiet a (Z.to_nat cap) 0 Hv Hp) as Hloop.
  simpl iterate in Hloop. unfold initial_guess in Hloop.
  destruct a as [?|?| |[|] m e]; try discriminate Hp.
  change (S754_finite false m e <? c_zero)%b64 with false.
  change (S754_finite false m e =? c_zero)%b64 with false.
  cbn [flat_map]. rewrite Hloop. reflexivity.
Qed.

Lemma positive_run_signals_nothing_witness :
  is_binary64 lit_2 = true /\ is_pos_finite lit_2 = true /\
  raised lit_2 eps max_iters = [].
Proof.
  assert (Hv : is_binary64 lit_2 = true) by reflexivity.
  assert (Hp : is_pos_finite lit_2 = true) by reflexivity.
  split; [exact Hv|]. split; [exact Hp|].
  exact (positive_run_signals_nothing lit_2 max_iters Hv Hp).
Defined.
